(** * A shallow embedding of [advanced-vector/vector.h]

    [RawMemory<T>] owns a block of raw storage; [Vector<T>] keeps a
    [RawMemory<T>] together with the number of constructed elements.

    The embedding keeps three things explicit that the C++ text leaves to
    the language:
    - the free store: a list of blocks, a block being a row of cells that
      are either raw ([None]) or hold a constructed object ([Some v]);
      a released block stays in the list, flagged, with whatever its cells
      held when it was released;
    - the special member functions of the element type [T]: arbitrary
      functions on an environment [W] that may report a thrown exception;
    - the outcome of a call: normal return, exception in flight, failed
      [assert], or undefined behaviour. *)

From Stdlib Require Import NArith Lia.
From stdpp Require Import base option list numbers gmap.

Set Default Proof Using "Type".

(** ** [size_t] *)

Definition SIZE_BITS : N := 64.
Definition SIZE_MOD : N := 2 ^ SIZE_BITS.
Definition PTRDIFF_MAX : N := 2 ^ 63 - 1.

(** Unsigned arithmetic on [size_t] wraps around. *)
Definition wrap (n : N) : N := (n mod SIZE_MOD)%N.
Definition size_mul (a b : N) : N := wrap (a * b).
Definition size_add (a b : N) : N := wrap (a + b).
Definition size_sub (a b : N) : N := wrap (a + SIZE_MOD - wrap b).

(** ** Pointers: null, or a block of the free store and a slot offset *)

Inductive pointer : Type :=
| Null
| Addr (b : nat) (off : N).

#[global] Instance pointer_eq_dec : EqDecision pointer.
Proof. solve_decision. Defined.

Definition ptr_add (p : pointer) (k : N) : pointer :=
  match p with
  | Null => Null
  | Addr b o => Addr b (o + k)
  end.

(** [p - k]; a pointer before the start of its block is not a pointer to
    anything. *)
Definition ptr_sub (p : pointer) (k : N) : pointer :=
  match p with
  | Null => Null
  | Addr b o => if (k <=? o)%N then Addr b (o - k) else Null
  end.

(** [std::distance(first, last)] for two pointers into one array. *)
Definition ptr_distance (first last : pointer) : option N :=
  match first, last with
  | Null, Null => Some 0%N
  | Addr b o, Addr b' o' =>
      if decide (b = b') then
        if (o <=? o')%N then Some (o' - o)%N else None
      else None
  | _, _ => None
  end.

(** ** The element type

    What [Vector<T>] needs from [T].  Every special member function acts on
    an environment [W] (instance counters, fault injection, ...).
    - a constructor returns the new object, or [None] when it throws;
    - the move constructor also returns the state it leaves its source in;
    - an assignment returns whether it completed and the state of the
      assigned-to object (and of the source, for the move assignment);
    - the destructor cannot throw;
    - the two traits [TransferDataSafely] asks for are part of the type. *)

Class Element (T W : Type) : Type := {
  sizeof_T : N;
  sizeof_T_pos : (0 < sizeof_T)%N;
  sizeof_T_max : (sizeof_T ≤ PTRDIFF_MAX)%N;
  T_default : W → W * option T;
  T_copy : T → W → W * option T;
  T_move : T → W → W * option T * T;
  T_copy_assign : T → T → W → W * bool * T;
  T_move_assign : T → T → W → W * bool * T * T;
  T_dtor : T → W → W;
  is_nothrow_move_constructible : bool;
  is_copy_constructible : bool;
  (* a move constructor declared [noexcept] does not throw *)
  T_move_noexcept :
    is_nothrow_move_constructible = true → ∀ v w, (T_move v w).1.2 ≠ None
}.

Section AdvancedVector.
Context {T W : Type} `{!Element T W}.

(** ** Program state *)

Record Block : Type := mkBlock {
  cells : list (option T);
  released : bool
}.

Record RawMemory : Type := mkRawMemory {
  buffer_ : pointer;
  capacity_ : N
}.

Record Vector : Type := mkVector {
  data_ : RawMemory;
  size_ : N
}.

(** [objs] maps the address of a [Vector] object to its members; [avail]
    is the number of bytes [operator new] can still hand out. *)
Record State : Type := mkState {
  world : W;
  heap : list Block;
  avail : N;
  objs : gmap nat Vector
}.

Definition set_world (w : W) (s : State) : State :=
  mkState w (heap s) (avail s) (objs s).
Definition set_heap (h : list Block) (s : State) : State :=
  mkState (world s) h (avail s) (objs s).
Definition set_avail (a : N) (s : State) : State :=
  mkState (world s) (heap s) a (objs s).
Definition set_objs (o : gmap nat Vector) (s : State) : State :=
  mkState (world s) (heap s) (avail s) o.

(** ** Outcomes *)

Inductive Res (A : Type) : Type :=
| Ok (a : A) (s : State)     (* normal return *)
| Throw (s : State)          (* an exception propagates *)
| Abort                      (* a failed [assert] *)
| Undef.                     (* undefined behaviour *)
Arguments Ok {A} a s.
Arguments Throw {A} s.
Arguments Abort {A}.
Arguments Undef {A}.

Definition M (A : Type) : Type := State → Res A.

#[global] Instance M_ret : MRet M := λ A a s, Ok a s.
#[global] Instance M_bind : MBind M := λ A B f m s,
  match m s with
  | Ok a s' => f a s'
  | Throw s' => Throw s'
  | Abort => Abort
  | Undef => Undef
  end.

Definition throw {A} : M A := λ s, Throw s.
Definition abort {A} : M A := λ _, Abort.
Definition undef {A} : M A := λ _, Undef.

(** [assert(b)] *)
Definition assert (b : bool) : M unit := if b then mret tt else abort.

(** [try { m } catch (...) { cleanup; throw; }] *)
Definition on_throw {A} (m : M A) (cleanup : M unit) : M A := λ s,
  match m s with
  | Throw s' =>
      match cleanup s' with
      | Ok _ s'' => Throw s''
      | Throw s'' => Throw s''
      | Abort => Abort
      | Undef => Undef
      end
  | r => r
  end.

Definition get_world : M W := λ s, Ok (world s) s.
Definition put_world (w : W) : M unit := λ s, Ok tt (set_world w s).

(** ** The free store *)

Definition live_block (b : nat) (s : State) : option Block :=
  B ← heap s !! b; if released B then None else Some B.

Definition cell_at (p : pointer) (s : State) : option (option T) :=
  match p with
  | Null => None
  | Addr b o => B ← live_block b s; cells B !! N.to_nat o
  end.

(** Reading the object at [p]: it has to be alive. *)
Definition load (p : pointer) : M T := λ s,
  match cell_at p s with
  | Some (Some v) => Ok v s
  | _ => Undef
  end.

(** Overwriting the cell at [p], which has to lie inside a live block. *)
Definition set_cell (p : pointer) (c : option T) : M unit := λ s,
  match p with
  | Null => Undef
  | Addr b o =>
      match live_block b s with
      | Some B =>
          if decide (N.to_nat o < length (cells B)) then
            Ok tt (set_heap (<[b := mkBlock (<[N.to_nat o := c]> (cells B)) false]> (heap s)) s)
          else Undef
      | None => Undef
      end
  end.

(** Writing to an object that is alive. *)
Definition store (p : pointer) (v : T) : M unit :=
  _ ← load p; set_cell p (Some v).

(** [operator new(bytes)]: [std::bad_alloc] when the request cannot be
    served; no object is ever larger than [PTRDIFF_MAX] bytes.  The block
    has room for [bytes / sizeof(T)] objects. *)
Definition operator_new (bytes : N) : M pointer := λ s,
  if ((bytes <=? avail s) && (bytes <=? PTRDIFF_MAX))%N then
    Ok (Addr (length (heap s)) 0)
       (set_avail (avail s - bytes)
          (set_heap (heap s ++ [mkBlock (replicate (N.to_nat (bytes / sizeof_T)) None) false]) s))
  else Throw s.

(** [operator delete(p)]: nothing for a null pointer; releasing a block
    twice, or through a pointer that is not its start, is undefined. *)
Definition operator_delete (p : pointer) : M unit := λ s,
  match p with
  | Null => Ok tt s
  | Addr b o =>
      match live_block b s with
      | Some B =>
          if (o =? 0)%N then
            Ok tt (set_avail (avail s + N.of_nat (length (cells B)) * sizeof_T)
                     (set_heap (<[b := mkBlock (cells B) true]> (heap s)) s))
          else Undef
      | None => Undef
      end
  end.

(** ** Construction and destruction of one element *)

(** Running a constructor of [T]. *)
Definition run_ctor (ctor : W → W * option T) : M T := λ s,
  match ctor (world s) with
  | (w, Some x) => Ok x (set_world w s)
  | (w, None) => Throw (set_world w s)
  end.

(** [new (p) T(args...)] *)
Definition construct_at (p : pointer) (ctor : M T) : M unit :=
  x ← ctor; set_cell p (Some x).

(** [new (dst) T(src[0])], the copy constructor *)
Definition construct_copy (dst src : pointer) : M unit :=
  v ← load src; construct_at dst (run_ctor (T_copy v)).

(** [new (dst) T(std::move(src[0]))] *)
Definition construct_move (dst src : pointer) : M unit :=
  v ← load src;
  w ← get_world;
  let '(w', r, v') := T_move v w in
  put_world w';;
  set_cell src (Some v');;
  match r with
  | Some x => set_cell dst (Some x)
  | None => throw
  end.

(** [std::destroy_at(p)] *)
Definition destroy_at (p : pointer) : M unit :=
  v ← load p;
  w ← get_world;
  put_world (T_dtor v w);;
  set_cell p None.

(** [dst[0] = src[0]] *)
Definition assign_copy (dst src : pointer) : M unit :=
  d ← load dst;
  v ← load src;
  w ← get_world;
  let '(w', ok, d') := T_copy_assign d v w in
  put_world w';;
  set_cell dst (Some d');;
  if ok : bool then mret tt else throw.

(** [dst[0] = std::move(src[0])] *)
Definition assign_move (dst src : pointer) : M unit :=
  d ← load dst;
  v ← load src;
  w ← get_world;
  let '(w', ok, d', v') := T_move_assign d v w in
  put_world w';;
  set_cell src (Some v');;
  set_cell dst (Some d');;
  if ok : bool then mret tt else throw.

(** [dst[0] = std::move(t)] for the temporary [t] of the full expression
    [dst[0] = T(args...)]: [t] is destroyed at the end of the expression,
    also when the assignment throws. *)
Definition assign_from_temporary (dst : pointer) (t : T) : M unit :=
  d ← load dst;
  w ← get_world;
  let '(w', ok, d', t') := T_move_assign d t w in
  put_world (T_dtor t' w');;
  set_cell dst (Some d');;
  if ok : bool then mret tt else throw.

(** ** The algorithms of [<memory>] and [<algorithm>] the file calls

    Each loop runs over [first + i], [d_first + i] for [i] from [from] on.
    The [uninitialized_*] family destroys what it has constructed so far
    and rethrows when a constructor throws. *)

Fixpoint destroy_loop (p : pointer) (i : N) (n : nat) : M unit :=
  match n with
  | O => mret tt
  | S n' => destroy_at (ptr_add p i);; destroy_loop p (i + 1) n'
  end.

(** [std::destroy_n(p, n)] *)
Definition destroy_n (p : pointer) (n : N) : M unit :=
  destroy_loop p 0 (N.to_nat n).

Fixpoint uninitialized_loop (step : N → M unit) (d_first : pointer) (i : N) (n : nat)
  : M unit :=
  match n with
  | O => mret tt
  | S n' =>
      on_throw (step i) (destroy_n d_first i);;
      uninitialized_loop step d_first (i + 1) n'
  end.

(** [std::uninitialized_copy_n(first, n, d_first)] *)
Definition uninitialized_copy_n (first : pointer) (n : N) (d_first : pointer) : M unit :=
  uninitialized_loop (λ i, construct_copy (ptr_add d_first i) (ptr_add first i))
    d_first 0 (N.to_nat n).

(** [std::uninitialized_move_n(first, n, d_first)] *)
Definition uninitialized_move_n (first : pointer) (n : N) (d_first : pointer) : M unit :=
  uninitialized_loop (λ i, construct_move (ptr_add d_first i) (ptr_add first i))
    d_first 0 (N.to_nat n).

(** [std::uninitialized_value_construct_n(p, n)] *)
Definition uninitialized_value_construct_n (p : pointer) (n : N) : M unit :=
  uninitialized_loop (λ i, construct_at (ptr_add p i) (run_ctor T_default)) p 0 (N.to_nat n).

Fixpoint forward_loop (step : N → M unit) (i : N) (n : nat) : M unit :=
  match n with
  | O => mret tt
  | S n' => step i;; forward_loop step (i + 1) n'
  end.

(** [std::copy_n(first, n, d_first)] *)
Definition copy_n (first : pointer) (n : N) (d_first : pointer) : M unit :=
  forward_loop (λ i, assign_copy (ptr_add d_first i) (ptr_add first i)) 0 (N.to_nat n).

(** [std::move(first, last, d_first)] *)
Definition std_move (first last d_first : pointer) : M unit :=
  match ptr_distance first last with
  | Some n =>
      forward_loop (λ i, assign_move (ptr_add d_first i) (ptr_add first i)) 0 (N.to_nat n)
  | None => undef
  end.

(** [std::move_backward(first, last, d_last)]:
    walking [last] and [d_last] down together, [last - first] times. *)
Fixpoint move_backward_loop (last d_last : pointer) (n : nat) : M unit :=
  match n with
  | O => mret tt
  | S n' =>
      assign_move (ptr_sub d_last 1) (ptr_sub last 1);;
      move_backward_loop (ptr_sub last 1) (ptr_sub d_last 1) n'
  end.

Definition move_backward (first last d_last : pointer) : M unit :=
  match ptr_distance first last with
  | Some n => move_backward_loop last d_last (N.to_nat n)
  | None => undef
  end.

(** ** [RawMemory<T>] *)

Definition Allocate (n : N) : M pointer :=
  if (n =? 0)%N then mret Null else operator_new (size_mul n sizeof_T).

Definition Deallocate (buf : pointer) : M unit := operator_delete buf.

(** [RawMemory() = default] *)
Definition RawMemory_default : RawMemory := mkRawMemory Null 0.

(** [explicit RawMemory(size_t capacity)] *)
Definition RawMemory_sized (capacity : N) : M RawMemory :=
  buf ← Allocate capacity; mret (mkRawMemory buf capacity).

(** [RawMemory(RawMemory&& other)]: the new object and what is left of
    [other]. *)
Definition RawMemory_move_ctor (other : RawMemory) : RawMemory * RawMemory :=
  (mkRawMemory (buffer_ other) (capacity_ other), mkRawMemory Null 0).

(** [operator=(RawMemory&& rhs)] on two distinct objects: the members of
    [this] are overwritten, nothing is deallocated. *)
Definition RawMemory_move_assign (this rhs : RawMemory) : RawMemory * RawMemory :=
  (mkRawMemory (buffer_ rhs) (capacity_ rhs), mkRawMemory Null 0).

(** [~RawMemory()] *)
Definition RawMemory_dtor (m : RawMemory) : M unit := Deallocate (buffer_ m).

(** [operator+(size_t offset)] *)
Definition RawMemory_plus (m : RawMemory) (offset : N) : M pointer :=
  assert (offset <=? capacity_ m)%N;; mret (ptr_add (buffer_ m) offset).

(** [operator[](size_t index)], as the address of the element *)
Definition RawMemory_index (m : RawMemory) (index : N) : M pointer :=
  assert (index <? capacity_ m)%N;; mret (ptr_add (buffer_ m) index).

Definition RawMemory_Swap (this other : RawMemory) : RawMemory * RawMemory :=
  (other, this).

Definition GetAddress (m : RawMemory) : pointer := buffer_ m.
Definition RawMemory_Capacity (m : RawMemory) : N := capacity_ m.

(** A block scope with the local [RawMemory<T>] object [local].  [body]
    returns the members the local ends up with; its destructor runs when
    the scope is left.  Every statement that can throw comes before the one
    statement that modifies the local, so on that path the destructor sees
    the members the local was constructed with. *)
Definition scoped_RawMemory (local : RawMemory) (body : M RawMemory) : M unit :=
  on_throw body (RawMemory_dtor local) ≫= RawMemory_dtor.

(** ** [Vector<T>] *)

Definition Size (v : Vector) : N := size_ v.
Definition Capacity (v : Vector) : N := RawMemory_Capacity (data_ v).
Definition Vector_begin (v : Vector) : pointer := GetAddress (data_ v).
Definition Vector_end (v : Vector) : pointer := ptr_add (GetAddress (data_ v)) (Size v).

(** Member access through [this]. *)
Definition get_vec (this : nat) : M Vector := λ s,
  match objs s !! this with
  | Some v => Ok v s
  | None => Undef
  end.
Definition set_vec (this : nat) (v : Vector) : M unit := λ s,
  Ok tt (set_objs (<[this := v]> (objs s)) s).
Definition set_data (this : nat) (d : RawMemory) : M unit :=
  v ← get_vec this; set_vec this (mkVector d (size_ v)).
Definition set_size (this : nat) (n : N) : M unit :=
  v ← get_vec this; set_vec this (mkVector (data_ v) n).

Definition TransferDataSafely (old_begin : pointer) (count : N) (new_begin : pointer)
  : M unit :=
  if is_nothrow_move_constructible || negb is_copy_constructible then
    uninitialized_move_n old_begin count new_begin
  else
    uninitialized_copy_n old_begin count new_begin.

(** [Vector() = default] *)
Definition Vector_default_ctor (this : nat) : M unit :=
  set_vec this (mkVector RawMemory_default 0).

(** [explicit Vector(size_t size)].  When the body throws, the member
    [data_], already constructed, is destroyed. *)
Definition Vector_sized_ctor (this : nat) (size : N) : M unit :=
  data ← RawMemory_sized size;
  on_throw (uninitialized_value_construct_n (GetAddress data) size) (RawMemory_dtor data);;
  set_vec this (mkVector data size).

(** [Vector(const Vector& other)], as the members of the new object *)
Definition copy_of (other : Vector) : M Vector :=
  data ← RawMemory_sized (size_ other);
  on_throw (uninitialized_copy_n (GetAddress (data_ other)) (size_ other) (GetAddress data))
           (RawMemory_dtor data);;
  mret (mkVector data (size_ other)).

Definition Vector_copy_ctor (this other : nat) : M unit :=
  o ← get_vec other; v ← copy_of o; set_vec this v.

(** [Vector(Vector&& other)] *)
Definition Vector_move_ctor (this other : nat) : M unit :=
  o ← get_vec other;
  let '(d, od) := RawMemory_move_ctor (data_ o) in
  set_vec other (mkVector od 0);;
  set_vec this (mkVector d (size_ o)).

(** [~Vector()] on the members of an object: the body, then the member
    [data_]. *)
Definition destroy_members (v : Vector) : M unit :=
  destroy_n (GetAddress (data_ v)) (size_ v);;
  RawMemory_dtor (data_ v).

Definition end_of_life (this : nat) : M unit := λ s,
  Ok tt (set_objs (delete this (objs s)) s).

Definition Vector_dtor (this : nat) : M unit :=
  v ← get_vec this;
  destroy_members v;;
  end_of_life this.

(** [Swap(Vector& other)] *)
Definition Swap (this other : nat) : M unit :=
  t ← get_vec this;
  o ← get_vec other;
  let '(td, od) := RawMemory_Swap (data_ t) (data_ o) in
  set_vec this (mkVector td (size_ o));;
  set_vec other (mkVector od (size_ t)).

(** [operator=(const Vector& rhs)] *)
Definition Vector_copy_assign (this rhs : nat) : M unit :=
  if decide (this = rhs) then mret tt
  else
    r ← get_vec rhs;
    t ← get_vec this;
    if (RawMemory_Capacity (data_ t) <? size_ r)%N then
      (* Vector rhs_copy(rhs); Swap(rhs_copy); and rhs_copy goes out of scope *)
      rhs_copy ← copy_of r;
      set_vec this rhs_copy;;
      destroy_members t
    else
      (if (size_ r <? size_ t)%N then
         copy_n (GetAddress (data_ r)) (size_ r) (GetAddress (data_ t));;
         destroy_n (ptr_add (GetAddress (data_ t)) (size_ r)) (size_sub (size_ t) (size_ r))
       else
         copy_n (GetAddress (data_ r)) (size_ t) (GetAddress (data_ t));;
         uninitialized_copy_n (ptr_add (GetAddress (data_ r)) (size_ t))
           (size_sub (size_ r) (size_ t)) (ptr_add (GetAddress (data_ t)) (size_ t)));;
      set_size this (size_ r).

(** [operator=(Vector&& rhs)]: three [std::exchange]s, one member at a
    time, so that [this] and [rhs] may be one object. *)
Definition Vector_move_assign (this rhs : nat) : M unit :=
  r ← get_vec rhs;
  set_vec rhs (mkVector (mkRawMemory Null (capacity_ (data_ r))) (size_ r));;
  t ← get_vec this;
  set_vec this (mkVector (mkRawMemory (buffer_ (data_ r)) (capacity_ (data_ t))) (size_ t));;
  r ← get_vec rhs;
  set_vec rhs (mkVector (mkRawMemory (buffer_ (data_ r)) 0) (size_ r));;
  t ← get_vec this;
  set_vec this (mkVector (mkRawMemory (buffer_ (data_ t)) (capacity_ (data_ r))) (size_ t));;
  r ← get_vec rhs;
  set_vec rhs (mkVector (data_ r) 0);;
  set_size this (size_ r).

(** [operator[](size_t index)], as the address of the element *)
Definition Vector_index (this : nat) (index : N) : M pointer :=
  v ← get_vec this;
  assert (index <? size_ v)%N;;
  RawMemory_index (data_ v) index.

Definition Reserve (this : nat) (new_capacity : N) : M unit :=
  v ← get_vec this;
  if (new_capacity <=? RawMemory_Capacity (data_ v))%N then mret tt
  else
    new_data ← RawMemory_sized new_capacity;
    scoped_RawMemory new_data
      (TransferDataSafely (GetAddress (data_ v)) (size_ v) (GetAddress new_data);;
       destroy_n (GetAddress (data_ v)) (size_ v);;
       let '(d, nd) := RawMemory_Swap (data_ v) new_data in
       set_data this d;; mret nd).

Definition Resize (this : nat) (new_size : N) : M unit :=
  v ← get_vec this;
  if (new_size <? size_ v)%N then
    destroy_n (ptr_add (GetAddress (data_ v)) new_size) (size_sub (size_ v) new_size);;
    set_size this new_size
  else
    Reserve this new_size;;
    v ← get_vec this;
    uninitialized_value_construct_n (ptr_add (GetAddress (data_ v)) (size_ v))
      (size_sub new_size (size_ v));;
    set_size this new_size.

(** The capacity every growing insertion asks for:
    [size_ == 0 ? 1 : size_ * 2] *)
Definition grown_capacity (size : N) : N :=
  if (size =? 0)%N then 1%N else size_mul size 2.

(** [++size_] *)
Definition increment_size (this : nat) : M unit :=
  v ← get_vec this; set_vec this (mkVector (data_ v) (size_add (size_ v) 1)).

(** [PushBack(const T& value)] *)
Definition PushBack (this : nat) (value : T) : M unit :=
  v ← get_vec this;
  (if (size_ v =? Capacity v)%N then
     new_data ← RawMemory_sized (grown_capacity (size_ v));
     scoped_RawMemory new_data
       (p ← RawMemory_plus new_data (size_ v);
        construct_at p (run_ctor (T_copy value));;
        TransferDataSafely (GetAddress (data_ v)) (size_ v) (GetAddress new_data);;
        destroy_n (GetAddress (data_ v)) (size_ v);;
        let '(d, nd) := RawMemory_Swap (data_ v) new_data in
        set_data this d;; mret nd)
   else
     p ← RawMemory_plus (data_ v) (size_ v);
     construct_at p (run_ctor (T_copy value)));;
  increment_size this.

(** [T(std::move(value))] for an object [value] outside the container,
    whose moved-from state is of no concern here *)
Definition move_value (value : T) : W → W * option T :=
  λ w, (T_move value w).1.

(** [PushBack(T&& value)] *)
Definition PushBack_rvalue (this : nat) (value : T) : M unit :=
  v ← get_vec this;
  (if (size_ v =? Capacity v)%N then
     new_data ← RawMemory_sized (grown_capacity (size_ v));
     scoped_RawMemory new_data
       (p ← RawMemory_plus new_data (size_ v);
        construct_at p (run_ctor (move_value value));;
        TransferDataSafely (GetAddress (data_ v)) (size_ v) (GetAddress new_data);;
        destroy_n (GetAddress (data_ v)) (size_ v);;
        let '(d, nd) := RawMemory_move_assign (data_ v) new_data in
        set_data this d;; mret nd)
   else
     p ← RawMemory_plus (data_ v) (size_ v);
     construct_at p (run_ctor (move_value value)));;
  increment_size this.

(** [EmplaceBack(Args&&... args)]; [ctor] is [T(std::forward<Args>(args)...)].
    Returns the address of the new element. *)
Definition EmplaceBack (this : nat) (ctor : W → W * option T) : M pointer :=
  v ← get_vec this;
  emplaced_value ←
    (if (size_ v =? Capacity v)%N then
       new_data ← RawMemory_sized (grown_capacity (size_ v));
       p ← RawMemory_plus new_data (size_ v);
       scoped_RawMemory new_data
         (construct_at p (run_ctor ctor);;
          TransferDataSafely (GetAddress (data_ v)) (size_ v) (GetAddress new_data);;
          destroy_n (GetAddress (data_ v)) (size_ v);;
          let '(d, nd) := RawMemory_move_assign (data_ v) new_data in
          set_data this d;; mret nd);;
       mret p
     else
       p ← RawMemory_plus (data_ v) (size_ v);
       construct_at p (run_ctor ctor);;
       mret p);
  increment_size this;;
  mret emplaced_value.

Definition PopBack (this : nat) : M unit :=
  v ← get_vec this;
  destroy_at (ptr_add (GetAddress (data_ v)) (size_sub (size_ v) 1));;
  set_vec this (mkVector (data_ v) (size_sub (size_ v) 1)).

(** [Emplace(const_iterator pos, Args&&... args)] *)
Definition Emplace (this : nat) (pos : pointer) (ctor : W → W * option T) : M pointer :=
  v ← get_vec this;
  match ptr_distance (Vector_begin v) pos with
  | None => undef
  | Some offset =>
      if decide (pos = Vector_end v) then
        EmplaceBack this ctor;;
        v' ← get_vec this;
        mret (ptr_add (Vector_begin v') offset)
      else
        (if (size_ v =? Capacity v)%N then
           new_data ← RawMemory_sized (grown_capacity (size_ v));
           scoped_RawMemory new_data
             (p ← RawMemory_plus new_data offset;
              construct_at p (run_ctor ctor);;
              on_throw
                (TransferDataSafely (Vector_begin v) offset (GetAddress new_data))
                (destroy_at (ptr_add (GetAddress new_data) offset));;
              on_throw
                (TransferDataSafely (ptr_add (Vector_begin v) offset)
                   (size_sub (size_ v) offset)
                   (ptr_add (GetAddress new_data) (offset + 1)))
                (destroy_n (GetAddress new_data) (offset + 1));;
              destroy_n (GetAddress (data_ v)) (size_ v);;
              let '(d, nd) := RawMemory_move_assign (data_ v) new_data in
              set_data this d;; mret nd)
         else
           construct_move (Vector_end v) (ptr_sub (Vector_end v) 1);;
           move_backward (ptr_add (Vector_begin v) offset) (ptr_sub (Vector_end v) 1)
             (Vector_end v);;
           t ← run_ctor ctor;
           p ← RawMemory_index (data_ v) offset;
           assign_from_temporary p t);;
        increment_size this;;
        v' ← get_vec this;
        mret (ptr_add (Vector_begin v') offset)
  end.

(** [Erase(const_iterator pos)] *)
Definition Erase (this : nat) (pos : pointer) : M pointer :=
  v ← get_vec this;
  match ptr_distance (Vector_begin v) pos with
  | None => undef
  | Some offset =>
      std_move (ptr_add (ptr_add (Vector_begin v) offset) 1) (Vector_end v)
        (ptr_add (Vector_begin v) offset);;
      destroy_at (ptr_sub (Vector_end v) 1);;
      set_vec this (mkVector (data_ v) (size_sub (size_ v) 1));;
      mret pos
  end.

(** ** Arguments that are references

    [Insert] takes its argument by reference and hands it on to [Emplace],
    which forwards it: the new element is constructed from the object the
    reference is bound to as that object is when the constructor runs,
    which in the branch that works in place is after the elements have
    been shifted.  The object is outside the free store, and then given by
    its value, or it is the object at an address, an element of a vector
    for instance. *)
Inductive reference : Type :=
| Outside (value : T)
| Inside (p : pointer).

(** [T(value)] for [const T& value] *)
Definition copy_from (value : reference) : M T :=
  match value with
  | Outside x => run_ctor (T_copy x)
  | Inside p => x ← load p; run_ctor (T_copy x)
  end.

(** [T(std::move(value))] for [T&& value]: an object of the free store is
    left in its moved-from state. *)
Definition move_from (value : reference) : M T :=
  match value with
  | Outside x => run_ctor (move_value x)
  | Inside p =>
      x ← load p;
      w ← get_world;
      let '(w', r, x') := T_move x w in
      put_world w';;
      set_cell p (Some x');;
      match r with
      | Some y => mret y
      | None => throw
      end
  end.

(** [EmplaceBack] and [Emplace] once more, for arguments that refer to
    objects of the program: [ctor], the call [T(std::forward<Args>(args)...)],
    may read and write the free store.  With [run_ctor ctor] for [ctor]
    these are [EmplaceBack] and [Emplace] above, read for read. *)
Definition EmplaceBack_args (this : nat) (ctor : M T) : M pointer :=
  v ← get_vec this;
  emplaced_value ←
    (if (size_ v =? Capacity v)%N then
       new_data ← RawMemory_sized (grown_capacity (size_ v));
       p ← RawMemory_plus new_data (size_ v);
       scoped_RawMemory new_data
         (construct_at p ctor;;
          TransferDataSafely (GetAddress (data_ v)) (size_ v) (GetAddress new_data);;
          destroy_n (GetAddress (data_ v)) (size_ v);;
          let '(d, nd) := RawMemory_move_assign (data_ v) new_data in
          set_data this d;; mret nd);;
       mret p
     else
       p ← RawMemory_plus (data_ v) (size_ v);
       construct_at p ctor;;
       mret p);
  increment_size this;;
  mret emplaced_value.

Definition Emplace_args (this : nat) (pos : pointer) (ctor : M T) : M pointer :=
  v ← get_vec this;
  match ptr_distance (Vector_begin v) pos with
  | None => undef
  | Some offset =>
      if decide (pos = Vector_end v) then
        EmplaceBack_args this ctor;;
        v' ← get_vec this;
        mret (ptr_add (Vector_begin v') offset)
      else
        (if (size_ v =? Capacity v)%N then
           new_data ← RawMemory_sized (grown_capacity (size_ v));
           scoped_RawMemory new_data
             (p ← RawMemory_plus new_data offset;
              construct_at p ctor;;
              on_throw
                (TransferDataSafely (Vector_begin v) offset (GetAddress new_data))
                (destroy_at (ptr_add (GetAddress new_data) offset));;
              on_throw
                (TransferDataSafely (ptr_add (Vector_begin v) offset)
                   (size_sub (size_ v) offset)
                   (ptr_add (GetAddress new_data) (offset + 1)))
                (destroy_n (GetAddress new_data) (offset + 1));;
              destroy_n (GetAddress (data_ v)) (size_ v);;
              let '(d, nd) := RawMemory_move_assign (data_ v) new_data in
              set_data this d;; mret nd)
         else
           construct_move (Vector_end v) (ptr_sub (Vector_end v) 1);;
           move_backward (ptr_add (Vector_begin v) offset) (ptr_sub (Vector_end v) 1)
             (Vector_end v);;
           t ← ctor;
           p ← RawMemory_index (data_ v) offset;
           assign_from_temporary p t);;
        increment_size this;;
        v' ← get_vec this;
        mret (ptr_add (Vector_begin v') offset)
  end.

(** [Insert(const_iterator pos, const T& value)]:
    [return Emplace(pos, value);] *)
Definition Insert (this : nat) (pos : pointer) (value : reference) : M pointer :=
  Emplace_args this pos (copy_from value).

(** [Insert(const_iterator pos, T&& value)]:
    [return Emplace(pos, std::move(value));] *)
Definition Insert_rvalue (this : nat) (pos : pointer) (value : reference) : M pointer :=
  Emplace_args this pos (move_from value).

(** ** The class invariant and the shape of a program

    [holds s v xs]: in state [s] the members [v] describe a vector whose
    elements are [xs]: the length is within the capacity, the slots below
    the length hold the constructed elements, the slots from the length up
    to the capacity are raw. *)

Definition block_is (s : State) (b : nat) (l : list (option T)) : Prop :=
  heap s !! b = Some (mkBlock l false).

Definition slots (xs : list T) (capacity : N) : list (option T) :=
  (Some <$> xs) ++ replicate (N.to_nat capacity - length xs) None.

Definition holds (s : State) (v : Vector) (xs : list T) : Prop :=
  size_ v = N.of_nat (length xs)
  ∧ (size_ v ≤ capacity_ (data_ v))%N
  ∧ (capacity_ (data_ v) * sizeof_T ≤ PTRDIFF_MAX)%N
  ∧ match buffer_ (data_ v) with
    | Null => capacity_ (data_ v) = 0%N
    | Addr b o => o = 0%N ∧ block_is s b (slots xs (capacity_ (data_ v)))
    end.

(** The same as a test. *)
Definition cell_is_object (c : option T) : bool := bool_decide (is_Some c).

Definition holdsb (s : State) (v : Vector) : bool :=
  (size_ v <=? capacity_ (data_ v))%N
  && (capacity_ (data_ v) * sizeof_T <=? PTRDIFF_MAX)%N
  && match buffer_ (data_ v) with
     | Null => (capacity_ (data_ v) =? 0)%N
     | Addr b o =>
         (o =? 0)%N
         && match heap s !! b with
            | Some B =>
                negb (released B)
                && bool_decide (length (cells B) = N.to_nat (capacity_ (data_ v)))
                && forallb cell_is_object (take (N.to_nat (size_ v)) (cells B))
                && forallb (negb ∘ cell_is_object) (drop (N.to_nat (size_ v)) (cells B))
            | None => false
            end
     end.

(** The calls a program makes on vectors it names by their addresses.
    Positions are given by index; the arguments of [PushBack] and [Insert]
    are values of the program, no elements of a vector. *)
Inductive call : Type :=
| CallDefault (this : nat)
| CallSized (this : nat) (size : N)
| CallCopy (this other : nat)
| CallMove (this other : nat)
| CallDtor (this : nat)
| CallCopyAssign (this rhs : nat)
| CallMoveAssign (this rhs : nat)
| CallSwap (this other : nat)
| CallReserve (this : nat) (new_capacity : N)
| CallResize (this : nat) (new_size : N)
| CallPushBack (this : nat) (value : T)
| CallPushBackRvalue (this : nat) (value : T)
| CallEmplaceBack (this : nat) (ctor : W → W * option T)
| CallPopBack (this : nat)
| CallEmplace (this : nat) (index : N) (ctor : W → W * option T)
| CallInsert (this : nat) (index : N) (value : T)
| CallErase (this : nat) (index : N).

(** An object is constructed where there is none. *)
Definition fresh (this : nat) : M unit := λ s,
  match objs s !! this with
  | None => Ok tt s
  | Some _ => Undef
  end.

Definition iterator_at (this : nat) (index : N) : M pointer :=
  v ← get_vec this; mret (ptr_add (Vector_begin v) index).

Definition exec (c : call) : M unit :=
  match c with
  | CallDefault this => fresh this;; Vector_default_ctor this
  | CallSized this size => fresh this;; Vector_sized_ctor this size
  | CallCopy this other => fresh this;; Vector_copy_ctor this other
  | CallMove this other => fresh this;; Vector_move_ctor this other
  | CallDtor this => Vector_dtor this
  | CallCopyAssign this rhs => Vector_copy_assign this rhs
  | CallMoveAssign this rhs => Vector_move_assign this rhs
  | CallSwap this other => Swap this other
  | CallReserve this n => Reserve this n
  | CallResize this n => Resize this n
  | CallPushBack this value => PushBack this value
  | CallPushBackRvalue this value => PushBack_rvalue this value
  | CallEmplaceBack this ctor => EmplaceBack this ctor;; mret tt
  | CallPopBack this => PopBack this
  | CallEmplace this index ctor =>
      pos ← iterator_at this index; Emplace this pos ctor;; mret tt
  | CallInsert this index value =>
      pos ← iterator_at this index; Insert this pos (Outside value);; mret tt
  | CallErase this index =>
      pos ← iterator_at this index; Erase this pos;; mret tt
  end.

(** A program is a list of calls; an exception that leaves a call is
    caught by the caller, which carries on.  A failed assertion or
    undefined behaviour ends the run: there is no state after it. *)
Fixpoint run (prog : list call) (s : State) : option State :=
  match prog with
  | [] => Some s
  | c :: prog' =>
      match exec c s with
      | Ok _ s' => run prog' s'
      | Throw s' => run prog' s'
      | Abort => None
      | Undef => None
      end
  end.

(** ** The end of a program

    Every block of the free store has been released. *)
Definition all_released (s : State) : Prop :=
  Forall (λ B, released B = true) (heap s).

Definition all_releasedb (s : State) : bool :=
  forallb released (heap s).

(** Every vector of the program satisfies the class invariant. *)
Definition invariant (s : State) : Prop :=
  ∀ this v, objs s !! this = Some v → ∃ xs, holds s v xs.

(** No two vectors own the same block. *)
Definition owners_differ (s : State) : Prop :=
  ∀ i j v u b, i ≠ j → objs s !! i = Some v → objs s !! j = Some u →
               buffer_ (data_ v) = Addr b 0 → buffer_ (data_ u) ≠ Addr b 0.

Definition well_formed (s : State) : Prop := invariant s ∧ owners_differ s.

(** Every block that has not been released is owned by a vector. *)
Definition no_leak (s : State) : Prop :=
  ∀ b B, heap s !! b = Some B → released B = false →
         ∃ k v, objs s !! k = Some v ∧ buffer_ (data_ v) = Addr b 0.

(** The calls that replace a buffer by the move assignment of
    [RawMemory]. *)
Definition move_assigns_a_buffer (c : call) : bool :=
  match c with
  | CallMoveAssign _ _ | CallPushBackRvalue _ _ | CallEmplaceBack _ _
  | CallEmplace _ _ _ | CallInsert _ _ _ => true
  | _ => false
  end.

(** The insertions at a position. *)
Definition inserts_at_position (c : call) : bool :=
  match c with
  | CallEmplace _ _ _ | CallInsert _ _ _ => true
  | _ => false
  end.

(** The byte count [n * sizeof(T)] that [Allocate] computes for the call
    does not wrap. *)
Definition request_fits (c : call) : Prop :=
  match c with
  | CallSized _ n | CallReserve _ n | CallResize _ n => (n * sizeof_T < SIZE_MOD)%N
  | _ => True
  end.

(** ** What [TransferDataSafely] does to a row of elements

    One step of a transfer takes the source object and the environment to
    the new environment, the new object unless the constructor throws, and
    the state of the source afterwards. *)
Definition via_copy : T → W → W * option T * T := λ v w, (T_copy v w, v).
Definition via_move : T → W → W * option T * T := T_move.

Definition transfer_step : T → W → W * option T * T :=
  if is_nothrow_move_constructible || negb is_copy_constructible
  then via_move else via_copy.

(** [new (dst) T(...src[0]...)] for either constructor *)
Definition construct_via (f : T → W → W * option T * T) (dst src : pointer) : M unit :=
  v ← load src;
  w ← get_world;
  let '(w', r, v') := f v w in
  put_world w';;
  set_cell src (Some v');;
  match r with
  | Some x => set_cell dst (Some x)
  | None => throw
  end.

(** The row of steps: environment, objects constructed, sources
    afterwards, and whether every constructor returned. *)
Fixpoint transfer_run (f : T → W → W * option T * T) (xs : list T) (w : W)
  : W * list T * list T * bool :=
  match xs with
  | [] => (w, [], [], true)
  | x :: xs' =>
      match f x w with
      | (w1, Some y, x') =>
          let '(w2, ys, xs'', ok) := transfer_run f xs' w1 in
          (w2, y :: ys, x' :: xs'', ok)
      | (w1, None, x') => (w1, [], x' :: xs', false)
      end
  end.

(** Destroying a row of objects, first to last. *)
Definition destroy_all (xs : list T) (w : W) : W :=
  foldl (λ w x, T_dtor x w) w xs.

(** ** What [std::uninitialized_value_construct_n] does to raw cells

    The constructor call [ctor] is made [n] times, one object after the
    other.  The result is the environment, the objects constructed, and
    whether every call returned. *)
Fixpoint construct_run (ctor : W → W * option T) (n : nat) (w : W) : W * list T * bool :=
  match n with
  | O => (w, [], true)
  | S n' =>
      match ctor w with
      | (w1, Some x) =>
          let '(w2, ys, ok) := construct_run ctor n' w1 in (w2, x :: ys, ok)
      | (w1, None) => (w1, [], false)
      end
  end.

(** ** Reasoning about outcomes

    [wp m s Q E]: from [s], [m] returns with [Q] or throws with [E]; it
    neither fails an assertion nor runs into undefined behaviour. *)
Definition wp {A} (m : M A) (s : State) (Q : A → State → Prop) (E : State → Prop) : Prop :=
  match m s with
  | Ok a s' => Q a s'
  | Throw s' => E s'
  | Abort => False
  | Undef => False
  end.

(** [wlp m s Q E]: if [m] returns from [s] then with [Q], if it throws
    then with [E]; nothing is said about the other outcomes. *)
Definition wlp {A} (m : M A) (s : State) (Q : A → State → Prop) (E : State → Prop) : Prop :=
  match m s with
  | Ok a s' => Q a s'
  | Throw s' => E s'
  | Abort => True
  | Undef => True
  end.

(** Two states with the same objects and as many blocks. *)
Definition same_shape (s s' : State) : Prop :=
  objs s' = objs s ∧ length (heap s') = length (heap s).

(** Two states whose blocks have as many cells. *)
Definition same_sizes (s s' : State) : Prop :=
  (λ B, length (cells B)) <$> heap s' = (λ B, length (cells B)) <$> heap s.

(** [m] constructs, moves or destroys no [Vector] and allocates nothing. *)
Definition framed {A} (m : M A) : Prop :=
  ∀ s, wlp m s (λ _ s', same_shape s s') (λ s', same_shape s s').

(** ** The growth rule, as the specification words it

    After an insertion into the vector [v] at [this] has returned: a new
    block has been allocated exactly when the length was equal to the
    capacity; in that case the vector has moved to the new block and its
    capacity is [max(1, 2 * capacity)]; otherwise buffer and capacity are
    what they were.  Either way the length has gone up by one. *)
Definition growth_rule (this : nat) (v : Vector) (s s' : State) : Prop :=
  ∃ v', objs s' !! this = Some v'
        ∧ size_ v' = (size_ v + 1)%N
        ∧ (length (heap s') = S (length (heap s)) ↔ size_ v = Capacity v)
        ∧ (size_ v = Capacity v →
           buffer_ (data_ v') = Addr (length (heap s)) 0
           ∧ Capacity v' = N.max 1 (2 * Capacity v))
        ∧ (size_ v ≠ Capacity v →
           length (heap s') = length (heap s) ∧ data_ v' = data_ v).

(** ** What [Erase] does to a row of elements

    [std::move(first + 1, last, first)] over the row [d :: rest]: every
    object is move-assigned from its right neighbour, left to right.  The
    result is the environment, the row afterwards, and whether every
    assignment completed. *)
Fixpoint shift_left_run (d : T) (rest : list T) (w : W) : W * list T * bool :=
  match rest with
  | [] => (w, [d], true)
  | v :: rest' =>
      match T_move_assign d v w with
      | (w', true, d', v') =>
          let '(w'', l, ok) := shift_left_run v' rest' w' in (w'', d' :: l, ok)
      | (w', false, d', v') => (w', d' :: v' :: rest', false)
      end
  end.

(** An element type whose move assignment completes and gives the
    assigned-to object the value of its source. *)
Definition move_assignment_transfers : Prop :=
  ∀ d v w, (T_move_assign d v w).1.1.2 = true ∧ (T_move_assign d v w).1.2 = v.

(** An element type whose copy constructor and copy assignment complete
    and produce the value of their source. *)
Definition copy_transfers : Prop :=
  (∀ v w, (T_copy v w).2 = Some v)
  ∧ (∀ d v w, (T_copy_assign d v w).1.2 = true ∧ (T_copy_assign d v w).2 = v).

(** [m] does not throw. *)
Definition nothrow {A} (m : M A) : Prop :=
  ∀ s, wlp m s (λ _ _, True) (λ _, False).

(** ** Rolling back

    [rolled_back s s' clean]: [s'] has the objects of [s], as much memory
    to give, and every block of [s] exactly as it was; whatever block has
    been allocated since is released, and its cells are [clean]. *)
Definition rolled_back (s s' : State) (clean : list (option T) → Prop) : Prop :=
  objs s' = objs s
  ∧ avail s' = avail s
  ∧ take (length (heap s)) (heap s') = heap s
  ∧ ∀ b B, heap s' !! b = Some B → length (heap s) ≤ b →
           released B = true ∧ clean (cells B).

(** The first [n] cells are raw. *)
Definition raw_below (n : nat) (l : list (option T)) : Prop :=
  ∀ i, i < n → l !! i = Some None.

(** Every cell is raw. *)
Definition all_raw (l : list (option T)) : Prop := Forall (λ c, c = None) l.

(** The element types for which a transfer that throws has not changed
    its sources: [TransferDataSafely] copies them, or moves them with a
    move constructor that cannot throw. *)
Definition transfer_keeps_sources : Prop :=
  is_nothrow_move_constructible = true ∨ is_copy_constructible = true.

(** An element type for which the constructor [TransferDataSafely] uses
    returns and gives the new object the value of its source. *)
Definition transfer_preserves_values : Prop :=
  ∀ x w, (transfer_step x w).1.2 = Some x.

(** An element type whose copy constructor, move constructor and move
    assignment never throw. *)
Definition nothing_throws : Prop :=
  (∀ v w, (T_copy v w).2 ≠ None)
  ∧ (∀ v w, (T_move v w).1.2 ≠ None)
  ∧ (∀ d v w, (T_move_assign d v w).1.1.2 = true).

(** The memory a growing insertion into [v] asks for is there. *)
Definition room_to_grow (v : Vector) (s : State) : Prop :=
  size_ v = Capacity v →
  (grown_capacity (size_ v) * sizeof_T ≤ avail s)%N
  ∧ (grown_capacity (size_ v) * sizeof_T ≤ PTRDIFF_MAX)%N.

(** ** Positional insertion with growth, as the specification words it

    The elements [pre] before the position, the elements [suf] from the
    position on, the constructor call [ctor] of the new element.  The new
    element is constructed first.  If the transfer of [pre] fails, only the
    new element is destroyed (the transfer has destroyed what it had
    constructed itself).  If the transfer of [suf] fails, the new element
    and the transferred prefix are destroyed.  Only when both transfers
    have succeeded are the old elements destroyed.  The result is the
    environment and, on success, the elements of the new buffer. *)
Definition emplace_with_growth_spec (ctor : W → W * option T) (pre suf : list T) (w : W)
  : W * option (list T) :=
  match ctor w with
  | (w1, None) => (w1, None)
  | (w1, Some x) =>
      match transfer_run transfer_step pre w1 with
      | (w2, ys, _, false) => (T_dtor x (destroy_all ys w2), None)
      | (w2, ys, pre', true) =>
          match transfer_run transfer_step suf w2 with
          | (w3, zs, _, false) =>
              (destroy_all (ys ++ [x]) (destroy_all zs w3), None)
          | (w3, zs, suf', true) =>
              (destroy_all (pre' ++ suf') w3, Some (ys ++ x :: zs))
          end
      end
  end.

(** ** Positional insertion into a free slot

    An element type whose move constructor returns and gives the new
    object the value of its source. *)
Definition move_construction_transfers : Prop :=
  ∀ v w, (T_move v w).1.2 = Some v.

(** [Emplace] in place, on the row [mid ++ [last]] of the elements from
    the position on.  The last element is move-constructed into the free
    slot after it; [std::move_backward] then move-assigns every object of
    the row from its left neighbour, right to left, which is
    [shift_left_run] on the row read backwards; the temporary is
    constructed and move-assigned to the object at the position, and
    destroyed.  The result is the environment, the objects from the
    position on, and whether every step completed. *)
Definition emplace_in_place_run (ctor : W → W * option T) (mid : list T) (last : T) (w : W)
  : W * list T * bool :=
  match T_move last w with
  | (w1, None, last') => (w1, mid ++ [last'], false)
  | (w1, Some m, last') =>
      match shift_left_run last' (rev mid) w1 with
      | (w2, l, false) => (w2, rev l ++ [m], false)
      | (w2, l, true) =>
          match ctor w2 with
          | (w3, None) => (w3, rev l ++ [m], false)
          | (w3, Some t) =>
              match rev l with
              | [] => (w3, [m], false)
              | z :: l' =>
                  let '(w4, ok, d', t') := T_move_assign z t w3 in
                  (T_dtor t' w4, d' :: l' ++ [m], ok)
              end
          end
      end
  end.

(** ** Copy assignment, as the specification words it

    [std::copy_n] over two rows of the same length: every object of [ds]
    is copy-assigned from the object of [ss] at its place.  The result is
    the environment, the row [ds] afterwards, and whether every assignment
    completed. *)
Fixpoint assign_run (ds ss : list T) (w : W) : W * list T * bool :=
  match ds, ss with
  | d :: ds', x :: ss' =>
      match T_copy_assign d x w with
      | (w', true, d') =>
          let '(w'', l, ok) := assign_run ds' ss' w' in (w'', d' :: l, ok)
      | (w', false, d') => (w', d' :: ds', false)
      end
  | _, _ => (w, ds, true)
  end.

(** The destination holds [dst] in a buffer of [capacity] slots, the
    source holds [src].  If [src] is longer than the capacity, a full copy
    is built and swapped in, and the old elements go with the temporary.
    Otherwise the buffer is reused: the overlapping prefix is
    copy-assigned; when shrinking the excess trailing elements are
    destroyed, when growing the additional trailing elements are
    copy-constructed.  The result is the environment and, unless a copy
    threw, the elements of the destination. *)
Definition copy_assign_spec (dst src : list T) (capacity : N) (w : W)
  : W * option (list T) :=
  if (capacity <? N.of_nat (length src))%N then
    match transfer_run via_copy src w with
    | (w1, ys, _, true) => (destroy_all dst w1, Some ys)
    | (w1, ys, _, false) => (destroy_all ys w1, None)
    end
  else
    let n := length dst `min` length src in
    match assign_run (take n dst) (take n src) w with
    | (w1, pref, true) =>
        if length src <? length dst then
          (destroy_all (drop n dst) w1, Some pref)
        else
          match transfer_run via_copy (drop n src) w1 with
          | (w2, ys, _, true) => (w2, Some (pref ++ ys))
          | (w2, ys, _, false) => (destroy_all ys w2, None)
          end
    | (w1, pref, false) => (w1, None)
    end.

End AdvancedVector.

Arguments Block T : clear implicits.
Arguments State T W : clear implicits.
Arguments Res T W A : clear implicits.
Arguments M T W A : clear implicits.
Arguments Ok {T W A} a s.
Arguments Throw {T W A} s.
Arguments Abort {T W A}.
Arguments Undef {T W A}.

(** ** Element types to run the code on *)

Module Samples.

(** The environment of the two throwing types is a fuse: [n] stands for
    "the [n]-th constructor call from now throws", [0] for "none does". *)
Definition burn (w : nat) : nat * bool :=
  match w with
  | 0 => (0, true)
  | 1 => (0, false)
  | S k => (k, true)
  end.

Definition fused_ctor (x : nat) (w : nat) : nat * option nat :=
  let '(w', ok) := burn w in (w', if ok then Some x else None).

(** [int]: four bytes, nothing throws, a move is a copy. *)
Program Definition int_element : Element nat unit := {|
  sizeof_T := 4;
  T_default := λ w, (w, Some 0);
  T_copy := λ v w, (w, Some v);
  T_move := λ v w, (w, Some v, v);
  T_copy_assign := λ d v w, (w, true, v);
  T_move_assign := λ d v w, (w, true, v, v);
  T_dtor := λ v w, w;
  is_nothrow_move_constructible := true;
  is_copy_constructible := true
|}.
Next Obligation. reflexivity. Qed.
Next Obligation. discriminate. Qed.
Next Obligation. discriminate. Qed.

(** A copyable type whose constructors run on the fuse and whose move
    constructor is not [noexcept]: [TransferDataSafely] copies it. *)
Program Definition fragile_element : Element nat nat := {|
  sizeof_T := 8;
  T_default := fused_ctor 0;
  T_copy := fused_ctor;
  T_move := λ v w, (fused_ctor v w, 0);
  T_copy_assign := λ d v w, (w, true, v);
  T_move_assign := λ d v w, (w, true, v, 0);
  T_dtor := λ v w, w;
  is_nothrow_move_constructible := false;
  is_copy_constructible := true
|}.
Next Obligation. reflexivity. Qed.
Next Obligation. discriminate. Qed.
Next Obligation. discriminate. Qed.

(** A move-only type whose move constructor runs on the fuse; a moved-from
    object holds [0].  [TransferDataSafely] moves it. *)
Program Definition unique_element : Element nat nat := {|
  sizeof_T := 8;
  T_default := fused_ctor 0;
  T_copy := λ v w, (w, None);
  T_move := λ v w,
    match fused_ctor v w with
    | (w', Some x) => (w', Some x, 0)
    | (w', None) => (w', None, v)
    end;
  T_copy_assign := λ d v w, (w, false, d);
  T_move_assign := λ d v w, (w, true, v, 0);
  T_dtor := λ v w, w;
  is_nothrow_move_constructible := false;
  is_copy_constructible := false
|}.
Next Obligation. reflexivity. Qed.
Next Obligation. discriminate. Qed.
Next Obligation. discriminate. Qed.

(** A program start: nothing allocated, no objects, [mem] bytes to give. *)
Definition start {T W} (w : W) (mem : N) : State T W :=
  mkState w [] mem ∅.

(** One vector at address [0] holding [xs] in block [0] of [capacity]
    slots. *)
Definition one_vector {T W} (w : W) (xs : list T) (capacity : N) (mem : N) : State T W :=
  mkState w [mkBlock (slots xs capacity) false] mem
    {[ 0 := mkVector (mkRawMemory (Addr 0 0) capacity) (N.of_nat (length xs)) ]}.

(** Two vectors: [xs] at address [0] in block [0], [ys] at address [1] in
    block [1]. *)
Definition two_vectors {T W} (w : W) (xs : list T) (cx : N) (ys : list T) (cy : N) (mem : N)
  : State T W :=
  mkState w [mkBlock (slots xs cx) false; mkBlock (slots ys cy) false] mem
    (<[ 0 := mkVector (mkRawMemory (Addr 0 0) cx) (N.of_nat (length xs)) ]>
       {[ 1 := mkVector (mkRawMemory (Addr 1 0) cy) (N.of_nat (length ys)) ]}).

(** The state an outcome ends in, [s] if there is none. *)
Definition state_after {T W A} (r : Res T W A) (s : State T W) : State T W :=
  match r with
  | Ok _ s' => s'
  | Throw s' => s'
  | Abort => s
  | Undef => s
  end.

(** Programs on [Vector<int>]. *)
Section IntPrograms.
#[local] Existing Instance int_element.

(** Two [EmplaceBack]s, the second of which grows the vector from one
    slot to two, then the destructor. *)
Definition emplacing_program : list (call (T:=nat) (W:=unit)) :=
  [CallDefault 0;
   CallEmplaceBack 0 (λ w, (w, Some 1));
   CallEmplaceBack 0 (λ w, (w, Some 2));
   CallDtor 0].

(** The same with [PushBack(const T&)]. *)
Definition pushing_program : list (call (T:=nat) (W:=unit)) :=
  [CallDefault 0; CallPushBack 0 1; CallPushBack 0 2; CallDtor 0].

(** A vector of two elements is move-assigned to a vector of one; both
    are destroyed. *)
Definition move_assigning_program : list (call (T:=nat) (W:=unit)) :=
  [CallSized 0 1; CallSized 1 2; CallMoveAssign 0 1; CallDtor 0; CallDtor 1].

(** A vector is filled, copied, the copy grown and swapped with the
    original; both are destroyed. *)
Definition copying_program : list (call (T:=nat) (W:=unit)) :=
  [CallDefault 0; CallPushBack 0 1; CallPushBack 0 2; CallPushBack 0 3;
   CallCopy 1 0; CallReserve 1 10; CallSwap 0 1; CallPopBack 1; CallErase 0 0;
   CallDtor 0; CallDtor 1].

End IntPrograms.

(** A program on a vector of [fragile_element]: room for four, two
    elements, then [Emplace] at the front, which has room to work in
    place.  It makes four constructor calls, the last of which is the
    constructor of the temporary that [Emplace] assigns from. *)
Section FragilePrograms.
#[local] Existing Instance fragile_element.

Definition emplace_in_place_program : list (call (T:=nat) (W:=nat)) :=
  [CallDefault 0; CallReserve 0 4; CallPushBack 0 1; CallPushBack 0 2;
   CallEmplace 0 0 (fused_ctor 7)].

End FragilePrograms.

End Samples.

(** * Properties *)

Section Reasoning.
Context {T W : Type} `{!Element T W}.

Implicit Types (s : State T W) (v : Vector) (xs ys : list T) (w : W).
Implicit Types (h : list (Block T)) (l : list (option T)).

(** ** Rules for [wp] *)

Lemma wp_ret {A} (a : A) s (Q : A → State T W → Prop) E :
  Q a s → wp (mret a) s Q E.
Proof. done. Qed.

Lemma wp_bind {A B} (m : M T W A) (f : A → M T W B) s Q E :
  wp m s (λ a s', wp (f a) s' Q E) E → wp (m ≫= f) s Q E.
Proof.
  unfold wp, mbind, M_bind. by destruct (m s).
Qed.

Lemma wp_mono {A} (m : M T W A) s (Q Q' : A → State T W → Prop) (E E' : State T W → Prop) :
  wp m s Q E → (∀ a s', Q a s' → Q' a s') → (∀ s', E s' → E' s') → wp m s Q' E'.
Proof.
  unfold wp. destruct (m s); auto.
Qed.

Lemma wp_on_throw {A} (m : M T W A) cleanup s Q E :
  wp m s Q (λ s', wp cleanup s' (λ _ s'', E s'') E) → wp (on_throw m cleanup) s Q E.
Proof.
  unfold wp, on_throw. destruct (m s) as [a s'|s'| |]; try done.
  by destruct (cleanup s').
Qed.

Lemma wp_throw {A} s (Q : A → State T W → Prop) (E : State T W → Prop) :
  E s → wp throw s Q E.
Proof. done. Qed.

Lemma wp_assert (b : bool) s Q E : b = true → Q tt s → wp (assert b) s Q E.
Proof. by intros ->. Qed.

Lemma wp_ok_inv {A} (m : M T W A) s Q :
  wp m s Q (λ _, False) → ∃ a s', m s = Ok a s' ∧ Q a s'.
Proof.
  unfold wp. destruct (m s) as [a s'|s'| |]; try done. eauto.
Qed.

Lemma wp_outcome {A} (m : M T W A) s Q E :
  wp m s Q E →
  (∃ a s', m s = Ok a s' ∧ Q a s') ∨ (∃ s', m s = Throw s' ∧ E s').
Proof.
  unfold wp. destruct (m s) as [a s'|s'| |]; try done; eauto.
Qed.

Lemma wp_get_world s Q E : Q (world s) s → wp get_world s Q E.
Proof. done. Qed.

Lemma wp_put_world w s Q E : Q tt (set_world w s) → wp (put_world w) s Q E.
Proof. done. Qed.

Lemma wp_get_vec this v s Q E :
  objs s !! this = Some v → Q v s → wp (get_vec this) s Q E.
Proof. unfold wp, get_vec. by intros ->. Qed.

Lemma wp_set_vec this v s Q E :
  Q tt (set_objs (<[this := v]> (objs s)) s) → wp (set_vec this v) s Q E.
Proof. done. Qed.

Lemma wp_run_ctor ctor s Q E :
  match ctor (world s) with
  | (w, Some x) => Q x (set_world w s)
  | (w, None) => E (set_world w s)
  end →
  wp (run_ctor ctor) s Q E.
Proof.
  unfold wp, run_ctor. destruct (ctor (world s)) as [w [x|]]; done.
Qed.

(** ** The free store, one cell at a time *)

Lemma live_block_eq w h a o b l :
  h !! b = Some (mkBlock l false) →
  live_block b (mkState w h a o) = Some (mkBlock l false).
Proof. unfold live_block. simpl. by intros ->. Qed.

Lemma wp_load b off l x w h a o Q E :
  h !! b = Some (mkBlock l false) →
  l !! N.to_nat off = Some (Some x) →
  Q x (mkState w h a o) →
  wp (load (Addr b off)) (mkState w h a o) Q E.
Proof.
  intros Hb Hl HQ. unfold wp, load, cell_at.
  rewrite (live_block_eq _ _ _ _ _ _ Hb). simpl. by rewrite Hl.
Qed.

Lemma wp_set_cell b off l c w h a o Q E :
  h !! b = Some (mkBlock l false) →
  N.to_nat off < length l →
  Q tt (mkState w (<[b := mkBlock (<[N.to_nat off := c]> l) false]> h) a o) →
  wp (set_cell (Addr b off) c) (mkState w h a o) Q E.
Proof.
  intros Hb Hl HQ. unfold wp, set_cell.
  rewrite (live_block_eq _ _ _ _ _ _ Hb). simpl.
  by rewrite decide_True.
Qed.

Lemma insert_block_lookup h b B B' :
  h !! b = Some B → <[b := B']> h !! b = Some B'.
Proof.
  intros Hb. apply list_lookup_insert_eq. by eapply lookup_lt_Some.
Qed.

Lemma insert_block_id h b B : h !! b = Some B → <[b := B]> h = h.
Proof. apply list_insert_id. Qed.

(** ** One element at a time *)

Lemma wp_destroy_at b off l x w h a o Q E :
  h !! b = Some (mkBlock l false) →
  l !! N.to_nat off = Some (Some x) →
  Q tt (mkState (T_dtor x w) (<[b := mkBlock (<[N.to_nat off := None]> l) false]> h) a o) →
  wp (destroy_at (Addr b off)) (mkState w h a o) Q E.
Proof.
  intros Hb Hl HQ. unfold destroy_at.
  apply wp_bind. eapply wp_load; [done..|].
  apply wp_bind, wp_get_world. apply wp_bind, wp_put_world. simpl.
  eapply wp_set_cell; [done| |done].
  by eapply lookup_lt_Some.
Qed.

Lemma wp_construct_at b off l ctor w h a o Q E :
  h !! b = Some (mkBlock l false) →
  N.to_nat off < length l →
  match ctor w with
  | (w', Some x) =>
      Q tt (mkState w' (<[b := mkBlock (<[N.to_nat off := Some x]> l) false]> h) a o)
  | (w', None) => E (mkState w' h a o)
  end →
  wp (construct_at (Addr b off) (run_ctor ctor)) (mkState w h a o) Q E.
Proof.
  intros Hb Hl HQ. unfold construct_at.
  apply wp_bind, wp_run_ctor. simpl.
  destruct (ctor w) as [w' [x|]]; [|done].
  by eapply wp_set_cell.
Qed.

(** A step of a transfer between two blocks. *)
Lemma wp_construct_via f bs os bd od ls ld x w h a o Q E :
  bs ≠ bd →
  h !! bs = Some (mkBlock ls false) →
  h !! bd = Some (mkBlock ld false) →
  ls !! N.to_nat os = Some (Some x) →
  N.to_nat od < length ld →
  match f x w with
  | (w', Some y, x') =>
      Q tt (mkState w'
              (<[bd := mkBlock (<[N.to_nat od := Some y]> ld) false]>
                 (<[bs := mkBlock (<[N.to_nat os := Some x']> ls) false]> h)) a o)
  | (w', None, x') =>
      E (mkState w' (<[bs := mkBlock (<[N.to_nat os := Some x']> ls) false]> h) a o)
  end →
  wp (construct_via f (Addr bd od) (Addr bs os)) (mkState w h a o) Q E.
Proof.
  intros Hne Hs Hd Hx Hod HQ. unfold construct_via.
  apply wp_bind. eapply wp_load; [done..|].
  apply wp_bind, wp_get_world. simpl.
  destruct (f x w) as [[w' r] x'].
  apply wp_bind, wp_put_world. simpl.
  apply wp_bind. eapply wp_set_cell; [done|by eapply lookup_lt_Some|].
  destruct r as [y|]; [|done].
  eapply wp_set_cell; [|done..].
  by rewrite list_lookup_insert_ne.
Qed.

(** ** The loops *)

Lemma app_cons_shift {A} (pre : list A) x rest :
  pre ++ x :: rest = (pre ++ [x]) ++ rest.
Proof. by rewrite <- app_assoc. Qed.

Lemma insert_at_middle {A} (pre : list A) x y rest n :
  n = length pre → <[n := y]> (pre ++ x :: rest) = pre ++ y :: rest.
Proof.
  intros ->. rewrite insert_app_r_alt by lia. by rewrite Nat.sub_diag.
Qed.

Lemma lookup_at_middle {A} (pre : list A) x rest n :
  n = length pre → (pre ++ x :: rest) !! n = Some x.
Proof. intros ->. apply list_lookup_middle. done. Qed.

Lemma insert_two_twice {A} (h : list A) bs bd a b c d :
  bs ≠ bd →
  <[bd := d]> (<[bs := c]> (<[bd := b]> (<[bs := a]> h))) = <[bd := d]> (<[bs := c]> h).
Proof.
  intros Hne. rewrite (list_insert_insert_ne _ bs bd) by done.
  by rewrite !list_insert_insert_eq.
Qed.

Lemma destroy_all_app xs ys w :
  destroy_all (xs ++ ys) w = destroy_all ys (destroy_all xs w).
Proof. apply foldl_app. Qed.

(** [destroy_loop] over a row of objects leaves raw cells. *)
Lemma wp_destroy_loop b off xs : ∀ i pre post w h a o Q E,
  h !! b = Some (mkBlock (pre ++ (Some <$> xs) ++ post) false) →
  length pre = N.to_nat (off + i) →
  Q tt (mkState (destroy_all xs w)
          (<[b := mkBlock (pre ++ replicate (length xs) None ++ post) false]> h) a o) →
  wp (destroy_loop (Addr b off) i (length xs)) (mkState w h a o) Q E.
Proof.
  induction xs as [|x xs IH]; intros i pre post w h a o Q E Hb Hpre HQ.
  - apply wp_ret. simpl in HQ. by rewrite insert_block_id in HQ.
  - rewrite fmap_cons in Hb. simpl in Hb.
    cbn [length destroy_loop]. apply wp_bind. eapply wp_destroy_at; [done| |].
    { by apply lookup_at_middle. }
    rewrite insert_at_middle by done.
    rewrite app_cons_shift.
    eapply IH.
    + by eapply insert_block_lookup.
    + rewrite length_app. simpl. lia.
    + rewrite list_insert_insert_eq. rewrite <- app_assoc. exact HQ.
Qed.

Lemma wp_destroy_n b off xs pre post w h a o Q E :
  h !! b = Some (mkBlock (pre ++ (Some <$> xs) ++ post) false) →
  length pre = N.to_nat off →
  Q tt (mkState (destroy_all xs w)
          (<[b := mkBlock (pre ++ replicate (length xs) None ++ post) false]> h) a o) →
  wp (destroy_n (Addr b off) (N.of_nat (length xs))) (mkState w h a o) Q E.
Proof.
  intros Hb Hpre HQ. unfold destroy_n. rewrite Nat2N.id.
  eapply wp_destroy_loop; [done| |done]. lia.
Qed.

(** Destroying nothing needs no block at all. *)
Lemma wp_destroy_n_0 p s Q E : Q tt s → wp (destroy_n p 0) s Q E.
Proof. done. Qed.

Lemma transfer_run_length f xs w :
  length (transfer_run f xs w).1.2 = length xs.
Proof.
  revert w. induction xs as [|x xs IH]; intros w; simpl; [done|].
  destruct (f x w) as [[w1 [y|]] x'] eqn:Hf; simpl; [|done].
  specialize (IH w1). destruct (transfer_run f xs w1) as [[[w2 ys] xs''] ok].
  simpl in *. by rewrite IH.
Qed.

(** The loop of [uninitialized_copy_n] and [uninitialized_move_n], from a
    block [bs] to another block [bd]: either every element is constructed,
    or the ones constructed so far are destroyed again and the exception
    goes on. *)
Lemma wp_transfer_loop f bs os bd od :
  bs ≠ bd →
  ∀ xs i done ps qs pd qd w h a o Q E,
  h !! bs = Some (mkBlock (ps ++ (Some <$> xs) ++ qs) false) →
  length ps = N.to_nat (os + i) →
  h !! bd = Some (mkBlock (pd ++ (Some <$> done) ++ replicate (length xs) None ++ qd) false) →
  length pd = N.to_nat od →
  length done = N.to_nat i →
  match transfer_run f xs w with
  | (w', ys, xs', true) =>
      Q tt (mkState w'
              (<[bd := mkBlock (pd ++ (Some <$> (done ++ ys)) ++ qd) false]>
                 (<[bs := mkBlock (ps ++ (Some <$> xs') ++ qs) false]> h)) a o)
  | (w', ys, xs', false) =>
      E (mkState (destroy_all (done ++ ys) w')
           (<[bd := mkBlock (pd ++ replicate (length done + length xs) None ++ qd) false]>
              (<[bs := mkBlock (ps ++ (Some <$> xs') ++ qs) false]> h)) a o)
  end →
  wp (uninitialized_loop
        (λ k, construct_via f (ptr_add (Addr bd od) k) (ptr_add (Addr bs os) k))
        (Addr bd od) i (length xs))
     (mkState w h a o) Q E.
Proof.
  intros Hne.
  induction xs as [|x xs IH]; intros i done ps qs pd qd w h a o Q E Hs Hps Hd Hpd Hdone HQ.
  - apply wp_ret. simpl in HQ. rewrite app_nil_r in HQ.
    rewrite (insert_block_id h bs) in HQ by done.
    by rewrite insert_block_id in HQ.
  - rewrite fmap_cons, <- app_comm_cons in Hs.
    cbn [length replicate] in Hd. rewrite <- app_comm_cons in Hd.
    cbn [length uninitialized_loop ptr_add]. apply wp_bind, wp_on_throw.
    rewrite (app_assoc pd) in Hd.
    eapply wp_construct_via; [done..| | |].
    { by apply lookup_at_middle. }
    { rewrite !length_app, length_fmap. simpl. lia. }
    cbn [transfer_run] in HQ.
    destruct (f x w) as [[w1 [y|]] x'] eqn:Hf;
      rewrite (insert_at_middle ps) by done.
    + (* constructed: go on *)
      rewrite (insert_at_middle (pd ++ (Some <$> done))).
      2:{ rewrite length_app, length_fmap. lia. }
      rewrite (app_cons_shift ps).
      rewrite <- (app_assoc pd), (app_cons_shift (Some <$> done)).
      change [Some y] with (Some <$> [y]). rewrite <- fmap_app.
      eapply IH.
      * rewrite list_lookup_insert_ne by done. by eapply insert_block_lookup.
      * rewrite length_app. simpl. lia.
      * eapply insert_block_lookup. by rewrite list_lookup_insert_ne.
      * done.
      * rewrite length_app. simpl. lia.
      * destruct (transfer_run f xs w1) as [[[w2 ys] xs''] ok] eqn:Hrun.
        destruct ok; rewrite insert_two_twice by done; rewrite <- !app_assoc.
        -- exact HQ.
        -- rewrite length_app. simpl.
           replace (length done + 1 + length xs) with (length done + S (length xs)) by lia.
           exact HQ.
    + (* the constructor throws: undo *)
      unfold destroy_n. rewrite <- Hdone.
      rewrite <- (app_assoc pd) in Hd.
      eapply wp_destroy_loop.
      * rewrite list_lookup_insert_ne by done. exact Hd.
      * lia.
      * rewrite app_nil_r in HQ. rewrite replicate_add in HQ.
        rewrite <- app_assoc in HQ. exact HQ.
Qed.

(** [construct_copy] and [construct_move] are the two instances of
    [construct_via]: copying writes nothing back to its source. *)
Lemma construct_move_via dst src : construct_move dst src = construct_via via_move dst src.
Proof. reflexivity. Qed.

Lemma construct_copy_via dst src s :
  construct_copy dst src s = construct_via via_copy dst src s.
Proof.
  unfold construct_copy, construct_via, construct_at, via_copy, mbind, M_bind.
  unfold load. destruct (cell_at src s) as [[v|]|] eqn:Hc; try done.
  unfold get_world, run_ctor.
  destruct (T_copy v (world s)) as [w' r] eqn:Hcopy.
  assert (set_cell src (Some v) (set_world w' s) = Ok tt (set_world w' s)) as Hid.
  { destruct src as [|b off]; [done|]. simpl in Hc.
    unfold set_cell, live_block in *. simpl.
    destruct (heap s !! b) as [B|] eqn:Hb; [|done]. simpl in *.
    destruct B as [l rel]. simpl in *. destruct rel; [done|]. simpl in *.
    rewrite decide_True by by eapply lookup_lt_Some.
    rewrite (list_insert_id l) by done.
    by rewrite insert_block_id. }
  unfold put_world at 1. rewrite Hid. by destruct r.
Qed.

Lemma uninitialized_loop_ext (step step' : N → M T W unit) d_first :
  (∀ k s, step k s = step' k s) →
  ∀ n i s, uninitialized_loop step d_first i n s = uninitialized_loop step' d_first i n s.
Proof.
  intros Hstep. induction n as [|n IH]; intros i s; simpl; [done|].
  unfold mbind, M_bind, on_throw. rewrite Hstep.
  destruct (step' i s) as [[] s'|s'| |]; try done.
  by destruct (destroy_n d_first i s').
Qed.

Lemma wp_ext {A} (m m' : M T W A) s Q E : m s = m' s → wp m' s Q E → wp m s Q E.
Proof. unfold wp. by intros ->. Qed.

Lemma wp_uninitialized_copy_n bs os bd od xs ps qs pd qd w h a o Q E :
  bs ≠ bd →
  h !! bs = Some (mkBlock (ps ++ (Some <$> xs) ++ qs) false) →
  length ps = N.to_nat os →
  h !! bd = Some (mkBlock (pd ++ replicate (length xs) None ++ qd) false) →
  length pd = N.to_nat od →
  match transfer_run via_copy xs w with
  | (w', ys, xs', true) =>
      Q tt (mkState w'
              (<[bd := mkBlock (pd ++ (Some <$> ys) ++ qd) false]>
                 (<[bs := mkBlock (ps ++ (Some <$> xs') ++ qs) false]> h)) a o)
  | (w', ys, xs', false) =>
      E (mkState (destroy_all ys w')
           (<[bd := mkBlock (pd ++ replicate (length xs) None ++ qd) false]>
              (<[bs := mkBlock (ps ++ (Some <$> xs') ++ qs) false]> h)) a o)
  end →
  wp (uninitialized_copy_n (Addr bs os) (N.of_nat (length xs)) (Addr bd od))
     (mkState w h a o) Q E.
Proof.
  intros Hne Hs Hps Hd Hpd HQ. unfold uninitialized_copy_n. rewrite Nat2N.id.
  eapply wp_ext.
  { apply uninitialized_loop_ext. intros k s. apply construct_copy_via. }
  eapply (wp_transfer_loop via_copy bs os bd od Hne xs 0 []); [exact Hs|lia|exact Hd|exact Hpd|done|].
  simpl. by destruct (transfer_run via_copy xs w) as [[[w' ys] xs'] []].
Qed.

Lemma wp_uninitialized_move_n bs os bd od xs ps qs pd qd w h a o Q E :
  bs ≠ bd →
  h !! bs = Some (mkBlock (ps ++ (Some <$> xs) ++ qs) false) →
  length ps = N.to_nat os →
  h !! bd = Some (mkBlock (pd ++ replicate (length xs) None ++ qd) false) →
  length pd = N.to_nat od →
  match transfer_run via_move xs w with
  | (w', ys, xs', true) =>
      Q tt (mkState w'
              (<[bd := mkBlock (pd ++ (Some <$> ys) ++ qd) false]>
                 (<[bs := mkBlock (ps ++ (Some <$> xs') ++ qs) false]> h)) a o)
  | (w', ys, xs', false) =>
      E (mkState (destroy_all ys w')
           (<[bd := mkBlock (pd ++ replicate (length xs) None ++ qd) false]>
              (<[bs := mkBlock (ps ++ (Some <$> xs') ++ qs) false]> h)) a o)
  end →
  wp (uninitialized_move_n (Addr bs os) (N.of_nat (length xs)) (Addr bd od))
     (mkState w h a o) Q E.
Proof.
  intros Hne Hs Hps Hd Hpd HQ. unfold uninitialized_move_n. rewrite Nat2N.id.
  eapply (wp_transfer_loop via_move bs os bd od Hne xs 0 []); [exact Hs|lia|exact Hd|exact Hpd|done|].
  simpl. by destruct (transfer_run via_move xs w) as [[[w' ys] xs'] []].
Qed.

Lemma wp_TransferDataSafely bs os bd od xs ps qs pd qd w h a o Q E :
  bs ≠ bd →
  h !! bs = Some (mkBlock (ps ++ (Some <$> xs) ++ qs) false) →
  length ps = N.to_nat os →
  h !! bd = Some (mkBlock (pd ++ replicate (length xs) None ++ qd) false) →
  length pd = N.to_nat od →
  match transfer_run transfer_step xs w with
  | (w', ys, xs', true) =>
      Q tt (mkState w'
              (<[bd := mkBlock (pd ++ (Some <$> ys) ++ qd) false]>
                 (<[bs := mkBlock (ps ++ (Some <$> xs') ++ qs) false]> h)) a o)
  | (w', ys, xs', false) =>
      E (mkState (destroy_all ys w')
           (<[bd := mkBlock (pd ++ replicate (length xs) None ++ qd) false]>
              (<[bs := mkBlock (ps ++ (Some <$> xs') ++ qs) false]> h)) a o)
  end →
  wp (TransferDataSafely (Addr bs os) (N.of_nat (length xs)) (Addr bd od))
     (mkState w h a o) Q E.
Proof.
  unfold TransferDataSafely, transfer_step.
  destruct (is_nothrow_move_constructible || negb is_copy_constructible).
  - apply wp_uninitialized_move_n.
  - apply wp_uninitialized_copy_n.
Qed.

(** Transferring nothing needs no block at all. *)
Lemma wp_TransferDataSafely_0 p q s Q E :
  Q tt s → wp (TransferDataSafely p 0 q) s Q E.
Proof.
  unfold TransferDataSafely.
  by destruct (is_nothrow_move_constructible || negb is_copy_constructible).
Qed.

(** ** Moving a vector *)

Lemma get_vec_eq this v s : objs s !! this = Some v → get_vec this s = Ok v s.
Proof. unfold get_vec. by intros ->. Qed.

(** C7. Move construction of [this] from [other], and move assignment of
    [other] to a distinct [this], return normally whatever the two vectors
    are; they leave the environment of the element type and the whole free
    store as they were, so no element is constructed or destroyed; [this]
    ends up with the members [other] had: the same buffer, hence the same
    elements in the same order, the same length and the same capacity;
    [other] ends up with length 0, a null buffer and capacity 0. *)
Theorem move_transfers_the_buffer (this other : nat) (a : Vector) s :
  this ≠ other →
  objs s !! other = Some a →
  (∃ s', Vector_move_ctor this other s = Ok tt s'
         ∧ world s' = world s ∧ heap s' = heap s ∧ avail s' = avail s
         ∧ objs s' !! this = Some a
         ∧ objs s' !! other = Some (mkVector (mkRawMemory Null 0) 0)
         ∧ (∀ xs, holds s a xs → holds s' a xs))
  ∧ (∀ b, objs s !! this = Some b →
     ∃ s', Vector_move_assign this other s = Ok tt s'
           ∧ world s' = world s ∧ heap s' = heap s ∧ avail s' = avail s
           ∧ objs s' !! this = Some a
           ∧ objs s' !! other = Some (mkVector (mkRawMemory Null 0) 0)
           ∧ (∀ xs, holds s a xs → holds s' a xs)).
Proof.
  intros Hne Ha. destruct a as [[buf cap] sz]. split.
  - unfold Vector_move_ctor, mbind, M_bind. rewrite (get_vec_eq _ _ _ Ha). simpl.
    eexists. split; [done|]. simpl. do 3 (split; [done|]).
    split; [|split].
    + by rewrite lookup_insert_eq.
    + rewrite lookup_insert_ne by done. by rewrite lookup_insert_eq.
    + intros xs Hxs. exact Hxs.
  - intros b Hb.
    unfold Vector_move_assign, set_size, mbind, M_bind, get_vec, set_vec. simpl.
    rewrite Ha. simpl.
    rewrite lookup_insert_ne by done. rewrite Hb. simpl.
    rewrite lookup_insert_ne by done. rewrite lookup_insert_eq. simpl.
    rewrite lookup_insert_ne by done. rewrite lookup_insert_eq. simpl.
    rewrite lookup_insert_ne by done. rewrite lookup_insert_eq. simpl.
    rewrite lookup_insert_ne by done. rewrite lookup_insert_eq. simpl.
    eexists. split; [done|]. simpl. do 3 (split; [done|]).
    split; [|split].
    + by rewrite lookup_insert_eq.
    + rewrite lookup_insert_ne by done. by rewrite lookup_insert_eq.
    + intros xs Hxs. exact Hxs.
Qed.

(** ** Copy assignment to itself *)

(** C10. [v = v] returns at once: nothing in the state changes, so the
    length, the capacity and every element of [v] are what they were. *)
Theorem self_copy_assignment_is_a_no_op (this : nat) s :
  Vector_copy_assign this this s = Ok tt s.
Proof.
  unfold Vector_copy_assign. by rewrite decide_True.
Qed.

(** ** Arithmetic on [size_t] within bounds *)

Lemma SIZE_MOD_eq : SIZE_MOD = 18446744073709551616%N.
Proof. reflexivity. Qed.

Lemma PTRDIFF_MAX_eq : PTRDIFF_MAX = 9223372036854775807%N.
Proof. reflexivity. Qed.

Lemma wrap_small n : (n < SIZE_MOD)%N → wrap n = n.
Proof. intros Hn. unfold wrap. by apply N.mod_small. Qed.

Lemma size_add_small a b : (a + b < SIZE_MOD)%N → size_add a b = (a + b)%N.
Proof. apply wrap_small. Qed.

Lemma size_mul_small a b : (a * b < SIZE_MOD)%N → size_mul a b = (a * b)%N.
Proof. apply wrap_small. Qed.

Lemma size_sub_small a b : (b ≤ a)%N → (a < SIZE_MOD)%N → size_sub a b = (a - b)%N.
Proof.
  intros Hba Ha. unfold size_sub. rewrite (wrap_small b) by lia.
  unfold wrap. replace (a + SIZE_MOD - b)%N with ((a - b) + 1 * SIZE_MOD)%N by lia.
  rewrite N.Div0.mod_add. apply N.mod_small. lia.
Qed.

Lemma size_sub_0_1 : size_sub 0 1 = (SIZE_MOD - 1)%N.
Proof. reflexivity. Qed.

Lemma capacity_bound (c : N) :
  (c * sizeof_T ≤ PTRDIFF_MAX)%N → (c ≤ PTRDIFF_MAX)%N.
Proof.
  pose proof (sizeof_T_pos (T:=T) (W:=W)). nia.
Qed.

Lemma holds_bounds s v xs :
  holds s v xs →
  (size_ v ≤ capacity_ (data_ v))%N ∧ (capacity_ (data_ v) ≤ PTRDIFF_MAX)%N
  ∧ size_ v = N.of_nat (length xs).
Proof.
  intros (Hsz & Hle & Hcap & _). split; [done|]. split; [|done].
  by apply capacity_bound.
Qed.

Lemma slots_length xs c :
  length xs ≤ N.to_nat c → length (slots xs c) = N.to_nat c.
Proof.
  intros Hle. unfold slots. rewrite length_app, length_fmap, length_replicate. lia.
Qed.

Lemma slots_snoc xs c :
  length xs < N.to_nat c →
  slots xs c = (Some <$> xs) ++ None :: replicate (N.to_nat c - S (length xs)) None.
Proof.
  intros Hlt. unfold slots.
  replace (N.to_nat c - length xs) with (S (N.to_nat c - S (length xs))) by lia.
  done.
Qed.

Lemma slots_app_snoc xs x c :
  slots (xs ++ [x]) c
  = (Some <$> xs) ++ Some x :: replicate (N.to_nat c - S (length xs)) None.
Proof.
  unfold slots. rewrite fmap_app, length_app. simpl.
  rewrite <- app_assoc. simpl. do 3 f_equal. lia.
Qed.

(** ** Preconditions at the public boundary *)

Lemma wp_returns (m : M T W unit) s (Q : State T W → Prop) :
  wp m s (λ _ s', Q s') (λ _, False) → ∃ s', m s = Ok tt s' ∧ Q s'.
Proof.
  unfold wp. destruct (m s) as [[] s'|s'| |]; try done. eauto.
Qed.

Lemma PopBack_ok this v xs x s :
  objs s !! this = Some v →
  holds s v (xs ++ [x]) →
  ∃ s', PopBack this s = Ok tt s'
        ∧ world s' = T_dtor x (world s)
        ∧ avail s' = avail s
        ∧ objs s' = <[this := mkVector (data_ v) (size_ v - 1)]> (objs s)
        ∧ holds s' (mkVector (data_ v) (size_ v - 1)) xs
        ∧ (∀ b, buffer_ (data_ v) ≠ Addr b 0 → heap s' !! b = heap s !! b).
Proof.
  intros Hv Hh. pose proof (holds_bounds _ _ _ Hh) as (Hle & Hcap & Hsz).
  destruct Hh as (_ & _ & Hbytes & Hbuf).
  rewrite length_app in Hsz. simpl in Hsz.
  rewrite PTRDIFF_MAX_eq in Hcap.
  assert (size_sub (size_ v) 1 = N.of_nat (length xs)) as Hsub.
  { rewrite size_sub_small; [lia|lia|rewrite SIZE_MOD_eq; lia]. }
  destruct s as [w h a o]. simpl in *.
  destruct v as [[buf cap] sz]. simpl in *.
  destruct buf as [|b off]; [lia|]. destruct Hbuf as [-> Hb].
  unfold block_is in Hb. simpl in Hb. rewrite slots_app_snoc in Hb.
  apply wp_returns. unfold PopBack.
  apply wp_bind. eapply wp_get_vec; [done|]. simpl. rewrite Hsub.
  apply wp_bind. eapply wp_destroy_at; [done| |].
  { apply lookup_at_middle. rewrite length_fmap. lia. }
  rewrite insert_at_middle by (rewrite length_fmap; lia).
  unfold wp, set_vec. simpl.
  replace (sz - 1)%N with (N.of_nat (length xs)) by lia.
  split; [done|]. split; [done|]. split; [done|]. split.
  - repeat split; simpl; try lia.
    unfold block_is. simpl. erewrite insert_block_lookup by done.
    rewrite (slots_snoc xs) by lia. done.
  - intros b' Hb'. rewrite list_lookup_insert_ne; [done|]. congruence.
Qed.

Lemma PopBack_empty_undefined this v s :
  objs s !! this = Some v →
  holds s v [] →
  PopBack this s = Undef.
Proof.
  intros Hv Hh. pose proof (holds_bounds _ _ _ Hh) as (Hle & Hcap & Hsz).
  destruct Hh as (_ & _ & Hbytes & Hbuf).
  unfold PopBack, mbind, M_bind. rewrite (get_vec_eq _ _ _ Hv).
  rewrite Hsz. change (N.of_nat (length [])) with 0%N. rewrite size_sub_0_1.
  unfold destroy_at, mbind, M_bind, load, GetAddress.
  destruct (buffer_ (data_ v)) as [|b off] eqn:Hbuf'; [reflexivity|].
  destruct Hbuf as [-> Hb]. unfold ptr_add, cell_at, live_block.
  unfold block_is in Hb. rewrite Hb.
  change (mbind ?f (Some ?x)) with (f x).
  cbv beta iota. change (released (mkBlock ?l false)) with false. cbv iota.
  change (Some ?B ≫= ?f) with (f B). cbv beta.
  change (cells (mkBlock ?l ?r)) with l.
  rewrite lookup_ge_None_2; [done|].
  rewrite slots_length by (simpl; lia).
  rewrite PTRDIFF_MAX_eq in Hcap. rewrite SIZE_MOD_eq. lia.
Qed.

(** C9, as the code has it.  Indexing with an index that is not below the
    length, and asking a [RawMemory] for the address at an offset above its
    capacity, fail an assertion.  [PopBack] has no check: on an empty
    vector it is undefined behaviour, not a failed assertion.  On a vector
    with at least one element it destroys the last element, and only that
    one, and the length goes down by one. *)
Theorem boundary_checks (this : nat) (v : Vector) s :
  objs s !! this = Some v →
  (∀ index, (size_ v ≤ index)%N → Vector_index this index s = Abort)
  ∧ (∀ offset, (capacity_ (data_ v) < offset)%N → RawMemory_plus (data_ v) offset s = Abort)
  ∧ (holds s v [] → PopBack this s = Undef)
  ∧ (∀ xs x, holds s v (xs ++ [x]) →
     ∃ s', PopBack this s = Ok tt s'
           ∧ world s' = T_dtor x (world s)
           ∧ avail s' = avail s
           ∧ objs s' = <[this := mkVector (data_ v) (size_ v - 1)]> (objs s)
           ∧ holds s' (mkVector (data_ v) (size_ v - 1)) xs
           ∧ (∀ b, buffer_ (data_ v) ≠ Addr b 0 → heap s' !! b = heap s !! b)).
Proof.
  intros Hv. split; [|split; [|split]].
  - intros index Hi. unfold Vector_index, mbind, M_bind.
    rewrite (get_vec_eq _ _ _ Hv). unfold assert.
    by rewrite (proj2 (N.ltb_ge _ _) Hi).
  - intros offset Ho. unfold RawMemory_plus, mbind, M_bind, assert.
    by rewrite (proj2 (N.leb_gt _ _) Ho).
  - by apply PopBack_empty_undefined.
  - intros xs x. by apply PopBack_ok.
Qed.

(** ** What a call cannot change: objects and the number of blocks *)

Lemma same_shape_refl s : same_shape s s.
Proof. done. Qed.

Lemma same_shape_trans s1 s2 s3 : same_shape s1 s2 → same_shape s2 s3 → same_shape s1 s3.
Proof. intros [??] [??]. split; congruence. Qed.

Lemma wlp_bind {A B} (m : M T W A) (f : A → M T W B) s Q E :
  wlp m s (λ a s', wlp (f a) s' Q E) E → wlp (m ≫= f) s Q E.
Proof. unfold wlp, mbind, M_bind. by destruct (m s). Qed.

Lemma wlp_mono {A} (m : M T W A) s (Q Q' : A → State T W → Prop) (E E' : State T W → Prop) :
  wlp m s Q E → (∀ a s', Q a s' → Q' a s') → (∀ s', E s' → E' s') → wlp m s Q' E'.
Proof. unfold wlp. destruct (m s); auto. Qed.

Lemma wlp_framed {A} (m : M T W A) s (Q : A → State T W → Prop) (E : State T W → Prop) :
  framed m →
  (∀ a s', same_shape s s' → Q a s') →
  (∀ s', same_shape s s' → E s') →
  wlp m s Q E.
Proof. intros Hm HQ HE. eapply wlp_mono; [apply Hm|done..]. Qed.

Lemma wlp_get_vec this s (Q : Vector → State T W → Prop) E :
  (∀ v, objs s !! this = Some v → Q v s) → wlp (get_vec this) s Q E.
Proof. unfold wlp, get_vec. destruct (objs s !! this); auto. Qed.

Lemma framed_ret {A} (a : A) : framed (mret a : M T W A).
Proof. intros s. apply same_shape_refl. Qed.

Lemma framed_bind {A B} (m : M T W A) (f : A → M T W B) :
  framed m → (∀ a, framed (f a)) → framed (m ≫= f).
Proof.
  intros Hm Hf s. apply wlp_bind. eapply wlp_mono; [apply Hm| |done].
  intros a s' Hs. specialize (Hf a s'). unfold wlp in *.
  destruct (f a s'); eauto using same_shape_trans.
Qed.

Lemma framed_on_throw {A} (m : M T W A) cleanup :
  framed m → framed cleanup → framed (on_throw m cleanup).
Proof.
  intros Hm Hc s. specialize (Hm s). unfold wlp, on_throw in *.
  destruct (m s) as [a s'|s'| |]; try done.
  specialize (Hc s'). unfold wlp in Hc.
  destruct (cleanup s'); eauto using same_shape_trans.
Qed.

Lemma framed_throw {A} : framed (throw : M T W A).
Proof. intros s. apply same_shape_refl. Qed.

Lemma framed_assert b : framed (assert b : M T W unit).
Proof. intros s. destruct b; [apply same_shape_refl|done]. Qed.

Lemma framed_load p : framed (load p : M T W T).
Proof. intros s. unfold wlp, load. by destruct (cell_at p s) as [[?|]|]. Qed.

Lemma framed_set_cell p c : framed (set_cell p c : M T W unit).
Proof.
  intros s. unfold wlp, set_cell. destruct p as [|b off]; [done|].
  destruct (live_block b s); [|done]. case_decide; [|done].
  split; simpl; [done|]. by rewrite length_insert.
Qed.

Lemma framed_get_world : framed (get_world : M T W W).
Proof. intros s. apply same_shape_refl. Qed.

Lemma framed_put_world w : framed (put_world w : M T W unit).
Proof. by intros s. Qed.

Lemma framed_run_ctor ctor : framed (run_ctor ctor : M T W T).
Proof. intros s. unfold wlp, run_ctor. by destruct (ctor (world s)) as [w [x|]]. Qed.

Lemma framed_operator_delete p : framed (operator_delete p : M T W unit).
Proof.
  intros s. unfold wlp, operator_delete. destruct p as [|b off]; [done|].
  destruct (live_block b s); [|done]. destruct (off =? 0)%N; [|done].
  split; simpl; [done|]. by rewrite length_insert.
Qed.

Create HintDb framed discriminated.
#[local] Hint Resolve framed_ret framed_throw framed_assert framed_load framed_set_cell
  framed_get_world framed_put_world framed_run_ctor framed_operator_delete
  framed_on_throw : framed.
#[local] Hint Extern 2 (framed (_ ≫= _)) => apply framed_bind; [|intros ?] : framed.
#[local] Hint Extern 2 (framed (if ?b then _ else _)) => destruct b : framed.
#[local] Hint Extern 5 (framed (let '(_, _) := ?x in _)) => destruct x : framed.
#[local] Hint Extern 2 (framed (match ?x with Some _ => _ | None => _ end)) =>
  destruct x : framed.

Ltac solve_framed := eauto 30 with framed.

Lemma framed_construct_at p (ctor : M T W T) : framed ctor → framed (construct_at p ctor).
Proof. intros ?. unfold construct_at. solve_framed. Qed.

Lemma framed_destroy_at p : framed (destroy_at p).
Proof. unfold destroy_at. solve_framed. Qed.

Lemma framed_construct_copy dst src : framed (construct_copy dst src).
Proof. unfold construct_copy, construct_at. solve_framed. Qed.

Lemma framed_construct_move dst src : framed (construct_move dst src).
Proof.
  unfold construct_move. apply framed_bind; [solve_framed|intros v].
  apply framed_bind; [solve_framed|intros w].
  destruct (T_move v w) as [[w' r] v']. solve_framed.
Qed.

Lemma framed_assign_move dst src : framed (assign_move dst src).
Proof.
  unfold assign_move. apply framed_bind; [solve_framed|intros d].
  apply framed_bind; [solve_framed|intros v]. apply framed_bind; [solve_framed|intros w].
  destruct (T_move_assign d v w) as [[[w' ok] d'] v']. solve_framed.
Qed.

Lemma framed_assign_from_temporary dst t : framed (assign_from_temporary dst t).
Proof.
  unfold assign_from_temporary. apply framed_bind; [solve_framed|intros d].
  apply framed_bind; [solve_framed|intros w].
  destruct (T_move_assign d t w) as [[[w' ok] d'] t']. solve_framed.
Qed.

#[local] Hint Resolve framed_construct_at framed_destroy_at framed_construct_copy
  framed_construct_move framed_assign_move framed_assign_from_temporary : framed.

Lemma framed_destroy_loop p n : ∀ i, framed (destroy_loop p i n).
Proof. induction n as [|n IH]; intros i; simpl; solve_framed. Qed.

Lemma framed_destroy_n p n : framed (destroy_n p n).
Proof. apply framed_destroy_loop. Qed.

#[local] Hint Resolve framed_destroy_n : framed.

Lemma framed_uninitialized_loop step d_first n :
  (∀ k, framed (step k)) → ∀ i, framed (uninitialized_loop step d_first i n).
Proof. intros Hstep. induction n as [|n IH]; intros i; simpl; solve_framed. Qed.

Lemma framed_TransferDataSafely p n q : framed (TransferDataSafely p n q).
Proof.
  unfold TransferDataSafely, uninitialized_move_n, uninitialized_copy_n.
  destruct (is_nothrow_move_constructible || negb is_copy_constructible);
    apply framed_uninitialized_loop; intros k; solve_framed.
Qed.

Lemma framed_move_backward_loop n : ∀ last d_last, framed (move_backward_loop last d_last n).
Proof. induction n as [|n IH]; intros last d_last; simpl; solve_framed. Qed.

Lemma framed_move_backward first last d_last : framed (move_backward first last d_last).
Proof.
  unfold move_backward. destruct (ptr_distance first last); [|done].
  apply framed_move_backward_loop.
Qed.

Lemma framed_RawMemory_dtor m : framed (RawMemory_dtor m).
Proof. apply framed_operator_delete. Qed.

Lemma framed_RawMemory_plus m offset : framed (RawMemory_plus m offset : M T W pointer).
Proof. unfold RawMemory_plus. solve_framed. Qed.

Lemma framed_RawMemory_index m index : framed (RawMemory_index m index : M T W pointer).
Proof. unfold RawMemory_index. solve_framed. Qed.

#[local] Hint Resolve framed_TransferDataSafely framed_move_backward framed_RawMemory_dtor
  framed_RawMemory_plus framed_RawMemory_index : framed.

(** ** The growth rule *)

Lemma wlp_ret {A} (a : A) s (Q : A → State T W → Prop) E : Q a s → wlp (mret a) s Q E.
Proof. done. Qed.

Lemma wlp_get_vec_eq {A} this v (k : Vector → M T W A) s Q E :
  objs s !! this = Some v → wlp (k v) s Q E → wlp (get_vec this ≫= k) s Q E.
Proof.
  intros Hv Hk. unfold wlp, mbind, M_bind in *. by rewrite (get_vec_eq _ _ _ Hv).
Qed.

Lemma wlp_on_throw_any {A} (m : M T W A) cleanup s Q :
  wlp m s Q (λ _, True) → wlp (on_throw m cleanup) s Q (λ _, True).
Proof.
  unfold wlp, on_throw. destruct (m s) as [a s'|s'| |]; try done.
  by destruct (cleanup s').
Qed.

Lemma wlp_RawMemory_sized n s (Q : RawMemory → State T W → Prop) E :
  n ≠ 0%N →
  (∀ s1, objs s1 = objs s → length (heap s1) = S (length (heap s)) →
         Q (mkRawMemory (Addr (length (heap s)) 0) n) s1) →
  E s →
  wlp (RawMemory_sized n) s Q E.
Proof.
  intros Hn HQ HE. unfold RawMemory_sized, Allocate.
  rewrite (proj2 (N.eqb_neq _ _) Hn).
  unfold wlp, mbind, M_bind, operator_new.
  destruct (_ && _); [|done]. simpl. apply HQ; simpl; [done|].
  rewrite length_app. simpl. lia.
Qed.

Lemma grown_capacity_eq size :
  (size ≤ PTRDIFF_MAX)%N →
  grown_capacity size = N.max 1 (2 * size) ∧ grown_capacity size ≠ 0%N.
Proof.
  rewrite PTRDIFF_MAX_eq. intros Hs. unfold grown_capacity.
  destruct (size =? 0)%N eqn:Hz.
  - apply N.eqb_eq in Hz. subst. done.
  - apply N.eqb_neq in Hz. rewrite size_mul_small by (rewrite SIZE_MOD_eq; lia).
    lia.
Qed.

Lemma wlp_increment_size this d n s Q E :
  objs s !! this = Some (mkVector d n) →
  (n < SIZE_MOD - 1)%N →
  Q tt (set_objs (<[this := mkVector d (n + 1)]> (objs s)) s) →
  wlp (increment_size this) s Q E.
Proof.
  intros Hv Hn HQ. unfold increment_size. eapply wlp_get_vec_eq; [done|].
  simpl. rewrite size_add_small by lia. done.
Qed.

Lemma wlp_set_data this v d s Q E :
  objs s !! this = Some v →
  Q tt (set_objs (<[this := mkVector d (size_ v)]> (objs s)) s) →
  wlp (set_data this d) s Q E.
Proof.
  intros Hv HQ. unfold set_data. by eapply wlp_get_vec_eq.
Qed.

Lemma wlp_framed_inv {A} (m : M T W A) s O L (Q : A → State T W → Prop) E :
  framed m →
  objs s = O →
  length (heap s) = L →
  (∀ a s', objs s' = O → length (heap s') = L → Q a s') →
  (∀ s', objs s' = O → length (heap s') = L → E s') →
  wlp m s Q E.
Proof.
  intros Hm Ho Hl HQ HE. eapply wlp_framed; [done|..].
  - intros a s' [??]. apply HQ; congruence.
  - intros s' [??]. apply HE; congruence.
Qed.

(** One framed statement of a sequence, with the objects and the number of
    blocks kept in [Ho] and [Hl]. *)
Ltac frame_here Ho Hl :=
  match goal with
  | |- wlp _ ?s _ _ =>
      match type of Ho with
      | objs s = ?O =>
          match type of Hl with
          | length (heap s) = ?L =>
              eapply (wlp_framed_inv _ s O L);
              [solve_framed | exact Ho | exact Hl | clear Ho Hl; intros ? ? Ho Hl | done]
          end
      end
  end.
Ltac frame_step Ho Hl := apply wlp_bind; frame_here Ho Hl.

(** The three growing branches end alike: the vector takes [new_data], the
    local is destroyed, the length goes up. *)
Lemma growth_rule_intro this v s s2 d :
  objs s2 !! this = Some (mkVector d (size_ v + 1)) →
  length (heap s2) = S (length (heap s)) →
  size_ v = Capacity v →
  (size_ v ≤ PTRDIFF_MAX)%N →
  d = mkRawMemory (Addr (length (heap s)) 0) (grown_capacity (size_ v)) →
  growth_rule this v s s2.
Proof.
  intros Hv Hlen Hfull Hb ->. exists (mkVector (mkRawMemory (Addr (length (heap s)) 0)
    (grown_capacity (size_ v))) (size_ v + 1)).
  split; [done|]. split; [done|]. split; [done|]. split; [|done].
  intros _. split; [done|]. unfold Capacity at 1. simpl.
  rewrite <- Hfull. by apply grown_capacity_eq.
Qed.

Lemma growth_rule_in_place this v s s2 :
  objs s2 !! this = Some (mkVector (data_ v) (size_ v + 1)) →
  length (heap s2) = length (heap s) →
  size_ v ≠ Capacity v →
  growth_rule this v s s2.
Proof.
  intros Hv Hlen Hfull. exists (mkVector (data_ v) (size_ v + 1)).
  split; [done|]. split; [done|]. split; [|done].
  rewrite Hlen. split; [lia|done].
Qed.

Lemma PushBack_growth_rule this v value s :
  objs s !! this = Some v →
  (size_ v ≤ PTRDIFF_MAX)%N →
  wlp (PushBack this value) s (λ _ s', growth_rule this v s s') (λ _, True).
Proof.
  intros Hv Hb. pose proof Hb as Hb'. rewrite PTRDIFF_MAX_eq in Hb'.
  unfold PushBack. eapply wlp_get_vec_eq; [done|].
  apply wlp_bind. destruct (size_ v =? Capacity v)%N eqn:Hfull.
  - apply N.eqb_eq in Hfull.
    apply wlp_bind, wlp_RawMemory_sized; [by apply grown_capacity_eq| |done].
    intros s1 Ho Hl. unfold scoped_RawMemory.
    apply wlp_bind, wlp_on_throw_any.
    do 4 frame_step Ho Hl. simpl.
    apply wlp_bind. eapply wlp_set_data; [by rewrite Ho|].
    apply wlp_ret. simpl.
    assert (∀ t, objs t = <[this := mkVector
      (mkRawMemory (Addr (length (heap s)) 0) (grown_capacity (size_ v))) (size_ v)]> (objs s)
      → length (heap t) = S (length (heap s))
      → wlp (increment_size this) t (λ _ t', growth_rule this v s t') (λ _, True)) as Hlast.
    { intros t Ho' Hl'. eapply wlp_increment_size.
      - rewrite Ho'. apply lookup_insert_eq.
      - rewrite SIZE_MOD_eq. lia.
      - eapply growth_rule_intro; simpl; try done. apply lookup_insert_eq. }
    eapply wlp_framed; [solve_framed| |done].
    intros _ t [Ho' Hl']. simpl in *. apply Hlast; [by rewrite Ho', Ho|congruence].
  - apply N.eqb_neq in Hfull.
    pose proof (eq_refl (objs s)) as Ho. pose proof (eq_refl (length (heap s))) as Hl.
    frame_here Ho Hl.
    eapply (wlp_increment_size this (data_ v) (size_ v)).
    { rewrite Ho, Hv. by destruct v. }
    { rewrite SIZE_MOD_eq. lia. }
    apply growth_rule_in_place; simpl; try done.
    apply lookup_insert_eq.
Qed.

Lemma wlp_grown_finish this v s t :
  objs t = <[this := mkVector (mkRawMemory (Addr (length (heap s)) 0)
                                 (grown_capacity (size_ v))) (size_ v)]> (objs s) →
  length (heap t) = S (length (heap s)) →
  size_ v = Capacity v →
  (size_ v ≤ PTRDIFF_MAX)%N →
  wlp (increment_size this) t (λ _ t', growth_rule this v s t') (λ _, True).
Proof.
  intros Ho Hl Hfull Hb. pose proof Hb as Hb'. rewrite PTRDIFF_MAX_eq in Hb'.
  eapply wlp_increment_size.
  - rewrite Ho. apply lookup_insert_eq.
  - rewrite SIZE_MOD_eq. lia.
  - eapply growth_rule_intro; simpl; try done. apply lookup_insert_eq.
Qed.

Lemma wlp_in_place_finish this v s t :
  objs s !! this = Some v →
  objs t = objs s →
  length (heap t) = length (heap s) →
  size_ v ≠ Capacity v →
  (size_ v ≤ PTRDIFF_MAX)%N →
  wlp (increment_size this) t (λ _ t', growth_rule this v s t') (λ _, True).
Proof.
  intros Hv Ho Hl Hfull Hb. pose proof Hb as Hb'. rewrite PTRDIFF_MAX_eq in Hb'.
  eapply (wlp_increment_size this (data_ v) (size_ v)).
  - rewrite Ho, Hv. by destruct v.
  - rewrite SIZE_MOD_eq. lia.
  - apply growth_rule_in_place; simpl; try done. apply lookup_insert_eq.
Qed.

Lemma PushBack_rvalue_growth_rule this v value s :
  objs s !! this = Some v →
  (size_ v ≤ PTRDIFF_MAX)%N →
  wlp (PushBack_rvalue this value) s (λ _ s', growth_rule this v s s') (λ _, True).
Proof.
  intros Hv Hb.
  unfold PushBack_rvalue. eapply wlp_get_vec_eq; [done|].
  apply wlp_bind. destruct (size_ v =? Capacity v)%N eqn:Hfull.
  - apply N.eqb_eq in Hfull.
    apply wlp_bind, wlp_RawMemory_sized; [by apply grown_capacity_eq| |done].
    intros s1 Ho Hl. unfold scoped_RawMemory.
    apply wlp_bind, wlp_on_throw_any.
    do 4 frame_step Ho Hl. simpl.
    apply wlp_bind. eapply wlp_set_data; [by rewrite Ho|].
    apply wlp_ret. simpl.
    eapply wlp_framed; [solve_framed| |done].
    intros _ t [Ho' Hl']. simpl in *.
    apply wlp_grown_finish; [by rewrite Ho', Ho|congruence|done..].
  - apply N.eqb_neq in Hfull.
    pose proof (eq_refl (objs s)) as Ho. pose proof (eq_refl (length (heap s))) as Hl.
    frame_here Ho Hl. by apply wlp_in_place_finish.
Qed.

Lemma EmplaceBack_growth_rule this v ctor s :
  objs s !! this = Some v →
  (size_ v ≤ PTRDIFF_MAX)%N →
  wlp (EmplaceBack this ctor) s (λ _ s', growth_rule this v s s') (λ _, True).
Proof.
  intros Hv Hb.
  unfold EmplaceBack. eapply wlp_get_vec_eq; [done|].
  apply wlp_bind. destruct (size_ v =? Capacity v)%N eqn:Hfull.
  - apply N.eqb_eq in Hfull.
    apply wlp_bind, wlp_RawMemory_sized; [by apply grown_capacity_eq| |done].
    intros s1 Ho Hl.
    frame_step Ho Hl.
    apply wlp_bind. unfold scoped_RawMemory.
    apply wlp_bind, wlp_on_throw_any.
    do 3 frame_step Ho Hl. simpl.
    apply wlp_bind. eapply wlp_set_data; [by rewrite Ho|].
    apply wlp_ret. simpl.
    eapply wlp_framed; [solve_framed| |done].
    intros _ t [Ho' Hl']. simpl in *.
    apply wlp_ret, wlp_bind.
    eapply wlp_mono; [apply (wlp_grown_finish this v s)| |done]; try done.
    + by rewrite Ho', Ho.
    + congruence.
  - apply N.eqb_neq in Hfull.
    pose proof (eq_refl (objs s)) as Ho. pose proof (eq_refl (length (heap s))) as Hl.
    frame_here Ho Hl. apply wlp_bind.
    eapply wlp_mono; [by apply (wlp_in_place_finish this v s)| |done]; done.
Qed.

Lemma Emplace_growth_rule this v pos ctor s :
  objs s !! this = Some v →
  (size_ v ≤ PTRDIFF_MAX)%N →
  wlp (Emplace this pos ctor) s (λ _ s', growth_rule this v s s') (λ _, True).
Proof.
  intros Hv Hb.
  unfold Emplace. eapply wlp_get_vec_eq; [done|].
  destruct (ptr_distance (Vector_begin v) pos) as [offset|]; [|done].
  case_decide as Hend.
  - apply wlp_bind.
    eapply wlp_mono; [by apply EmplaceBack_growth_rule| |done].
    intros ? s' Hrule. simpl. apply wlp_bind, wlp_get_vec. done.
  - apply wlp_bind. destruct (size_ v =? Capacity v)%N eqn:Hfull.
    + apply N.eqb_eq in Hfull.
      apply wlp_bind, wlp_RawMemory_sized; [by apply grown_capacity_eq| |done].
      intros s1 Ho Hl. unfold scoped_RawMemory.
      apply wlp_bind, wlp_on_throw_any.
      do 5 frame_step Ho Hl. simpl.
      apply wlp_bind. eapply wlp_set_data; [by rewrite Ho|].
      apply wlp_ret. simpl.
      eapply wlp_framed; [solve_framed| |done].
      intros _ t [Ho' Hl']. simpl in *.
      apply wlp_bind.
      eapply wlp_mono; [apply (wlp_grown_finish this v s)| |done]; try done.
      * by rewrite Ho', Ho.
      * congruence.
      * intros ? t' Hrule. simpl. apply wlp_bind, wlp_get_vec. done.
    + apply N.eqb_neq in Hfull.
      pose proof (eq_refl (objs s)) as Ho. pose proof (eq_refl (length (heap s))) as Hl.
      frame_here Ho Hl. apply wlp_bind.
      eapply wlp_mono; [by apply (wlp_in_place_finish this v s)| |done].
      intros ? t' Hrule. simpl. apply wlp_bind, wlp_get_vec. done.
Qed.

(** ** Erasing *)

Lemma wp_assign_move_adjacent b dst src pre (d x : T) post w h a o Q E :
  h !! b = Some (mkBlock (pre ++ Some d :: Some x :: post) false) →
  N.to_nat dst = length pre →
  N.to_nat src = S (length pre) →
  match T_move_assign d x w with
  | (w', true, d', v') =>
      Q tt (mkState w' (<[b := mkBlock (pre ++ Some d' :: Some v' :: post) false]> h) a o)
  | (w', false, d', v') =>
      E (mkState w' (<[b := mkBlock (pre ++ Some d' :: Some v' :: post) false]> h) a o)
  end →
  wp (assign_move (Addr b dst) (Addr b src)) (mkState w h a o) Q E.
Proof.
  intros Hb Hdst Hsrc HQ. unfold assign_move.
  apply wp_bind. eapply wp_load; [done|by apply lookup_at_middle|].
  apply wp_bind. eapply wp_load; [done| |].
  { rewrite Hsrc. rewrite (app_cons_shift pre). apply lookup_at_middle.
    rewrite length_app. simpl. lia. }
  apply wp_bind, wp_get_world. simpl.
  destruct (T_move_assign d x w) as [[[w' ok] d'] v'].
  apply wp_bind, wp_put_world. simpl.
  apply wp_bind. eapply wp_set_cell; [done| |].
  { rewrite length_app. simpl. lia. }
  apply wp_bind. eapply wp_set_cell; [by eapply insert_block_lookup| |].
  { rewrite length_insert, length_app. simpl. lia. }
  rewrite list_insert_insert_eq.
  rewrite Hsrc, (app_cons_shift pre).
  rewrite (insert_at_middle (pre ++ [Some d])) by (rewrite length_app; simpl; lia).
  rewrite <- app_assoc. simpl.
  rewrite (insert_at_middle pre) by done.
  by destruct ok.
Qed.

Lemma shift_left_run_length d rest w :
  length (shift_left_run d rest w).1.2 = S (length rest).
Proof.
  revert d w. induction rest as [|v rest IH]; intros d w; simpl; [done|].
  destruct (T_move_assign d v w) as [[[w' []] d'] v']; simpl; [|done].
  specialize (IH v' w'). destruct (shift_left_run v' rest w') as [[w'' l] ok].
  simpl in *. by rewrite IH.
Qed.

Lemma wp_shift_left_loop b od os : ∀ rest d i pre post w h a o Q E,
  h !! b = Some (mkBlock (pre ++ Some d :: (Some <$> rest) ++ post) false) →
  N.to_nat (od + i) = length pre →
  N.to_nat (os + i) = S (length pre) →
  match shift_left_run d rest w with
  | (w', l, true) =>
      Q tt (mkState w' (<[b := mkBlock (pre ++ (Some <$> l) ++ post) false]> h) a o)
  | (w', l, false) =>
      E (mkState w' (<[b := mkBlock (pre ++ (Some <$> l) ++ post) false]> h) a o)
  end →
  wp (forward_loop (λ k, assign_move (ptr_add (Addr b od) k) (ptr_add (Addr b os) k))
        i (length rest))
     (mkState w h a o) Q E.
Proof.
  induction rest as [|v rest IH]; intros d i pre post w h a o Q E Hb Hd Hs HQ.
  - apply wp_ret. simpl in *. by rewrite insert_block_id in HQ.
  - rewrite fmap_cons, <- app_comm_cons in Hb.
    cbn [length forward_loop ptr_add]. apply wp_bind.
    eapply wp_assign_move_adjacent; [done..|].
    cbn [shift_left_run] in HQ.
    destruct (T_move_assign d v w) as [[[w' ok] d'] v'].
    destruct ok.
    + rewrite (app_cons_shift pre).
      eapply IH.
      * by eapply insert_block_lookup.
      * rewrite length_app. simpl. lia.
      * rewrite length_app. simpl. lia.
      * destruct (shift_left_run v' rest w') as [[w'' l] ok'].
        rewrite list_insert_insert_eq, <- app_assoc.
        by destruct ok'.
    + by rewrite fmap_cons, fmap_cons, <- !app_comm_cons in HQ.
Qed.

Lemma shift_left_run_transfers d rest w :
  move_assignment_transfers →
  ∃ w' z, shift_left_run d rest w = (w', rest ++ [z], true).
Proof.
  intros Hmv. revert d w. induction rest as [|v rest IH]; intros d w; simpl.
  - by exists w, d.
  - destruct (Hmv d v w) as [Hok Hval].
    destruct (T_move_assign d v w) as [[[w' ok] d'] v']. simpl in *. subst.
    destruct (IH v' w') as (w'' & z & ->). by exists w'', z.
Qed.

Lemma slots_split front (x : T) rest c :
  slots (front ++ x :: rest) c
  = (Some <$> front) ++ Some x :: (Some <$> rest)
      ++ replicate (N.to_nat c - length (front ++ x :: rest)) None.
Proof.
  unfold slots. rewrite fmap_app, fmap_cons, <- app_assoc. done.
Qed.

Lemma ptr_distance_same_block b o o' :
  (o ≤ o')%N → ptr_distance (Addr b o) (Addr b o') = Some (o' - o)%N.
Proof.
  intros Hle. unfold ptr_distance. rewrite decide_True by done.
  by rewrite (proj2 (N.leb_le _ _) Hle).
Qed.

Lemma wp_returns_value {A} (m : M T W A) s (r : A) (Q : State T W → Prop) :
  wp m s (λ a s', a = r ∧ Q s') (λ _, False) → ∃ s', m s = Ok r s' ∧ Q s'.
Proof.
  unfold wp. destruct (m s) as [a s'|s'| |]; try done. intros [-> ?]. eauto.
Qed.

Lemma wp_throws_inv {A} (m : M T W A) s (E : State T W → Prop) :
  wp m s (λ _ _, False) E → ∃ s', m s = Throw s' ∧ E s'.
Proof.
  unfold wp. destruct (m s) as [a s'|s'| |]; try done. eauto.
Qed.

(** C8. Erasing at position [p] of a vector with elements
    [front ++ x :: rest], [p] the length of [front], move-assigns the
    elements of [rest] one slot to the left, as [shift_left_run] has it.
    - For an element type whose move assignment completes and gives the
      assigned-to object the value of its source, the row after the shift
      is [rest] followed by one more object.
    - When every assignment completes, [Erase] destroys the object left in
      the last slot, and only that one, takes one off the length and
      returns the iterator given; the vector holds [front] followed by the
      shifted row without its last object, so with the first case
      [front ++ rest]: the element at [p] is gone and the order of the
      others is kept.  Buffer and capacity stay, no other block is touched.
    - When an assignment throws, [Erase] throws; the length is what it
      was and the vector holds [front] followed by the row as the shift
      left it. *)
Theorem erase_removes_one (this : nat) (v : Vector) front (x : T) rest pos s :
  objs s !! this = Some v →
  holds s v (front ++ x :: rest) →
  pos = ptr_add (Vector_begin v) (N.of_nat (length front)) →
  (move_assignment_transfers →
   ∃ w' z, shift_left_run x rest (world s) = (w', rest ++ [z], true))
  ∧ match shift_left_run x rest (world s) with
    | (w', l, true) =>
        ∃ ys z, l = ys ++ [z]
          ∧ ∃ s', Erase this pos s = Ok pos s'
            ∧ world s' = T_dtor z w'
            ∧ avail s' = avail s
            ∧ objs s' = <[this := mkVector (data_ v) (size_ v - 1)]> (objs s)
            ∧ holds s' (mkVector (data_ v) (size_ v - 1)) (front ++ ys)
            ∧ (∀ b, buffer_ (data_ v) ≠ Addr b 0 → heap s' !! b = heap s !! b)
    | (w', l, false) =>
        ∃ s', Erase this pos s = Throw s'
          ∧ world s' = w'
          ∧ avail s' = avail s
          ∧ objs s' = objs s
          ∧ holds s' v (front ++ l)
          ∧ (∀ b, buffer_ (data_ v) ≠ Addr b 0 → heap s' !! b = heap s !! b)
    end.
Proof.
  intros Hv Hh ->. split; [apply shift_left_run_transfers|].
  pose proof (holds_bounds _ _ _ Hh) as (Hle & Hcap & Hsz).
  destruct Hh as (_ & _ & Hbytes & Hbuf).
  rewrite length_app in Hsz. cbn [length] in Hsz.
  rewrite PTRDIFF_MAX_eq in Hcap.
  pose proof (shift_left_run_length x rest (world s)) as Hlen.
  destruct (shift_left_run x rest (world s)) as [[w' l] ok] eqn:Hrun.
  cbn [fst snd] in Hlen.
  destruct s as [w h a o]. destruct v as [[buf cap] sz]. simpl in *.
  destruct buf as [|b off]; [lia|]. destruct Hbuf as [-> Hb].
  unfold block_is in Hb. simpl in Hb. rewrite slots_split in Hb.
  rewrite length_app in Hb. cbn [length] in Hb.
  set (p := N.of_nat (length front)) in *.
  destruct ok.
  - destruct l as [|z ys _] using rev_ind; [done|].
    rewrite length_app in Hlen. cbn [length] in Hlen.
    exists ys, z. split; [done|].
    apply wp_returns_value. unfold Erase.
    apply wp_bind. eapply wp_get_vec; [done|].
    unfold Vector_begin, Vector_end, GetAddress, Size. cbn [data_ buffer_ size_ ptr_add].
    rewrite ptr_distance_same_block by lia.
    replace (0 + p - 0)%N with p by lia.
    apply wp_bind. unfold std_move. rewrite ptr_distance_same_block by lia.
    replace (N.to_nat (0 + sz - (0 + p + 1))) with (length rest) by lia.
    eapply (wp_shift_left_loop b (0 + p) (0 + p + 1) rest x 0 (Some <$> front));
      [exact Hb|rewrite length_fmap; lia|rewrite length_fmap; lia|].
    rewrite Hrun.
    apply wp_bind. unfold ptr_sub. rewrite (proj2 (N.leb_le 1 (0 + sz))) by lia.
    rewrite fmap_app, <- (app_assoc (Some <$> ys)), (app_assoc (Some <$> front)).
    eapply wp_destroy_at; [by eapply insert_block_lookup| |].
    { apply lookup_at_middle. rewrite length_app, !length_fmap. lia. }
    change ((Some <$> [z]) ++ ?l) with (Some z :: l).
    rewrite insert_at_middle by (rewrite length_app, !length_fmap; lia).
    rewrite list_insert_insert_eq.
    apply wp_bind, wp_set_vec. apply wp_ret. simpl.
    rewrite size_sub_small by (rewrite ?SIZE_MOD_eq; lia).
    split; [done|]. split; [done|]. split; [done|]. split; [done|]. split.
    + repeat split; simpl.
      * rewrite length_app. lia.
      * lia.
      * done.
      * unfold block_is. simpl. erewrite insert_block_lookup by done.
        unfold slots. rewrite fmap_app, length_app.
        replace (N.to_nat cap - (length front + length ys))
          with (S (N.to_nat cap - (length front + S (length rest)))) by lia.
        done.
    + intros b' Hb'. rewrite list_lookup_insert_ne; [done|]. congruence.
  - apply wp_throws_inv. unfold Erase.
    apply wp_bind. eapply wp_get_vec; [done|].
    unfold Vector_begin, Vector_end, GetAddress, Size. cbn [data_ buffer_ size_ ptr_add].
    rewrite ptr_distance_same_block by lia.
    replace (0 + p - 0)%N with p by lia.
    apply wp_bind. unfold std_move. rewrite ptr_distance_same_block by lia.
    replace (N.to_nat (0 + sz - (0 + p + 1))) with (length rest) by lia.
    eapply (wp_shift_left_loop b (0 + p) (0 + p + 1) rest x 0 (Some <$> front));
      [exact Hb|rewrite length_fmap; lia|rewrite length_fmap; lia|].
    rewrite Hrun. simpl.
    split; [done|]. split; [done|]. split; [done|]. split.
    + repeat split; simpl.
      * rewrite length_app. lia.
      * lia.
      * done.
      * unfold block_is. simpl. erewrite insert_block_lookup by done.
        unfold slots. rewrite fmap_app, length_app, <- app_assoc, Hlen.
        done.
    + intros b' Hb'. rewrite list_lookup_insert_ne; [done|]. congruence.
Qed.

(** ** Allocation and release *)

Lemma wp_RawMemory_sized n w h a o (Q : RawMemory → State T W → Prop) E :
  n ≠ 0%N →
  (n * sizeof_T < SIZE_MOD)%N →
  (if ((n * sizeof_T <=? a) && (n * sizeof_T <=? PTRDIFF_MAX))%N
   then Q (mkRawMemory (Addr (length h) 0) n)
          (mkState w (h ++ [mkBlock (replicate (N.to_nat n) None) false])
             (a - n * sizeof_T) o)
   else E (mkState w h a o)) →
  wp (RawMemory_sized n) (mkState w h a o) Q E.
Proof.
  intros Hn Hsmall HQ. unfold RawMemory_sized, Allocate.
  rewrite (proj2 (N.eqb_neq _ _) Hn).
  unfold wp, mbind, M_bind, operator_new. simpl.
  rewrite size_mul_small by done.
  destruct (_ && _); [|done]. simpl.
  rewrite N.div_mul; [done|]. pose proof (sizeof_T_pos (T:=T) (W:=W)). lia.
Qed.

Lemma wp_RawMemory_sized_0 s (Q : RawMemory → State T W → Prop) E :
  Q (mkRawMemory Null 0) s → wp (RawMemory_sized 0) s Q E.
Proof. done. Qed.

Lemma wp_RawMemory_dtor b c l w h a o Q E :
  h !! b = Some (mkBlock l false) →
  Q tt (mkState w (<[b := mkBlock l true]> h) (a + N.of_nat (length l) * sizeof_T) o) →
  wp (RawMemory_dtor (mkRawMemory (Addr b 0) c)) (mkState w h a o) Q E.
Proof.
  intros Hb HQ. unfold wp, RawMemory_dtor, Deallocate, operator_delete. simpl.
  by rewrite (live_block_eq _ _ _ _ _ _ Hb).
Qed.

Lemma wp_RawMemory_dtor_null c s Q E :
  Q tt s → wp (RawMemory_dtor (mkRawMemory Null c)) s Q E.
Proof. done. Qed.

Lemma wp_wlp {A} (m : M T W A) s Q E : wp m s Q E → wlp m s Q E.
Proof. unfold wp, wlp. by destruct (m s). Qed.

(** ** What cannot throw *)

Lemma nothrow_ret {A} (a : A) : nothrow (mret a : M T W A).
Proof. by intros s. Qed.

Lemma nothrow_bind {A B} (m : M T W A) (f : A → M T W B) :
  nothrow m → (∀ a, nothrow (f a)) → nothrow (m ≫= f).
Proof.
  intros Hm Hf s. apply wlp_bind. eapply wlp_mono; [apply Hm| |done].
  intros a s' _. apply Hf.
Qed.

Lemma nothrow_load p : nothrow (load p : M T W T).
Proof. intros s. unfold wlp, load. by destruct (cell_at p s) as [[?|]|]. Qed.

Lemma nothrow_set_cell p c : nothrow (set_cell p c : M T W unit).
Proof.
  intros s. unfold wlp, set_cell. destruct p as [|b off]; [done|].
  destruct (live_block b s); [|done]. by case_decide.
Qed.

Lemma nothrow_get_world : nothrow (get_world : M T W W).
Proof. by intros s. Qed.

Lemma nothrow_put_world w : nothrow (put_world w : M T W unit).
Proof. by intros s. Qed.

Lemma nothrow_get_vec this : nothrow (get_vec this : M T W Vector).
Proof. intros s. unfold wlp, get_vec. by destruct (objs s !! this). Qed.

Lemma nothrow_set_vec this v : nothrow (set_vec this v : M T W unit).
Proof. by intros s. Qed.

Lemma nothrow_operator_delete p : nothrow (operator_delete p : M T W unit).
Proof.
  intros s. unfold wlp, operator_delete. destruct p as [|b off]; [done|].
  destruct (live_block b s); [|done]. by destruct (off =? 0)%N.
Qed.

Create HintDb nothrow discriminated.
#[local] Hint Resolve nothrow_ret nothrow_load nothrow_set_cell nothrow_get_world
  nothrow_put_world nothrow_get_vec nothrow_set_vec nothrow_operator_delete : nothrow.
#[local] Hint Extern 2 (nothrow (_ ≫= _)) => apply nothrow_bind; [|intros ?] : nothrow.

Ltac solve_nothrow := eauto 30 with nothrow.

Lemma nothrow_destroy_at p : nothrow (destroy_at p).
Proof. unfold destroy_at. solve_nothrow. Qed.

#[local] Hint Resolve nothrow_destroy_at : nothrow.

Lemma nothrow_destroy_loop p n : ∀ i, nothrow (destroy_loop p i n).
Proof. induction n as [|n IH]; intros i; simpl; solve_nothrow. Qed.

Lemma nothrow_destroy_n p n : nothrow (destroy_n p n).
Proof. apply nothrow_destroy_loop. Qed.

Lemma nothrow_RawMemory_dtor m : nothrow (RawMemory_dtor m).
Proof. apply nothrow_operator_delete. Qed.

Lemma nothrow_set_data this d : nothrow (set_data this d : M T W unit).
Proof. unfold set_data. solve_nothrow. Qed.

Lemma nothrow_increment_size this : nothrow (increment_size this : M T W unit).
Proof. unfold increment_size. solve_nothrow. Qed.

#[local] Hint Resolve nothrow_destroy_n nothrow_RawMemory_dtor nothrow_set_data
  nothrow_increment_size : nothrow.

Lemma wlp_nothrow {A} (m : M T W A) s (E : State T W → Prop) :
  nothrow m → wlp m s (λ _ _, True) E.
Proof. intros Hm. eapply wlp_mono; [apply Hm|done..]. Qed.

Lemma wlp_nothrow_bind {A B} (m : M T W A) (f : A → M T W B) s Q E :
  nothrow m → (∀ a s', wlp (f a) s' Q E) → wlp (m ≫= f) s Q E.
Proof.
  intros Hm Hf. apply wlp_bind. eapply wlp_mono; [apply Hm| |done].
  intros a s' _. apply Hf.
Qed.

(** ** Transfers that throw *)

Lemma transfer_run_copy_sources xs w : (transfer_run via_copy xs w).1.2 = xs.
Proof.
  revert w. induction xs as [|x xs IH]; intros w; cbn [transfer_run]; [done|].
  unfold via_copy at 1. destruct (T_copy x w) as [w1 [y|]]; [|done].
  specialize (IH w1). destruct (transfer_run via_copy xs w1) as [[[w2 ys] xs''] ok].
  simpl in *. by f_equal.
Qed.

Lemma transfer_run_noexcept xs w :
  is_nothrow_move_constructible = true → (transfer_run via_move xs w).2 = true.
Proof.
  intros Hne. revert w. induction xs as [|x xs IH]; intros w; cbn [transfer_run]; [done|].
  pose proof (T_move_noexcept Hne x w) as Hx. unfold via_move at 1.
  destruct (T_move x w) as [[w1 [y|]] x']; simpl in Hx; [|done].
  specialize (IH w1). by destruct (transfer_run via_move xs w1) as [[[w2 ys] xs''] ok].
Qed.

Lemma transfer_failure_keeps_sources xs w w' ys xs' :
  transfer_keeps_sources →
  transfer_run transfer_step xs w = (w', ys, xs', false) →
  xs' = xs.
Proof.
  unfold transfer_keeps_sources, transfer_step. intros Hk Hrun.
  destruct is_nothrow_move_constructible eqn:Hne; simpl in *.
  - pose proof (transfer_run_noexcept xs w Hne) as Hok. by rewrite Hrun in Hok.
  - destruct Hk as [?|Hc]; [done|]. rewrite Hc in Hrun. simpl in Hrun.
    pose proof (transfer_run_copy_sources xs w) as Hsrc. by rewrite Hrun in Hsrc.
Qed.

Lemma lookup_app_new {A} (h : list A) B : (h ++ [B]) !! length h = Some B.
Proof. by apply lookup_at_middle. Qed.

Lemma insert_app_new {A} (h : list A) B B' : <[length h := B']> (h ++ [B]) = h ++ [B'].
Proof. by apply insert_at_middle. Qed.

Lemma insert_replicate_middle {A} (x y : A) n i :
  i < n → <[i := y]> (replicate n x) = replicate i x ++ y :: replicate (n - S i) x.
Proof.
  intros Hi. replace n with (i + S (n - S i)) at 1 by lia.
  rewrite replicate_add. simpl. apply insert_at_middle. by rewrite length_replicate.
Qed.

Lemma raw_below_replicate n m l : n ≤ m → raw_below n (replicate m None ++ l).
Proof.
  intros Hle i Hi. rewrite lookup_app_l by (rewrite length_replicate; lia).
  apply lookup_replicate_2. lia.
Qed.

Lemma holds_full_block h w a o v xs b off :
  holds (mkState w h a o) v xs →
  size_ v = Capacity v →
  buffer_ (data_ v) = Addr b off →
  off = 0%N ∧ h !! b = Some (mkBlock ((Some <$> xs) ++ []) false) ∧ b < length h.
Proof.
  intros (Hsz & Hle & Hbytes & Hbuf) Hfull Hb. rewrite Hb in Hbuf.
  destruct Hbuf as [-> Hblock]. split; [done|].
  unfold block_is, slots in Hblock. simpl in Hblock.
  unfold Capacity, RawMemory_Capacity in Hfull.
  replace (N.to_nat (capacity_ (data_ v)) - length xs) with 0 in Hblock by lia.
  split; [done|]. by eapply lookup_lt_Some.
Qed.

(** The body that [PushBack] and [EmplaceBack] share when they grow, in a
    state where the new block has just been allocated.  When it throws,
    the blocks there were are as they were, and in the new block the slots
    below the length are raw again. *)
Lemma growth_attempt_throws v xs (C : W → W * option T) (rest : M T W RawMemory)
    w h a0 a o nc :
  holds (mkState w h a0 o) v xs →
  size_ v = Capacity v →
  transfer_keeps_sources →
  nothrow rest →
  (size_ v < nc)%N →
  wlp (construct_at (Addr (length h) (0 + size_ v)) (run_ctor C);;
       TransferDataSafely (GetAddress (data_ v)) (size_ v) (Addr (length h) 0);;
       destroy_n (GetAddress (data_ v)) (size_ v);;
       rest)
      (mkState w (h ++ [mkBlock (replicate (N.to_nat nc) None) false]) a o)
      (λ _ _, True)
      (λ s', ∃ w' l, s' = mkState w' (h ++ [mkBlock l false]) a o
                     ∧ length l = N.to_nat nc ∧ raw_below (length xs) l).
Proof.
  intros Hh Hfull Hkeep Hrest Hnc.
  pose proof (holds_bounds _ _ _ Hh) as (Hle & Hcap & Hsz).
  apply wlp_bind, wp_wlp.
  eapply wp_construct_at; [apply lookup_app_new|rewrite length_replicate; lia|].
  destruct (C w) as [w1 [x|]].
  2:{ exists w1, (replicate (N.to_nat nc) None). split; [done|].
      split; [by rewrite length_replicate|].
      rewrite <- (app_nil_r (replicate _ _)). apply raw_below_replicate. lia. }
  rewrite insert_app_new, insert_replicate_middle by lia.
  replace (N.to_nat (0 + size_ v)) with (length xs) by lia.
  apply wlp_bind.
  destruct (buffer_ (data_ v)) as [|bo off] eqn:Hbuf.
  - (* no old block: nothing to transfer *)
    destruct Hh as (_ & _ & _ & Hnull). rewrite Hbuf in Hnull.
    unfold Capacity, RawMemory_Capacity in Hfull.
    rewrite Hfull, Hnull. unfold GetAddress. rewrite Hbuf.
    apply wp_wlp, wp_TransferDataSafely_0.
    apply wlp_nothrow_bind; [apply nothrow_destroy_n|]. intros _ s'.
    by apply wlp_nothrow.
  - destruct (holds_full_block _ _ _ _ _ _ _ _ Hh Hfull Hbuf) as (-> & Hold & Hlt).
    unfold GetAddress. rewrite Hbuf, Hsz.
    apply wp_wlp.
    eapply (wp_TransferDataSafely bo 0 (length h) 0 xs [] [] []);
      [lia|by rewrite lookup_app_l|done|apply lookup_app_new|done|].
    destruct (transfer_run transfer_step xs w1) as [[[w2 ys] xs'] ok] eqn:Hrun.
    destruct ok.
    + apply wlp_nothrow_bind; [apply nothrow_destroy_n|]. intros _ s'.
      by apply wlp_nothrow.
    + rewrite (transfer_failure_keeps_sources _ _ _ _ _ Hkeep Hrun).
      rewrite (insert_block_id _ bo) by by rewrite lookup_app_l.
      rewrite insert_app_new. simpl.
      eexists _, _. split; [done|]. split.
      * rewrite length_app, length_replicate. simpl. rewrite length_replicate. lia.
      * by apply raw_below_replicate.
Qed.

Lemma wlp_on_throw {A} (m : M T W A) cleanup s Q E :
  wlp m s Q (λ s', wlp cleanup s' (λ _ s'', E s'') E) → wlp (on_throw m cleanup) s Q E.
Proof.
  unfold wlp, on_throw. destruct (m s) as [a s'|s'| |]; try done.
  by destruct (cleanup s').
Qed.

Lemma wlp_assert (b : bool) s Q E : (b = true → Q tt s) → wlp (assert b) s Q E.
Proof. destruct b; [|done]. intros HQ. by apply HQ. Qed.

Lemma rolled_back_same w w' h a o (P : list (option T) → Prop) :
  rolled_back (mkState w h a o) (mkState w' h a o) P.
Proof.
  split; [done|]. split; [done|]. split; [simpl; by rewrite firstn_all|].
  simpl. intros b B Hb Hle. apply lookup_lt_Some in Hb. lia.
Qed.

Lemma rolled_back_new w w' h a o l (P : list (option T) → Prop) :
  P l → rolled_back (mkState w h a o) (mkState w' (h ++ [mkBlock l true]) a o) P.
Proof.
  intros HP. split; [done|]. split; [done|]. split; [simpl; by rewrite take_app_length|].
  simpl. intros b B Hb Hle.
  assert (b = length h) as ->.
  { apply lookup_lt_Some in Hb. rewrite length_app in Hb. simpl in Hb. lia. }
  rewrite lookup_app_new in Hb. by injection Hb as <-.
Qed.

Lemma holds_rolled_back s s' v xs P :
  holds s v xs → rolled_back s s' P → holds s' v xs.
Proof.
  intros (Hsz & Hle & Hbytes & Hbuf) (_ & _ & Htake & _).
  split; [done|]. split; [done|]. split; [done|].
  destruct (buffer_ (data_ v)) as [|b off]; [done|].
  destruct Hbuf as [-> Hb]. split; [done|].
  unfold block_is in *. rewrite <- Htake in Hb.
  rewrite lookup_take_Some in Hb. by destruct Hb.
Qed.

Lemma grown_capacity_fits v xs s :
  holds s v xs →
  size_ v = Capacity v →
  grown_capacity (size_ v) ≠ 0%N
  ∧ (grown_capacity (size_ v) * sizeof_T < SIZE_MOD)%N
  ∧ (size_ v < grown_capacity (size_ v))%N.
Proof.
  intros Hh Hfull. pose proof (holds_bounds _ _ _ Hh) as (Hle & Hcap & Hsz).
  destruct Hh as (_ & _ & Hbytes & _).
  destruct (grown_capacity_eq (size_ v)) as [Heq Hne]; [lia|].
  split; [done|]. rewrite Heq.
  unfold Capacity, RawMemory_Capacity in Hfull. rewrite <- Hfull in Hbytes.
  pose proof (sizeof_T_max (T:=T) (W:=W)).
  rewrite PTRDIFF_MAX_eq in *. rewrite SIZE_MOD_eq. nia.
Qed.

(** The allocation of a growing insertion: either it throws and nothing
    has happened, or what follows runs with the new block at the end of
    the free store. *)
Lemma growth_allocation {A} v xs (k : RawMemory → M T W A) s Q P :
  holds s v xs →
  size_ v = Capacity v →
  (∀ w h a o nc,
     s = mkState w h a o → (size_ v < nc)%N → (nc * sizeof_T ≤ a)%N →
     wlp (k (mkRawMemory (Addr (length h) 0) nc))
       (mkState w (h ++ [mkBlock (replicate (N.to_nat nc) None) false])
          (a - nc * sizeof_T) o)
       Q (λ s', rolled_back s s' P)) →
  wlp (new_data ← RawMemory_sized (grown_capacity (size_ v)); k new_data)
      s Q (λ s', rolled_back s s' P).
Proof.
  intros Hh Hfull Hk.
  destruct (grown_capacity_fits _ _ _ Hh Hfull) as (Hne & Hfit & Hlt).
  destruct s as [w h a o].
  apply wlp_bind, wp_wlp, wp_RawMemory_sized; [done..|].
  destruct (_ && _) eqn:Hroom; [|apply rolled_back_same].
  apply andb_prop in Hroom as [Hroom _]. apply N.leb_le in Hroom.
  by apply Hk.
Qed.

(** The scope of the local [new_data]: when the body throws, leaving the
    old blocks as they were, the destructor of the local releases the new
    block. *)
Lemma scoped_new_block_throws (body : M T W RawMemory) w h a o nc P :
  (nc * sizeof_T ≤ a)%N →
  wlp body
    (mkState w (h ++ [mkBlock (replicate (N.to_nat nc) None) false]) (a - nc * sizeof_T) o)
    (λ _ _, True)
    (λ s', ∃ w' l, s' = mkState w' (h ++ [mkBlock l false]) (a - nc * sizeof_T) o
                   ∧ length l = N.to_nat nc ∧ P l) →
  wlp (scoped_RawMemory (mkRawMemory (Addr (length h) 0) nc) body)
    (mkState w (h ++ [mkBlock (replicate (N.to_nat nc) None) false]) (a - nc * sizeof_T) o)
    (λ _ _, True)
    (λ s', rolled_back (mkState w h a o) s' P).
Proof.
  intros Hroom Hbody.
  unfold scoped_RawMemory. apply wlp_bind, wlp_on_throw.
  eapply wlp_mono; [exact Hbody| |].
  - intros local' s' _. simpl. eapply wlp_mono; [apply nothrow_RawMemory_dtor|done..].
  - intros s' (w' & l & -> & Hlen & Hraw). simpl.
    apply wp_wlp. eapply wp_RawMemory_dtor; [apply lookup_app_new|].
    rewrite insert_app_new.
    replace (a - nc * sizeof_T + N.of_nat (length l) * sizeof_T)%N
      with a by (rewrite Hlen; lia).
    by apply rolled_back_new.
Qed.

Lemma wlp_RawMemory_plus_bind {A} b c offset (k : pointer → M T W A) s Q E :
  (offset ≤ c)%N →
  wlp (k (Addr b (0 + offset))) s Q E →
  wlp (RawMemory_plus (mkRawMemory (Addr b 0) c) offset ≫= k) s Q E.
Proof.
  intros Hle Hk. unfold RawMemory_plus, wlp, mbind, M_bind, assert in *. simpl.
  by rewrite (proj2 (N.leb_le _ _) Hle).
Qed.

Lemma PushBack_throws this v xs value s :
  transfer_keeps_sources →
  objs s !! this = Some v →
  holds s v xs →
  size_ v = Capacity v →
  wlp (PushBack this value) s (λ _ _, True)
      (λ s', rolled_back s s' (raw_below (length xs))).
Proof.
  intros Hkeep Hv Hh Hfull. unfold PushBack.
  eapply wlp_get_vec_eq; [done|]. apply wlp_bind.
  rewrite (proj2 (N.eqb_eq _ _) Hfull).
  eapply wlp_mono;
    [eapply (growth_allocation v xs _ s _ (raw_below (length xs))); [exact Hh|exact Hfull|]
    | |done].
  - intros w h a o nc -> Hnc Hroom.
    apply scoped_new_block_throws; [done|].
    apply wlp_RawMemory_plus_bind; [lia|].
    eapply growth_attempt_throws; [done..| |done].
    simpl. solve_nothrow.
  - intros _ s' _. simpl. by apply wlp_nothrow, nothrow_increment_size.
Qed.

Lemma PushBack_rvalue_throws this v xs value s :
  transfer_keeps_sources →
  objs s !! this = Some v →
  holds s v xs →
  size_ v = Capacity v →
  wlp (PushBack_rvalue this value) s (λ _ _, True)
      (λ s', rolled_back s s' (raw_below (length xs))).
Proof.
  intros Hkeep Hv Hh Hfull. unfold PushBack_rvalue.
  eapply wlp_get_vec_eq; [done|]. apply wlp_bind.
  rewrite (proj2 (N.eqb_eq _ _) Hfull).
  eapply wlp_mono;
    [eapply (growth_allocation v xs _ s _ (raw_below (length xs))); [exact Hh|exact Hfull|]
    | |done].
  - intros w h a o nc -> Hnc Hroom.
    apply scoped_new_block_throws; [done|].
    apply wlp_RawMemory_plus_bind; [lia|].
    eapply growth_attempt_throws; [done..| |done].
    simpl. solve_nothrow.
  - intros _ s' _. simpl. by apply wlp_nothrow, nothrow_increment_size.
Qed.

Lemma EmplaceBack_throws this v xs ctor s :
  transfer_keeps_sources →
  objs s !! this = Some v →
  holds s v xs →
  size_ v = Capacity v →
  wlp (EmplaceBack this ctor) s (λ _ _, True)
      (λ s', rolled_back s s' (raw_below (length xs))).
Proof.
  intros Hkeep Hv Hh Hfull. unfold EmplaceBack.
  eapply wlp_get_vec_eq; [done|]. apply wlp_bind.
  rewrite (proj2 (N.eqb_eq _ _) Hfull).
  eapply wlp_mono;
    [eapply (growth_allocation v xs _ s (λ _ _, True) (raw_below (length xs)));
       [exact Hh|exact Hfull|]
    | |done].
  - intros w h a o nc -> Hnc Hroom.
    apply wlp_RawMemory_plus_bind; [lia|].
    apply wlp_bind.
    eapply wlp_mono;
      [apply (scoped_new_block_throws _ w h a o nc (raw_below (length xs))); [done|]
      |by intros|by intros].
    eapply growth_attempt_throws; [done..| |done].
    simpl. solve_nothrow.
  - intros p s' _. simpl. apply wlp_nothrow. solve_nothrow.
Qed.

Lemma wlp_throws {A} (m : M T W A) s Q E s' : wlp m s Q E → m s = Throw s' → E s'.
Proof. unfold wlp. intros H Hm. by rewrite Hm in H. Qed.

(** ** Positional insertion with growth *)

Lemma wp_RawMemory_plus_bind {A} b c offset (k : pointer → M T W A) s Q E :
  (offset ≤ c)%N →
  wp (k (Addr b (0 + offset))) s Q E →
  wp (RawMemory_plus (mkRawMemory (Addr b 0) c) offset ≫= k) s Q E.
Proof.
  intros Hle Hk. unfold RawMemory_plus, wp, mbind, M_bind, assert in *. simpl.
  by rewrite (proj2 (N.leb_le _ _) Hle).
Qed.

Lemma wp_get_vec_bind {A} this v (k : Vector → M T W A) s Q E :
  objs s !! this = Some v → wp (k v) s Q E → wp (get_vec this ≫= k) s Q E.
Proof.
  intros Hv Hk. unfold wp, mbind, M_bind in *. by rewrite (get_vec_eq _ _ _ Hv).
Qed.

Lemma transfer_run_ok_length f xs w w' ys xs' :
  transfer_run f xs w = (w', ys, xs', true) → length ys = length xs.
Proof.
  revert w w' ys xs'. induction xs as [|x xs IH]; intros w w' ys xs' Hrun; simpl in Hrun.
  - by injection Hrun as <- <- <-.
  - destruct (f x w) as [[w1 [y|]] x']; [|done].
    destruct (transfer_run f xs w1) as [[[w2 ys0] xs0] ok] eqn:Hrec.
    injection Hrun as <- <- <- ->. simpl. f_equal. by eapply IH.
Qed.

Lemma transfer_failure_means_copy xs w w' ys xs' :
  transfer_keeps_sources →
  transfer_run transfer_step xs w = (w', ys, xs', false) →
  transfer_step = via_copy.
Proof.
  unfold transfer_keeps_sources, transfer_step. intros Hk Hrun.
  destruct is_nothrow_move_constructible eqn:Hne; simpl in *.
  - pose proof (transfer_run_noexcept xs w Hne) as Hok. by rewrite Hrun in Hok.
  - destruct Hk as [?|Hc]; [done|]. by rewrite Hc.
Qed.

Lemma all_raw_replicate n : all_raw (replicate n (None : option T)).
Proof. apply Forall_replicate. done. Qed.

Lemma replicate_middle_None n i :
  i < n →
  replicate i (None : option T) ++ None :: replicate (n - S i) None = replicate n None.
Proof.
  intros Hi. rewrite <- (insert_replicate_middle None None n i Hi).
  by rewrite insert_replicate.
Qed.

(** The free store while a vector grows: the old block [bo] among the
    blocks [h] there were, and the new block at the end. *)
Lemma grown_lookup_old {A} (h : list A) bo Bo Bn :
  bo < length h → (<[bo := Bo]> h ++ [Bn]) !! bo = Some Bo.
Proof.
  intros Hlt. rewrite lookup_app_l by (by rewrite length_insert).
  by apply list_lookup_insert_eq.
Qed.

Lemma grown_lookup_new {A} (h : list A) bo Bo Bn :
  (<[bo := Bo]> h ++ [Bn]) !! length h = Some Bn.
Proof. apply lookup_at_middle. by rewrite length_insert. Qed.

Lemma grown_lookup_other {A} (h : list A) bo Bo Bn b :
  b < length h → b ≠ bo → (<[bo := Bo]> h ++ [Bn]) !! b = h !! b.
Proof.
  intros Hlt Hne. rewrite lookup_app_l by (by rewrite length_insert).
  by apply list_lookup_insert_ne.
Qed.

Lemma grown_insert_new {A} (h : list A) bo Bo Bn Bn' :
  <[length h := Bn']> (<[bo := Bo]> h ++ [Bn]) = <[bo := Bo]> h ++ [Bn'].
Proof. apply insert_at_middle. by rewrite length_insert. Qed.

Lemma grown_insert_old {A} (h : list A) bo Bo Bo' Bn :
  bo < length h → <[bo := Bo']> (<[bo := Bo]> h ++ [Bn]) = <[bo := Bo']> h ++ [Bn].
Proof.
  intros Hlt. rewrite insert_app_l by (by rewrite length_insert).
  by rewrite list_insert_insert_eq.
Qed.

Lemma grown_insert_both {A} (h : list A) bo Bo Bo' Bn Bn' :
  bo < length h →
  <[length h := Bn']> (<[bo := Bo']> (<[bo := Bo]> h ++ [Bn])) = <[bo := Bo']> h ++ [Bn'].
Proof. intros Hlt. by rewrite grown_insert_old, grown_insert_new. Qed.

Lemma grown_start {A} (h : list A) bo Bo Bn :
  h !! bo = Some Bo → h ++ [Bn] = <[bo := Bo]> h ++ [Bn].
Proof. intros Hb. by rewrite list_insert_id. Qed.

Lemma rolled_back_new_raw w w' h a o n :
  rolled_back (mkState w h a o)
    (mkState w' (h ++ [mkBlock (replicate n None) true]) a o) all_raw.
Proof. apply rolled_back_new, all_raw_replicate. Qed.

(** The state a failed insertion with growth ends in: the vector in its
    old block, which holds the sources as the transfer left them, and the
    new block released with every cell raw. *)
Lemma failed_growth_state w w' h a o bo sz (xs xs' : list T) l n :
  holds (mkState w h a o) (mkVector (mkRawMemory (Addr bo 0) sz) sz) xs →
  length xs' = length xs →
  l = (Some <$> xs') →
  let v := mkVector (mkRawMemory (Addr bo 0) sz) sz in
  let s' := mkState w' (<[bo := mkBlock l false]> h ++ [mkBlock (replicate n None) true])
              a o in
  objs s' = o
  ∧ avail s' = a
  ∧ (∃ zs, holds s' v zs ∧ length zs = length xs)
  ∧ (∀ b B, heap s' !! b = Some B → length h ≤ b → released B = true ∧ all_raw (cells B))
  ∧ (∀ b, b < length h → buffer_ (data_ v) ≠ Addr b 0 → heap s' !! b = h !! b)
  ∧ (xs' = xs → rolled_back (mkState w h a o) s' all_raw ∧ holds s' v xs).
Proof.
  intros Hh Hlen -> v s'.
  pose proof (holds_bounds _ _ _ Hh) as (Hle & Hcap & Hsz).
  destruct (holds_full_block _ _ _ _ _ _ _ _ Hh eq_refl eq_refl) as (_ & Hold & Hbo).
  assert (holds s' v xs') as Hh'.
  { destruct Hh as (? & ? & ? & _). subst v s'. repeat split; simpl in *; try done; try lia.
    unfold block_is, slots. simpl.
    rewrite lookup_app_l by (by rewrite length_insert).
    rewrite list_lookup_insert_eq by done.
    replace (N.to_nat sz - length xs') with 0 by lia. by rewrite app_nil_r. }
  split; [done|]. split; [done|]. split; [by exists xs'|]. split; [|split].
  - intros b B HB Hb. subst s'. simpl in HB.
    assert (b = length h) as ->.
    { apply lookup_lt_Some in HB. rewrite length_app, length_insert in HB. simpl in HB. lia. }
    rewrite lookup_app_r in HB by (by rewrite length_insert).
    rewrite length_insert, Nat.sub_diag in HB. injection HB as <-.
    split; [done|]. apply all_raw_replicate.
  - intros b Hb Hne. subst s'. simpl. apply grown_lookup_other; [done|]. simpl in Hne. congruence.
  - intros ->. split; [|done]. subst s'.
    rewrite app_nil_r in Hold. rewrite (list_insert_id h bo) by done.
    apply rolled_back_new_raw.
Qed.

Lemma Emplace_growth_outcome (this : nat) (v : Vector) pre (y : T) suf pos ctor s :
  objs s !! this = Some v →
  holds s v (pre ++ y :: suf) →
  size_ v = Capacity v →
  pos = ptr_add (Vector_begin v) (N.of_nat (length pre)) →
  let nc := grown_capacity (size_ v) in
  let nb := length (heap s) in
  let v' := mkVector (mkRawMemory (Addr nb 0) nc) (size_ v + 1) in
  if ((nc * sizeof_T <=? avail s) && (nc * sizeof_T <=? PTRDIFF_MAX))%N then
    match emplace_with_growth_spec ctor pre (y :: suf) (world s) with
    | (w', None) =>
        ∃ s', Emplace this pos ctor s = Throw s'
              ∧ world s' = w'
              ∧ objs s' = objs s
              ∧ avail s' = avail s
              ∧ (∃ xs', holds s' v xs' ∧ length xs' = length (pre ++ y :: suf))
              ∧ (∀ b B, heap s' !! b = Some B → nb ≤ b →
                        released B = true ∧ all_raw (cells B))
              ∧ (∀ b, b < nb → buffer_ (data_ v) ≠ Addr b 0 → heap s' !! b = heap s !! b)
              ∧ (transfer_keeps_sources →
                 rolled_back s s' all_raw ∧ holds s' v (pre ++ y :: suf))
    | (w', Some new) =>
        ∃ s', Emplace this pos ctor s = Ok (Addr nb (0 + N.of_nat (length pre))) s'
              ∧ world s' = w'
              ∧ objs s' = <[this := v']> (objs s)
              ∧ holds s' v' new
              ∧ (∀ b, buffer_ (data_ v) = Addr b 0 →
                      ∃ B, heap s' !! b = Some B ∧ all_raw (cells B))
              ∧ (∀ b, b < nb → buffer_ (data_ v) ≠ Addr b 0 → heap s' !! b = heap s !! b)
    end
  else Emplace this pos ctor s = Throw s.
Proof.
  intros Hv Hh Hfull -> nc nb v'.
  destruct (grown_capacity_fits _ _ _ Hh Hfull) as (Hne & Hfit & Hlt).
  pose proof (holds_bounds _ _ _ Hh) as (Hle & Hcap & Hsz).
  rewrite length_app in Hsz. cbn [length] in Hsz.
  destruct s as [w h a o]. destruct v as [[buf cap] sz].
  unfold Capacity, RawMemory_Capacity in Hfull. simpl in *. subst cap.
  destruct buf as [|bo off].
  { destruct Hh as (_ & _ & _ & Hnull). simpl in Hnull. lia. }
  destruct (holds_full_block _ _ _ _ _ _ _ _ Hh eq_refl eq_refl) as (-> & Hold & Hbo).
  rewrite fmap_app in Hold.
  set (p := N.of_nat (length pre)) in *.
  unfold Vector_begin, GetAddress. cbn [data_ buffer_ ptr_add].
  match goal with |- ?G =>
    let F := eval pattern (Emplace this (Addr bo (0 + p)) ctor (mkState w h a o)) in G in
    match F with ?Spec _ => set (spec := Spec) end
  end.
  enough (wp (Emplace this (Addr bo (0 + p)) ctor) (mkState w h a o)
            (λ r s', spec (Ok r s')) (λ s', spec (Throw s'))) as Hwp.
  { unfold wp in Hwp. by destruct (Emplace _ _ _ _). }
  unfold Emplace. eapply wp_get_vec_bind; [done|].
  unfold Vector_begin, Vector_end, GetAddress, Size. cbn [data_ buffer_ size_ ptr_add].
  rewrite ptr_distance_same_block by lia.
  replace (0 + p - 0)%N with p by lia.
  rewrite decide_False by (intros [=]; lia).
  apply wp_bind. unfold Capacity, RawMemory_Capacity. cbn [data_ capacity_].
  rewrite N.eqb_refl.
  apply wp_bind, wp_RawMemory_sized; [done..|].
  fold nc. subst spec. cbv beta.
  destruct (_ && _) eqn:Hroom; [|done].
  apply andb_prop in Hroom as [Hroom Hmax]. apply N.leb_le in Hroom, Hmax.
  unfold scoped_RawMemory. apply wp_bind, wp_on_throw.
  apply wp_RawMemory_plus_bind; [lia|].
  apply wp_bind. eapply wp_construct_at; [apply lookup_app_new|rewrite length_replicate; lia|].
  unfold emplace_with_growth_spec.
  destruct (ctor w) as [w1 [x|]].
  2:{ (* the constructor of the new element throws *)
      eapply wp_RawMemory_dtor; [apply lookup_app_new|].
      rewrite insert_app_new, length_replicate.
      replace (a - nc * sizeof_T + N.of_nat (N.to_nat nc) * sizeof_T)%N with a by lia.
      rewrite <- app_assoc in Hold. rewrite (grown_start h bo _ _ Hold).
      eexists. split; [done|]. split; [done|].
      destruct (failed_growth_state w w1 h a o bo sz (pre ++ y :: suf) (pre ++ y :: suf)
                  ((Some <$> pre) ++ (Some <$> y :: suf) ++ []) (N.to_nat nc) Hh eq_refl)
        as (? & ? & ? & ? & ? & Hsame).
      { by rewrite app_nil_r, fmap_app. }
      do 5 (split; [done|]). intros _. by apply Hsame. }
  rewrite insert_app_new, insert_replicate_middle by lia.
  replace (N.to_nat (0 + p)) with (length pre) by lia.
  cbn [buffer_ ptr_add].
  rewrite <- app_assoc in Hold.
  rewrite (grown_start h bo _ _ Hold).
  (* the prefix *)
  apply wp_bind, wp_on_throw.
  eapply (wp_TransferDataSafely bo 0 (length h) 0 pre [] ((Some <$> y :: suf) ++ []) []);
    [lia|by apply grown_lookup_old|done|apply grown_lookup_new|done|].
  pose proof (transfer_run_length transfer_step pre w1) as Hlen1.
  destruct (transfer_run transfer_step pre w1) as [[[w2 ys] pre'] ok1] eqn:Hrun1.
  simpl in Hlen1.
  destruct ok1; rewrite grown_insert_both by done.
  2:{ (* the transfer of the prefix throws: the handler destroys the new element *)
      cbn [app].
      eapply wp_destroy_at;
        [apply grown_lookup_new|apply lookup_at_middle; rewrite length_replicate; lia|].
      rewrite (insert_at_middle (replicate (length pre) None))
        by (rewrite length_replicate; lia).
      rewrite grown_insert_new, replicate_middle_None by lia.
      eapply wp_RawMemory_dtor; [apply grown_lookup_new|].
      rewrite grown_insert_new, length_replicate.
      replace (a - nc * sizeof_T + N.of_nat (N.to_nat nc) * sizeof_T)%N with a by lia.
      eexists. split; [done|]. split; [done|].
      destruct (failed_growth_state w (T_dtor x (destroy_all ys w2)) h a o bo sz
                  (pre ++ y :: suf) (pre' ++ y :: suf)
                  ((Some <$> pre') ++ (Some <$> y :: suf) ++ []) (N.to_nat nc) Hh)
        as (? & ? & ? & ? & ? & Hsame).
      { rewrite !length_app. by rewrite Hlen1. }
      { by rewrite app_nil_r, fmap_app. }
      do 5 (split; [done|]). intros Hkeep. apply Hsame.
      by rewrite (transfer_failure_keeps_sources _ _ _ _ _ Hkeep Hrun1). }
  pose proof (transfer_run_ok_length _ _ _ _ _ _ Hrun1) as Hys.
  (* the suffix *)
  cbn [app].
  assert (sz < SIZE_MOD)%N as Hsmall by (rewrite SIZE_MOD_eq, PTRDIFF_MAX_eq in *; lia).
  rewrite size_sub_small by lia.
  replace (sz - p)%N with (N.of_nat (length (y :: suf))) by (simpl; lia).
  set (m := N.to_nat nc - S (length pre) - length (y :: suf)).
  replace (N.to_nat nc - S (length pre)) with (length (y :: suf) + m) by (simpl in *; lia).
  rewrite replicate_add, (app_cons_shift (Some <$> ys)).
  apply wp_bind, wp_on_throw.
  eapply (wp_TransferDataSafely bo (0 + p) (length h) (0 + (p + 1)) (y :: suf)
            (Some <$> pre') [] ((Some <$> ys) ++ [Some x]) (replicate m None));
    [lia|by apply grown_lookup_old|rewrite length_fmap; lia|apply grown_lookup_new
    |rewrite length_app, length_fmap; simpl; lia|].
  pose proof (transfer_run_length transfer_step (y :: suf) w2) as Hlen2.
  destruct (transfer_run transfer_step (y :: suf) w2) as [[[w3 zs] suf'] ok2] eqn:Hrun2.
  simpl in Hlen2.
  destruct ok2; rewrite grown_insert_both by done.
  2:{ (* the transfer of the suffix throws: the handler destroys the prefix and
         the new element *)
      replace (p + 1)%N with (N.of_nat (length (ys ++ [x])))
        by (rewrite length_app; simpl; lia).
      change [Some x] with (Some <$> [x]). rewrite <- fmap_app.
      eapply (wp_destroy_n (length h) 0 (ys ++ [x]) []);
        [apply grown_lookup_new|done|].
      rewrite grown_insert_new. cbn [app].
      rewrite <- !replicate_add.
      replace (length (ys ++ [x]) + (length (y :: suf) + m)) with (N.to_nat nc)
        by (rewrite length_app; simpl in *; lia).
      eapply wp_RawMemory_dtor; [apply grown_lookup_new|].
      rewrite grown_insert_new, length_replicate.
      replace (a - nc * sizeof_T + N.of_nat (N.to_nat nc) * sizeof_T)%N with a by lia.
      eexists. split; [done|]. split; [done|].
      destruct (failed_growth_state w (destroy_all (ys ++ [x]) (destroy_all zs w3)) h a o
                  bo sz (pre ++ y :: suf) (pre' ++ suf')
                  ((Some <$> pre') ++ (Some <$> suf') ++ []) (N.to_nat nc) Hh)
        as (? & ? & ? & ? & ? & Hsame).
      { rewrite !length_app. rewrite Hlen1, Hlen2. done. }
      { by rewrite app_nil_r, fmap_app. }
      do 5 (split; [done|]). intros Hkeep. apply Hsame.
      rewrite (transfer_failure_keeps_sources _ _ _ _ _ Hkeep Hrun2).
      pose proof (transfer_run_copy_sources pre w1) as Hpre.
      rewrite <- (transfer_failure_means_copy _ _ _ _ _ Hkeep Hrun2), Hrun1 in Hpre.
      simpl in Hpre. by subst pre'. }
  pose proof (transfer_run_ok_length _ _ _ _ _ _ Hrun2) as Hzs.
  (* both transfers succeeded: the old elements are destroyed and the vector
     takes the new buffer *)
  apply wp_bind.
  replace sz with (N.of_nat (length (pre' ++ suf'))) at 1 by (rewrite length_app; lia).
  rewrite (app_assoc (Some <$> pre')), <- fmap_app.
  eapply (wp_destroy_n bo 0 (pre' ++ suf') [] []); [by apply grown_lookup_old|done|].
  rewrite grown_insert_old by done.
  unfold RawMemory_move_assign, set_data. cbn [buffer_ capacity_].
  apply wp_bind. eapply wp_get_vec_bind; [exact Hv|]. apply wp_set_vec.
  apply wp_ret, wp_RawMemory_dtor_null.
  apply wp_bind. unfold increment_size.
  eapply wp_get_vec_bind; [apply lookup_insert_eq|].
  apply wp_set_vec.
  eapply wp_get_vec_bind; [apply lookup_insert_eq|]. apply wp_ret.
  cbn [objs set_objs world heap avail data_ size_ buffer_ ptr_add].
  rewrite insert_insert_eq.
  rewrite size_add_small by (rewrite SIZE_MOD_eq; rewrite PTRDIFF_MAX_eq in Hcap; lia).
  unfold set_objs. cbn [world heap avail objs].
  eexists. split; [reflexivity|]. cbn [world heap avail objs].
  split; [done|]. split; [done|]. split; [|split].
  - subst v' nc nb. simpl in Hzs.
    split; [cbn [size_]; rewrite length_app; cbn [length]; lia|].
    split; [cbn [size_ data_ capacity_]; lia|]. split; [done|]. split; [done|].
    unfold block_is. cbn [heap data_ capacity_]. rewrite grown_lookup_new.
    unfold slots. rewrite fmap_app, fmap_cons, <- !app_assoc. cbn [app].
    replace (N.to_nat (grown_capacity sz) - length (ys ++ x :: zs)) with m; [done|].
    subst m. rewrite length_app. simpl in *. lia.
  - intros b [= <-]. eexists. split; [by apply grown_lookup_old|].
    cbn [cells app]. rewrite app_nil_r. apply all_raw_replicate.
  - intros b Hb Hne'. apply grown_lookup_other; [done|congruence].
Qed.


(** ** Copy assignment *)

Lemma wp_assign_copy bs os bd od ls ld (d x : T) w h a o Q E :
  bs ≠ bd →
  h !! bs = Some (mkBlock ls false) →
  h !! bd = Some (mkBlock ld false) →
  ls !! N.to_nat os = Some (Some x) →
  ld !! N.to_nat od = Some (Some d) →
  match T_copy_assign d x w with
  | (w', true, d') =>
      Q tt (mkState w' (<[bd := mkBlock (<[N.to_nat od := Some d']> ld) false]> h) a o)
  | (w', false, d') =>
      E (mkState w' (<[bd := mkBlock (<[N.to_nat od := Some d']> ld) false]> h) a o)
  end →
  wp (assign_copy (Addr bd od) (Addr bs os)) (mkState w h a o) Q E.
Proof.
  intros Hne Hs Hd Hx Hdd HQ. unfold assign_copy.
  apply wp_bind. eapply wp_load; [done..|].
  apply wp_bind. eapply wp_load; [done..|].
  apply wp_bind, wp_get_world. simpl.
  destruct (T_copy_assign d x w) as [[w' ok] d'].
  apply wp_bind, wp_put_world. simpl.
  apply wp_bind. eapply wp_set_cell; [done|by eapply lookup_lt_Some|].
  by destruct ok.
Qed.

Lemma assign_run_length ds ss w : length (assign_run ds ss w).1.2 = length ds.
Proof.
  revert ss w. induction ds as [|d ds IH]; intros [|x ss] w; simpl; try done.
  destruct (T_copy_assign d x w) as [[w' []] d']; simpl; [|done].
  specialize (IH ss w'). destruct (assign_run ds ss w') as [[w'' l] ok].
  simpl in *. by rewrite IH.
Qed.

(** [std::copy_n] from a block [bs] to another block [bd]. *)
Lemma wp_copy_loop bs os bd od :
  bs ≠ bd →
  ∀ ss ds i ps qs pd qd w h a o Q E,
  length ds = length ss →
  h !! bs = Some (mkBlock (ps ++ (Some <$> ss) ++ qs) false) →
  length ps = N.to_nat (os + i) →
  h !! bd = Some (mkBlock (pd ++ (Some <$> ds) ++ qd) false) →
  length pd = N.to_nat (od + i) →
  match assign_run ds ss w with
  | (w', l, true) =>
      Q tt (mkState w' (<[bd := mkBlock (pd ++ (Some <$> l) ++ qd) false]> h) a o)
  | (w', l, false) =>
      E (mkState w' (<[bd := mkBlock (pd ++ (Some <$> l) ++ qd) false]> h) a o)
  end →
  wp (forward_loop (λ k, assign_copy (ptr_add (Addr bd od) k) (ptr_add (Addr bs os) k))
        i (length ss))
     (mkState w h a o) Q E.
Proof.
  intros Hne.
  induction ss as [|x ss IH]; intros [|d ds] i ps qs pd qd w h a o Q E Hlen Hs Hps Hd Hpd HQ;
    try done.
  - apply wp_ret. simpl in HQ. by rewrite insert_block_id in HQ.
  - rewrite fmap_cons, <- app_comm_cons in Hs, Hd.
    cbn [length forward_loop ptr_add]. apply wp_bind.
    eapply wp_assign_copy; [done..| | |].
    { by apply lookup_at_middle. }
    { by apply lookup_at_middle. }
    cbn [assign_run] in HQ.
    destruct (T_copy_assign d x w) as [[w' ok] d'].
    rewrite (insert_at_middle pd) by done.
    destruct ok.
    + rewrite (app_cons_shift pd), (app_cons_shift ps) in *.
      eapply (IH ds).
      * simpl in Hlen. lia.
      * by rewrite list_lookup_insert_ne.
      * rewrite length_app. simpl. lia.
      * by eapply insert_block_lookup.
      * rewrite length_app. simpl. lia.
      * destruct (assign_run ds ss w') as [[w'' l] ok'].
        rewrite list_insert_insert_eq, <- app_assoc.
        by destruct ok'.
    + by rewrite fmap_cons, <- app_comm_cons in HQ.
Qed.

Lemma wp_copy_n bs os bd od ss ds ps qs pd qd w h a o Q E :
  bs ≠ bd →
  length ds = length ss →
  h !! bs = Some (mkBlock (ps ++ (Some <$> ss) ++ qs) false) →
  length ps = N.to_nat os →
  h !! bd = Some (mkBlock (pd ++ (Some <$> ds) ++ qd) false) →
  length pd = N.to_nat od →
  match assign_run ds ss w with
  | (w', l, true) =>
      Q tt (mkState w' (<[bd := mkBlock (pd ++ (Some <$> l) ++ qd) false]> h) a o)
  | (w', l, false) =>
      E (mkState w' (<[bd := mkBlock (pd ++ (Some <$> l) ++ qd) false]> h) a o)
  end →
  wp (copy_n (Addr bs os) (N.of_nat (length ss)) (Addr bd od)) (mkState w h a o) Q E.
Proof.
  intros Hne Hlen Hs Hps Hd Hpd HQ. unfold copy_n. rewrite Nat2N.id.
  eapply wp_copy_loop; try done; lia.
Qed.

Lemma assign_run_transfers ds ss w :
  copy_transfers → length ds = length ss →
  ∃ w', assign_run ds ss w = (w', ss, true).
Proof.
  intros [_ Hassign]. revert ss w.
  induction ds as [|d ds IH]; intros [|x ss] w Hlen; try done.
  - by exists w.
  - simpl. destruct (Hassign d x w) as [Hok Hval].
    destruct (T_copy_assign d x w) as [[w' ok] d']. simpl in *. subst.
    destruct (IH ss w') as [w'' ->]; [lia|]. by exists w''.
Qed.

Lemma transfer_run_copy_transfers xs w :
  copy_transfers → ∃ w', transfer_run via_copy xs w = (w', xs, xs, true).
Proof.
  intros [Hcopy _]. revert w. induction xs as [|x xs IH]; intros w; cbn [transfer_run].
  - by exists w.
  - unfold via_copy at 1. specialize (Hcopy x w).
    destruct (T_copy x w) as [w1 r]. simpl in Hcopy. subst r.
    destruct (IH w1) as [w2 ->]. by exists w2.
Qed.

Lemma holds_block w h a o v xs :
  holds (mkState w h a o) v xs →
  size_ v ≠ 0%N →
  ∃ b, buffer_ (data_ v) = Addr b 0
       ∧ h !! b = Some (mkBlock (slots xs (capacity_ (data_ v))) false)
       ∧ b < length h.
Proof.
  intros (Hsz & Hle & Hbytes & Hbuf) Hne.
  destruct (buffer_ (data_ v)) as [|b off]; [lia|].
  destruct Hbuf as [-> Hb]. exists b. split; [done|]. split; [done|].
  by eapply lookup_lt_Some.
Qed.

(** [Vector(const Vector& other)] of a vector that is not empty: the new
    block holds the copies, or is released again when a copy throws. *)
Lemma wp_copy_of r src w h a o (Q : Vector → State T W → Prop) E :
  holds (mkState w h a o) r src →
  size_ r ≠ 0%N →
  (if (size_ r * sizeof_T <=? a)%N then
     match transfer_run via_copy src w with
     | (w1, ys, _, true) =>
         Q (mkVector (mkRawMemory (Addr (length h) 0) (size_ r)) (size_ r))
           (mkState w1 (h ++ [mkBlock (slots ys (size_ r)) false])
              (a - size_ r * sizeof_T) o)
     | (w1, ys, _, false) =>
         E (mkState (destroy_all ys w1)
              (h ++ [mkBlock (replicate (N.to_nat (size_ r)) None) true]) a o)
     end
   else E (mkState w h a o)) →
  wp (copy_of r) (mkState w h a o) Q E.
Proof.
  intros Hh Hne HQ.
  pose proof (holds_bounds _ _ _ Hh) as (Hle & Hcap & Hsz).
  destruct (holds_block _ _ _ _ _ _ Hh Hne) as (br & Hbuf & Hb & Hlt).
  destruct Hh as (_ & _ & Hbytes & _).
  pose proof (sizeof_T_pos (T:=T) (W:=W)) as Hpos.
  assert (size_ r * sizeof_T ≤ PTRDIFF_MAX)%N as Hfit by nia.
  unfold copy_of. apply wp_bind, wp_RawMemory_sized; [done| |].
  { rewrite SIZE_MOD_eq. rewrite PTRDIFF_MAX_eq in Hfit. lia. }
  rewrite (proj2 (N.leb_le _ _) Hfit), andb_true_r.
  destruct (_ <=? _)%N eqn:Hroom; [|done]. apply N.leb_le in Hroom.
  apply wp_bind, wp_on_throw. unfold GetAddress. rewrite Hbuf. cbn [buffer_].
  rewrite Hsz. rewrite (grown_start h br _ _ Hb). unfold slots in Hb |- *.
  rewrite Nat2N.id in *.
  eapply (wp_uninitialized_copy_n br 0 (length h) 0 src [] _ [] []);
    [lia|by apply grown_lookup_old|done| |done|].
  { rewrite grown_lookup_new. by rewrite app_nil_r. }
  pose proof (transfer_run_copy_sources src w) as Hsrc.
  rewrite Hsz, Nat2N.id in HQ.
  destruct (transfer_run via_copy src w) as [[[w1 ys] src'] ok] eqn:Hrun.
  simpl in Hsrc. subst src'.
  destruct ok; rewrite grown_insert_both by done; cbn [app];
    rewrite <- (grown_start h br _ _ Hb).
  - apply wp_ret. cbn [app].
    pose proof (transfer_run_ok_length _ _ _ _ _ _ Hrun) as Hys.
    unfold slots in HQ. rewrite Nat2N.id, Hys, Nat.sub_diag in HQ. exact HQ.
  - eapply wp_RawMemory_dtor; [apply lookup_app_new|].
    rewrite insert_app_new. cbn [app]. rewrite app_nil_r, length_replicate.
    replace (a - N.of_nat (length src) * sizeof_T + N.of_nat (length src) * sizeof_T)%N
      with a by lia.
    exact HQ.
Qed.

Lemma holds_app w w' h (h' : list (Block T)) a a' o o' v xs :
  holds (mkState w h a o) v xs → holds (mkState w' (h ++ h') a' o') v xs.
Proof.
  intros (Hsz & Hle & Hbytes & Hbuf). split; [done|]. split; [done|]. split; [done|].
  destruct (buffer_ (data_ v)) as [|b off]; [done|].
  destruct Hbuf as [-> Hb]. split; [done|]. unfold block_is in *. simpl in *.
  rewrite lookup_app_l; [done|]. by eapply lookup_lt_Some.
Qed.

Lemma holds_insert_other w w' h a a' o o' v xs b B :
  holds (mkState w h a o) v xs →
  buffer_ (data_ v) ≠ Addr b 0 →
  holds (mkState w' (<[b := B]> h) a' o') v xs.
Proof.
  intros (Hsz & Hle & Hbytes & Hbuf) Hne. split; [done|]. split; [done|]. split; [done|].
  destruct (buffer_ (data_ v)) as [|b' off]; [done|].
  destruct Hbuf as [-> Hb]. split; [done|]. unfold block_is in *. simpl in *.
  rewrite list_lookup_insert_ne; [done|]. congruence.
Qed.

(** [~Vector()] on the members of a vector in a valid state. *)
Lemma wp_destroy_members t dst w h a o Q E :
  holds (mkState w h a o) t dst →
  match buffer_ (data_ t) with
  | Null => Q tt (mkState w h a o)
  | Addr bt _ =>
      Q tt (mkState (destroy_all dst w)
              (<[bt := mkBlock (replicate (N.to_nat (capacity_ (data_ t))) None) true]> h)
              (a + capacity_ (data_ t) * sizeof_T) o)
  end →
  wp (destroy_members t) (mkState w h a o) Q E.
Proof.
  intros Hh HQ. pose proof (holds_bounds _ _ _ Hh) as (Hle & Hcap & Hsz).
  destruct Hh as (_ & _ & Hbytes & Hbuf).
  unfold destroy_members, GetAddress. destruct t as [[buf cap] sz]. simpl in *.
  destruct buf as [|bt off].
  - subst cap. replace sz with 0%N by lia. by apply wp_bind, wp_destroy_n_0.
  - destruct Hbuf as [-> Hb]. unfold block_is, slots in Hb. simpl in Hb.
    rewrite Hsz. apply wp_bind.
    eapply (wp_destroy_n bt 0 dst []); [exact Hb|done|].
    eapply wp_RawMemory_dtor; [by eapply insert_block_lookup|].
    rewrite list_insert_insert_eq. cbn [app].
    rewrite <- replicate_add, length_replicate.
    replace (length dst + (N.to_nat cap - length dst)) with (N.to_nat cap) by lia.
    by rewrite N2Nat.id.
Qed.

(** [std::copy_n] over the first [n] elements of a source vector into a
    row of [n] objects of another block. *)
Lemma wp_copy_n_vector r src bt ds qd n w h a o Q E :
  holds (mkState w h a o) r src →
  n ≤ length src →
  buffer_ (data_ r) ≠ Addr bt 0 →
  h !! bt = Some (mkBlock ((Some <$> ds) ++ qd) false) →
  length ds = n →
  match assign_run ds (take n src) w with
  | (w1, l, true) => Q tt (mkState w1 (<[bt := mkBlock ((Some <$> l) ++ qd) false]> h) a o)
  | (w1, l, false) => E (mkState w1 (<[bt := mkBlock ((Some <$> l) ++ qd) false]> h) a o)
  end →
  wp (copy_n (GetAddress (data_ r)) (N.of_nat n) (Addr bt 0)) (mkState w h a o) Q E.
Proof.
  intros Hh Hn Hne Hb Hds HQ.
  destruct n as [|n].
  - destruct ds; [|done]. simpl in HQ. rewrite insert_block_id in HQ by done. done.
  - pose proof (holds_bounds _ _ _ Hh) as (Hle & Hcap & Hsz).
    destruct (holds_block _ _ _ _ _ _ Hh) as (br & Hbuf & Hbr & Hlt); [lia|].
    unfold GetAddress. rewrite Hbuf. unfold slots in Hbr.
    rewrite <- (take_drop (S n) src), fmap_app, <- app_assoc in Hbr.
    rewrite <- (length_take_le src (S n)) at 1 by lia.
    eapply (wp_copy_n br 0 bt 0 (take (S n) src) ds [] _ [] qd);
      [congruence|by rewrite length_take_le by lia|exact Hbr|done|exact Hb|done|].
    exact HQ.
Qed.

(** [std::uninitialized_copy_n] of the elements of a source vector from
    the [n]-th on into the raw cells of another block. *)
Lemma wp_uninitialized_copy_n_vector r src bt pd qd n w h a o Q E :
  holds (mkState w h a o) r src →
  n ≤ length src →
  buffer_ (data_ r) ≠ Addr bt 0 →
  h !! bt = Some (mkBlock (pd ++ replicate (length src - n) None ++ qd) false) →
  length pd = n →
  match transfer_run via_copy (drop n src) w with
  | (w1, ys, _, true) =>
      Q tt (mkState w1 (<[bt := mkBlock (pd ++ (Some <$> ys) ++ qd) false]> h) a o)
  | (w1, ys, _, false) => E (mkState (destroy_all ys w1) h a o)
  end →
  wp (uninitialized_copy_n (ptr_add (GetAddress (data_ r)) (N.of_nat n))
        (N.of_nat (length src - n)) (Addr bt (0 + N.of_nat n)))
     (mkState w h a o) Q E.
Proof.
  intros Hh Hn Hne Hb Hpd HQ.
  destruct (decide (length src - n = 0)) as [Hz|Hnz].
  - rewrite Hz. rewrite drop_ge in HQ by lia. simpl in HQ.
    rewrite Hz in Hb. simpl in Hb. rewrite insert_block_id in HQ by done. done.
  - pose proof (holds_bounds _ _ _ Hh) as (Hle & Hcap & Hsz).
    destruct (holds_block _ _ _ _ _ _ Hh) as (br & Hbuf & Hbr & Hlt); [lia|].
    unfold GetAddress. rewrite Hbuf. cbn [ptr_add]. unfold slots in Hbr.
    rewrite <- (take_drop n src), fmap_app, <- app_assoc in Hbr.
    rewrite <- (length_drop src n).
    rewrite <- (length_drop src n) in Hb.
    eapply (wp_uninitialized_copy_n br (0 + N.of_nat n) bt (0 + N.of_nat n)
              (drop n src) (Some <$> take n src) _ pd qd);
      [congruence|exact Hbr|rewrite length_fmap, length_take_le; lia|exact Hb|lia|].
    pose proof (transfer_run_copy_sources (drop n src) w) as Hsrc.
    destruct (transfer_run via_copy (drop n src) w) as [[[w1 ys] src'] ok].
    simpl in Hsrc. subst src'.
    rewrite (insert_block_id h br) by done.
    destruct ok; [done|]. by rewrite insert_block_id.
Qed.

Lemma copy_assign_spec_transfers dst src capacity w :
  copy_transfers → ∃ w', copy_assign_spec dst src capacity w = (w', Some src).
Proof.
  intros Hct. unfold copy_assign_spec. destruct (_ <? _)%N.
  - destruct (transfer_run_copy_transfers src w Hct) as [w1 ->]. eauto.
  - set (n := length dst `min` length src).
    destruct (assign_run_transfers (take n dst) (take n src) w Hct) as [w1 ->].
    { rewrite !length_take. lia. }
    destruct (length src <? length dst) eqn:Hlt.
    + apply Nat.ltb_lt in Hlt. rewrite take_ge by lia. eauto.
    + apply Nat.ltb_ge in Hlt.
      destruct (transfer_run_copy_transfers (drop n src) w1 Hct) as [w2 ->].
      rewrite take_drop. eauto.
Qed.

Lemma size_bytes_fit v xs s :
  holds s v xs → (size_ v * sizeof_T ≤ PTRDIFF_MAX)%N.
Proof.
  intros Hh. pose proof (holds_bounds _ _ _ Hh) as (Hle & Hcap & Hsz).
  destruct Hh as (_ & _ & Hbytes & _). nia.
Qed.

Lemma copy_assignment_realloc_framed (this rhs : nat) (t r : Vector) dst src w h a o :
  this ≠ rhs →
  o !! this = Some t →
  o !! rhs = Some r →
  holds (mkState w h a o) t dst →
  holds (mkState w h a o) r src →
  (∀ b, buffer_ (data_ t) = Addr b 0 → buffer_ (data_ r) ≠ Addr b 0) →
  (capacity_ (data_ t) < size_ r)%N →
  let s := mkState w h a o in
  let t' := mkVector (mkRawMemory (Addr (length h) 0) (size_ r)) (size_ r) in
  wp (rhs_copy ← copy_of r; set_vec this rhs_copy;; destroy_members t) s
    (λ _ s',
       (∀ b, b < length h → buffer_ (data_ t) ≠ Addr b 0 → heap s' !! b = h !! b)
       ∧ length (heap s') = S (length h)
       ∧ ∃ w1 ys src',
       (size_ r * sizeof_T ≤ a)%N
       ∧ transfer_run via_copy src w = (w1, ys, src', true)
       ∧ world s' = destroy_all dst w1
       ∧ objs s' = <[this := t']> o
       ∧ holds s' t' ys
       ∧ holds s' r src
       ∧ (∀ b, buffer_ (data_ t) = Addr b 0 →
               ∃ B, heap s' !! b = Some B ∧ released B = true ∧ all_raw (cells B)))
    (λ s', ((a < size_ r * sizeof_T)%N ∧ s' = s)
           ∨ ((size_ r * sizeof_T ≤ a)%N
              ∧ ∃ w1 ys src',
                  transfer_run via_copy src w = (w1, ys, src', false)
                  ∧ world s' = destroy_all ys w1
                  ∧ objs s' = o
                  ∧ holds s' r src
                  ∧ rolled_back s s' all_raw
                  ∧ holds s' t dst)).
Proof.
  intros Hne Ht Hr Hht Hhr Hdisj Hre s t'.
  pose proof (holds_bounds _ _ _ Hht) as (Hlet & Hcapt & Hszt).
  pose proof (holds_bounds _ _ _ Hhr) as (Hler & Hcapr & Hszr).
  pose proof (size_bytes_fit _ _ _ Hhr) as Hfit.
  apply wp_bind. apply (wp_copy_of r src); [exact Hhr|lia|].
  destruct (_ <=? _)%N eqn:Hroom.
  2:{ apply N.leb_gt in Hroom. by left. }
  apply N.leb_le in Hroom.
  destruct (transfer_run via_copy src w) as [[[w1 ys] src'] ok] eqn:Hrun.
  destruct ok.
  2:{ right. split; [done|]. exists w1, ys, src'. split; [done|].
      pose proof (rolled_back_new_raw w (destroy_all ys w1) h a o (N.to_nat (size_ r))) as Hrb.
      split; [done|]. split; [done|].
      split; [by eapply holds_rolled_back|]. split; [done|].
      by eapply holds_rolled_back. }
  pose proof (transfer_run_ok_length _ _ _ _ _ _ Hrun) as Hys.
  apply wp_bind, wp_set_vec. unfold set_objs. cbn [world heap avail objs].
  apply (wp_destroy_members t dst); [exact (holds_app w _ h _ a _ o _ _ _ Hht)|].
  destruct (buffer_ (data_ t)) as [|bt off] eqn:Hbt.
  - (* the destination had no buffer *)
    assert (dst = []) as ->.
    { destruct Hht as (_ & _ & _ & Hnull). rewrite Hbt in Hnull.
      apply length_zero_iff_nil. lia. }
    split; [intros b Hb _; cbn; by rewrite lookup_app_l|].
    split; [cbn; rewrite length_app; simpl; lia|].
    exists w1, ys, src'. split; [done|]. split; [done|]. split; [done|].
    split; [done|]. split; [|split; [exact (holds_app w _ h _ a _ o _ _ _ Hhr)|done]].
    split; [cbn; lia|]. split; [cbn; lia|]. split; [done|]. split; [done|].
    unfold block_is. cbn. apply lookup_app_new.
  - assert (off = 0%N ∧ bt < length h) as [-> Hlt].
    { destruct Hht as (_ & _ & _ & Hb). rewrite Hbt in Hb. destruct Hb as [-> Hb].
      split; [done|]. by eapply lookup_lt_Some. }
    split.
    { intros b Hb Hnb. cbn. rewrite list_lookup_insert_ne by congruence.
      by rewrite lookup_app_l. }
    split; [cbn; rewrite length_insert, length_app; simpl; lia|].
    exists w1, ys, src'. split; [done|]. split; [done|]. split; [done|].
    split; [done|]. split; [|split].
    + split; [cbn; lia|]. split; [cbn; lia|]. split; [done|]. split; [done|].
      unfold block_is. cbn. rewrite list_lookup_insert_ne by lia. apply lookup_app_new.
    + eapply (holds_insert_other w _ _ a _ o);
        [exact (holds_app w w h _ a a o o _ _ Hhr)|]. by apply Hdisj.
    + intros b [= <-]. eexists. split.
      * apply list_lookup_insert_eq. rewrite length_app. lia.
      * split; [done|]. apply all_raw_replicate.
Qed.

Lemma copy_assignment_realloc (this rhs : nat) (t r : Vector) dst src w h a o :
  this ≠ rhs →
  o !! this = Some t →
  o !! rhs = Some r →
  holds (mkState w h a o) t dst →
  holds (mkState w h a o) r src →
  (∀ b, buffer_ (data_ t) = Addr b 0 → buffer_ (data_ r) ≠ Addr b 0) →
  (capacity_ (data_ t) < size_ r)%N →
  let s := mkState w h a o in
  let t' := mkVector (mkRawMemory (Addr (length h) 0) (size_ r)) (size_ r) in
  wp (rhs_copy ← copy_of r; set_vec this rhs_copy;; destroy_members t) s
    (λ _ s', ∃ w1 ys src',
       (size_ r * sizeof_T ≤ a)%N
       ∧ transfer_run via_copy src w = (w1, ys, src', true)
       ∧ world s' = destroy_all dst w1
       ∧ objs s' = <[this := t']> o
       ∧ holds s' t' ys
       ∧ holds s' r src
       ∧ (∀ b, buffer_ (data_ t) = Addr b 0 →
               ∃ B, heap s' !! b = Some B ∧ released B = true ∧ all_raw (cells B)))
    (λ s', ((a < size_ r * sizeof_T)%N ∧ s' = s)
           ∨ ((size_ r * sizeof_T ≤ a)%N
              ∧ ∃ w1 ys src',
                  transfer_run via_copy src w = (w1, ys, src', false)
                  ∧ world s' = destroy_all ys w1
                  ∧ objs s' = o
                  ∧ holds s' r src
                  ∧ rolled_back s s' all_raw
                  ∧ holds s' t dst)).
Proof.
  intros Hne Ht Hr Hht Hhr Hdisj Hre s t'.
  eapply wp_mono; [by apply (copy_assignment_realloc_framed this rhs t r dst src)| |done].
  by intros _ s' (_ & _ & H).
Qed.

Lemma wp_copy_n_0 p q s Q E : Q tt s → wp (copy_n p 0 q) s Q E.
Proof. done. Qed.

Lemma wp_uninitialized_copy_n_0 p q s Q E :
  Q tt s → wp (uninitialized_copy_n p 0 q) s Q E.
Proof. done. Qed.

Lemma wp_set_size this v n s Q E :
  objs s !! this = Some v →
  Q tt (set_objs (<[this := mkVector (data_ v) n]> (objs s)) s) →
  wp (set_size this n) s Q E.
Proof. intros Hv HQ. unfold set_size. by eapply wp_get_vec_bind. Qed.

Lemma copy_assignment_in_place_framed (this rhs : nat) (t r : Vector) dst src w h a o :
  this ≠ rhs →
  o !! this = Some t →
  o !! rhs = Some r →
  holds (mkState w h a o) t dst →
  holds (mkState w h a o) r src →
  (∀ b, buffer_ (data_ t) = Addr b 0 → buffer_ (data_ r) ≠ Addr b 0) →
  (size_ r ≤ capacity_ (data_ t))%N →
  let t' := mkVector (data_ t) (size_ r) in
  wp ((if (size_ r <? size_ t)%N then
         copy_n (GetAddress (data_ r)) (size_ r) (GetAddress (data_ t));;
         destroy_n (ptr_add (GetAddress (data_ t)) (size_ r)) (size_sub (size_ t) (size_ r))
       else
         copy_n (GetAddress (data_ r)) (size_ t) (GetAddress (data_ t));;
         uninitialized_copy_n (ptr_add (GetAddress (data_ r)) (size_ t))
           (size_sub (size_ r) (size_ t)) (ptr_add (GetAddress (data_ t)) (size_ t)));;
      set_size this (size_ r))
    (mkState w h a o)
    (λ _ s', (∀ b, buffer_ (data_ t) ≠ Addr b 0 → heap s' !! b = h !! b)
             ∧ ∃ xs, copy_assign_spec dst src (capacity_ (data_ t)) w = (world s', Some xs)
                  ∧ objs s' = <[this := t']> o
                  ∧ holds s' t' xs
                  ∧ holds s' r src
                  ∧ length (heap s') = length h)
    (λ s', (∀ b, buffer_ (data_ t) ≠ Addr b 0 → heap s' !! b = h !! b)
           ∧ copy_assign_spec dst src (capacity_ (data_ t)) w = (world s', None)
           ∧ objs s' = o
           ∧ holds s' r src
           ∧ ∃ xs, holds s' t xs).
Proof.
  intros Hne Ht Hr Hht Hhr Hdisj Hfits t'.
  pose proof (holds_bounds _ _ _ Hht) as (Hlet & Hcapt & Hszt).
  pose proof (holds_bounds _ _ _ Hhr) as (Hler & Hcapr & Hszr).
  assert (size_ t < SIZE_MOD ∧ size_ r < SIZE_MOD)%N as [Hst Hsr].
  { rewrite SIZE_MOD_eq. rewrite PTRDIFF_MAX_eq in *. lia. }
  unfold copy_assign_spec. rewrite <- Hszr.
  rewrite (proj2 (N.ltb_ge _ _) Hfits).
  set (n := length dst `min` length src).
  destruct (buffer_ (data_ t)) as [|bt off] eqn:Hbt.
  - (* the destination has no buffer: both vectors are empty *)
    assert (capacity_ (data_ t) = 0%N) as Hc0.
    { destruct Hht as (_ & _ & _ & Hnull). by rewrite Hbt in Hnull. }
    assert (dst = [] ∧ src = []) as [-> ->].
    { split; apply length_zero_iff_nil; lia. }
    assert (size_ t = 0%N ∧ size_ r = 0%N) as [Ht0 Hr0] by (simpl in *; lia).
    subst t'. rewrite Ht0, Hr0.
    cbn. change (size_sub 0 0) with 0%N.
    apply wp_bind, wp_bind, wp_copy_n_0, wp_uninitialized_copy_n_0.
    eapply wp_set_size; [exact Ht|]. cbn.
    split; [done|].
    exists []. split; [done|]. split; [done|]. split; [|split; [|done]].
    + split; [done|]. split; [cbn; lia|]. split; [by destruct Hht as (_&_&?&_)|].
      cbn. by rewrite Hbt.
    + exact Hhr.
  - assert (off = 0%N ∧ h !! bt = Some (mkBlock (slots dst (capacity_ (data_ t))) false))
      as [-> Hb].
    { destruct Hht as (_ & _ & _ & Hb). rewrite Hbt in Hb. by destruct Hb. }
    assert (buffer_ (data_ r) ≠ Addr bt 0) as Hrne by by apply Hdisj.
    unfold GetAddress. rewrite Hbt. cbn [ptr_add].
    unfold slots in Hb.
    destruct (size_ r <? size_ t)%N eqn:Hshrink.
    + (* shrinking *)
      apply N.ltb_lt in Hshrink.
      assert (length src < length dst) as Hlen by lia.
      rewrite (proj2 (Nat.ltb_lt _ _) Hlen).
      assert (n = length src) as Hn by (subst n; lia).
      rewrite <- (take_drop n dst), fmap_app, <- app_assoc in Hb.
      apply wp_bind, wp_bind.
      rewrite Hszr, <- Hn.
      eapply (wp_copy_n_vector r src bt (take n dst)); [exact Hhr|lia|done|exact Hb| |].
      { rewrite length_take. lia. }
      pose proof (assign_run_length (take n dst) (take n src) w) as Hpl.
      destruct (assign_run (take n dst) (take n src) w) as [[w1 pref] ok1].
      simpl in Hpl. rewrite length_take in Hpl.
      destruct ok1.
      2:{ split; [intros b' Hb'; cbn; rewrite ?list_lookup_insert_ne by congruence; done|].
          split; [done|]. split; [done|].
          split; [by eapply (holds_insert_other w _ _ a _ o)|].
          exists (pref ++ drop n dst).
          split; [rewrite length_app, length_drop; lia|].
          split; [done|]. split; [by destruct Hht as (_ & _ & ? & _)|].
          rewrite Hbt. split; [done|]. unfold block_is, slots. cbn [heap].
          erewrite insert_block_lookup by done.
          rewrite fmap_app, <- app_assoc, !length_app, length_take. do 5 f_equal. lia. }
      rewrite size_sub_small by lia.
      replace (size_ t - N.of_nat n)%N with (N.of_nat (length (drop n dst)))
        by (rewrite length_drop; lia).
      eapply (wp_destroy_n bt (0 + N.of_nat n) (drop n dst) (Some <$> pref));
        [by eapply insert_block_lookup|rewrite length_fmap; lia|].
      rewrite list_insert_insert_eq.
      eapply wp_set_size; [exact Ht|]. unfold set_objs. cbn [world heap avail objs].
      subst t'.
      split; [intros b' Hb'; cbn; rewrite ?list_lookup_insert_ne by congruence; done|].
      exists pref. split; [done|]. split; [by rewrite Hszr, <- Hn|].
      split; [|split].
      * split; [cbn; lia|]. split; [cbn; lia|].
        split; [by destruct Hht as (_ & _ & ? & _)|].
        cbn [data_ size_]. rewrite Hbt. split; [done|]. unfold block_is, slots. cbn [heap].
        erewrite insert_block_lookup by done.
        rewrite <- replicate_add, length_drop, length_app, length_take, length_drop.
        do 4 f_equal. lia.
      * by eapply (holds_insert_other w _ _ a _ o).
      * by rewrite length_insert.
    + (* growing within the capacity *)
      apply N.ltb_ge in Hshrink.
      assert (length dst ≤ length src) as Hlen by lia.
      rewrite (proj2 (Nat.ltb_ge _ _) Hlen).
      assert (n = length dst) as Hn by (subst n; lia).
      assert (take n dst = dst) as Htk by (apply take_ge; lia).
      rewrite Htk.
      replace (N.to_nat (capacity_ (data_ t)) - length dst)
        with ((length src - n) + (N.to_nat (capacity_ (data_ t)) - length src)) in Hb by lia.
      rewrite replicate_add in Hb.
      apply wp_bind, wp_bind.
      rewrite Hszt, <- Hn.
      eapply (wp_copy_n_vector r src bt dst); [exact Hhr|lia|done|exact Hb|done|].
      pose proof (assign_run_length dst (take n src) w) as Hpl.
      destruct (assign_run dst (take n src) w) as [[w1 pref] ok1].
      simpl in Hpl.
      destruct ok1.
      2:{ split; [intros b' Hb'; cbn; rewrite ?list_lookup_insert_ne by congruence; done|].
          split; [done|]. split; [done|].
          split; [by eapply (holds_insert_other w _ _ a _ o)|].
          exists pref.
          split; [lia|]. split; [done|]. split; [by destruct Hht as (_ & _ & ? & _)|].
          rewrite Hbt. split; [done|]. unfold block_is, slots. cbn [heap].
          erewrite insert_block_lookup by done.
          rewrite <- replicate_add. do 4 f_equal. lia. }
      rewrite size_sub_small by lia.
      replace (size_ r - N.of_nat n)%N with (N.of_nat (length src - n)) by lia.
      eapply (wp_uninitialized_copy_n_vector r src bt (Some <$> pref));
        [by eapply (holds_insert_other w _ _ a _ o)|lia|done
        |by eapply insert_block_lookup|rewrite length_fmap; lia|].
      pose proof (transfer_run_length via_copy (drop n src) w1) as Hsl.
      destruct (transfer_run via_copy (drop n src) w1) as [[[w2 ys] src'] ok2] eqn:Hrun.
      destruct ok2.
      2:{ split; [intros b' Hb'; cbn; rewrite ?list_lookup_insert_ne by congruence; done|].
          split; [done|]. split; [done|].
          split; [by eapply (holds_insert_other w _ _ a _ o)|].
          exists pref.
          split; [lia|]. split; [done|]. split; [by destruct Hht as (_ & _ & ? & _)|].
          rewrite Hbt. split; [done|]. unfold block_is, slots. cbn [heap].
          erewrite insert_block_lookup by done.
          rewrite <- replicate_add. do 4 f_equal. lia. }
      pose proof (transfer_run_ok_length _ _ _ _ _ _ Hrun) as Hys.
      rewrite length_drop in Hys.
      rewrite list_insert_insert_eq.
      eapply wp_set_size; [exact Ht|]. unfold set_objs. cbn [world heap avail objs].
      subst t'.
      split; [intros b' Hb'; cbn; rewrite ?list_lookup_insert_ne by congruence; done|].
      exists (pref ++ ys). split; [done|]. split; [done|].
      split; [|split].
      * split; [cbn; rewrite length_app; lia|]. split; [cbn; lia|].
        split; [by destruct Hht as (_ & _ & ? & _)|].
        cbn [data_ size_]. rewrite Hbt. split; [done|]. unfold block_is, slots. cbn [heap].
        erewrite insert_block_lookup by done.
        rewrite fmap_app, <- app_assoc, length_app. do 5 f_equal. lia.
      * by eapply (holds_insert_other w _ _ a _ o).
      * by rewrite length_insert.
Qed.

Lemma copy_assignment_in_place (this rhs : nat) (t r : Vector) dst src w h a o :
  this ≠ rhs →
  o !! this = Some t →
  o !! rhs = Some r →
  holds (mkState w h a o) t dst →
  holds (mkState w h a o) r src →
  (∀ b, buffer_ (data_ t) = Addr b 0 → buffer_ (data_ r) ≠ Addr b 0) →
  (size_ r ≤ capacity_ (data_ t))%N →
  let t' := mkVector (data_ t) (size_ r) in
  wp ((if (size_ r <? size_ t)%N then
         copy_n (GetAddress (data_ r)) (size_ r) (GetAddress (data_ t));;
         destroy_n (ptr_add (GetAddress (data_ t)) (size_ r)) (size_sub (size_ t) (size_ r))
       else
         copy_n (GetAddress (data_ r)) (size_ t) (GetAddress (data_ t));;
         uninitialized_copy_n (ptr_add (GetAddress (data_ r)) (size_ t))
           (size_sub (size_ r) (size_ t)) (ptr_add (GetAddress (data_ t)) (size_ t)));;
      set_size this (size_ r))
    (mkState w h a o)
    (λ _ s', ∃ xs, copy_assign_spec dst src (capacity_ (data_ t)) w = (world s', Some xs)
                  ∧ objs s' = <[this := t']> o
                  ∧ holds s' t' xs
                  ∧ holds s' r src
                  ∧ length (heap s') = length h)
    (λ s', copy_assign_spec dst src (capacity_ (data_ t)) w = (world s', None)
           ∧ objs s' = o
           ∧ holds s' r src
           ∧ ∃ xs, holds s' t xs).
Proof.
  intros Hne Ht Hr Hht Hhr Hdisj Hfits t'.
  eapply wp_mono; [by apply (copy_assignment_in_place_framed this rhs t r dst src)|..].
  - by intros _ s' [_ H].
  - by intros s' [_ H].
Qed.

(** C6. Copy assignment of [rhs] to a distinct vector [this] that owns
    another block runs as the specification words it ([copy_assign_spec]).
    - For an element type whose copy constructor and copy assignment
      complete and produce the value of their source, the specification
      yields the elements of the source.
    - When the source is longer than the capacity of the destination and
      the copy cannot be allocated, the assignment throws and nothing has
      happened.
    - When the specification yields elements, the assignment returns; the
      destination holds these elements, its length is the length of the
      source, the source holds what it held.  If the source was longer
      than the capacity, the destination has a new buffer of exactly that
      many slots and its old block is released with every cell raw;
      otherwise the destination keeps its buffer and nothing is allocated.
    - When the specification yields none, because a copy threw, the
      assignment throws and the source holds what it held.  If the source
      was longer than the capacity, the destination and every block that
      existed are as they were and the attempted copy is released; otherwise
      the destination is still a valid vector. *)
Theorem copy_assignment (this rhs : nat) (t r : Vector) dst src s :
  this ≠ rhs →
  objs s !! this = Some t →
  objs s !! rhs = Some r →
  holds s t dst →
  holds s r src →
  (∀ b, buffer_ (data_ t) = Addr b 0 → buffer_ (data_ r) ≠ Addr b 0) →
  let realloc := (capacity_ (data_ t) <? size_ r)%N in
  let t' := if realloc
            then mkVector (mkRawMemory (Addr (length (heap s)) 0) (size_ r)) (size_ r)
            else mkVector (data_ t) (size_ r) in
  (copy_transfers →
   ∃ w', copy_assign_spec dst src (capacity_ (data_ t)) (world s) = (w', Some src))
  ∧ if realloc && negb (size_ r * sizeof_T <=? avail s)%N then
      Vector_copy_assign this rhs s = Throw s
    else
      match copy_assign_spec dst src (capacity_ (data_ t)) (world s) with
      | (w', Some xs) =>
          ∃ s', Vector_copy_assign this rhs s = Ok tt s'
                ∧ world s' = w'
                ∧ objs s' = <[this := t']> (objs s)
                ∧ holds s' t' xs
                ∧ size_ t' = size_ r
                ∧ holds s' r src
                ∧ if realloc
                  then ∀ b, buffer_ (data_ t) = Addr b 0 →
                            ∃ B, heap s' !! b = Some B ∧ released B = true
                                 ∧ all_raw (cells B)
                  else buffer_ (data_ t') = buffer_ (data_ t)
                       ∧ capacity_ (data_ t') = capacity_ (data_ t)
                       ∧ length (heap s') = length (heap s)
      | (w', None) =>
          ∃ s', Vector_copy_assign this rhs s = Throw s'
                ∧ world s' = w'
                ∧ objs s' = objs s
                ∧ holds s' r src
                ∧ if realloc
                  then rolled_back s s' all_raw ∧ holds s' t dst
                  else ∃ xs, holds s' t xs
      end.
Proof.
  intros Hne Ht Hr Hht Hhr Hdisj realloc t'.
  split; [intros Hct; by apply copy_assign_spec_transfers|].
  pose proof (holds_bounds _ _ _ Hhr) as (Hler & Hcapr & Hszr).
  destruct s as [w h a o]. cbn [world heap avail objs] in *.
  assert (Vector_copy_assign this rhs (mkState w h a o)
          = (if realloc
             then rhs_copy ← copy_of r; set_vec this rhs_copy;; destroy_members t
             else (if (size_ r <? size_ t)%N then
                     copy_n (GetAddress (data_ r)) (size_ r) (GetAddress (data_ t));;
                     destroy_n (ptr_add (GetAddress (data_ t)) (size_ r))
                       (size_sub (size_ t) (size_ r))
                   else
                     copy_n (GetAddress (data_ r)) (size_ t) (GetAddress (data_ t));;
                     uninitialized_copy_n (ptr_add (GetAddress (data_ r)) (size_ t))
                       (size_sub (size_ r) (size_ t))
                       (ptr_add (GetAddress (data_ t)) (size_ t)));;
                  set_size this (size_ r)) (mkState w h a o)) as ->.
  { unfold Vector_copy_assign. rewrite decide_False by done.
    unfold mbind at 1, M_bind at 1. rewrite (get_vec_eq rhs r) by done.
    unfold mbind at 1, M_bind at 1. rewrite (get_vec_eq this t) by done.
    done. }
  subst t'. destruct realloc eqn:Hre; subst realloc.
  - apply N.ltb_lt in Hre.
    pose proof (copy_assignment_realloc this rhs t r dst src w h a o
                  Hne Ht Hr Hht Hhr Hdisj Hre) as Hwp.
    cbv zeta in Hwp. apply wp_outcome in Hwp.
    unfold copy_assign_spec. rewrite <- Hszr, (proj2 (N.ltb_lt _ _) Hre). cbn [andb].
    destruct Hwp as [([] & s' & Hrun & w1 & ys & src' & Hroom & Htr & Hw & Ho & Ht' & Hr' & Hold)
                    |(s' & Hrun & [[Hroom ->]|(Hroom & w1 & ys & src' & Htr & Hw & Ho & Hr' & Hrb & Ht')])].
    + rewrite (proj2 (N.leb_le _ _) Hroom), Htr. cbn [negb].
      exists s'. done.
    + by rewrite (proj2 (N.leb_gt _ _) Hroom).
    + rewrite (proj2 (N.leb_le _ _) Hroom), Htr. cbn [negb].
      exists s'. done.
  - apply N.ltb_ge in Hre. cbn [andb].
    pose proof (copy_assignment_in_place this rhs t r dst src w h a o
                  Hne Ht Hr Hht Hhr Hdisj Hre) as Hwp.
    cbv zeta in Hwp. apply wp_outcome in Hwp.
    destruct Hwp as [([] & s' & Hrun & xs & Hspec & Ho & Ht' & Hr' & Hlen)
                    |(s' & Hrun & Hspec & Ho & Hr' & Ht')].
    + rewrite Hspec. exists s'. done.
    + rewrite Hspec. exists s'. done.
Qed.

Lemma wlp_returns {A} (m : M T W A) s Q E a s' : wlp m s Q E → m s = Ok a s' → Q a s'.
Proof. unfold wlp. intros H Hm. by rewrite Hm in H. Qed.

(** With a free slot nothing is allocated, not even by a call that
    throws. *)
Lemma wlp_in_place_throws this v s (t : State T W) :
  objs s !! this = Some v →
  objs t = objs s →
  length (heap t) = length (heap s) →
  (size_ v ≤ PTRDIFF_MAX)%N →
  wlp (increment_size this) t (λ _ _, True) (λ t', length (heap t') = length (heap s)).
Proof.
  intros Hv Ho Hl Hb. rewrite PTRDIFF_MAX_eq in Hb.
  eapply (wlp_increment_size this (data_ v) (size_ v)); [..|done].
  - rewrite Ho, Hv. by destruct v.
  - rewrite SIZE_MOD_eq. lia.
Qed.

Lemma PushBack_in_place_throws this v value s :
  objs s !! this = Some v →
  (size_ v ≤ PTRDIFF_MAX)%N →
  size_ v ≠ Capacity v →
  wlp (PushBack this value) s (λ _ _, True) (λ s', length (heap s') = length (heap s)).
Proof.
  intros Hv Hb Hfull.
  unfold PushBack. eapply wlp_get_vec_eq; [done|].
  apply wlp_bind. rewrite (proj2 (N.eqb_neq _ _) Hfull).
  pose proof (eq_refl (objs s)) as Ho. pose proof (eq_refl (length (heap s))) as Hl.
  frame_here Ho Hl. by eapply wlp_in_place_throws.
Qed.

Lemma PushBack_rvalue_in_place_throws this v value s :
  objs s !! this = Some v →
  (size_ v ≤ PTRDIFF_MAX)%N →
  size_ v ≠ Capacity v →
  wlp (PushBack_rvalue this value) s (λ _ _, True) (λ s', length (heap s') = length (heap s)).
Proof.
  intros Hv Hb Hfull.
  unfold PushBack_rvalue. eapply wlp_get_vec_eq; [done|].
  apply wlp_bind. rewrite (proj2 (N.eqb_neq _ _) Hfull).
  pose proof (eq_refl (objs s)) as Ho. pose proof (eq_refl (length (heap s))) as Hl.
  frame_here Ho Hl. by eapply wlp_in_place_throws.
Qed.

Lemma EmplaceBack_in_place_throws this v ctor s :
  objs s !! this = Some v →
  (size_ v ≤ PTRDIFF_MAX)%N →
  size_ v ≠ Capacity v →
  wlp (EmplaceBack this ctor) s (λ _ _, True) (λ s', length (heap s') = length (heap s)).
Proof.
  intros Hv Hb Hfull.
  unfold EmplaceBack. eapply wlp_get_vec_eq; [done|].
  apply wlp_bind. rewrite (proj2 (N.eqb_neq _ _) Hfull).
  pose proof (eq_refl (objs s)) as Ho. pose proof (eq_refl (length (heap s))) as Hl.
  frame_here Ho Hl. apply wlp_bind.
  eapply wlp_mono; [by eapply (wlp_in_place_throws this v s)| |done]; done.
Qed.

Lemma Emplace_in_place_throws this v pos ctor s :
  objs s !! this = Some v →
  (size_ v ≤ PTRDIFF_MAX)%N →
  size_ v ≠ Capacity v →
  wlp (Emplace this pos ctor) s (λ _ _, True) (λ s', length (heap s') = length (heap s)).
Proof.
  intros Hv Hb Hfull.
  unfold Emplace. eapply wlp_get_vec_eq; [done|].
  destruct (ptr_distance (Vector_begin v) pos) as [offset|]; [|done].
  case_decide as Hend.
  - apply wlp_bind.
    eapply wlp_mono; [by apply (EmplaceBack_in_place_throws this v)| |done].
    intros ? s' _. simpl. apply wlp_bind, wlp_get_vec. done.
  - apply wlp_bind. rewrite (proj2 (N.eqb_neq _ _) Hfull).
    pose proof (eq_refl (objs s)) as Ho. pose proof (eq_refl (length (heap s))) as Hl.
    frame_here Ho Hl. apply wlp_bind.
    eapply wlp_mono; [by eapply (wlp_in_place_throws this v s)| |done].
    intros ? t' _. simpl. apply wlp_bind, wlp_get_vec. done.
Qed.

(** ** More of [Vector]: exchanging, moving and indexing *)

Lemma state_eta s : mkState (world s) (heap s) (avail s) (objs s) = s.
Proof. by destruct s. Qed.

Lemma vector_eta v : mkVector (data_ v) (size_ v) = v.
Proof. by destruct v. Qed.

Lemma Swap_outcome (this other : nat) (t o : Vector) s :
  objs s !! this = Some t →
  objs s !! other = Some o →
  ∃ s', Swap this other s = Ok tt s'
        ∧ world s' = world s ∧ heap s' = heap s ∧ avail s' = avail s
        ∧ objs s' !! this = Some o
        ∧ objs s' !! other = Some t
        ∧ (∀ k, k ≠ this → k ≠ other → objs s' !! k = objs s !! k)
        ∧ Swap this other s' = Ok tt s.
Proof.
  intros Ht Ho. destruct s as [w h a m]. simpl in Ht, Ho.
  unfold Swap, mbind, M_bind, get_vec. simpl. rewrite Ht. simpl. rewrite Ho. simpl.
  unfold RawMemory_Swap, set_vec, set_objs. simpl.
  rewrite !vector_eta.
  eexists. split; [done|]. simpl.
  do 3 (split; [done|]).
  assert ((<[other := t]> (<[this := o]> m)) !! this = Some o) as Ht'.
  { destruct (decide (this = other)) as [->|Hne].
    - rewrite lookup_insert_eq. congruence.
    - rewrite lookup_insert_ne by done. by rewrite lookup_insert_eq. }
  split; [done|]. split; [by rewrite lookup_insert_eq|].
  split; [by intros k ??; rewrite !lookup_insert_ne|].
  unfold get_vec. simpl. rewrite Ht'. simpl.
  rewrite lookup_insert_eq. simpl.
  rewrite !vector_eta. do 2 f_equal.
  apply map_eq. intros k.
  destruct (decide (k = other)) as [->|Hko].
  { by rewrite lookup_insert_eq. }
  rewrite lookup_insert_ne by done.
  destruct (decide (k = this)) as [->|Hkt].
  { by rewrite lookup_insert_eq. }
  by rewrite !lookup_insert_ne.
Qed.

(** X1. [Swap] returns; it exchanges the members of the two vectors (so
    each ends up with the buffer, the capacity, the length and hence the
    elements of the other), touches no other object, constructs, destroys,
    allocates and releases nothing; and swapping again gives back the state
    before.  The two vectors may be one and the same. *)
Theorem swap_exchanges (this other : nat) (t o : Vector) s :
  objs s !! this = Some t →
  objs s !! other = Some o →
  ∃ s', Swap this other s = Ok tt s'
        ∧ world s' = world s ∧ heap s' = heap s ∧ avail s' = avail s
        ∧ objs s' !! this = Some o
        ∧ objs s' !! other = Some t
        ∧ (∀ k, k ≠ this → k ≠ other → objs s' !! k = objs s !! k)
        ∧ Swap this other s' = Ok tt s.
Proof. exact (Swap_outcome this other t o s). Qed.

(** X2. Move assignment of a vector to itself changes nothing: each of the
    three members is exchanged with a null value and written back. *)
Theorem self_move_assignment_is_a_no_op (this : nat) (v : Vector) s :
  objs s !! this = Some v →
  Vector_move_assign this this s = Ok tt s.
Proof.
  intros Hv. destruct v as [[buf cap] sz].
  unfold Vector_move_assign, set_size, mbind, M_bind, get_vec, set_vec, set_objs.
  simpl. rewrite Hv. simpl.
  repeat (rewrite lookup_insert_eq; simpl).
  rewrite !insert_insert_eq. rewrite insert_id by done. by destruct s.
Qed.

(** X3. After a vector has been move-constructed from [other], [other]
    owns nothing: destroying it returns, destroys no element and releases
    no block, and the new vector still has the members [other] had. *)
Theorem moved_from_vector_owns_nothing (this other : nat) (a : Vector) s :
  this ≠ other →
  objs s !! other = Some a →
  ∃ s1 s2, Vector_move_ctor this other s = Ok tt s1
           ∧ Vector_dtor other s1 = Ok tt s2
           ∧ world s2 = world s ∧ heap s2 = heap s ∧ avail s2 = avail s
           ∧ objs s2 !! this = Some a
           ∧ objs s2 !! other = None.
Proof.
  intros Hne Ha. destruct s as [w h av m]. destruct a as [[buf cap] sz]. simpl in Ha.
  unfold Vector_move_ctor, mbind, M_bind, get_vec. simpl. rewrite Ha. simpl.
  unfold set_vec, set_objs. simpl.
  eexists _, _. split; [done|].
  unfold Vector_dtor, mbind, M_bind, get_vec. simpl.
  rewrite lookup_insert_ne by done. rewrite lookup_insert_eq. simpl.
  split; [done|]. simpl. do 3 (split; [done|]). split.
  - rewrite lookup_delete_ne by done. by rewrite lookup_insert_eq.
  - by rewrite lookup_delete_eq.
Qed.

(** X4. On a valid vector, [operator[]] with an index below the length
    returns the address [begin() + index], the object there is the element
    of that index, and nothing changes. *)
Theorem index_addresses_the_element (this : nat) (v : Vector) xs index (x : T) s :
  objs s !! this = Some v →
  holds s v xs →
  xs !! N.to_nat index = Some x →
  Vector_index this index s = Ok (ptr_add (Vector_begin v) index) s
  ∧ load (ptr_add (Vector_begin v) index) s = Ok x s.
Proof.
  intros Hv Hh Hx.
  pose proof (holds_bounds _ _ _ Hh) as (Hle & Hcap & Hsz).
  pose proof (lookup_lt_Some _ _ _ Hx) as Hlt.
  destruct s as [w h a o]. simpl in Hv.
  destruct (holds_block _ _ _ _ _ _ Hh) as (b & Hbuf & Hb & _); [lia|].
  destruct v as [[buf cap] sz]. simpl in *. subst buf.
  split.
  - unfold Vector_index, mbind, M_bind, get_vec. simpl. rewrite Hv. simpl.
    rewrite (proj2 (N.ltb_lt index sz)) by lia. simpl.
    unfold RawMemory_index, mbind, M_bind. simpl.
    by rewrite (proj2 (N.ltb_lt index cap)) by lia.
  - unfold Vector_begin, GetAddress. simpl.
    unfold load, cell_at. rewrite (live_block_eq _ _ _ _ _ _ Hb). simpl.
    unfold slots. rewrite lookup_app_l by (rewrite length_fmap; lia).
    rewrite list_lookup_fmap, N.add_0_l, Hx. done.
Qed.

Lemma Vector_dtor_outcome (this : nat) (v : Vector) xs s :
  objs s !! this = Some v →
  holds s v xs →
  ∃ s', Vector_dtor this s = Ok tt s'
        ∧ world s' = destroy_all xs (world s)
        ∧ objs s' = delete this (objs s)
        ∧ avail s' = (avail s + capacity_ (data_ v) * sizeof_T)%N
        ∧ length (heap s') = length (heap s)
        ∧ (∀ b, buffer_ (data_ v) = Addr b 0 →
                heap s' !! b
                = Some (mkBlock (replicate (N.to_nat (capacity_ (data_ v))) None) true))
        ∧ (∀ b, buffer_ (data_ v) ≠ Addr b 0 → heap s' !! b = heap s !! b).
Proof.
  intros Hv Hh.
  pose proof (holds_bounds _ _ _ Hh) as (Hle & Hcap & Hsz).
  destruct s as [w h a o]. simpl in Hv.
  apply wp_returns. unfold Vector_dtor.
  eapply wp_get_vec_bind; [done|].
  apply wp_bind. eapply wp_destroy_members; [done|].
  destruct (buffer_ (data_ v)) as [|b off] eqn:Hbuf.
  - destruct Hh as (_ & _ & _ & Hnull). rewrite Hbuf in Hnull.
    destruct xs; [|simpl in Hsz; lia].
    unfold wp, end_of_life. simpl. rewrite Hnull.
    split; [done|]. split; [done|]. split; [f_equal; lia|]. done.
  - destruct Hh as (_ & _ & _ & Hx). rewrite Hbuf in Hx. destruct Hx as [-> Hb].
    unfold block_is in Hb. simpl in Hb.
    unfold wp, end_of_life. simpl.
    split; [done|]. split; [done|]. split; [done|].
    split; [by rewrite length_insert|]. split.
    + intros b' [= <-]. by erewrite insert_block_lookup.
    + intros b' Hb'. rewrite list_lookup_insert_ne; [done|]. congruence.
Qed.

(** X5. The destructor of a valid vector returns; it destroys the
    elements, first to last, and then releases the buffer: the object is
    gone, the block is released with every cell raw, its bytes are
    available again, and no other block is touched. *)
Theorem destructor_releases (this : nat) (v : Vector) xs s :
  objs s !! this = Some v →
  holds s v xs →
  ∃ s', Vector_dtor this s = Ok tt s'
        ∧ world s' = destroy_all xs (world s)
        ∧ objs s' = delete this (objs s)
        ∧ avail s' = (avail s + capacity_ (data_ v) * sizeof_T)%N
        ∧ length (heap s') = length (heap s)
        ∧ (∀ b, buffer_ (data_ v) = Addr b 0 →
                heap s' !! b
                = Some (mkBlock (replicate (N.to_nat (capacity_ (data_ v))) None) true))
        ∧ (∀ b, buffer_ (data_ v) ≠ Addr b 0 → heap s' !! b = heap s !! b).
Proof. exact (Vector_dtor_outcome this v xs s). Qed.

(** ** [RawMemory]: allocation and release *)

(** X6. [RawMemory(0)] allocates nothing and holds a null buffer, which its
    destructor ignores.  For a capacity [n] other than 0 whose bytes fit an
    object: when the free store cannot serve the request the constructor
    throws and nothing has changed; otherwise a new block of exactly [n] raw
    cells is handed out and its bytes are taken off what is available.
    For the new object, [operator+] accepts the offset [n] (the address one
    past the last cell) while [operator[]] fails its assertion for the index
    [n].  The destructor releases the block and gives the bytes back;
    releasing it a second time is undefined behaviour. *)
Theorem raw_memory_allocates_and_releases (n : N) s :
  n ≠ 0%N →
  (n * sizeof_T ≤ PTRDIFF_MAX)%N →
  let m := mkRawMemory (Addr (length (heap s)) 0) n in
  (RawMemory_sized 0 s = Ok (mkRawMemory Null 0) s
   ∧ RawMemory_dtor (mkRawMemory Null 0) s = Ok tt s)
  ∧ if (n * sizeof_T <=? avail s)%N then
      ∃ s1, RawMemory_sized n s = Ok m s1
        ∧ world s1 = world s ∧ objs s1 = objs s
        ∧ avail s1 = (avail s - n * sizeof_T)%N
        ∧ heap s1 = heap s ++ [mkBlock (replicate (N.to_nat n) None) false]
        ∧ RawMemory_plus m n s1 = Ok (Addr (length (heap s)) (0 + n)) s1
        ∧ RawMemory_index m n s1 = Abort
        ∧ ∃ s2, RawMemory_dtor m s1 = Ok tt s2
            ∧ avail s2 = avail s
            ∧ heap s2 = heap s ++ [mkBlock (replicate (N.to_nat n) None) true]
            ∧ RawMemory_dtor m s2 = Undef
    else RawMemory_sized n s = Throw s.
Proof.
  intros Hn Hfit m. split; [done|].
  pose proof (sizeof_T_pos (T:=T) (W:=W)) as Hpos.
  assert (n * sizeof_T < SIZE_MOD)%N as Hsmall
    by (rewrite SIZE_MOD_eq; rewrite PTRDIFF_MAX_eq in Hfit; lia).
  destruct s as [w h a o].
  unfold RawMemory_sized, Allocate, mbind, M_bind, operator_new. simpl.
  rewrite (proj2 (N.eqb_neq _ _) Hn), size_mul_small by done.
  rewrite (proj2 (N.leb_le _ _) Hfit), andb_true_r.
  destruct (n * sizeof_T <=? a)%N eqn:Hav; simpl; rewrite ?Hav; [|done].
  apply N.leb_le in Hav.
  rewrite N.div_mul by lia.
  eexists. split; [done|]. simpl. do 4 (split; [done|]).
  split. { unfold RawMemory_plus, mbind, M_bind. simpl. by rewrite N.leb_refl. }
  split. { unfold RawMemory_index, mbind, M_bind. simpl. by rewrite N.ltb_irrefl. }
  unfold RawMemory_dtor, Deallocate, operator_delete, live_block. simpl.
  rewrite lookup_app_new. simpl.
  eexists. split; [done|]. simpl. rewrite length_replicate, N2Nat.id.
  split; [lia|]. rewrite insert_app_new. split; [done|].
  by rewrite lookup_app_new.
Qed.

(** ** Constructing a vector of a given length *)

Lemma construct_run_length ctor n w w' ys :
  construct_run ctor n w = (w', ys, true) → length ys = n.
Proof.
  revert w w' ys. induction n as [|n IH]; intros w w' ys; simpl.
  - by intros [= _ <-].
  - destruct (ctor w) as [w1 [x|]]; [|done].
    destruct (construct_run ctor n w1) as [[w2 l] ok] eqn:Hrun.
    intros [= <- <- ->]. simpl. f_equal. by eapply IH.
Qed.

Lemma wp_construct_loop ctor b od : ∀ n i done pd qd w h a o Q E,
  h !! b = Some (mkBlock (pd ++ (Some <$> done) ++ replicate n None ++ qd) false) →
  length pd = N.to_nat od →
  length done = N.to_nat i →
  match construct_run ctor n w with
  | (w', ys, true) =>
      Q tt (mkState w' (<[b := mkBlock (pd ++ (Some <$> (done ++ ys)) ++ qd) false]> h) a o)
  | (w', ys, false) =>
      E (mkState (destroy_all (done ++ ys) w')
           (<[b := mkBlock (pd ++ replicate (length done + n) None ++ qd) false]> h) a o)
  end →
  wp (uninitialized_loop (λ k, construct_at (ptr_add (Addr b od) k) (run_ctor ctor))
        (Addr b od) i n)
     (mkState w h a o) Q E.
Proof.
  induction n as [|n IH]; intros i done pd qd w h a o Q E Hb Hpd Hdone HQ.
  - apply wp_ret. simpl in HQ. rewrite app_nil_r in HQ.
    by rewrite insert_block_id in HQ.
  - cbn [replicate] in Hb. rewrite <- app_comm_cons, (app_assoc pd) in Hb.
    cbn [uninitialized_loop ptr_add]. apply wp_bind, wp_on_throw.
    eapply wp_construct_at; [exact Hb| |].
    { rewrite !length_app, length_fmap. simpl. lia. }
    cbn [construct_run] in HQ.
    destruct (ctor w) as [w1 [x|]] eqn:Hc.
    + rewrite (insert_at_middle (pd ++ (Some <$> done))).
      2:{ rewrite length_app, length_fmap. lia. }
      rewrite <- (app_assoc pd), (app_cons_shift (Some <$> done)).
      change [Some x] with (Some <$> [x]). rewrite <- fmap_app.
      eapply IH.
      * by eapply insert_block_lookup.
      * done.
      * rewrite length_app. simpl. lia.
      * destruct (construct_run ctor n w1) as [[w2 ys] ok] eqn:Hrun.
        destruct ok; rewrite list_insert_insert_eq; rewrite <- !app_assoc.
        -- exact HQ.
        -- rewrite length_app. simpl.
           replace (length done + 1 + n) with (length done + S n) by lia.
           exact HQ.
    + unfold destroy_n. rewrite <- Hdone.
      rewrite <- (app_assoc pd) in Hb.
      eapply wp_destroy_loop.
      * change (None :: replicate n None ++ qd) with (replicate (S n) None ++ qd) in Hb.
        exact Hb.
      * lia.
      * rewrite app_nil_r in HQ. rewrite replicate_add in HQ.
        rewrite <- app_assoc in HQ. exact HQ.
Qed.

Lemma Vector_sized_ctor_outcome (this : nat) (size : N) s :
  (size * sizeof_T < SIZE_MOD)%N →
  let v := if (size =? 0)%N then mkVector (mkRawMemory Null 0) 0
           else mkVector (mkRawMemory (Addr (length (heap s)) 0) size) size in
  if ((size * sizeof_T <=? avail s) && (size * sizeof_T <=? PTRDIFF_MAX))%N then
    match construct_run T_default (N.to_nat size) (world s) with
    | (w', ys, true) =>
        ∃ s', Vector_sized_ctor this size s = Ok tt s'
              ∧ world s' = w'
              ∧ objs s' = <[this := v]> (objs s)
              ∧ avail s' = (avail s - size * sizeof_T)%N
              ∧ holds s' v ys
              ∧ length ys = N.to_nat size
              ∧ take (length (heap s)) (heap s') = heap s
              ∧ length (heap s')
                = (if (size =? 0)%N then length (heap s) else S (length (heap s)))
    | (w', ys, false) =>
        ∃ s', Vector_sized_ctor this size s = Throw s'
              ∧ world s' = destroy_all ys w'
              ∧ rolled_back s s' all_raw
    end
  else Vector_sized_ctor this size s = Throw s.
Proof.
  intros Hsmall v. destruct s as [w h a o]. cbn [world heap avail objs] in *.
  destruct (size =? 0)%N eqn:Hz.
  { apply N.eqb_eq in Hz. subst size v. rewrite N.mul_0_l.
    rewrite !(proj2 (N.leb_le 0 _)) by lia. simpl.
    eexists. split; [done|]. simpl. split; [done|]. split; [done|].
    split; [lia|]. split; [|split; [done|]].
    - repeat split; simpl; try done.
    - split; [by rewrite firstn_all|done]. }
  apply N.eqb_neq in Hz. subst v.
  destruct (_ && _) eqn:Hcond.
  - apply andb_true_iff in Hcond as [Hav Hfit].
    apply N.leb_le in Hav. apply N.leb_le in Hfit.
    pose proof (construct_run_length T_default (N.to_nat size) w) as Hlen.
    destruct (construct_run T_default (N.to_nat size) w) as [[w' ys] ok] eqn:Hrun.
    destruct ok.
    + specialize (Hlen _ _ eq_refl).
      apply wp_returns. unfold Vector_sized_ctor.
      apply wp_bind, wp_RawMemory_sized; [done..|].
      rewrite (proj2 (N.leb_le _ _) Hav), (proj2 (N.leb_le _ _) Hfit). simpl.
      apply wp_bind, wp_on_throw. unfold uninitialized_value_construct_n, GetAddress.
      cbn [buffer_].
      eapply (wp_construct_loop T_default (length h) 0 (N.to_nat size) 0 [] [] []).
      { simpl. rewrite app_nil_r. apply lookup_app_new. }
      { done. }
      { done. }
      rewrite Hrun. simpl. rewrite app_nil_r, insert_app_new.
      apply wp_set_vec. simpl.
      split; [done|]. split; [done|]. split; [done|]. split; [|split; [done|]].
      * repeat split; simpl; try lia.
        unfold block_is. simpl. rewrite lookup_app_new. unfold slots.
        rewrite Hlen, Nat.sub_diag. simpl. by rewrite app_nil_r.
      * split; [by rewrite take_app_length|]. rewrite length_app. simpl. lia.
    + apply wp_throws_inv. unfold Vector_sized_ctor.
      apply wp_bind, wp_RawMemory_sized; [done..|].
      rewrite (proj2 (N.leb_le _ _) Hav), (proj2 (N.leb_le _ _) Hfit). simpl.
      apply wp_bind, wp_on_throw. unfold uninitialized_value_construct_n, GetAddress.
      cbn [buffer_].
      eapply (wp_construct_loop T_default (length h) 0 (N.to_nat size) 0 [] [] []).
      { simpl. rewrite app_nil_r. apply lookup_app_new. }
      { done. }
      { done. }
      rewrite Hrun. simpl. rewrite app_nil_r, insert_app_new.
      eapply wp_RawMemory_dtor; [apply lookup_app_new|].
      rewrite insert_app_new, length_replicate, N2Nat.id.
      split; [done|].
      replace (a - size * sizeof_T + size * sizeof_T)%N with a by lia.
      apply rolled_back_new_raw.
  - unfold Vector_sized_ctor, RawMemory_sized, Allocate, mbind, M_bind, operator_new.
    rewrite (proj2 (N.eqb_neq _ _) Hz), size_mul_small by done.
    simpl. by rewrite Hcond.
Qed.

(** X7. [Vector(size)], for a size whose bytes do not overflow [size_t].
    - When the free store cannot serve the request, the constructor throws
      and nothing has changed.
    - Otherwise [size] elements are value-initialized, in order.  When
      every constructor returns, the vector owns a new block of exactly
      [size] slots (no block at all for size 0) and holds the objects
      constructed; length and capacity are both [size].
    - When a constructor throws, the objects constructed so far are
      destroyed and the block is released: no object is left, no memory is
      lost, and the vector does not come into being. *)
Theorem sized_constructor (this : nat) (size : N) s :
  (size * sizeof_T < SIZE_MOD)%N →
  let v := if (size =? 0)%N then mkVector (mkRawMemory Null 0) 0
           else mkVector (mkRawMemory (Addr (length (heap s)) 0) size) size in
  if ((size * sizeof_T <=? avail s) && (size * sizeof_T <=? PTRDIFF_MAX))%N then
    match construct_run T_default (N.to_nat size) (world s) with
    | (w', ys, true) =>
        ∃ s', Vector_sized_ctor this size s = Ok tt s'
              ∧ world s' = w'
              ∧ objs s' = <[this := v]> (objs s)
              ∧ avail s' = (avail s - size * sizeof_T)%N
              ∧ holds s' v ys
              ∧ length ys = N.to_nat size
              ∧ take (length (heap s)) (heap s') = heap s
              ∧ length (heap s')
                = (if (size =? 0)%N then length (heap s) else S (length (heap s)))
    | (w', ys, false) =>
        ∃ s', Vector_sized_ctor this size s = Throw s'
              ∧ world s' = destroy_all ys w'
              ∧ rolled_back s s' all_raw
    end
  else Vector_sized_ctor this size s = Throw s.
Proof. exact (Vector_sized_ctor_outcome this size s). Qed.

(** ** Copy construction *)

Lemma wp_throws_at {A} (m : M T W A) s s0 :
  wp m s (λ _ _, False) (λ s', s' = s0) → m s = Throw s0.
Proof.
  unfold wp. destruct (m s) as [a s'|s'| |]; try done. by intros ->.
Qed.

Lemma Vector_copy_ctor_outcome (this other : nat) (r : Vector) src s :
  objs s !! other = Some r →
  holds s r src →
  let v := if (size_ r =? 0)%N then mkVector (mkRawMemory Null 0) 0
           else mkVector (mkRawMemory (Addr (length (heap s)) 0) (size_ r)) (size_ r) in
  (copy_transfers → ∃ w', transfer_run via_copy src (world s) = (w', src, src, true))
  ∧ if (size_ r * sizeof_T <=? avail s)%N then
      match transfer_run via_copy src (world s) with
      | (w1, ys, _, true) =>
          ∃ s', Vector_copy_ctor this other s = Ok tt s'
                ∧ world s' = w1
                ∧ objs s' = <[this := v]> (objs s)
                ∧ avail s' = (avail s - size_ r * sizeof_T)%N
                ∧ holds s' v ys
                ∧ holds s' r src
                ∧ take (length (heap s)) (heap s') = heap s
                ∧ length (heap s')
                  = (if (size_ r =? 0)%N then length (heap s) else S (length (heap s)))
      | (w1, ys, _, false) =>
          ∃ s', Vector_copy_ctor this other s = Throw s'
                ∧ world s' = destroy_all ys w1
                ∧ rolled_back s s' all_raw
                ∧ holds s' r src
      end
    else Vector_copy_ctor this other s = Throw s.
Proof.
  intros Hr Hh v. split; [apply transfer_run_copy_transfers|].
  pose proof (holds_bounds _ _ _ Hh) as (Hle & Hcap & Hsz).
  pose proof (size_bytes_fit _ _ _ Hh) as Hfit.
  destruct s as [w h a o]. cbn [world heap avail objs] in *.
  destruct (size_ r =? 0)%N eqn:Hz.
  { apply N.eqb_eq in Hz. subst v. rewrite Hz, N.mul_0_l.
    rewrite (proj2 (N.leb_le 0 _)) by lia.
    destruct src; [|simpl in Hsz; lia]. simpl.
    unfold Vector_copy_ctor, copy_of, mbind, M_bind, get_vec. simpl.
    rewrite Hr, Hz. simpl.
    eexists. split; [done|]. simpl. split; [done|]. split; [done|].
    split; [lia|]. split; [done|]. split; [|split; [by rewrite firstn_all|done]].
    eapply (holds_app w w h [] a a o _ r []) in Hh.
    rewrite app_nil_r in Hh. exact Hh. }
  apply N.eqb_neq in Hz. subst v.
  destruct (size_ r * sizeof_T <=? a)%N eqn:Hav.
  - pose proof (transfer_run_ok_length via_copy src w) as Hlen.
    destruct (transfer_run via_copy src w) as [[[w1 ys] src'] ok] eqn:Hrun.
    destruct ok.
    + specialize (Hlen _ _ _ eq_refl).
      apply wp_returns. unfold Vector_copy_ctor.
      eapply wp_get_vec_bind; [done|].
      apply wp_bind. eapply (wp_copy_of r src); [done..|].
      rewrite Hav, Hrun. apply wp_set_vec. simpl.
      split; [done|]. split; [done|]. split; [done|]. split; [|split].
      * repeat split; simpl; try lia.
        unfold block_is. simpl. by rewrite lookup_app_new.
      * by eapply holds_app.
      * split; [by rewrite take_app_length|]. rewrite length_app. simpl. lia.
    + apply wp_throws_inv. unfold Vector_copy_ctor.
      eapply wp_get_vec_bind; [done|].
      apply wp_bind. eapply (wp_copy_of r src); [done..|].
      rewrite Hav, Hrun.
      split; [done|]. split; [apply rolled_back_new_raw|]. by eapply holds_app.
  - apply wp_throws_at. unfold Vector_copy_ctor.
    eapply wp_get_vec_bind; [done|].
    apply wp_bind. eapply (wp_copy_of r src); [done..|].
    by rewrite Hav.
Qed.

(** X8. [Vector(other)] for a valid vector [other].
    - When the free store cannot serve the request, the constructor throws
      and nothing has changed.
    - Otherwise the elements are copy-constructed in order.  When every
      copy returns, the new vector owns a new block whose capacity is the
      length of [other], not its capacity (no block at all when [other] is
      empty), and holds the copies; [other] holds what it held.  For an
      element type whose copy constructor produces the value of its source
      the copies are the elements of [other].
    - When a copy throws, the copies made so far are destroyed and the
      block is released; [other] is untouched. *)
Theorem copy_constructor (this other : nat) (r : Vector) src s :
  objs s !! other = Some r →
  holds s r src →
  let v := if (size_ r =? 0)%N then mkVector (mkRawMemory Null 0) 0
           else mkVector (mkRawMemory (Addr (length (heap s)) 0) (size_ r)) (size_ r) in
  (copy_transfers → ∃ w', transfer_run via_copy src (world s) = (w', src, src, true))
  ∧ if (size_ r * sizeof_T <=? avail s)%N then
      match transfer_run via_copy src (world s) with
      | (w1, ys, _, true) =>
          ∃ s', Vector_copy_ctor this other s = Ok tt s'
                ∧ world s' = w1
                ∧ objs s' = <[this := v]> (objs s)
                ∧ avail s' = (avail s - size_ r * sizeof_T)%N
                ∧ holds s' v ys
                ∧ holds s' r src
                ∧ take (length (heap s)) (heap s') = heap s
                ∧ length (heap s')
                  = (if (size_ r =? 0)%N then length (heap s) else S (length (heap s)))
      | (w1, ys, _, false) =>
          ∃ s', Vector_copy_ctor this other s = Throw s'
                ∧ world s' = destroy_all ys w1
                ∧ rolled_back s s' all_raw
                ∧ holds s' r src
      end
    else Vector_copy_ctor this other s = Throw s.
Proof. exact (Vector_copy_ctor_outcome this other r src s). Qed.

(** ** Moving the elements out to a new block

    What [Reserve] and the growing insertions have in common: the elements
    of a valid vector are transferred to the raw cells at the start of
    another block and, when that has succeeded, destroyed where they were.
    The blocks afterwards are described by what can be looked up in them. *)
Lemma wp_transfer_out {A} v xs bn post (k : M T W A) w H a o Q E :
  holds (mkState w H a o) v xs →
  buffer_ (data_ v) ≠ Addr bn 0 →
  H !! bn = Some (mkBlock (replicate (length xs) None ++ post) false) →
  match transfer_run transfer_step xs w with
  | (w', ys, xs', true) =>
      ∀ H', length H' = length H →
            H' !! bn = Some (mkBlock ((Some <$> ys) ++ post) false) →
            (∀ b, buffer_ (data_ v) = Addr b 0 →
                  H' !! b = Some (mkBlock (replicate (N.to_nat (capacity_ (data_ v))) None)
                                    false)) →
            (∀ b, b ≠ bn → buffer_ (data_ v) ≠ Addr b 0 → H' !! b = H !! b) →
            wp k (mkState (destroy_all xs' w') H' a o) Q E
  | (w', ys, xs', false) =>
      ∀ H', length H' = length H →
            H' !! bn = H !! bn →
            holds (mkState w H' a o) v xs' →
            (∀ b, b ≠ bn → buffer_ (data_ v) ≠ Addr b 0 → H' !! b = H !! b) →
            E (mkState (destroy_all ys w') H' a o)
  end →
  wp (TransferDataSafely (GetAddress (data_ v)) (size_ v) (Addr bn 0);;
      destroy_n (GetAddress (data_ v)) (size_ v);;
      k)
     (mkState w H a o) Q E.
Proof.
  intros Hh Hne Hn HQ.
  pose proof (holds_bounds _ _ _ Hh) as (Hle & Hcap & Hsz).
  pose proof Hh as (_ & _ & Hbytes & Hbuf).
  destruct v as [[buf cap] sz]. unfold GetAddress. simpl in *.
  destruct buf as [|bo off].
  - subst cap. assert (sz = 0%N) as -> by lia.
    destruct xs; [|simpl in Hsz; lia]. simpl in HQ.
    apply wp_bind, wp_TransferDataSafely_0.
    apply wp_bind, wp_destroy_n_0.
    by apply HQ.
  - destruct Hbuf as [-> Hbo]. unfold block_is, slots in Hbo. simpl in Hbo.
    assert (bo ≠ bn) as Hbb by congruence.
    pose proof (lookup_lt_Some _ _ _ Hbo) as Hlto.
    pose proof (lookup_lt_Some _ _ _ Hn) as Hltn.
    rewrite Hsz. apply wp_bind.
    eapply (wp_TransferDataSafely bo 0 bn 0 xs [] _ [] post);
      [done|exact Hbo|done|exact Hn|done|].
    pose proof (transfer_run_length transfer_step xs w) as Hlen.
    destruct (transfer_run transfer_step xs w) as [[[w' ys] xs'] ok] eqn:Hrun.
    simpl in Hlen. cbn [app]. destruct ok.
    + apply wp_bind. rewrite <- Hlen.
      eapply (wp_destroy_n bo 0 xs' []).
      { rewrite list_lookup_insert_ne by done. by apply list_lookup_insert_eq. }
      { done. }
      cbn [app]. apply HQ.
      * by rewrite !length_insert.
      * rewrite list_lookup_insert_ne by done.
        apply list_lookup_insert_eq. by rewrite length_insert.
      * intros b [= <-]. rewrite list_lookup_insert_eq by (by rewrite !length_insert).
        rewrite <- replicate_add, Hlen.
        by replace (length xs + (N.to_nat cap - length xs)) with (N.to_nat cap) by lia.
      * intros b Hb1 Hb2. rewrite !list_lookup_insert_ne; [done|congruence..].
    + apply HQ.
      * by rewrite !length_insert.
      * rewrite list_lookup_insert_eq by (by rewrite length_insert). done.
      * repeat split; simpl; try lia; try done.
        unfold block_is, slots. simpl.
        rewrite list_lookup_insert_ne by done.
        rewrite list_lookup_insert_eq by done. by rewrite Hlen.
      * intros b Hb1 Hb2. rewrite !list_lookup_insert_ne; [done|congruence..].
Qed.

Lemma transfer_run_preserves xs w :
  transfer_preserves_values →
  ∃ w' xs', transfer_run transfer_step xs w = (w', xs, xs', true).
Proof.
  intros Hp. revert w. induction xs as [|x xs IH]; intros w; simpl.
  - by exists w, [].
  - specialize (Hp x w). destruct (transfer_step x w) as [[w1 r] x']. simpl in Hp.
    subst r. destruct (IH w1) as (w2 & xs' & ->). by exists w2, (x' :: xs').
Qed.

Lemma wp_outcome_spec {A} (m : M T W A) s (spec : Res T W A → Prop) :
  wp m s (λ r s', spec (Ok r s')) (λ s', spec (Throw s')) → spec (m s).
Proof. unfold wp. by destruct (m s). Qed.

(** ** [Reserve] *)

Lemma new_block_is_new w h a o v xs :
  holds (mkState w h a o) v xs → buffer_ (data_ v) ≠ Addr (length h) 0.
Proof.
  intros (_ & _ & _ & Hx) Hb. rewrite Hb in Hx.
  destruct Hx as [_ Hx]. apply lookup_lt_Some in Hx. simpl in Hx. lia.
Qed.

(** [Reserve] to more than the capacity, with the blocks afterwards
    described by what can be looked up in them. *)
Lemma wp_Reserve_grow this v xs n w h a o Q E :
  o !! this = Some v →
  holds (mkState w h a o) v xs →
  (n * sizeof_T < SIZE_MOD)%N →
  (capacity_ (data_ v) < n)%N →
  (if ((n * sizeof_T <=? a) && (n * sizeof_T <=? PTRDIFF_MAX))%N then
     match transfer_run transfer_step xs w with
     | (w', ys, xs', true) =>
         ∀ H', length H' = S (length h) →
               H' !! length h
               = Some (mkBlock ((Some <$> ys) ++ replicate (N.to_nat n - length xs) None)
                         false) →
               (∀ b, buffer_ (data_ v) = Addr b 0 →
                     H' !! b = Some (mkBlock (replicate (N.to_nat (capacity_ (data_ v))) None)
                                       true)) →
               (∀ b, b < length h → buffer_ (data_ v) ≠ Addr b 0 → H' !! b = h !! b) →
               Q tt (mkState (destroy_all xs' w') H'
                       (a - n * sizeof_T + capacity_ (data_ v) * sizeof_T)
                       (<[this := mkVector (mkRawMemory (Addr (length h) 0) n) (size_ v)]> o))
     | (w', ys, xs', false) =>
         ∀ H', length H' = S (length h) →
               H' !! length h = Some (mkBlock (replicate (N.to_nat n) None) true) →
               holds (mkState w H' a o) v xs' →
               (∀ b, b < length h → buffer_ (data_ v) ≠ Addr b 0 → H' !! b = h !! b) →
               E (mkState (destroy_all ys w') H' a o)
     end
   else E (mkState w h a o)) →
  wp (Reserve this n) (mkState w h a o) Q E.
Proof.
  intros Hv Hh Hsmall Hn HQ.
  pose proof (holds_bounds _ _ _ Hh) as (Hle & Hcap & Hsz).
  unfold Reserve. eapply wp_get_vec_bind; [done|].
  unfold RawMemory_Capacity. rewrite (proj2 (N.leb_gt _ _) Hn).
  apply wp_bind, wp_RawMemory_sized; [lia|done|].
  destruct (_ && _) eqn:Hroom; [|done].
  apply andb_prop in Hroom as [Hroom Hmax]. apply N.leb_le in Hroom, Hmax.
  unfold scoped_RawMemory. apply wp_bind, wp_on_throw.
  unfold GetAddress at 2. cbn [buffer_].
  pose proof (new_block_is_new _ _ _ _ _ _ Hh) as Hnew.
  eapply (wp_transfer_out v xs (length h) (replicate (N.to_nat n - length xs) None)).
  { by eapply holds_app. }
  { done. }
  { rewrite lookup_app_new, <- replicate_add. do 3 f_equal. lia. }
  destruct (transfer_run transfer_step xs w) as [[[w' ys] xs'] ok] eqn:Hrun.
  destruct ok.
  - intros H' HL Hbn Hbo Hother. rewrite length_app in HL. simpl in HL.
    unfold RawMemory_Swap, set_data.
    apply wp_bind. eapply wp_get_vec_bind; [exact Hv|]. apply wp_set_vec.
    apply wp_ret. unfold set_objs. cbn [world heap avail objs].
    destruct (buffer_ (data_ v)) as [|bo off] eqn:Hbuf.
    + destruct Hh as (_ & _ & _ & Hx). rewrite Hbuf in Hx.
      destruct v as [[buf cap] sz]. simpl in *. subst buf cap.
      apply wp_RawMemory_dtor_null.
      replace (a - n * sizeof_T + 0 * sizeof_T)%N with (a - n * sizeof_T)%N in HQ by lia.
      apply HQ; [lia|done|done|].
      intros b Hb _. rewrite Hother; [|lia|done]. by rewrite lookup_app_l.
    + destruct Hh as (_ & _ & _ & Hx). rewrite Hbuf in Hx. destruct Hx as [-> Hx].
      pose proof (lookup_lt_Some _ _ _ Hx) as Hlt. simpl in Hlt.
      destruct v as [[buf cap] sz]. simpl in *. subst buf.
      eapply wp_RawMemory_dtor; [by apply Hbo|].
      rewrite length_replicate, N2Nat.id.
      apply HQ.
      * rewrite length_insert. lia.
      * by rewrite list_lookup_insert_ne by lia.
      * intros b [= <-]. by rewrite list_lookup_insert_eq by lia.
      * intros b Hb Hb'. rewrite list_lookup_insert_ne by congruence.
        rewrite Hother; [|lia|done]. by rewrite lookup_app_l.
  - intros H' HL Hbn Hkeep Hother. rewrite length_app in HL. simpl in HL.
    rewrite lookup_app_new in Hbn.
    eapply wp_RawMemory_dtor; [exact Hbn|].
    rewrite length_replicate, N2Nat.id.
    replace (a - n * sizeof_T + n * sizeof_T)%N with a by lia.
    apply HQ.
    + rewrite length_insert. lia.
    + by rewrite list_lookup_insert_eq by lia.
    + eapply holds_insert_other; [exact Hkeep|done].
    + intros b Hb Hb'. rewrite list_lookup_insert_ne by lia.
      rewrite Hother; [|lia|done]. by rewrite lookup_app_l.
Qed.

Lemma Reserve_outcome (this : nat) (v : Vector) xs (n : N) s :
  objs s !! this = Some v →
  holds s v xs →
  (n * sizeof_T < SIZE_MOD)%N →
  let nb := length (heap s) in
  let v' := mkVector (mkRawMemory (Addr nb 0) n) (size_ v) in
  ((transfer_keeps_sources →
    ∀ w' ys xs', transfer_run transfer_step xs (world s) = (w', ys, xs', false) → xs' = xs)
   ∧ (is_nothrow_move_constructible = true →
      (transfer_run transfer_step xs (world s)).2 = true)
   ∧ (transfer_preserves_values →
      ∃ w' xs', transfer_run transfer_step xs (world s) = (w', xs, xs', true)))
  ∧ if (n <=? capacity_ (data_ v))%N then Reserve this n s = Ok tt s
    else if ((n * sizeof_T <=? avail s) && (n * sizeof_T <=? PTRDIFF_MAX))%N then
      match transfer_run transfer_step xs (world s) with
      | (w', ys, xs', true) =>
          ∃ s', Reserve this n s = Ok tt s'
                ∧ world s' = destroy_all xs' w'
                ∧ objs s' = <[this := v']> (objs s)
                ∧ avail s' = (avail s - n * sizeof_T + capacity_ (data_ v) * sizeof_T)%N
                ∧ holds s' v' ys
                ∧ length (heap s') = S nb
                ∧ (∀ b, buffer_ (data_ v) = Addr b 0 →
                        heap s' !! b
                        = Some (mkBlock (replicate (N.to_nat (capacity_ (data_ v))) None)
                                  true))
                ∧ (∀ b, b < nb → buffer_ (data_ v) ≠ Addr b 0 → heap s' !! b = heap s !! b)
      | (w', ys, xs', false) =>
          ∃ s', Reserve this n s = Throw s'
                ∧ world s' = destroy_all ys w'
                ∧ objs s' = objs s
                ∧ avail s' = avail s
                ∧ holds s' v xs'
                ∧ length (heap s') = S nb
                ∧ heap s' !! nb = Some (mkBlock (replicate (N.to_nat n) None) true)
                ∧ (∀ b, b < nb → buffer_ (data_ v) ≠ Addr b 0 → heap s' !! b = heap s !! b)
      end
    else Reserve this n s = Throw s.
Proof.
  intros Hv Hh Hsmall nb v'. split.
  { split; [|split].
    - intros Hk w' ys xs'. apply transfer_failure_keeps_sources, Hk.
    - intros Hnt. unfold transfer_step. rewrite Hnt. simpl.
      by apply transfer_run_noexcept.
    - apply transfer_run_preserves. }
  pose proof (holds_bounds _ _ _ Hh) as (Hle & Hcap & Hsz).
  destruct s as [w h a o]. subst v' nb. cbn [world heap avail objs] in *.
  destruct (n <=? capacity_ (data_ v))%N eqn:Hn.
  { unfold Reserve, mbind, M_bind, get_vec. simpl. rewrite Hv.
    unfold RawMemory_Capacity. by rewrite Hn. }
  apply N.leb_gt in Hn.
  apply (wp_outcome_spec (Reserve this n) (mkState w h a o)
           (λ r, if ((n * sizeof_T <=? a) && (n * sizeof_T <=? PTRDIFF_MAX))%N then
                   match transfer_run transfer_step xs w with
                   | (w', ys, xs', true) => ∃ s', r = Ok tt s' ∧ _
                   | (w', ys, xs', false) => ∃ s', r = Throw s' ∧ _
                   end
                 else r = Throw (mkState w h a o))).
  eapply wp_Reserve_grow; [done..|].
  destruct (_ && _) eqn:Hroom; [|done].
  apply andb_prop in Hroom as [Hroom Hmax]. apply N.leb_le in Hroom, Hmax.
  pose proof (transfer_run_ok_length transfer_step xs w) as Hlen'.
  destruct (transfer_run transfer_step xs w) as [[[w' ys] xs'] ok] eqn:Hrun.
  destruct ok.
  - specialize (Hlen' _ _ _ eq_refl).
    intros H' HL Hbn Hbo Hother.
    eexists. split; [done|]. simpl.
    split; [done|]. split; [done|]. split; [done|]. split; [|done].
    repeat split; simpl; try lia.
    unfold block_is, slots. simpl. by rewrite Hbn, Hlen'.
  - intros H' HL Hbn Hkeep Hother.
    eexists. split; [done|]. simpl.
    split; [done|]. split; [done|]. split; [done|]. split; [|done].
    eapply (holds_app _ _ H' [] _ _ _ _ v xs') in Hkeep.
    rewrite app_nil_r in Hkeep. exact Hkeep.
Qed.

(** X9. [Reserve(n)] on a valid vector, for [n] whose bytes do not overflow
    [size_t].
    - When [n] is not above the capacity, nothing happens: [Reserve] never
      shrinks.
    - Otherwise, when the free store cannot serve the request, it throws
      and nothing has changed.
    - Otherwise the elements are transferred to a new block of exactly [n]
      slots.  When the transfer succeeds, the old elements are destroyed
      and the old block is released, the vector owns the new block and
      holds the transferred objects; its length is what it was.
    - When the transfer throws, the new block is released with every cell
      raw, the vector keeps its buffer, length and capacity and holds its
      elements as the transfer left them, no memory is lost.
    For an element type that is copied, or moved without throwing, a
    failed transfer has left the elements as they were; for one whose move
    constructor cannot throw the transfer does not fail; for one whose
    transferring constructor gives the value of its source the vector
    holds the same elements afterwards. *)
Theorem reserve_moves_to_a_larger_block (this : nat) (v : Vector) xs (n : N) s :
  objs s !! this = Some v →
  holds s v xs →
  (n * sizeof_T < SIZE_MOD)%N →
  let nb := length (heap s) in
  let v' := mkVector (mkRawMemory (Addr nb 0) n) (size_ v) in
  ((transfer_keeps_sources →
    ∀ w' ys xs', transfer_run transfer_step xs (world s) = (w', ys, xs', false) → xs' = xs)
   ∧ (is_nothrow_move_constructible = true →
      (transfer_run transfer_step xs (world s)).2 = true)
   ∧ (transfer_preserves_values →
      ∃ w' xs', transfer_run transfer_step xs (world s) = (w', xs, xs', true)))
  ∧ if (n <=? capacity_ (data_ v))%N then Reserve this n s = Ok tt s
    else if ((n * sizeof_T <=? avail s) && (n * sizeof_T <=? PTRDIFF_MAX))%N then
      match transfer_run transfer_step xs (world s) with
      | (w', ys, xs', true) =>
          ∃ s', Reserve this n s = Ok tt s'
                ∧ world s' = destroy_all xs' w'
                ∧ objs s' = <[this := v']> (objs s)
                ∧ avail s' = (avail s - n * sizeof_T + capacity_ (data_ v) * sizeof_T)%N
                ∧ holds s' v' ys
                ∧ length (heap s') = S nb
                ∧ (∀ b, buffer_ (data_ v) = Addr b 0 →
                        heap s' !! b
                        = Some (mkBlock (replicate (N.to_nat (capacity_ (data_ v))) None)
                                  true))
                ∧ (∀ b, b < nb → buffer_ (data_ v) ≠ Addr b 0 → heap s' !! b = heap s !! b)
      | (w', ys, xs', false) =>
          ∃ s', Reserve this n s = Throw s'
                ∧ world s' = destroy_all ys w'
                ∧ objs s' = objs s
                ∧ avail s' = avail s
                ∧ holds s' v xs'
                ∧ length (heap s') = S nb
                ∧ heap s' !! nb = Some (mkBlock (replicate (N.to_nat n) None) true)
                ∧ (∀ b, b < nb → buffer_ (data_ v) ≠ Addr b 0 → heap s' !! b = heap s !! b)
      end
    else Reserve this n s = Throw s.
Proof. exact (Reserve_outcome this v xs n s). Qed.

(** ** Appending *)

Lemma PushBack_outcome (this : nat) (v : Vector) xs (value : T) s :
  objs s !! this = Some v →
  holds s v xs →
  let nc := grown_capacity (size_ v) in
  let nb := length (heap s) in
  let v' := mkVector (mkRawMemory (Addr nb 0) nc) (size_ v + 1) in
  let u := mkVector (data_ v) (size_ v + 1) in
  (transfer_preserves_values →
   ∀ w1, ∃ w' xs', transfer_run transfer_step xs w1 = (w', xs, xs', true))
  ∧ if (size_ v =? Capacity v)%N then
      if ((nc * sizeof_T <=? avail s) && (nc * sizeof_T <=? PTRDIFF_MAX))%N then
        match T_copy value (world s) with
        | (w1, None) =>
            ∃ s', PushBack this value s = Throw s'
                  ∧ world s' = w1
                  ∧ rolled_back s s' all_raw
                  ∧ heap s' = heap s ++ [mkBlock (replicate (N.to_nat nc) None) true]
        | (w1, Some x) =>
            match transfer_run transfer_step xs w1 with
            | (w2, ys, xs', true) =>
                ∃ s', PushBack this value s = Ok tt s'
                      ∧ world s' = destroy_all xs' w2
                      ∧ objs s' = <[this := v']> (objs s)
                      ∧ avail s' = (avail s - nc * sizeof_T
                                    + capacity_ (data_ v) * sizeof_T)%N
                      ∧ holds s' v' (ys ++ [x])
                      ∧ length (heap s') = S nb
                      ∧ (∀ b, buffer_ (data_ v) = Addr b 0 →
                              heap s' !! b
                              = Some (mkBlock
                                        (replicate (N.to_nat (capacity_ (data_ v))) None)
                                        true))
                      ∧ (∀ b, b < nb → buffer_ (data_ v) ≠ Addr b 0 →
                              heap s' !! b = heap s !! b)
            | (w2, ys, xs', false) =>
                ∃ s', PushBack this value s = Throw s'
                      ∧ world s' = destroy_all ys w2
                      ∧ objs s' = objs s
                      ∧ avail s' = avail s
                      ∧ holds s' v xs'
                      ∧ length (heap s') = S nb
                      ∧ heap s' !! nb
                        = Some (mkBlock
                                  (replicate (length xs) None
                                   ++ Some x :: replicate (N.to_nat nc - S (length xs)) None)
                                  true)
                      ∧ (∀ b, b < nb → buffer_ (data_ v) ≠ Addr b 0 →
                              heap s' !! b = heap s !! b)
            end
        end
      else PushBack this value s = Throw s
    else
      match T_copy value (world s) with
      | (w1, Some x) =>
          ∃ s', PushBack this value s = Ok tt s'
                ∧ world s' = w1
                ∧ objs s' = <[this := u]> (objs s)
                ∧ avail s' = avail s
                ∧ holds s' u (xs ++ [x])
                ∧ length (heap s') = nb
                ∧ (∀ b, buffer_ (data_ v) ≠ Addr b 0 → heap s' !! b = heap s !! b)
      | (w1, None) => PushBack this value s = Throw (set_world w1 s)
      end.
Proof.
  intros Hv Hh nc nb v' u. split.
  { intros Hp w1. by apply transfer_run_preserves. }
  pose proof (holds_bounds _ _ _ Hh) as (Hle & Hcap & Hsz).
  destruct s as [w h a o]. subst v' u nb. cbn [world heap avail objs] in *.
  pose proof (new_block_is_new _ _ _ _ _ _ Hh) as Hnew.
  assert (size_ v + 1 < SIZE_MOD)%N as Hinc
    by (rewrite SIZE_MOD_eq; rewrite PTRDIFF_MAX_eq in Hcap; lia).
  apply (wp_outcome_spec (PushBack this value) (mkState w h a o)
           (λ r, if (size_ v =? Capacity v)%N then
                   if ((nc * sizeof_T <=? a) && (nc * sizeof_T <=? PTRDIFF_MAX))%N then
                     match T_copy value w with
                     | (w1, None) => ∃ s', r = Throw s' ∧ _
                     | (w1, Some x) =>
                         match transfer_run transfer_step xs w1 with
                         | (w2, ys, xs', true) => ∃ s', r = Ok tt s' ∧ _
                         | (w2, ys, xs', false) => ∃ s', r = Throw s' ∧ _
                         end
                     end
                   else r = Throw (mkState w h a o)
                 else
                   match T_copy value w with
                   | (w1, Some x) => ∃ s', r = Ok tt s' ∧ _
                   | (w1, None) => r = Throw (mkState w1 h a o)
                   end)).
  unfold PushBack. eapply wp_get_vec_bind; [done|].
  destruct (size_ v =? Capacity v)%N eqn:Hfull.
  - (* no free slot *)
    apply N.eqb_eq in Hfull.
    destruct (grown_capacity_fits _ _ _ Hh Hfull) as (Hnc0 & Hncs & Hgrow).
    fold nc in Hnc0, Hncs, Hgrow |- *.
    apply wp_bind, wp_bind, wp_RawMemory_sized; [done..|].
    destruct (_ && _) eqn:Hroom; [|done].
    apply andb_prop in Hroom as [Hroom Hmax]. apply N.leb_le in Hroom, Hmax.
    unfold scoped_RawMemory. apply wp_bind, wp_on_throw.
    apply wp_RawMemory_plus_bind; [lia|].
    apply wp_bind. eapply wp_construct_at; [apply lookup_app_new|rewrite length_replicate; lia|].
    destruct (T_copy value w) as [w1 [x|]].
    2:{ eapply wp_RawMemory_dtor; [apply lookup_app_new|].
        rewrite insert_app_new, length_replicate, N2Nat.id.
        replace (a - nc * sizeof_T + nc * sizeof_T)%N with a by lia.
        eexists. split; [done|]. split; [done|].
        split; [apply rolled_back_new_raw|done]. }
    rewrite insert_app_new, insert_replicate_middle by lia.
    replace (N.to_nat (0 + size_ v)) with (length xs) by lia.
    unfold GetAddress at 2. cbn [buffer_].
    eapply (wp_transfer_out v xs (length h)).
    { by eapply holds_app. }
    { done. }
    { apply lookup_app_new. }
    pose proof (transfer_run_length transfer_step xs w1) as Hlen.
    pose proof (transfer_run_ok_length transfer_step xs w1) as Hlen'.
    destruct (transfer_run transfer_step xs w1) as [[[w2 ys] xs'] ok] eqn:Hrun.
    simpl in Hlen. destruct ok.
    + specialize (Hlen' _ _ _ eq_refl).
      intros H' HL Hbn Hbo Hother. rewrite length_app in HL. simpl in HL.
      unfold RawMemory_Swap, set_data.
      apply wp_bind. eapply wp_get_vec_bind; [exact Hv|]. apply wp_set_vec.
      apply wp_ret. unfold set_objs. cbn [world heap avail objs].
      assert (∀ H'' a'',
        H'' !! length h = H' !! length h →
        holds (mkState (destroy_all xs' w2) H'' a''
                 (<[this := mkVector (mkRawMemory (Addr (length h) 0) nc) (size_ v + 1)]> o))
              (mkVector (mkRawMemory (Addr (length h) 0) nc) (size_ v + 1)) (ys ++ [x]))
        as Hnewholds.
      { intros H'' a'' Heq. repeat split; simpl; try lia.
        - rewrite length_app. simpl. lia.
        - unfold block_is, slots. simpl. rewrite Heq, Hbn.
          rewrite fmap_app, <- app_assoc, length_app. simpl.
          by replace (N.to_nat nc - (length ys + 1)) with (N.to_nat nc - S (length xs)) by lia. }
      destruct (buffer_ (data_ v)) as [|bo off] eqn:Hbuf.
      * destruct Hh as (_ & _ & _ & Hx). rewrite Hbuf in Hx.
        destruct v as [[buf cap] sz]. simpl in *. subst buf cap.
        apply wp_RawMemory_dtor_null.
        unfold increment_size. eapply wp_get_vec_bind; [apply lookup_insert_eq|].
        apply wp_set_vec. simpl. rewrite insert_insert_eq, size_add_small by done.
        eexists. split; [done|]. simpl.
        split; [done|]. split; [done|]. split; [lia|].
        split; [by apply Hnewholds|]. split; [lia|]. split; [done|].
        intros b Hb _. rewrite Hother; [|lia|done]. by rewrite lookup_app_l.
      * destruct Hh as (_ & _ & _ & Hx). rewrite Hbuf in Hx. destruct Hx as [-> Hx].
        pose proof (lookup_lt_Some _ _ _ Hx) as Hlt. simpl in Hlt.
        destruct v as [[buf cap] sz]. simpl in *. subst buf.
        eapply wp_RawMemory_dtor; [by apply Hbo|].
        unfold increment_size. eapply wp_get_vec_bind; [apply lookup_insert_eq|].
        apply wp_set_vec. simpl. rewrite insert_insert_eq, size_add_small by done.
        rewrite length_replicate, N2Nat.id.
        eexists. split; [done|]. simpl.
        split; [done|]. split; [done|]. split; [done|].
        split. { apply Hnewholds. simpl. by rewrite list_lookup_insert_ne by lia. }
        split; [rewrite length_insert; lia|]. split.
        -- intros b [= <-]. by rewrite list_lookup_insert_eq by lia.
        -- intros b Hb Hb'. rewrite list_lookup_insert_ne by congruence.
           rewrite Hother; [|lia|done]. by rewrite lookup_app_l.
    + intros H' HL Hbn Hkeep Hother. rewrite length_app in HL. simpl in HL.
      rewrite lookup_app_new in Hbn.
      eapply wp_RawMemory_dtor; [exact Hbn|].
      rewrite length_app, length_replicate. cbn [length]. rewrite length_replicate.
      replace (N.of_nat (length xs + S (N.to_nat nc - S (length xs)))) with nc by lia.
      eexists. split; [done|]. simpl.
      split; [done|]. split; [done|]. split; [lia|]. split; [|split; [|split]].
      * eapply holds_insert_other; [exact Hkeep|done].
      * rewrite length_insert. lia.
      * by rewrite list_lookup_insert_eq by lia.
      * intros b Hb Hb'. rewrite list_lookup_insert_ne by lia.
        rewrite Hother; [|lia|done]. by rewrite lookup_app_l.
  - (* a free slot *)
    apply N.eqb_neq in Hfull. unfold Capacity, RawMemory_Capacity in Hfull.
    destruct v as [[buf cap] sz]. simpl in *.
    destruct Hh as (_ & _ & Hbytes & Hx). simpl in Hx, Hbytes.
    destruct buf as [|b off]; [lia|]. destruct Hx as [-> Hb].
    unfold block_is in Hb. simpl in Hb.
    apply wp_bind. apply wp_RawMemory_plus_bind; [done|].
    eapply wp_construct_at; [exact Hb|rewrite slots_length; lia|].
    destruct (T_copy value w) as [w1 [x|]]; [|done].
    unfold increment_size. eapply wp_get_vec_bind; [exact Hv|].
    apply wp_set_vec. simpl. rewrite size_add_small by done.
    eexists. split; [done|]. simpl.
    split; [done|]. split; [done|]. split; [done|]. split; [|split].
    + repeat split; simpl; try lia.
      * rewrite length_app. simpl. lia.
      * unfold block_is. simpl. erewrite insert_block_lookup by done.
        rewrite slots_snoc by lia.
        rewrite insert_at_middle by (rewrite length_fmap; lia).
        by rewrite slots_app_snoc.
    + by rewrite length_insert.
    + intros b' Hb'. rewrite list_lookup_insert_ne; [done|congruence].
Qed.

(** X10. [PushBack(const T& value)] on a valid vector.
    - With a free slot the copy is constructed in the slot at the length.
      When the copy constructor returns, the vector holds its elements
      followed by the copy, in the same buffer; when it throws, nothing
      but the environment of the element type has changed.
    - Without a free slot a block of [max(1, 2 * length)] slots is asked
      for; when the free store cannot serve the request, [PushBack] throws
      and nothing has changed.  Otherwise the copy is constructed first, at
      the slot at the length of the new block; when that throws, the new
      block is released with every cell raw.  Then the elements are
      transferred; on success the old elements are destroyed, the old block
      is released, and the vector owns the new block and holds the
      transferred objects followed by the copy.
    - When the transfer throws, the vector keeps its buffer and holds its
      elements as the transfer left them, and the new block is released
      with the copy still constructed in it.
    For an element type whose transferring constructor gives the value of
    its source the transferred objects are the elements. *)
Theorem push_back_appends (this : nat) (v : Vector) xs (value : T) s :
  objs s !! this = Some v →
  holds s v xs →
  let nc := grown_capacity (size_ v) in
  let nb := length (heap s) in
  let v' := mkVector (mkRawMemory (Addr nb 0) nc) (size_ v + 1) in
  let u := mkVector (data_ v) (size_ v + 1) in
  (transfer_preserves_values →
   ∀ w1, ∃ w' xs', transfer_run transfer_step xs w1 = (w', xs, xs', true))
  ∧ if (size_ v =? Capacity v)%N then
      if ((nc * sizeof_T <=? avail s) && (nc * sizeof_T <=? PTRDIFF_MAX))%N then
        match T_copy value (world s) with
        | (w1, None) =>
            ∃ s', PushBack this value s = Throw s'
                  ∧ world s' = w1
                  ∧ rolled_back s s' all_raw
                  ∧ heap s' = heap s ++ [mkBlock (replicate (N.to_nat nc) None) true]
        | (w1, Some x) =>
            match transfer_run transfer_step xs w1 with
            | (w2, ys, xs', true) =>
                ∃ s', PushBack this value s = Ok tt s'
                      ∧ world s' = destroy_all xs' w2
                      ∧ objs s' = <[this := v']> (objs s)
                      ∧ avail s' = (avail s - nc * sizeof_T
                                    + capacity_ (data_ v) * sizeof_T)%N
                      ∧ holds s' v' (ys ++ [x])
                      ∧ length (heap s') = S nb
                      ∧ (∀ b, buffer_ (data_ v) = Addr b 0 →
                              heap s' !! b
                              = Some (mkBlock
                                        (replicate (N.to_nat (capacity_ (data_ v))) None)
                                        true))
                      ∧ (∀ b, b < nb → buffer_ (data_ v) ≠ Addr b 0 →
                              heap s' !! b = heap s !! b)
            | (w2, ys, xs', false) =>
                ∃ s', PushBack this value s = Throw s'
                      ∧ world s' = destroy_all ys w2
                      ∧ objs s' = objs s
                      ∧ avail s' = avail s
                      ∧ holds s' v xs'
                      ∧ length (heap s') = S nb
                      ∧ heap s' !! nb
                        = Some (mkBlock
                                  (replicate (length xs) None
                                   ++ Some x :: replicate (N.to_nat nc - S (length xs)) None)
                                  true)
                      ∧ (∀ b, b < nb → buffer_ (data_ v) ≠ Addr b 0 →
                              heap s' !! b = heap s !! b)
            end
        end
      else PushBack this value s = Throw s
    else
      match T_copy value (world s) with
      | (w1, Some x) =>
          ∃ s', PushBack this value s = Ok tt s'
                ∧ world s' = w1
                ∧ objs s' = <[this := u]> (objs s)
                ∧ avail s' = avail s
                ∧ holds s' u (xs ++ [x])
                ∧ length (heap s') = nb
                ∧ (∀ b, buffer_ (data_ v) ≠ Addr b 0 → heap s' !! b = heap s !! b)
      | (w1, None) => PushBack this value s = Throw (set_world w1 s)
      end.
Proof. exact (PushBack_outcome this v xs value s). Qed.

Lemma EmplaceBack_outcome (this : nat) (v : Vector) xs (ctor : W → W * option T) s :
  objs s !! this = Some v →
  holds s v xs →
  let nc := grown_capacity (size_ v) in
  let nb := length (heap s) in
  let v' := mkVector (mkRawMemory (Addr nb 0) nc) (size_ v + 1) in
  let u := mkVector (data_ v) (size_ v + 1) in
  if (size_ v =? Capacity v)%N then
    if ((nc * sizeof_T <=? avail s) && (nc * sizeof_T <=? PTRDIFF_MAX))%N then
      match ctor (world s) with
      | (w1, None) =>
          ∃ s', EmplaceBack this ctor s = Throw s'
                ∧ world s' = w1
                ∧ rolled_back s s' all_raw
                ∧ heap s' = heap s ++ [mkBlock (replicate (N.to_nat nc) None) true]
      | (w1, Some x) =>
          match transfer_run transfer_step xs w1 with
          | (w2, ys, xs', true) =>
              ∃ s', EmplaceBack this ctor s = Ok (ptr_add (Vector_begin v') (size_ v)) s'
                    ∧ load (ptr_add (Vector_begin v') (size_ v)) s' = Ok x s'
                    ∧ world s' = destroy_all xs' w2
                    ∧ objs s' = <[this := v']> (objs s)
                    ∧ avail s' = (avail s - nc * sizeof_T)%N
                    ∧ holds s' v' (ys ++ [x])
                    ∧ length (heap s') = S nb
                    ∧ (∀ b, buffer_ (data_ v) = Addr b 0 →
                            heap s' !! b
                            = Some (mkBlock
                                      (replicate (N.to_nat (capacity_ (data_ v))) None)
                                      false))
                    ∧ (∀ b, b < nb → buffer_ (data_ v) ≠ Addr b 0 →
                            heap s' !! b = heap s !! b)
          | (w2, ys, xs', false) =>
              ∃ s', EmplaceBack this ctor s = Throw s'
                    ∧ world s' = destroy_all ys w2
                    ∧ objs s' = objs s
                    ∧ avail s' = avail s
                    ∧ holds s' v xs'
                    ∧ length (heap s') = S nb
                    ∧ heap s' !! nb
                      = Some (mkBlock
                                (replicate (length xs) None
                                 ++ Some x :: replicate (N.to_nat nc - S (length xs)) None)
                                true)
                    ∧ (∀ b, b < nb → buffer_ (data_ v) ≠ Addr b 0 →
                            heap s' !! b = heap s !! b)
          end
      end
    else EmplaceBack this ctor s = Throw s
  else
    match ctor (world s) with
    | (w1, Some x) =>
        ∃ s', EmplaceBack this ctor s = Ok (ptr_add (Vector_begin u) (size_ v)) s'
              ∧ load (ptr_add (Vector_begin u) (size_ v)) s' = Ok x s'
              ∧ world s' = w1
              ∧ objs s' = <[this := u]> (objs s)
              ∧ avail s' = avail s
              ∧ holds s' u (xs ++ [x])
              ∧ length (heap s') = nb
              ∧ (∀ b, buffer_ (data_ v) ≠ Addr b 0 → heap s' !! b = heap s !! b)
    | (w1, None) => EmplaceBack this ctor s = Throw (set_world w1 s)
    end.
Proof.
  intros Hv Hh nc nb v' u.
  pose proof (holds_bounds _ _ _ Hh) as (Hle & Hcap & Hsz).
  destruct s as [w h a o]. subst v' u nb. cbn [world heap avail objs] in *.
  pose proof (new_block_is_new _ _ _ _ _ _ Hh) as Hnew.
  assert (size_ v + 1 < SIZE_MOD)%N as Hinc
    by (rewrite SIZE_MOD_eq; rewrite PTRDIFF_MAX_eq in Hcap; lia).
  apply (wp_outcome_spec (EmplaceBack this ctor) (mkState w h a o)
           (λ r, if (size_ v =? Capacity v)%N then
                   if ((nc * sizeof_T <=? a) && (nc * sizeof_T <=? PTRDIFF_MAX))%N then
                     match ctor w with
                     | (w1, None) => ∃ s', r = Throw s' ∧ _
                     | (w1, Some x) =>
                         match transfer_run transfer_step xs w1 with
                         | (w2, ys, xs', true) => ∃ s', r = Ok _ s' ∧ _
                         | (w2, ys, xs', false) => ∃ s', r = Throw s' ∧ _
                         end
                     end
                   else r = Throw (mkState w h a o)
                 else
                   match ctor w with
                   | (w1, Some x) => ∃ s', r = Ok _ s' ∧ _
                   | (w1, None) => r = Throw (mkState w1 h a o)
                   end)).
  unfold EmplaceBack. eapply wp_get_vec_bind; [done|].
  unfold Vector_begin, GetAddress. cbn [data_ buffer_ ptr_add].
  destruct (size_ v =? Capacity v)%N eqn:Hfull.
  - (* no free slot *)
    apply N.eqb_eq in Hfull.
    destruct (grown_capacity_fits _ _ _ Hh Hfull) as (Hnc0 & Hncs & Hgrow).
    fold nc in Hnc0, Hncs, Hgrow |- *.
    apply wp_bind, wp_bind, wp_RawMemory_sized; [done..|].
    destruct (_ && _) eqn:Hroom; [|done].
    apply andb_prop in Hroom as [Hroom Hmax]. apply N.leb_le in Hroom, Hmax.
    apply wp_RawMemory_plus_bind; [lia|].
    apply wp_bind. unfold scoped_RawMemory. apply wp_bind, wp_on_throw.
    apply wp_bind. eapply wp_construct_at; [apply lookup_app_new|rewrite length_replicate; lia|].
    destruct (ctor w) as [w1 [x|]].
    2:{ eapply wp_RawMemory_dtor; [apply lookup_app_new|].
        rewrite insert_app_new, length_replicate, N2Nat.id.
        replace (a - nc * sizeof_T + nc * sizeof_T)%N with a by lia.
        eexists. split; [done|]. split; [done|].
        split; [apply rolled_back_new_raw|done]. }
    rewrite insert_app_new, insert_replicate_middle by lia.
    replace (N.to_nat (0 + size_ v)) with (length xs) by lia.
    cbn [buffer_].
    eapply (wp_transfer_out v xs (length h)).
    { by eapply holds_app. }
    { done. }
    { apply lookup_app_new. }
    pose proof (transfer_run_length transfer_step xs w1) as Hlen.
    pose proof (transfer_run_ok_length transfer_step xs w1) as Hlen'.
    destruct (transfer_run transfer_step xs w1) as [[[w2 ys] xs'] ok] eqn:Hrun.
    simpl in Hlen. destruct ok.
    + specialize (Hlen' _ _ _ eq_refl).
      intros H' HL Hbn Hbo Hother. rewrite length_app in HL. simpl in HL.
      unfold RawMemory_move_assign, set_data.
      apply wp_bind. eapply wp_get_vec_bind; [exact Hv|]. apply wp_set_vec.
      apply wp_ret. unfold set_objs. cbn [world heap avail objs].
      apply wp_RawMemory_dtor_null. apply wp_ret.
      apply wp_bind.
      unfold increment_size. eapply wp_get_vec_bind; [apply lookup_insert_eq|].
      apply wp_set_vec. apply wp_ret.
      simpl. rewrite insert_insert_eq, size_add_small by done.
      eexists. split; [done|]. simpl.
      split.
      { unfold load, cell_at, set_objs. simpl.
        erewrite live_block_eq by exact Hbn. simpl.
        rewrite lookup_at_middle; [done|]. rewrite length_fmap. lia. }
      split; [done|]. split; [done|]. split; [done|]. split; [|split; [lia|split]].
      * repeat split; simpl; try lia.
        -- rewrite length_app. simpl. lia.
        -- unfold block_is, slots. simpl. rewrite Hbn.
           rewrite fmap_app, <- app_assoc, length_app. simpl.
           by replace (N.to_nat nc - (length ys + 1)) with (N.to_nat nc - S (length xs))
             by lia.
      * done.
      * intros b Hb Hb'. rewrite Hother; [|lia|done]. by rewrite lookup_app_l.
    + intros H' HL Hbn Hkeep Hother. rewrite length_app in HL. simpl in HL.
      rewrite lookup_app_new in Hbn.
      eapply wp_RawMemory_dtor; [exact Hbn|].
      rewrite length_app, length_replicate. cbn [length]. rewrite length_replicate.
      replace (N.of_nat (length xs + S (N.to_nat nc - S (length xs)))) with nc by lia.
      eexists. split; [done|]. simpl.
      split; [done|]. split; [done|]. split; [lia|]. split; [|split; [|split]].
      * eapply holds_insert_other; [exact Hkeep|done].
      * rewrite length_insert. lia.
      * by rewrite list_lookup_insert_eq by lia.
      * intros b Hb Hb'. rewrite list_lookup_insert_ne by lia.
        rewrite Hother; [|lia|done]. by rewrite lookup_app_l.
  - (* a free slot *)
    apply N.eqb_neq in Hfull. unfold Capacity, RawMemory_Capacity in Hfull.
    destruct v as [[buf cap] sz]. simpl in *.
    destruct Hh as (_ & _ & Hbytes & Hx). simpl in Hx, Hbytes.
    destruct buf as [|b off]; [lia|]. destruct Hx as [-> Hb].
    unfold block_is in Hb. simpl in Hb.
    apply wp_bind. apply wp_RawMemory_plus_bind; [done|].
    apply wp_bind.
    eapply wp_construct_at; [exact Hb|rewrite slots_length; lia|].
    destruct (ctor w) as [w1 [x|]]; [|done].
    apply wp_ret, wp_bind.
    unfold increment_size. eapply wp_get_vec_bind; [exact Hv|].
    apply wp_set_vec, wp_ret. simpl. rewrite size_add_small by done.
    eexists. split; [done|]. simpl.
    split.
    { unfold load, cell_at, set_objs. simpl.
      erewrite live_block_eq by (by eapply insert_block_lookup). simpl.
      rewrite list_lookup_insert_eq; [done|]. rewrite slots_length; lia. }
    split; [done|]. split; [done|]. split; [done|]. split; [|split].
    + repeat split; simpl; try lia.
      * rewrite length_app. simpl. lia.
      * unfold block_is. simpl. erewrite insert_block_lookup by done.
        rewrite slots_snoc by lia.
        rewrite insert_at_middle by (rewrite length_fmap; lia).
        by rewrite slots_app_snoc.
    + by rewrite length_insert.
    + intros b' Hb'. rewrite list_lookup_insert_ne; [done|congruence].
Qed.

(** X11. [EmplaceBack(args...)] on a valid vector; [ctor] is the
    constructor call [T(args...)].  It returns a reference to the new last
    element: the address returned is that of the slot at the old length in
    the buffer the vector owns afterwards, and the object there is the one
    constructed.
    - With a free slot the object is constructed in place; when the
      constructor throws, nothing but the environment of the element type
      has changed.
    - Without a free slot a block of [max(1, 2 * length)] slots is asked
      for; when the free store cannot serve the request, [EmplaceBack]
      throws and nothing has changed.  Otherwise the object is constructed
      first; when that throws, the new block is released with every cell
      raw.  Then the elements are transferred; on success the old elements
      are destroyed and the vector takes the new block and holds the
      transferred objects followed by the new one.  The old block is left
      with every cell raw, and it is not released.
    - When the transfer throws, the vector keeps its buffer and holds its
      elements as the transfer left them, and the new block is released
      with the new object still constructed in it. *)
Theorem emplace_back_appends (this : nat) (v : Vector) xs (ctor : W → W * option T) s :
  objs s !! this = Some v →
  holds s v xs →
  let nc := grown_capacity (size_ v) in
  let nb := length (heap s) in
  let v' := mkVector (mkRawMemory (Addr nb 0) nc) (size_ v + 1) in
  let u := mkVector (data_ v) (size_ v + 1) in
  if (size_ v =? Capacity v)%N then
    if ((nc * sizeof_T <=? avail s) && (nc * sizeof_T <=? PTRDIFF_MAX))%N then
      match ctor (world s) with
      | (w1, None) =>
          ∃ s', EmplaceBack this ctor s = Throw s'
                ∧ world s' = w1
                ∧ rolled_back s s' all_raw
                ∧ heap s' = heap s ++ [mkBlock (replicate (N.to_nat nc) None) true]
      | (w1, Some x) =>
          match transfer_run transfer_step xs w1 with
          | (w2, ys, xs', true) =>
              ∃ s', EmplaceBack this ctor s = Ok (ptr_add (Vector_begin v') (size_ v)) s'
                    ∧ load (ptr_add (Vector_begin v') (size_ v)) s' = Ok x s'
                    ∧ world s' = destroy_all xs' w2
                    ∧ objs s' = <[this := v']> (objs s)
                    ∧ avail s' = (avail s - nc * sizeof_T)%N
                    ∧ holds s' v' (ys ++ [x])
                    ∧ length (heap s') = S nb
                    ∧ (∀ b, buffer_ (data_ v) = Addr b 0 →
                            heap s' !! b
                            = Some (mkBlock
                                      (replicate (N.to_nat (capacity_ (data_ v))) None)
                                      false))
                    ∧ (∀ b, b < nb → buffer_ (data_ v) ≠ Addr b 0 →
                            heap s' !! b = heap s !! b)
          | (w2, ys, xs', false) =>
              ∃ s', EmplaceBack this ctor s = Throw s'
                    ∧ world s' = destroy_all ys w2
                    ∧ objs s' = objs s
                    ∧ avail s' = avail s
                    ∧ holds s' v xs'
                    ∧ length (heap s') = S nb
                    ∧ heap s' !! nb
                      = Some (mkBlock
                                (replicate (length xs) None
                                 ++ Some x :: replicate (N.to_nat nc - S (length xs)) None)
                                true)
                    ∧ (∀ b, b < nb → buffer_ (data_ v) ≠ Addr b 0 →
                            heap s' !! b = heap s !! b)
          end
      end
    else EmplaceBack this ctor s = Throw s
  else
    match ctor (world s) with
    | (w1, Some x) =>
        ∃ s', EmplaceBack this ctor s = Ok (ptr_add (Vector_begin u) (size_ v)) s'
              ∧ load (ptr_add (Vector_begin u) (size_ v)) s' = Ok x s'
              ∧ world s' = w1
              ∧ objs s' = <[this := u]> (objs s)
              ∧ avail s' = avail s
              ∧ holds s' u (xs ++ [x])
              ∧ length (heap s') = nb
              ∧ (∀ b, buffer_ (data_ v) ≠ Addr b 0 → heap s' !! b = heap s !! b)
    | (w1, None) => EmplaceBack this ctor s = Throw (set_world w1 s)
    end.
Proof. exact (EmplaceBack_outcome this v xs ctor s). Qed.

Lemma PushBack_rvalue_as_EmplaceBack (this : nat) (value : T) s :
  PushBack_rvalue this value s = (EmplaceBack this (move_value value);; mret tt) s.
Proof.
  unfold PushBack_rvalue, EmplaceBack, mbind, M_bind.
  destruct (get_vec this s) as [v s0|s0| |]; try done.
  destruct (size_ v =? Capacity v)%N.
  - destruct (RawMemory_sized (grown_capacity (size_ v)) s0) as [nd s1|s1| |]; try done.
    unfold scoped_RawMemory, RawMemory_plus, assert, mbind, M_bind, on_throw.
    destruct (size_ v <=? capacity_ nd)%N; simpl; [|done].
    destruct (construct_at _ _ s1) as [[] s2|s2| |]; simpl; try done.
    + destruct (TransferDataSafely _ _ _ s2) as [[] s3|s3| |]; simpl; try done.
      * destruct (destroy_n _ _ s3) as [[] s4|s4| |]; simpl; try done.
        -- destruct (set_data _ _ s4) as [[] s5|s5| |]; simpl; try done.
           ++ by destruct (increment_size this s5) as [[] s7|s7| |].
           ++ by destruct (RawMemory_dtor nd s5) as [[] s6|s6| |].
        -- by destruct (RawMemory_dtor nd s4) as [[] s5|s5| |].
      * by destruct (RawMemory_dtor nd s3) as [[] s4|s4| |].
    + by destruct (RawMemory_dtor nd s2) as [[] s3|s3| |].
  - unfold RawMemory_plus, assert, mbind, M_bind.
    destruct (size_ v <=? capacity_ (data_ v))%N; simpl; [|done].
    destruct (construct_at _ _ s0) as [[] s1|s1| |]; simpl; try done.
    by destruct (increment_size this s1) as [[] s2|s2| |].
Qed.

(** X12. [PushBack(T&& value)] does what [EmplaceBack(std::move(value))]
    does, in every state, whatever the outcome: the two differ only in that
    [EmplaceBack] returns a reference. *)
Theorem push_back_rvalue_is_emplace_back (this : nat) (value : T) s :
  PushBack_rvalue this value s = (EmplaceBack this (move_value value);; mret tt) s.
Proof. exact (PushBack_rvalue_as_EmplaceBack this value s). Qed.

Lemma wp_returns_at (m : M T W unit) s s0 :
  wp m s (λ _ s', s' = s0) (λ _, False) → m s = Ok tt s0.
Proof.
  unfold wp. destruct (m s) as [[] s'|s'| |]; try done. by intros ->.
Qed.

(** X13. [PushBack] into a free slot followed by [PopBack] gives back the
    state before, but for the environment of the element type, in which the
    copy has been constructed and destroyed: the same buffer, length and
    capacity, every block as it was. *)
Theorem push_back_then_pop_back (this : nat) (v : Vector) xs (value x : T) w1 s :
  objs s !! this = Some v →
  holds s v xs →
  size_ v ≠ Capacity v →
  T_copy value (world s) = (w1, Some x) →
  ∃ s1, PushBack this value s = Ok tt s1
        ∧ PopBack this s1 = Ok tt (set_world (T_dtor x w1) s).
Proof.
  intros Hv Hh Hfull Hcopy.
  pose proof (holds_bounds _ _ _ Hh) as (Hle & Hcap & Hsz).
  destruct s as [w h a o]. cbn [world heap avail objs] in *.
  assert (size_ v + 1 < SIZE_MOD)%N as Hinc
    by (rewrite SIZE_MOD_eq; rewrite PTRDIFF_MAX_eq in Hcap; lia).
  unfold Capacity, RawMemory_Capacity in Hfull.
  destruct v as [[buf cap] sz]. simpl in *.
  destruct Hh as (_ & _ & Hbytes & Hx). simpl in Hx, Hbytes.
  destruct buf as [|b off]; [lia|]. destruct Hx as [-> Hb].
  unfold block_is in Hb. simpl in Hb.
  apply wp_returns. unfold PushBack. eapply wp_get_vec_bind; [done|].
  unfold Capacity, RawMemory_Capacity. simpl.
  rewrite (proj2 (N.eqb_neq _ _) Hfull).
  apply wp_bind. apply wp_RawMemory_plus_bind; [done|].
  eapply wp_construct_at; [exact Hb|rewrite slots_length; lia|].
  rewrite Hcopy.
  unfold increment_size. eapply wp_get_vec_bind; [exact Hv|].
  apply wp_set_vec. simpl. rewrite size_add_small by done.
  apply wp_returns_at. unfold PopBack.
  eapply wp_get_vec_bind; [apply lookup_insert_eq|]. simpl.
  rewrite size_sub_small by lia.
  replace (sz + 1 - 1)%N with sz by lia.
  apply wp_bind.
  eapply wp_destroy_at; [by eapply insert_block_lookup| |].
  { apply list_lookup_insert_eq. rewrite slots_length; lia. }
  apply wp_set_vec. simpl. unfold set_world. simpl.
  rewrite !list_insert_insert_eq, insert_insert_eq.
  rewrite (insert_id o) by done.
  rewrite (list_insert_id (slots xs cap)).
  2:{ rewrite slots_snoc by lia. apply lookup_at_middle. rewrite length_fmap. lia. }
  by rewrite insert_block_id.
Qed.

(** ** [Resize] *)

Lemma Resize_within_outcome (this : nat) (v : Vector) xs (n : N) s :
  objs s !! this = Some v →
  holds s v xs →
  (n ≤ capacity_ (data_ v))%N →
  let u := mkVector (data_ v) n in
  if (n <? size_ v)%N then
    ∃ s', Resize this n s = Ok tt s'
          ∧ world s' = destroy_all (drop (N.to_nat n) xs) (world s)
          ∧ objs s' = <[this := u]> (objs s)
          ∧ avail s' = avail s
          ∧ holds s' u (take (N.to_nat n) xs)
          ∧ length (heap s') = length (heap s)
          ∧ (∀ b, buffer_ (data_ v) ≠ Addr b 0 → heap s' !! b = heap s !! b)
  else
    match construct_run T_default (N.to_nat (n - size_ v)) (world s) with
    | (w', ys, true) =>
        ∃ s', Resize this n s = Ok tt s'
              ∧ world s' = w'
              ∧ objs s' = <[this := u]> (objs s)
              ∧ avail s' = avail s
              ∧ holds s' u (xs ++ ys)
              ∧ length (heap s') = length (heap s)
              ∧ (∀ b, buffer_ (data_ v) ≠ Addr b 0 → heap s' !! b = heap s !! b)
    | (w', ys, false) =>
        Resize this n s = Throw (set_world (destroy_all ys w') s)
    end.
Proof.
  intros Hv Hh Hn u. subst u.
  pose proof (holds_bounds _ _ _ Hh) as (Hle & Hcap & Hsz).
  destruct s as [w h a o]. cbn [world heap avail objs] in *.
  assert (capacity_ (data_ v) < SIZE_MOD)%N as Hsmall
    by (rewrite SIZE_MOD_eq; rewrite PTRDIFF_MAX_eq in Hcap; lia).
  apply (wp_outcome_spec (Resize this n) (mkState w h a o)
           (λ r, if (n <? size_ v)%N then ∃ s', r = Ok tt s' ∧ _
                 else match construct_run T_default (N.to_nat (n - size_ v)) w with
                      | (w', ys, true) => ∃ s', r = Ok tt s' ∧ _
                      | (w', ys, false) => r = Throw (mkState (destroy_all ys w') h a o)
                      end)).
  unfold Resize. eapply wp_get_vec_bind; [done|].
  destruct v as [[buf cap] sz]. unfold GetAddress, RawMemory_Capacity. simpl in *.
  destruct Hh as (_ & _ & Hbytes & Hx). simpl in Hx, Hbytes.
  destruct (n <? sz)%N eqn:Hlt.
  - (* shrinking *)
    apply N.ltb_lt in Hlt.
    destruct buf as [|b off]; [lia|]. destruct Hx as [-> Hb].
    unfold block_is, slots in Hb. simpl in Hb.
    rewrite <- (take_drop (N.to_nat n) xs), fmap_app, <- app_assoc in Hb.
    rewrite size_sub_small by lia.
    replace (sz - n)%N with (N.of_nat (length (drop (N.to_nat n) xs)))
      by (rewrite length_drop; lia).
    apply wp_bind. simpl.
    eapply (wp_destroy_n b (0 + n) (drop (N.to_nat n) xs)); [exact Hb| |].
    { rewrite length_fmap, length_take. lia. }
    eapply wp_set_size; [exact Hv|]. simpl.
    eexists. split; [done|]. simpl.
    split; [done|]. split; [done|]. split; [done|]. split; [|split].
    + repeat split; simpl; try lia.
      * rewrite length_take. lia.
      * unfold block_is, slots. simpl. erewrite insert_block_lookup by done.
        rewrite <- replicate_add, take_drop, length_drop, length_take.
        do 4 f_equal. lia.
    + by rewrite length_insert.
    + intros b' Hb'. rewrite list_lookup_insert_ne; [done|congruence].
  - (* growing within the capacity *)
    apply N.ltb_ge in Hlt.
    apply wp_bind. unfold Reserve. eapply wp_get_vec_bind; [exact Hv|].
    unfold RawMemory_Capacity. simpl. rewrite (proj2 (N.leb_le _ _) Hn).
    apply wp_ret. eapply wp_get_vec_bind; [exact Hv|]. simpl.
    rewrite size_sub_small by lia.
    destruct buf as [|b off].
    + (* no buffer: no capacity, no elements *)
      subst cap. assert (n = 0%N) as -> by lia. assert (sz = 0%N) as -> by lia.
      destruct xs; [|simpl in Hsz; lia]. simpl.
      apply wp_bind, wp_ret. eapply wp_set_size; [exact Hv|]. simpl.
      eexists. split; [done|]. simpl. repeat split; try done.
    + destruct Hx as [-> Hb]. unfold block_is, slots in Hb. simpl in Hb.
      set (k := N.to_nat (n - sz)) in *. pose proof Hb as Hb0.
      replace (N.to_nat cap - length xs) with (k + (N.to_nat cap - length xs - k)) in Hb
        by lia.
      rewrite replicate_add in Hb.
      apply wp_bind. unfold uninitialized_value_construct_n. fold k.
      eapply (wp_construct_loop T_default b (0 + sz) k 0 [] (Some <$> xs)).
      { exact Hb. }
      { rewrite length_fmap. lia. }
      { done. }
      pose proof (construct_run_length T_default k w) as Hlen.
      destruct (construct_run T_default k w) as [[w' ys] ok] eqn:Hrun.
      destruct ok.
      * specialize (Hlen _ _ eq_refl).
        eapply wp_set_size; [exact Hv|]. simpl.
        eexists. split; [done|]. simpl.
        split; [done|]. split; [done|]. split; [done|]. split; [|split].
        -- repeat split; simpl; try lia.
           ++ rewrite length_app. lia.
           ++ unfold block_is, slots. simpl. erewrite insert_block_lookup by done.
              rewrite fmap_app, <- app_assoc, length_app.
              do 5 f_equal. lia.
        -- by rewrite length_insert.
        -- intros b' Hb'. rewrite list_lookup_insert_ne; [done|congruence].
      * simpl. rewrite <- replicate_add.
        replace (k + (N.to_nat cap - length xs - k)) with (N.to_nat cap - length xs) by lia.
        by rewrite (insert_block_id h b _ Hb0).
Qed.

(** X14. [Resize(n)] on a valid vector, for [n] within the capacity; it
    keeps the buffer.
    - For [n] below the length, the elements from index [n] on are
      destroyed, first to last, and the vector holds the first [n].
    - Otherwise [n - length] elements are value-initialized at the end.
      When every constructor returns, the vector holds its elements
      followed by the new ones; for [n] equal to the length that is what it
      held.  When a constructor throws, the objects constructed so far are
      destroyed again and nothing but the environment of the element type
      has changed. *)
Theorem resize_within_capacity (this : nat) (v : Vector) xs (n : N) s :
  objs s !! this = Some v →
  holds s v xs →
  (n ≤ capacity_ (data_ v))%N →
  let u := mkVector (data_ v) n in
  if (n <? size_ v)%N then
    ∃ s', Resize this n s = Ok tt s'
          ∧ world s' = destroy_all (drop (N.to_nat n) xs) (world s)
          ∧ objs s' = <[this := u]> (objs s)
          ∧ avail s' = avail s
          ∧ holds s' u (take (N.to_nat n) xs)
          ∧ length (heap s') = length (heap s)
          ∧ (∀ b, buffer_ (data_ v) ≠ Addr b 0 → heap s' !! b = heap s !! b)
  else
    match construct_run T_default (N.to_nat (n - size_ v)) (world s) with
    | (w', ys, true) =>
        ∃ s', Resize this n s = Ok tt s'
              ∧ world s' = w'
              ∧ objs s' = <[this := u]> (objs s)
              ∧ avail s' = avail s
              ∧ holds s' u (xs ++ ys)
              ∧ length (heap s') = length (heap s)
              ∧ (∀ b, buffer_ (data_ v) ≠ Addr b 0 → heap s' !! b = heap s !! b)
    | (w', ys, false) =>
        Resize this n s = Throw (set_world (destroy_all ys w') s)
    end.
Proof. exact (Resize_within_outcome this v xs n s). Qed.

(** ** Positional insertion into a free slot *)

Lemma wp_construct_move_adjacent b src dst pre (x : T) post w h a o Q E :
  h !! b = Some (mkBlock (pre ++ Some x :: None :: post) false) →
  N.to_nat src = length pre →
  N.to_nat dst = S (length pre) →
  match T_move x w with
  | (w', Some y, x') =>
      Q tt (mkState w' (<[b := mkBlock (pre ++ Some x' :: Some y :: post) false]> h) a o)
  | (w', None, x') =>
      E (mkState w' (<[b := mkBlock (pre ++ Some x' :: None :: post) false]> h) a o)
  end →
  wp (construct_move (Addr b dst) (Addr b src)) (mkState w h a o) Q E.
Proof.
  intros Hb Hsrc Hdst HQ. unfold construct_move.
  apply wp_bind. eapply wp_load; [done|by apply lookup_at_middle|].
  apply wp_bind, wp_get_world. simpl.
  destruct (T_move x w) as [[w' r] x'].
  apply wp_bind, wp_put_world. simpl.
  apply wp_bind. eapply wp_set_cell; [done| |].
  { rewrite length_app. simpl. lia. }
  rewrite Hsrc, (insert_at_middle pre) by done.
  destruct r as [y|]; [|by apply wp_throw].
  eapply wp_set_cell; [by eapply insert_block_lookup| |].
  { rewrite length_app. simpl. lia. }
  rewrite list_insert_insert_eq, Hdst, (app_cons_shift pre).
  rewrite (insert_at_middle (pre ++ [Some x'])) by (rewrite length_app; simpl; lia).
  by rewrite <- app_assoc.
Qed.

(** [dst[0] = std::move(src[0])] for [dst] the right neighbour of [src] *)
Lemma wp_assign_move_right b dst src pre (d x : T) post w h a o Q E :
  h !! b = Some (mkBlock (pre ++ Some x :: Some d :: post) false) →
  N.to_nat src = length pre →
  N.to_nat dst = S (length pre) →
  match T_move_assign d x w with
  | (w', true, d', v') =>
      Q tt (mkState w' (<[b := mkBlock (pre ++ Some v' :: Some d' :: post) false]> h) a o)
  | (w', false, d', v') =>
      E (mkState w' (<[b := mkBlock (pre ++ Some v' :: Some d' :: post) false]> h) a o)
  end →
  wp (assign_move (Addr b dst) (Addr b src)) (mkState w h a o) Q E.
Proof.
  intros Hb Hsrc Hdst HQ. unfold assign_move.
  apply wp_bind. eapply wp_load; [done| |].
  { rewrite Hdst, (app_cons_shift pre). apply lookup_at_middle.
    rewrite length_app. simpl. lia. }
  apply wp_bind. eapply wp_load; [done|by apply lookup_at_middle|].
  apply wp_bind, wp_get_world. simpl.
  destruct (T_move_assign d x w) as [[[w' ok] d'] v'].
  apply wp_bind, wp_put_world. simpl.
  apply wp_bind. eapply wp_set_cell; [done| |].
  { rewrite length_app. simpl. lia. }
  rewrite Hsrc, (insert_at_middle pre) by done.
  apply wp_bind. eapply wp_set_cell; [by eapply insert_block_lookup| |].
  { rewrite length_app. simpl. lia. }
  rewrite list_insert_insert_eq, Hdst, (app_cons_shift pre).
  rewrite (insert_at_middle (pre ++ [Some v'])) by (rewrite length_app; simpl; lia).
  rewrite <- app_assoc. simpl.
  by destruct ok.
Qed.

(** [std::move_backward] over the row [rev rm] into the cells one to the
    right, the cell after the row holding [d]. *)
Lemma wp_move_backward_loop b : ∀ rm (d : T) ol od pre post w h a o Q E,
  h !! b = Some (mkBlock (pre ++ (Some <$> rev rm) ++ Some d :: post) false) →
  N.to_nat ol = length pre + length rm →
  N.to_nat od = S (N.to_nat ol) →
  match shift_left_run d rm w with
  | (w', l, true) =>
      Q tt (mkState w' (<[b := mkBlock (pre ++ (Some <$> rev l) ++ post) false]> h) a o)
  | (w', l, false) =>
      E (mkState w' (<[b := mkBlock (pre ++ (Some <$> rev l) ++ post) false]> h) a o)
  end →
  wp (move_backward_loop (Addr b ol) (Addr b od) (length rm)) (mkState w h a o) Q E.
Proof.
  induction rm as [|v rm IH]; intros d ol od pre post w h a o Q E Hb Hol Hod HQ.
  - apply wp_ret. simpl in *. by rewrite insert_block_id in HQ.
  - cbn [rev] in Hb. rewrite fmap_app, <- app_assoc, (app_assoc pre) in Hb.
    cbn [fmap list_fmap app] in Hb.
    cbn [length] in Hol.
    cbn [length move_backward_loop ptr_sub].
    rewrite (proj2 (N.leb_le 1 od)), (proj2 (N.leb_le 1 ol)) by lia.
    apply wp_bind.
    eapply wp_assign_move_right; [exact Hb| | |].
    { rewrite length_app, length_fmap, length_rev. lia. }
    { rewrite length_app, length_fmap, length_rev. lia. }
    cbn [shift_left_run] in HQ.
    destruct (T_move_assign d v w) as [[[w' ok] d'] v'].
    destruct ok.
    + eapply IH.
      * erewrite insert_block_lookup by done. by rewrite <- app_assoc.
      * lia.
      * lia.
      * destruct (shift_left_run v' rm w') as [[w'' l] ok'].
        rewrite list_insert_insert_eq.
        cbn [rev] in HQ. rewrite fmap_app, <- !app_assoc in HQ.
        by destruct ok'.
    + cbn [rev] in HQ. rewrite !fmap_app, <- !app_assoc in HQ.
      rewrite <- app_assoc. exact HQ.
Qed.

Lemma wp_assign_from_temporary b off l (d t : T) w h a o Q E :
  h !! b = Some (mkBlock l false) →
  l !! N.to_nat off = Some (Some d) →
  match T_move_assign d t w with
  | (w', true, d', t') =>
      Q tt (mkState (T_dtor t' w')
              (<[b := mkBlock (<[N.to_nat off := Some d']> l) false]> h) a o)
  | (w', false, d', t') =>
      E (mkState (T_dtor t' w')
           (<[b := mkBlock (<[N.to_nat off := Some d']> l) false]> h) a o)
  end →
  wp (assign_from_temporary (Addr b off) t) (mkState w h a o) Q E.
Proof.
  intros Hb Hd HQ. unfold assign_from_temporary.
  apply wp_bind. eapply wp_load; [done..|].
  apply wp_bind, wp_get_world. simpl.
  destruct (T_move_assign d t w) as [[[w' ok] d'] t'].
  apply wp_bind, wp_put_world. simpl.
  apply wp_bind. eapply wp_set_cell; [done|by eapply lookup_lt_Some|].
  by destruct ok.
Qed.

Lemma slots_app (pre row : list T) c :
  slots (pre ++ row) c
  = (Some <$> pre) ++ (Some <$> row) ++ replicate (N.to_nat c - length pre - length row) None.
Proof.
  unfold slots. rewrite fmap_app, <- app_assoc, length_app. do 3 f_equal. lia.
Qed.

Lemma emplace_in_place_run_transfers ctor mid last (t : T) w :
  move_construction_transfers →
  move_assignment_transfers →
  (∀ w', (ctor w').2 = Some t) →
  ∃ w', emplace_in_place_run ctor mid last w = (w', t :: mid ++ [last], true).
Proof.
  intros Hmc Hma Hctor. unfold emplace_in_place_run.
  specialize (Hmc last w). destruct (T_move last w) as [[w1 r] last']. simpl in Hmc.
  subst r.
  destruct (shift_left_run_transfers last' (rev mid) w1 Hma) as (w2 & z & ->).
  specialize (Hctor w2). destruct (ctor w2) as [w3 r]. simpl in Hctor. subst r.
  rewrite rev_app_distr, rev_involutive. simpl.
  destruct (Hma z t w3) as [Hok Hval].
  destruct (T_move_assign z t w3) as [[[w4 ok] d'] t']. simpl in *. subst.
  by eexists.
Qed.

Lemma Emplace_in_place_outcome (this : nat) (v : Vector) pre mid (last : T) pos ctor s :
  objs s !! this = Some v →
  holds s v (pre ++ mid ++ [last]) →
  size_ v ≠ Capacity v →
  pos = ptr_add (Vector_begin v) (N.of_nat (length pre)) →
  let u := mkVector (data_ v) (size_ v + 1) in
  (∀ t, move_construction_transfers → move_assignment_transfers →
        (∀ w', (ctor w').2 = Some t) →
        ∃ w', emplace_in_place_run ctor mid last (world s) = (w', t :: mid ++ [last], true))
  ∧ match emplace_in_place_run ctor mid last (world s) with
    | (w', row, true) =>
        ∃ s', Emplace this pos ctor s = Ok pos s'
              ∧ world s' = w'
              ∧ objs s' = <[this := u]> (objs s)
              ∧ avail s' = avail s
              ∧ holds s' u (pre ++ row)
              ∧ length (heap s') = length (heap s)
              ∧ (∀ b, buffer_ (data_ v) ≠ Addr b 0 → heap s' !! b = heap s !! b)
    | (w', row, false) =>
        ∃ s', Emplace this pos ctor s = Throw s'
              ∧ world s' = w'
              ∧ objs s' = objs s
              ∧ avail s' = avail s
              ∧ (∃ b, buffer_ (data_ v) = Addr b 0
                      ∧ block_is s' b (slots (pre ++ row) (capacity_ (data_ v))))
              ∧ length (heap s') = length (heap s)
              ∧ (∀ b, buffer_ (data_ v) ≠ Addr b 0 → heap s' !! b = heap s !! b)
    end.
Proof.
  intros Hv Hh Hfull -> u. subst u. split.
  { intros t. apply emplace_in_place_run_transfers. }
  pose proof (holds_bounds _ _ _ Hh) as (Hle & Hcap & Hsz).
  destruct s as [w h a o]. cbn [world heap avail objs] in *.
  assert (size_ v + 1 < SIZE_MOD)%N as Hinc
    by (rewrite SIZE_MOD_eq; rewrite PTRDIFF_MAX_eq in Hcap; lia).
  unfold Capacity, RawMemory_Capacity in Hfull.
  destruct v as [[buf cap] sz]. simpl in *.
  destruct Hh as (_ & _ & Hbytes & Hx). simpl in Hx, Hbytes.
  destruct buf as [|b off]; [lia|]. destruct Hx as [-> Hb].
  unfold block_is in Hb. simpl in Hb.
  rewrite !length_app in Hsz. cbn [length] in Hsz.
  set (p := N.of_nat (length pre)) in *.
  set (post := replicate (N.to_nat cap - S (S (length pre + length mid))) (None : option T)).
  assert (slots (pre ++ mid ++ [last]) cap
          = ((Some <$> pre) ++ (Some <$> mid)) ++ Some last :: None :: post) as Hslots.
  { rewrite slots_app, fmap_app, length_app, <- !app_assoc. cbn [length fmap list_fmap app].
    do 3 f_equal. subst post.
    replace (N.to_nat cap - length pre - (length mid + 1))
      with (S (N.to_nat cap - S (S (length pre + length mid)))) by lia.
    done. }
  rewrite Hslots in Hb.
  assert (∀ row, length row = S (length mid) →
            (Some <$> pre) ++ (Some <$> row) ++ None :: post = slots (pre ++ row) cap)
    as Hshort.
  { intros row Hrow. rewrite slots_app, Hrow. do 2 f_equal. subst post.
    replace (N.to_nat cap - length pre - S (length mid))
      with (S (N.to_nat cap - S (S (length pre + length mid)))) by lia.
    done. }
  assert (∀ row, length row = S (S (length mid)) →
            (Some <$> pre) ++ (Some <$> row) ++ post = slots (pre ++ row) cap)
    as Hlong.
  { intros row Hrow. rewrite slots_app, Hrow. do 2 f_equal. subst post.
    f_equal. lia. }
  unfold Vector_begin, GetAddress. cbn [data_ buffer_ ptr_add].
  apply (wp_outcome_spec (Emplace this (Addr b (0 + p)) ctor) (mkState w h a o)
           (λ r, match emplace_in_place_run ctor mid last w with
                 | (w', row, true) => ∃ s', r = Ok (Addr b (0 + p)) s' ∧ _
                 | (w', row, false) => ∃ s', r = Throw s' ∧ _
                 end)).
  unfold Emplace. eapply wp_get_vec_bind; [done|].
  unfold Vector_begin, Vector_end, GetAddress, Size, Capacity, RawMemory_Capacity.
  cbn [data_ buffer_ size_ capacity_ ptr_add].
  rewrite ptr_distance_same_block by lia.
  replace (0 + p - 0)%N with p by lia.
  rewrite decide_False by (intros [=]; lia).
  apply wp_bind. rewrite (proj2 (N.eqb_neq _ _) Hfull).
  cbn [ptr_sub]. rewrite (proj2 (N.leb_le 1 (0 + sz))) by lia.
  unfold emplace_in_place_run.
  (* the last element moves into the free slot *)
  apply wp_bind.
  eapply wp_construct_move_adjacent; [exact Hb| | |].
  { rewrite length_app, !length_fmap. lia. }
  { rewrite length_app, !length_fmap. lia. }
  destruct (T_move last w) as [[w1 [m|]] last'].
  2:{ eexists. split; [done|]. simpl.
      split; [done|]. split; [done|]. split; [done|]. split; [|split].
      - exists b. split; [done|]. unfold block_is. simpl.
        erewrite insert_block_lookup by done.
        rewrite <- Hshort by (rewrite length_app; simpl; lia).
        by rewrite fmap_app, <- !app_assoc.
      - by rewrite length_insert.
      - intros b' Hb'. rewrite list_lookup_insert_ne; [done|congruence]. }
  (* the others move one slot to the right *)
  apply wp_bind. unfold move_backward.
  rewrite ptr_distance_same_block by lia.
  replace (N.to_nat (0 + sz - 1 - (0 + p))) with (length (rev mid))
    by (rewrite length_rev; lia).
  eapply (wp_move_backward_loop b (rev mid) last' (0 + sz - 1) (0 + sz) (Some <$> pre)
            (Some m :: post)).
  { rewrite rev_involutive. erewrite insert_block_lookup by done.
    by rewrite <- app_assoc. }
  { rewrite length_fmap, length_rev. lia. }
  { lia. }
  pose proof (shift_left_run_length last' (rev mid) w1) as Hlen.
  destruct (shift_left_run last' (rev mid) w1) as [[w2 l] ok] eqn:Hrun.
  cbn [fst snd] in Hlen. rewrite length_rev in Hlen.
  rewrite list_insert_insert_eq.
  assert (length (rev l ++ [m]) = S (S (length mid))) as Hrow
    by (rewrite length_app, length_rev; simpl; lia).
  assert ((Some <$> pre) ++ (Some <$> rev l) ++ Some m :: post
          = slots (pre ++ rev l ++ [m]) cap) as Hmoved.
  { rewrite <- Hlong by done. by rewrite fmap_app, <- !app_assoc. }
  destruct ok.
  2:{ eexists. split; [done|]. simpl.
      split; [done|]. split; [done|]. split; [done|]. split; [|split].
      - exists b. split; [done|]. unfold block_is. simpl.
        erewrite insert_block_lookup by done. by rewrite <- Hmoved.
      - by rewrite length_insert.
      - intros b' Hb'. rewrite list_lookup_insert_ne; [done|congruence]. }
  (* the temporary *)
  apply wp_bind, wp_run_ctor. simpl.
  destruct (ctor w2) as [w3 [t|]].
  2:{ eexists. split; [done|]. simpl.
      split; [done|]. split; [done|]. split; [done|]. split; [|split].
      - exists b. split; [done|]. unfold block_is. simpl.
        erewrite insert_block_lookup by done. by rewrite <- Hmoved.
      - by rewrite length_insert.
      - intros b' Hb'. rewrite list_lookup_insert_ne; [done|congruence]. }
  destruct (rev l) as [|z l'] eqn:Hrev.
  { apply (f_equal length) in Hrev. rewrite length_rev in Hrev. simpl in Hrev. lia. }
  assert (length l' = length mid) as Hl'.
  { apply (f_equal length) in Hrev. rewrite length_rev in Hrev. simpl in Hrev. lia. }
  unfold RawMemory_index, set_world. simpl.
  rewrite (proj2 (N.ltb_lt p cap)) by lia. simpl.
  eapply wp_assign_from_temporary; [by eapply insert_block_lookup| |].
  { apply lookup_at_middle. rewrite length_fmap. lia. }
  destruct (T_move_assign z t w3) as [[[w4 ok] d'] t'].
  assert ((Some <$> pre) ++ Some d' :: (Some <$> l') ++ Some m :: post
          = slots (pre ++ d' :: l' ++ [m]) cap) as Hdone.
  { rewrite <- Hlong by (simpl; rewrite length_app; simpl; lia).
    by rewrite fmap_cons, fmap_app, <- app_comm_cons, <- app_assoc. }
  destruct ok; rewrite insert_at_middle by (rewrite length_fmap; lia);
    rewrite list_insert_insert_eq.
  - unfold increment_size. apply wp_bind.
    eapply wp_get_vec_bind; [exact Hv|]. apply wp_set_vec.
    eapply wp_get_vec_bind; [apply lookup_insert_eq|]. apply wp_ret.
    simpl. rewrite size_add_small by done.
    eexists. split; [done|]. simpl.
    split; [done|]. split; [done|]. split; [done|]. split; [|split].
    + repeat split; simpl; try lia.
      * rewrite !length_app. simpl. rewrite length_app. simpl. lia.
      * unfold block_is. simpl. erewrite insert_block_lookup by done. by rewrite <- Hdone.
    + by rewrite length_insert.
    + intros b' Hb'. rewrite list_lookup_insert_ne; [done|congruence].
  - eexists. split; [done|]. simpl.
    split; [done|]. split; [done|]. split; [done|]. split; [|split].
    + exists b. split; [done|]. unfold block_is. simpl.
      erewrite insert_block_lookup by done. by rewrite <- Hdone.
    + by rewrite length_insert.
    + intros b' Hb'. rewrite list_lookup_insert_ne; [done|congruence].
Qed.

(** X15. [Emplace] (and so [Insert] of a value that is no element of the
    vector) at a position before the end of a valid vector that has a
    free slot; the elements are
    [pre ++ mid ++ [last]], the position is that of the first element of
    [mid ++ [last]].  The vector keeps its buffer and nothing is allocated.
    The steps are those of [emplace_in_place_run]: the last element is
    move-constructed into the free slot, the others are move-assigned one
    slot to the right, last to first, and the new object, constructed as a
    temporary, is move-assigned to the position.
    - When every step completes, [Emplace] returns the position, the
      length has gone up by one and the vector holds [pre] followed by the
      row the steps leave.  For an element type whose move constructor and
      move assignment give the value of their source that row is the new
      element followed by [mid ++ [last]]: the order of the elements is
      kept.
    - When a step throws, [Emplace] throws, the length is what it was and
      the buffer holds [pre] followed by the row the steps leave. *)
Theorem emplace_in_place (this : nat) (v : Vector) pre mid (last : T) pos ctor s :
  objs s !! this = Some v →
  holds s v (pre ++ mid ++ [last]) →
  size_ v ≠ Capacity v →
  pos = ptr_add (Vector_begin v) (N.of_nat (length pre)) →
  let u := mkVector (data_ v) (size_ v + 1) in
  (∀ t, move_construction_transfers → move_assignment_transfers →
        (∀ w', (ctor w').2 = Some t) →
        ∃ w', emplace_in_place_run ctor mid last (world s) = (w', t :: mid ++ [last], true))
  ∧ match emplace_in_place_run ctor mid last (world s) with
    | (w', row, true) =>
        ∃ s', Emplace this pos ctor s = Ok pos s'
              ∧ world s' = w'
              ∧ objs s' = <[this := u]> (objs s)
              ∧ avail s' = avail s
              ∧ holds s' u (pre ++ row)
              ∧ length (heap s') = length (heap s)
              ∧ (∀ b, buffer_ (data_ v) ≠ Addr b 0 → heap s' !! b = heap s !! b)
    | (w', row, false) =>
        ∃ s', Emplace this pos ctor s = Throw s'
              ∧ world s' = w'
              ∧ objs s' = objs s
              ∧ avail s' = avail s
              ∧ (∃ b, buffer_ (data_ v) = Addr b 0
                      ∧ block_is s' b (slots (pre ++ row) (capacity_ (data_ v))))
              ∧ length (heap s') = length (heap s)
              ∧ (∀ b, buffer_ (data_ v) ≠ Addr b 0 → heap s' !! b = heap s !! b)
    end.
Proof. exact (Emplace_in_place_outcome this v pre mid last pos ctor s). Qed.

(** ** Insertion at the end *)

Lemma wlp_RawMemory_plus {A} m offset (k : pointer → M T W A) s Q E :
  wlp (k (ptr_add (buffer_ m) offset)) s Q E →
  wlp (RawMemory_plus m offset ≫= k) s Q E.
Proof.
  unfold RawMemory_plus, assert, wlp, mbind, M_bind.
  by destruct (offset <=? capacity_ m)%N.
Qed.

Lemma EmplaceBack_returns_the_end this v ctor s :
  objs s !! this = Some v →
  (size_ v ≤ PTRDIFF_MAX)%N →
  wlp (EmplaceBack this ctor) s
    (λ p s', ∃ v', objs s' !! this = Some v'
                   ∧ p = ptr_add (buffer_ (data_ v')) (size_ v))
    (λ _, True).
Proof.
  intros Hv Hb. pose proof Hb as Hb'. rewrite PTRDIFF_MAX_eq in Hb'.
  unfold EmplaceBack. eapply wlp_get_vec_eq; [done|].
  apply wlp_bind. destruct (size_ v =? Capacity v)%N eqn:Hfull.
  - apply N.eqb_eq in Hfull.
    apply wlp_bind, wlp_RawMemory_sized; [by apply grown_capacity_eq| |done].
    intros s1 Ho Hl.
    apply wlp_RawMemory_plus. cbn [buffer_ ptr_add].
    apply wlp_bind. unfold scoped_RawMemory.
    apply wlp_bind, wlp_on_throw_any.
    do 3 frame_step Ho Hl. simpl.
    apply wlp_bind. eapply wlp_set_data; [by rewrite Ho|].
    apply wlp_ret. simpl.
    eapply wlp_framed; [solve_framed| |done].
    intros _ t [Ho' Hl']. simpl in *.
    apply wlp_ret, wlp_bind.
    eapply wlp_increment_size.
    + rewrite Ho', Ho. apply lookup_insert_eq.
    + rewrite SIZE_MOD_eq. lia.
    + apply wlp_ret. simpl. eexists. split; [apply lookup_insert_eq|done].
  - pose proof (eq_refl (objs s)) as Ho. pose proof (eq_refl (length (heap s))) as Hl.
    apply wlp_RawMemory_plus. apply wlp_bind.
    frame_here Ho Hl. apply wlp_ret, wlp_bind.
    eapply (wlp_increment_size this (data_ v) (size_ v)).
    + rewrite Ho, Hv. by destruct v.
    + rewrite SIZE_MOD_eq. lia.
    + apply wlp_ret. simpl. eexists. split; [apply lookup_insert_eq|done].
Qed.

Lemma Emplace_at_end (this : nat) (v : Vector) xs ctor s :
  objs s !! this = Some v →
  holds s v xs →
  Emplace this (Vector_end v) ctor s = EmplaceBack this ctor s.
Proof.
  intros Hv Hh.
  pose proof (holds_bounds _ _ _ Hh) as (Hle & Hcap & Hsz).
  assert (size_ v ≤ PTRDIFF_MAX)%N as Hb by lia.
  pose proof (EmplaceBack_returns_the_end this v ctor s Hv Hb) as Hret.
  unfold Emplace, mbind, M_bind at 1. rewrite (get_vec_eq _ _ _ Hv).
  assert (ptr_distance (Vector_begin v) (Vector_end v) = Some (size_ v)) as ->.
  { unfold Vector_begin, Vector_end, GetAddress, Size.
    destruct Hh as (_ & _ & _ & Hx).
    destruct (buffer_ (data_ v)) as [|b off].
    - simpl. f_equal. lia.
    - destruct Hx as [-> _]. simpl. rewrite decide_True by done.
      rewrite (proj2 (N.leb_le _ _)) by lia. f_equal. lia. }
  rewrite decide_True by done.
  unfold wlp in Hret. unfold mbind, M_bind.
  destruct (EmplaceBack this ctor s) as [p s'|s'| |]; try done.
  destruct Hret as (v' & Hv' & ->).
  by rewrite (get_vec_eq _ _ _ Hv').
Qed.

(** X16. On a valid vector, [Emplace] at [end()] is [EmplaceBack]: the
    same outcome in the same state, and the iterator returned is the
    address of the new last element, in the new buffer when the vector has
    grown. *)
Theorem emplace_at_end_is_emplace_back (this : nat) (v : Vector) xs ctor s :
  objs s !! this = Some v →
  holds s v xs →
  Emplace this (Vector_end v) ctor s = EmplaceBack this ctor s.
Proof. exact (Emplace_at_end this v xs ctor s). Qed.

(** X17. A copy owns a block of its own.  After a vector has been
    copy-constructed from [other], destroying [other] returns and leaves
    the copy valid, with the objects the copy constructors gave it: no
    element of the copy lives in the buffer of [other]. *)
Theorem copy_is_independent (this other : nat) (r : Vector) src w1 ys src' s :
  this ≠ other →
  objs s !! other = Some r →
  holds s r src →
  (size_ r * sizeof_T ≤ avail s)%N →
  transfer_run via_copy src (world s) = (w1, ys, src', true) →
  let v := if (size_ r =? 0)%N then mkVector (mkRawMemory Null 0) 0
           else mkVector (mkRawMemory (Addr (length (heap s)) 0) (size_ r)) (size_ r) in
  ∃ s1, Vector_copy_ctor this other s = Ok tt s1
        ∧ ∃ s2, Vector_dtor other s1 = Ok tt s2
                ∧ world s2 = destroy_all src w1
                ∧ objs s2 !! this = Some v
                ∧ objs s2 !! other = None
                ∧ holds s2 v ys.
Proof.
  intros Hne Hr Hh Hav Hrun v.
  pose proof (holds_bounds _ _ _ Hh) as (Hle & Hcap & Hsz).
  pose proof (transfer_run_ok_length _ _ _ _ _ _ Hrun) as Hlen.
  destruct s as [w h a o]. cbn [world heap avail objs] in *.
  destruct (size_ r =? 0)%N eqn:Hz.
  - apply N.eqb_eq in Hz. subst v.
    destruct src; [|simpl in Hsz; lia]. simpl in Hrun.
    injection Hrun as <- <- <-.
    unfold Vector_copy_ctor, copy_of, mbind, M_bind, get_vec. simpl.
    rewrite Hr, Hz. simpl.
    eexists. split; [done|].
    apply wp_returns. unfold Vector_dtor.
    eapply wp_get_vec_bind.
    { simpl. rewrite lookup_insert_ne by done. exact Hr. }
    apply wp_bind. unfold set_objs. simpl.
    eapply wp_destroy_members.
    { eapply (holds_app w w h [] a a o _ r []) in Hh. rewrite app_nil_r in Hh. exact Hh. }
    assert (∀ H' a', wp (end_of_life other)
              (mkState w H' a' (<[this := mkVector (mkRawMemory Null 0) 0]> o))
              (λ _ s2, world s2 = w
                       ∧ objs s2 !! this = Some (mkVector (mkRawMemory Null 0) 0)
                       ∧ objs s2 !! other = None
                       ∧ holds s2 (mkVector (mkRawMemory Null 0) 0) [])
              (λ _, False)) as Hend.
    { intros H' a'. unfold wp, end_of_life. simpl.
      split; [done|]. split; [|split].
      - rewrite lookup_delete_ne by done. apply lookup_insert_eq.
      - apply lookup_delete_eq.
      - repeat split; simpl; try done. }
    destruct (buffer_ (data_ r)); apply Hend.
  - apply N.eqb_neq in Hz. subst v.
    apply wp_returns. unfold Vector_copy_ctor.
    eapply wp_get_vec_bind; [done|].
    apply wp_bind. eapply (wp_copy_of r src); [done..|].
    rewrite (proj2 (N.leb_le _ _) Hav), Hrun. apply wp_set_vec. simpl.
    apply wp_returns. unfold Vector_dtor.
    eapply wp_get_vec_bind.
    { simpl. rewrite lookup_insert_ne by done. exact Hr. }
    apply wp_bind.
    eapply wp_destroy_members.
    { by eapply holds_app. }
    destruct (holds_block _ _ _ _ _ _ Hh Hz) as (br & Hbuf & Hbr & Hlt).
    rewrite Hbuf.
    unfold wp, end_of_life. simpl.
    split; [done|]. split; [|split].
    + rewrite lookup_delete_ne by done. apply lookup_insert_eq.
    + apply lookup_delete_eq.
    + repeat split; simpl; try lia.
      * apply (size_bytes_fit _ _ _ Hh).
      * unfold block_is. simpl. rewrite list_lookup_insert_ne by lia.
        by rewrite lookup_app_new.
Qed.

Lemma Resize_beyond_outcome (this : nat) (v : Vector) xs (n : N) s :
  objs s !! this = Some v →
  holds s v xs →
  (n * sizeof_T < SIZE_MOD)%N →
  (capacity_ (data_ v) < n)%N →
  let nb := length (heap s) in
  let grown := mkVector (mkRawMemory (Addr nb 0) n) (size_ v) in
  let full := mkVector (mkRawMemory (Addr nb 0) n) n in
  if ((n * sizeof_T <=? avail s) && (n * sizeof_T <=? PTRDIFF_MAX))%N then
    match transfer_run transfer_step xs (world s) with
    | (w1, ys, xs', true) =>
        match construct_run T_default (N.to_nat (n - size_ v)) (destroy_all xs' w1) with
        | (w2, zs, true) =>
            ∃ s', Resize this n s = Ok tt s'
                  ∧ world s' = w2
                  ∧ objs s' = <[this := full]> (objs s)
                  ∧ holds s' full (ys ++ zs)
                  ∧ (∀ b, buffer_ (data_ v) = Addr b 0 →
                          ∃ B, heap s' !! b = Some B ∧ released B = true)
                  ∧ (∀ b, b < nb → buffer_ (data_ v) ≠ Addr b 0 →
                          heap s' !! b = heap s !! b)
                  ∧ length (heap s') = S nb
        | (w2, zs, false) =>
            ∃ s', Resize this n s = Throw s'
                  ∧ world s' = destroy_all zs w2
                  ∧ objs s' = <[this := grown]> (objs s)
                  ∧ holds s' grown ys
                  ∧ (∀ b, buffer_ (data_ v) = Addr b 0 →
                          ∃ B, heap s' !! b = Some B ∧ released B = true)
                  ∧ (∀ b, b < nb → buffer_ (data_ v) ≠ Addr b 0 →
                          heap s' !! b = heap s !! b)
                  ∧ length (heap s') = S nb
        end
    | (w1, ys, xs', false) =>
        ∃ s', Resize this n s = Throw s'
              ∧ world s' = destroy_all ys w1
              ∧ objs s' = objs s
              ∧ avail s' = avail s
              ∧ holds s' v xs'
              ∧ heap s' !! nb = Some (mkBlock (replicate (N.to_nat n) None) true)
              ∧ (∀ b, b < nb → buffer_ (data_ v) ≠ Addr b 0 → heap s' !! b = heap s !! b)
              ∧ length (heap s') = S nb
    end
  else Resize this n s = Throw s.
Proof.
  intros Hv Hh Hsmall Hn nb grown full.
  pose proof (holds_bounds _ _ _ Hh) as (Hle & Hcap & Hsz).
  destruct s as [w h a o]. subst grown full nb. cbn [world heap avail objs] in *.
  apply (wp_outcome_spec (Resize this n) (mkState w h a o)
    (λ r, if ((n * sizeof_T <=? a) && (n * sizeof_T <=? PTRDIFF_MAX))%N then
            match transfer_run transfer_step xs w with
            | (w1, ys, xs', true) =>
                match construct_run T_default (N.to_nat (n - size_ v)) (destroy_all xs' w1)
                with
                | (w2, zs, true) => ∃ s', r = Ok tt s' ∧ _
                | (w2, zs, false) => ∃ s', r = Throw s' ∧ _
                end
            | (w1, ys, xs', false) => ∃ s', r = Throw s' ∧ _
            end
          else r = Throw (mkState w h a o))).
  unfold Resize. eapply wp_get_vec_bind; [done|].
  rewrite (proj2 (N.ltb_ge n (size_ v))) by lia.
  apply wp_bind. eapply wp_Reserve_grow; [done..|].
  destruct (_ && _) eqn:Hroom; [|done].
  apply andb_prop in Hroom as [Hroom Hmax]. apply N.leb_le in Hroom, Hmax.
  pose proof (transfer_run_ok_length transfer_step xs w) as Hlen'.
  destruct (transfer_run transfer_step xs w) as [[[w1 ys] xs'] ok] eqn:Hrun.
  destruct ok.
  2:{ intros H' HL Hbn Hkeep Hother.
      eexists. split; [done|]. simpl.
      split; [done|]. split; [done|]. split; [done|].
      split; [|split; [done|split; [exact Hother|exact HL]]].
      eapply (holds_app _ _ H' [] _ _ _ _ v xs') in Hkeep.
      rewrite app_nil_r in Hkeep. exact Hkeep. }
  specialize (Hlen' _ _ _ eq_refl).
  intros H' HL Hbn Hbo Hother.
  eapply wp_get_vec_bind; [apply lookup_insert_eq|].
  unfold GetAddress. cbn [data_ buffer_ size_ ptr_add].
  assert (size_ v < SIZE_MOD)%N as Hs
    by (rewrite SIZE_MOD_eq; rewrite PTRDIFF_MAX_eq in Hcap; lia).
  assert (n < SIZE_MOD)%N as Hns.
  { pose proof (sizeof_T_pos (T:=T) (W:=W)). nia. }
  rewrite size_sub_small by lia.
  set (k := N.to_nat (n - size_ v)) in *.
  replace (N.to_nat n - length xs) with (k + 0) in Hbn by lia.
  rewrite replicate_add in Hbn.
  apply wp_bind. unfold uninitialized_value_construct_n. fold k.
  eapply (wp_construct_loop T_default (length h) (0 + size_ v) k 0 [] (Some <$> ys) []).
  { exact Hbn. }
  { rewrite length_fmap. lia. }
  { done. }
  pose proof (construct_run_length T_default k (destroy_all xs' w1)) as Hlen.
  destruct (construct_run T_default k (destroy_all xs' w1)) as [[w2 zs] ok] eqn:Hcr.
  assert (∀ B, ∀ b, buffer_ (data_ v) = Addr b 0 →
            ∃ B', <[length h := B]> H' !! b = Some B' ∧ released B' = true) as Hold.
  { intros B b Hbuf.
    assert (b ≠ length h) as Hne.
    { intros ->. by apply (new_block_is_new _ _ _ _ _ _ Hh). }
    eexists. split.
    - rewrite list_lookup_insert_ne by done. by apply Hbo.
    - done. }
  assert (∀ B, ∀ b, b < length h → buffer_ (data_ v) ≠ Addr b 0 →
            <[length h := B]> H' !! b = h !! b) as Hrest.
  { intros B b Hb Hne. rewrite list_lookup_insert_ne by lia. by apply Hother. }
  destruct ok.
  - specialize (Hlen _ _ eq_refl).
    eapply wp_set_size; [apply lookup_insert_eq|]. simpl.
    rewrite insert_insert_eq.
    eexists. split; [done|]. simpl.
    split; [done|]. split; [done|].
    split; [|split; [apply Hold|split; [apply Hrest|by rewrite length_insert]]].
    repeat split; simpl; try lia.
    + rewrite length_app. lia.
    + unfold block_is, slots. simpl.
      rewrite list_lookup_insert_eq by lia.
      rewrite length_app.
      replace (N.to_nat n - (length ys + length zs)) with 0 by lia.
      by rewrite fmap_app, <- app_assoc.
  - simpl.
    eexists. split; [done|]. simpl.
    split; [done|]. split; [done|].
    split; [|split; [apply Hold|split; [apply Hrest|by rewrite length_insert]]].
    repeat split; simpl; try lia.
    unfold block_is, slots. simpl.
    rewrite list_lookup_insert_eq by lia.
    rewrite app_nil_r. do 4 f_equal. lia.
Qed.

(** X18. [Resize(n)] on a valid vector, for [n] above the capacity whose
    bytes do not overflow [size_t].  It first reserves exactly [n] slots,
    then value-initializes the [n - length] new elements.
    - When the free store cannot serve the request, it throws and nothing
      has changed.
    - When the transfer to the new block throws, the new block is
      released and the vector keeps its buffer, length and capacity.
    - When the transfer succeeds and every constructor returns, the vector
      owns the new block, of capacity and length [n], and holds the
      transferred objects followed by the new ones.
    - When the transfer succeeds and a constructor throws, the objects
      constructed so far are destroyed, but the vector stays in the new
      block: its length is what it was, its capacity is [n], and the old
      block has been released.
    In every case the blocks of the other vectors are as they were. *)
Theorem resize_beyond_capacity (this : nat) (v : Vector) xs (n : N) s :
  objs s !! this = Some v →
  holds s v xs →
  (n * sizeof_T < SIZE_MOD)%N →
  (capacity_ (data_ v) < n)%N →
  let nb := length (heap s) in
  let grown := mkVector (mkRawMemory (Addr nb 0) n) (size_ v) in
  let full := mkVector (mkRawMemory (Addr nb 0) n) n in
  if ((n * sizeof_T <=? avail s) && (n * sizeof_T <=? PTRDIFF_MAX))%N then
    match transfer_run transfer_step xs (world s) with
    | (w1, ys, xs', true) =>
        match construct_run T_default (N.to_nat (n - size_ v)) (destroy_all xs' w1) with
        | (w2, zs, true) =>
            ∃ s', Resize this n s = Ok tt s'
                  ∧ world s' = w2
                  ∧ objs s' = <[this := full]> (objs s)
                  ∧ holds s' full (ys ++ zs)
                  ∧ (∀ b, buffer_ (data_ v) = Addr b 0 →
                          ∃ B, heap s' !! b = Some B ∧ released B = true)
                  ∧ (∀ b, b < nb → buffer_ (data_ v) ≠ Addr b 0 →
                          heap s' !! b = heap s !! b)
                  ∧ length (heap s') = S nb
        | (w2, zs, false) =>
            ∃ s', Resize this n s = Throw s'
                  ∧ world s' = destroy_all zs w2
                  ∧ objs s' = <[this := grown]> (objs s)
                  ∧ holds s' grown ys
                  ∧ (∀ b, buffer_ (data_ v) = Addr b 0 →
                          ∃ B, heap s' !! b = Some B ∧ released B = true)
                  ∧ (∀ b, b < nb → buffer_ (data_ v) ≠ Addr b 0 →
                          heap s' !! b = heap s !! b)
                  ∧ length (heap s') = S nb
        end
    | (w1, ys, xs', false) =>
        ∃ s', Resize this n s = Throw s'
              ∧ world s' = destroy_all ys w1
              ∧ objs s' = objs s
              ∧ avail s' = avail s
              ∧ holds s' v xs'
              ∧ heap s' !! nb = Some (mkBlock (replicate (N.to_nat n) None) true)
              ∧ (∀ b, b < nb → buffer_ (data_ v) ≠ Addr b 0 → heap s' !! b = heap s !! b)
              ∧ length (heap s') = S nb
    end
  else Resize this n s = Throw s.
Proof. exact (Resize_beyond_outcome this v xs n s). Qed.

(** ** Arguments that are references

    With an argument that is no object of the free store, the second
    reading of [EmplaceBack] and [Emplace] is the first, and [Insert] is
    [Emplace] with the constructor call made on the value. *)

Lemma EmplaceBack_args_run_ctor this (ctor : W → W * option T) :
  EmplaceBack_args this (run_ctor ctor) = EmplaceBack this ctor.
Proof. reflexivity. Qed.

Lemma Emplace_args_run_ctor this pos (ctor : W → W * option T) :
  Emplace_args this pos (run_ctor ctor) = Emplace this pos ctor.
Proof. reflexivity. Qed.

Lemma Insert_from_outside this pos (value : T) :
  Insert this pos (Outside value) = Emplace this pos (T_copy value).
Proof. reflexivity. Qed.

Lemma Insert_rvalue_from_outside this pos (value : T) :
  Insert_rvalue this pos (Outside value) = Emplace this pos (move_value value).
Proof. reflexivity. Qed.

Lemma framed_copy_from value : framed (copy_from value).
Proof. destruct value; unfold copy_from; solve_framed. Qed.

Lemma framed_move_from value : framed (move_from value).
Proof.
  destruct value as [x|p]; unfold move_from; [solve_framed|].
  apply framed_bind; [solve_framed|intros x].
  apply framed_bind; [solve_framed|intros w].
  destruct (T_move x w) as [[w' r] x']. solve_framed.
Qed.

Lemma EmplaceBack_args_growth_rule this v (ctor : M T W T) s :
  framed ctor →
  objs s !! this = Some v →
  (size_ v ≤ PTRDIFF_MAX)%N →
  wlp (EmplaceBack_args this ctor) s (λ _ s', growth_rule this v s s') (λ _, True).
Proof.
  intros Hf Hv Hb.
  unfold EmplaceBack_args. eapply wlp_get_vec_eq; [done|].
  apply wlp_bind. destruct (size_ v =? Capacity v)%N eqn:Hfull.
  - apply N.eqb_eq in Hfull.
    apply wlp_bind, wlp_RawMemory_sized; [by apply grown_capacity_eq| |done].
    intros s1 Ho Hl.
    frame_step Ho Hl.
    apply wlp_bind. unfold scoped_RawMemory.
    apply wlp_bind, wlp_on_throw_any.
    do 3 frame_step Ho Hl. simpl.
    apply wlp_bind. eapply wlp_set_data; [by rewrite Ho|].
    apply wlp_ret. simpl.
    eapply wlp_framed; [solve_framed| |done].
    intros _ t [Ho' Hl']. simpl in *.
    apply wlp_ret, wlp_bind.
    eapply wlp_mono; [apply (wlp_grown_finish this v s)| |done]; try done.
    + by rewrite Ho', Ho.
    + congruence.
  - apply N.eqb_neq in Hfull.
    pose proof (eq_refl (objs s)) as Ho. pose proof (eq_refl (length (heap s))) as Hl.
    frame_here Ho Hl. apply wlp_bind.
    eapply wlp_mono; [by apply (wlp_in_place_finish this v s)| |done]; done.
Qed.

Lemma Emplace_args_growth_rule this v pos (ctor : M T W T) s :
  framed ctor →
  objs s !! this = Some v →
  (size_ v ≤ PTRDIFF_MAX)%N →
  wlp (Emplace_args this pos ctor) s (λ _ s', growth_rule this v s s') (λ _, True).
Proof.
  intros Hf Hv Hb.
  unfold Emplace_args. eapply wlp_get_vec_eq; [done|].
  destruct (ptr_distance (Vector_begin v) pos) as [offset|]; [|done].
  case_decide as Hend.
  - apply wlp_bind.
    eapply wlp_mono; [by apply EmplaceBack_args_growth_rule| |done].
    intros ? s' Hrule. simpl. apply wlp_bind, wlp_get_vec. done.
  - apply wlp_bind. destruct (size_ v =? Capacity v)%N eqn:Hfull.
    + apply N.eqb_eq in Hfull.
      apply wlp_bind, wlp_RawMemory_sized; [by apply grown_capacity_eq| |done].
      intros s1 Ho Hl. unfold scoped_RawMemory.
      apply wlp_bind, wlp_on_throw_any.
      do 5 frame_step Ho Hl. simpl.
      apply wlp_bind. eapply wlp_set_data; [by rewrite Ho|].
      apply wlp_ret. simpl.
      eapply wlp_framed; [solve_framed| |done].
      intros _ t [Ho' Hl']. simpl in *.
      apply wlp_bind.
      eapply wlp_mono; [apply (wlp_grown_finish this v s)| |done]; try done.
      * by rewrite Ho', Ho.
      * congruence.
      * intros ? t' Hrule. simpl. apply wlp_bind, wlp_get_vec. done.
    + apply N.eqb_neq in Hfull.
      pose proof (eq_refl (objs s)) as Ho. pose proof (eq_refl (length (heap s))) as Hl.
      frame_here Ho Hl. apply wlp_bind.
      eapply wlp_mono; [by apply (wlp_in_place_finish this v s)| |done].
      intros ? t' Hrule. simpl. apply wlp_bind, wlp_get_vec. done.
Qed.

Lemma EmplaceBack_args_in_place_throws this v (ctor : M T W T) s :
  framed ctor →
  objs s !! this = Some v →
  (size_ v ≤ PTRDIFF_MAX)%N →
  size_ v ≠ Capacity v →
  wlp (EmplaceBack_args this ctor) s (λ _ _, True) (λ s', length (heap s') = length (heap s)).
Proof.
  intros Hf Hv Hb Hfull.
  unfold EmplaceBack_args. eapply wlp_get_vec_eq; [done|].
  apply wlp_bind. rewrite (proj2 (N.eqb_neq _ _) Hfull).
  pose proof (eq_refl (objs s)) as Ho. pose proof (eq_refl (length (heap s))) as Hl.
  frame_here Ho Hl. apply wlp_bind.
  eapply wlp_mono; [by eapply (wlp_in_place_throws this v s)| |done]; done.
Qed.

Lemma Emplace_args_in_place_throws this v pos (ctor : M T W T) s :
  framed ctor →
  objs s !! this = Some v →
  (size_ v ≤ PTRDIFF_MAX)%N →
  size_ v ≠ Capacity v →
  wlp (Emplace_args this pos ctor) s (λ _ _, True) (λ s', length (heap s') = length (heap s)).
Proof.
  intros Hf Hv Hb Hfull.
  unfold Emplace_args. eapply wlp_get_vec_eq; [done|].
  destruct (ptr_distance (Vector_begin v) pos) as [offset|]; [|done].
  case_decide as Hend.
  - apply wlp_bind.
    eapply wlp_mono; [by apply (EmplaceBack_args_in_place_throws this v)| |done].
    intros ? s' _. simpl. apply wlp_bind, wlp_get_vec. done.
  - apply wlp_bind. rewrite (proj2 (N.eqb_neq _ _) Hfull).
    pose proof (eq_refl (objs s)) as Ho. pose proof (eq_refl (length (heap s))) as Hl.
    frame_here Ho Hl. apply wlp_bind.
    eapply wlp_mono; [by eapply (wlp_in_place_throws this v s)| |done].
    intros ? t' _. simpl. apply wlp_bind, wlp_get_vec. done.
Qed.

(** ** Every vector stays valid

    A call changes the vector it is made on and the blocks that vector
    owns; the other vectors of the program are carried over. *)

Lemma holds_frame s s' v xs :
  holds s v xs →
  (∀ b, buffer_ (data_ v) = Addr b 0 → heap s' !! b = heap s !! b) →
  holds s' v xs.
Proof.
  intros (H1 & H2 & H3 & H4) Hf. repeat split; try done.
  destruct (buffer_ (data_ v)) as [|b o] eqn:E; [done|].
  destruct H4 as [-> H4]. split; [done|]. unfold block_is. by rewrite (Hf b).
Qed.

Lemma holds_owned_block s v xs b :
  holds s v xs → buffer_ (data_ v) = Addr b 0 → b < length (heap s).
Proof.
  intros (_ & _ & _ & H) E. rewrite E in H. destruct H as [_ H].
  by apply lookup_lt_Some in H.
Qed.

Lemma well_formed_step s s' this v v' :
  well_formed s → objs s !! this = Some v →
  objs s' = <[this := v']> (objs s) →
  (∃ xs, holds s' v' xs) →
  (∀ b, b < length (heap s) → buffer_ (data_ v) ≠ Addr b 0 → heap s' !! b = heap s !! b) →
  (buffer_ (data_ v') = buffer_ (data_ v) ∨ buffer_ (data_ v') = Null
   ∨ buffer_ (data_ v') = Addr (length (heap s)) 0) →
  well_formed s'.
Proof.
  intros [Hinv Hown] Hv Ho Hh Hf Hb.
  assert (∀ k u b, k ≠ this → objs s !! k = Some u → buffer_ (data_ u) = Addr b 0 →
            b < length (heap s) ∧ buffer_ (data_ v) ≠ Addr b 0
            ∧ buffer_ (data_ v') ≠ Addr b 0) as Hother.
  { intros k u b Hk Hu Eb. destruct (Hinv k u Hu) as [ys Hy].
    pose proof (holds_owned_block _ _ _ _ Hy Eb) as Hlt.
    assert (buffer_ (data_ v) ≠ Addr b 0) as Hne by (by apply (Hown k this u v b)).
    split; [done|]. split; [done|].
    destruct Hb as [-> | [-> | ->]]; [done|done|]. intros [= <-]. lia. }
  split.
  - intros k u. rewrite Ho. destruct (decide (k = this)) as [->|Hk].
    + rewrite lookup_insert_eq. by intros [= <-].
    + rewrite lookup_insert_ne by done. intros Hu. destruct (Hinv k u Hu) as [ys Hy].
      exists ys. apply (holds_frame s); [done|]. intros b Eb.
      destruct (Hother k u b Hk Hu Eb) as (Hlt & Hne & _). by apply Hf.
  - intros i j x y b Hij. rewrite Ho.
    destruct (decide (i = this)) as [->|Hi]; destruct (decide (j = this)) as [->|Hj];
      try done.
    + rewrite lookup_insert_eq, lookup_insert_ne by done. intros [= <-] Hy Eb Eb'.
      by destruct (Hother j y b Hj Hy Eb') as (_ & _ & ?).
    + rewrite lookup_insert_eq, lookup_insert_ne by done. intros Hx [= <-] Eb.
      by destruct (Hother i x b Hi Hx Eb) as (_ & _ & ?).
    + rewrite !lookup_insert_ne by done. by apply Hown.
Qed.

Lemma well_formed_new s s' this v' :
  well_formed s → objs s !! this = None →
  objs s' = <[this := v']> (objs s) →
  (∃ xs, holds s' v' xs) →
  (∀ b, b < length (heap s) → heap s' !! b = heap s !! b) →
  (buffer_ (data_ v') = Null ∨ buffer_ (data_ v') = Addr (length (heap s)) 0) →
  well_formed s'.
Proof.
  intros [Hinv Hown] Hv Ho Hh Hf Hb.
  assert (∀ k u b, objs s !! k = Some u → buffer_ (data_ u) = Addr b 0 →
            b < length (heap s) ∧ buffer_ (data_ v') ≠ Addr b 0) as Hother.
  { intros k u b Hu Eb. destruct (Hinv k u Hu) as [ys Hy].
    pose proof (holds_owned_block _ _ _ _ Hy Eb) as Hlt.
    split; [done|]. destruct Hb as [-> | ->]; [done|]. intros [= <-]. lia. }
  split.
  - intros k u. rewrite Ho. destruct (decide (k = this)) as [->|Hk].
    + rewrite lookup_insert_eq. by intros [= <-].
    + rewrite lookup_insert_ne by done. intros Hu. destruct (Hinv k u Hu) as [ys Hy].
      exists ys. apply (holds_frame s); [done|]. intros b Eb.
      destruct (Hother k u b Hu Eb) as (Hlt & _). by apply Hf.
  - intros i j x y b Hij. rewrite Ho.
    destruct (decide (i = this)) as [->|Hi]; destruct (decide (j = this)) as [->|Hj];
      try done.
    + rewrite lookup_insert_eq, lookup_insert_ne by done. intros [= <-] Hy Eb Eb'.
      by destruct (Hother j y b Hy Eb') as (_ & ?).
    + rewrite lookup_insert_eq, lookup_insert_ne by done. intros Hx [= <-] Eb.
      by destruct (Hother i x b Hx Eb) as (_ & ?).
    + rewrite !lookup_insert_ne by done. by apply Hown.
Qed.

Lemma well_formed_rolled_back s s' :
  well_formed s → objs s' = objs s →
  (∀ b, b < length (heap s) → heap s' !! b = heap s !! b) →
  well_formed s'.
Proof.
  intros [Hinv Hown] Ho Hf. split.
  - intros k u. rewrite Ho. intros Hu. destruct (Hinv k u Hu) as [ys Hy].
    exists ys. apply (holds_frame s); [done|]. intros b Eb.
    apply Hf. by apply (holds_owned_block _ _ _ _ Hy).
  - intros i j x y b Hij. rewrite Ho. by apply Hown.
Qed.

Lemma take_frame {A} (l l' : list A) :
  take (length l) l' = l → ∀ b, b < length l → l' !! b = l !! b.
Proof.
  intros E b Hb.
  transitivity (take (length l) l' !! b); [by rewrite lookup_take_lt|by rewrite E].
Qed.

Lemma absent_is_undefined {A} this (k : Vector → M T W A) s Q E :
  objs s !! this = None → wlp (get_vec this ≫= k) s Q E.
Proof. intros H. unfold wlp, mbind, M_bind, get_vec. by rewrite H. Qed.

Ltac outcomes H :=
  cbv zeta in H;
  repeat (match type of H with
          | match ?r with _ => _ end => destruct r
          end).

Lemma Reserve_keeps this n s :
  well_formed s → (n * sizeof_T < SIZE_MOD)%N →
  wlp (Reserve this n) s (λ _, well_formed) well_formed.
Proof.
  intros Hwf Hn.
  destruct (objs s !! this) as [v|] eqn:Hv; [|by apply absent_is_undefined].
  destruct (proj1 Hwf this v Hv) as [xs Hh].
  pose proof (Reserve_outcome this v xs n s Hv Hh Hn) as [_ H]. unfold wlp.
  outcomes H; try (by rewrite H).
  - destruct H as (s' & -> & _ & Ho & _ & Hh' & _ & _ & Hf).
    eapply (well_formed_step s s' this v); eauto.
  - destruct H as (s' & -> & _ & Ho & _ & Hh' & _ & _ & Hf).
    eapply (well_formed_step s s' this v v); eauto. by rewrite insert_id.
Qed.

Lemma well_formed_set_world w s : well_formed s → well_formed (set_world w s).
Proof. intros H. by apply (well_formed_rolled_back s). Qed.

Lemma well_formed_after_rollback s s' clean :
  well_formed s → rolled_back s s' clean → well_formed s'.
Proof.
  intros H (Ho & _ & Ht & _). apply (well_formed_rolled_back s); [done..|].
  by apply take_frame.
Qed.

Lemma PushBack_keeps this value s :
  well_formed s → wlp (PushBack this value) s (λ _, well_formed) well_formed.
Proof.
  intros Hwf.
  destruct (objs s !! this) as [v|] eqn:Hv; [|by apply absent_is_undefined].
  destruct (proj1 Hwf this v Hv) as [xs Hh].
  pose proof (PushBack_outcome this v xs value s Hv Hh) as [_ H]. unfold wlp.
  outcomes H; try (by rewrite H); try (rewrite H; by apply well_formed_set_world).
  - destruct H as (s' & -> & _ & Ho & _ & Hh' & _ & _ & Hf).
    eapply (well_formed_step s s' this v); eauto.
  - destruct H as (s' & -> & _ & Ho & _ & Hh' & _ & _ & Hf).
    eapply (well_formed_step s s' this v v); eauto. by rewrite insert_id.
  - destruct H as (s' & -> & _ & Hr & _). by apply (well_formed_after_rollback s s' all_raw).
  - destruct H as (s' & -> & _ & Ho & _ & Hh' & _ & Hf).
    eapply (well_formed_step s s' this v); eauto.
Qed.

Lemma EmplaceBack_keeps this ctor s :
  well_formed s → wlp (EmplaceBack this ctor) s (λ _, well_formed) well_formed.
Proof.
  intros Hwf.
  destruct (objs s !! this) as [v|] eqn:Hv; [|by apply absent_is_undefined].
  destruct (proj1 Hwf this v Hv) as [xs Hh].
  pose proof (EmplaceBack_outcome this v xs ctor s Hv Hh) as H. unfold wlp.
  outcomes H; try (by rewrite H); try (rewrite H; by apply well_formed_set_world).
  - destruct H as (s' & -> & _ & _ & Ho & _ & Hh' & _ & _ & Hf).
    eapply (well_formed_step s s' this v); eauto.
  - destruct H as (s' & -> & _ & Ho & _ & Hh' & _ & _ & Hf).
    eapply (well_formed_step s s' this v v); eauto. by rewrite insert_id.
  - destruct H as (s' & -> & _ & Hr & _). by apply (well_formed_after_rollback s s' all_raw).
  - destruct H as (s' & -> & _ & _ & Ho & _ & Hh' & _ & Hf).
    eapply (well_formed_step s s' this v); eauto.
Qed.

Lemma PushBack_rvalue_keeps this value s :
  well_formed s → wlp (PushBack_rvalue this value) s (λ _, well_formed) well_formed.
Proof.
  intros Hwf. unfold wlp. rewrite PushBack_rvalue_as_EmplaceBack.
  apply wlp_bind. eapply wlp_mono; [by apply EmplaceBack_keeps|done..].
Qed.

Lemma wlp_fresh {A} this (k : M T W A) s Q E :
  (objs s !! this = None → wlp k s Q E) → wlp (fresh this;; k) s Q E.
Proof.
  intros H. unfold wlp, mbind, M_bind, fresh in *.
  destruct (objs s !! this); [done|]. by apply H.
Qed.

Lemma Vector_default_ctor_keeps this s :
  well_formed s → objs s !! this = None →
  wlp (Vector_default_ctor this) s (λ _, well_formed) well_formed.
Proof.
  intros Hwf Hn. unfold wlp, Vector_default_ctor, set_vec.
  eapply (well_formed_new s _ this); eauto.
  exists []. unfold holds, RawMemory_default. simpl. repeat split; try done; lia.
Qed.

Lemma Vector_sized_ctor_keeps this size s :
  well_formed s → objs s !! this = None → (size * sizeof_T < SIZE_MOD)%N →
  wlp (Vector_sized_ctor this size) s (λ _, well_formed) well_formed.
Proof.
  intros Hwf Hn Hsize.
  pose proof (Vector_sized_ctor_outcome this size s Hsize) as H. unfold wlp.
  outcomes H; try (by rewrite H).
  - destruct H as (s' & -> & _ & Ho & _ & Hh' & _ & Ht & Hl).
    eapply (well_formed_new s s' this); eauto using take_frame.
    destruct (size =? 0)%N; auto.
  - destruct H as (s' & -> & _ & Hr). by apply (well_formed_after_rollback s s' all_raw).
Qed.

Lemma Vector_copy_ctor_keeps this other s :
  well_formed s → objs s !! this = None →
  wlp (Vector_copy_ctor this other) s (λ _, well_formed) well_formed.
Proof.
  intros Hwf Hn.
  destruct (objs s !! other) as [r|] eqn:Hr; [|by apply absent_is_undefined].
  destruct (proj1 Hwf other r Hr) as [src Hh].
  pose proof (Vector_copy_ctor_outcome this other r src s Hr Hh) as [_ H]. unfold wlp.
  outcomes H; try (by rewrite H).
  - destruct H as (s' & -> & _ & Ho & _ & Hh' & _ & Ht & Hl).
    eapply (well_formed_new s s' this); eauto using take_frame.
    destruct (size_ r =? 0)%N; auto.
  - destruct H as (s' & -> & _ & Hrb & _).
    by apply (well_formed_after_rollback s s' all_raw).
Qed.

Lemma Vector_copy_assign_keeps this rhs s :
  well_formed s → wlp (Vector_copy_assign this rhs) s (λ _, well_formed) well_formed.
Proof.
  intros Hwf. unfold Vector_copy_assign.
  destruct (decide (this = rhs)) as [|Hne]; [done|].
  destruct (objs s !! rhs) as [r|] eqn:Hr; [|by apply absent_is_undefined].
  eapply wlp_get_vec_eq; [done|].
  destruct (objs s !! this) as [t|] eqn:Ht; [|by apply absent_is_undefined].
  eapply wlp_get_vec_eq; [done|].
  destruct (proj1 Hwf this t Ht) as [dst Hht].
  destruct (proj1 Hwf rhs r Hr) as [src Hhr].
  assert (∀ b, buffer_ (data_ t) = Addr b 0 → buffer_ (data_ r) ≠ Addr b 0) as Hdisj.
  { intros b. by apply (proj2 Hwf this rhs). }
  destruct s as [w h a o]. cbn [objs] in Ht, Hr. unfold RawMemory_Capacity.
  apply wp_wlp. destruct (_ <? _)%N eqn:Hre.
  - apply N.ltb_lt in Hre.
    eapply wp_mono;
      [by apply (copy_assignment_realloc_framed this rhs t r dst src)|..].
    + intros _ s' (Hf & _ & w1 & ys & src' & _ & _ & _ & Ho & Hh' & _).
      eapply (well_formed_step _ s' this t); eauto.
    + intros s' [[_ ->]|(_ & w1 & ys & src' & _ & _ & _ & _ & Hrb & _)]; [done|].
      by eapply well_formed_after_rollback.
  - apply N.ltb_ge in Hre.
    eapply wp_mono;
      [by apply (copy_assignment_in_place_framed this rhs t r dst src)|..].
    + intros _ s' (Hf & xs & _ & Ho & Hh' & _).
      eapply (well_formed_step _ s' this t); eauto.
    + intros s' (Hf & _ & Ho & _ & xs & Hh').
      eapply (well_formed_step _ s' this t t); eauto.
      cbn [objs]. by rewrite insert_id.
Qed.

Lemma Resize_keeps this n s :
  well_formed s → (n * sizeof_T < SIZE_MOD)%N →
  wlp (Resize this n) s (λ _, well_formed) well_formed.
Proof.
  intros Hwf Hn.
  destruct (objs s !! this) as [v|] eqn:Hv; [|by apply absent_is_undefined].
  destruct (proj1 Hwf this v Hv) as [xs Hh]. unfold wlp.
  destruct (decide (n ≤ capacity_ (data_ v))%N) as [Hle|Hgt].
  - pose proof (Resize_within_outcome this v xs n s Hv Hh Hle) as H.
    outcomes H; try (rewrite H; by apply well_formed_set_world).
    + destruct H as (s' & -> & _ & Ho & _ & Hh' & _ & Hf).
      eapply (well_formed_step s s' this v); eauto.
    + destruct H as (s' & -> & _ & Ho & _ & Hh' & _ & Hf).
      eapply (well_formed_step s s' this v); eauto.
  - pose proof (Resize_beyond_outcome this v xs n s Hv Hh Hn) as H.
    specialize (H ltac:(lia)).
    outcomes H; try (by rewrite H).
    + destruct H as (s' & -> & _ & Ho & Hh' & _ & Hf & _).
      eapply (well_formed_step s s' this v); eauto.
    + destruct H as (s' & -> & _ & Ho & Hh' & _ & Hf & _).
      eapply (well_formed_step s s' this v); eauto.
    + destruct H as (s' & -> & _ & Ho & _ & Hh' & _ & Hf & _).
      eapply (well_formed_step s s' this v v); eauto. by rewrite insert_id.
Qed.

Lemma PopBack_keeps this s :
  well_formed s → wlp (PopBack this) s (λ _, well_formed) well_formed.
Proof.
  intros Hwf.
  destruct (objs s !! this) as [v|] eqn:Hv; [|by apply absent_is_undefined].
  destruct (proj1 Hwf this v Hv) as [xs Hh]. unfold wlp.
  destruct xs as [|x xs _] using rev_ind.
  - by rewrite (PopBack_empty_undefined this v s).
  - destruct (PopBack_ok this v xs x s Hv Hh) as (s' & -> & _ & _ & Ho & Hh' & Hf).
    eapply (well_formed_step s s' this v); eauto.
Qed.

(** Vectors that hand their members to each other: every vector of the
    new state has the members of a vector of the old state, whose block
    is as it was, or owns nothing. *)
Lemma well_formed_renamed s s' (src : nat → option nat) :
  well_formed s →
  (∀ k v', objs s' !! k = Some v' →
     match src k with
     | Some j => objs s !! j = Some v'
                 ∧ ∀ b, buffer_ (data_ v') = Addr b 0 → heap s' !! b = heap s !! b
     | None => v' = mkVector (mkRawMemory Null 0) 0
     end) →
  (∀ k k' j, k ≠ k' → src k = Some j → src k' ≠ Some j) →
  well_formed s'.
Proof.
  intros [Hinv Hown] Hsrc Hinj. split.
  - intros k v' Hk. specialize (Hsrc k v' Hk). destruct (src k) as [j|].
    + destruct Hsrc as [Hj Hf]. destruct (Hinv j v' Hj) as [xs Hh].
      exists xs. by apply (holds_frame s).
    + subst v'. exists []. unfold holds. simpl. repeat split; try done; lia.
  - intros i j v u b Hij Hv Hu Eb Eb'.
    pose proof (Hsrc i v Hv) as Hi. pose proof (Hsrc j u Hu) as Hj.
    destruct (src i) as [i0|] eqn:Ei; [|by subst v].
    destruct (src j) as [j0|] eqn:Ej; [|by subst u].
    destruct Hi as [Hi _]. destruct Hj as [Hj _].
    assert (i0 ≠ j0) as Hne.
    { intros ->. by apply (Hinj i j j0). }
    by apply (Hown i0 j0 v u b).
Qed.

Lemma Vector_dtor_keeps this s :
  well_formed s → wlp (Vector_dtor this) s (λ _, well_formed) well_formed.
Proof.
  intros Hwf.
  destruct (objs s !! this) as [v|] eqn:Hv; [|by apply absent_is_undefined].
  destruct (proj1 Hwf this v Hv) as [xs Hh]. unfold wlp.
  destruct (Vector_dtor_outcome this v xs s Hv Hh) as (s' & -> & _ & Ho & _ & _ & _ & Hf).
  apply (well_formed_renamed s s' Some); [done| |congruence].
  intros k u. rewrite Ho. intros Hk.
  destruct (decide (k = this)) as [->|Hne]; [by rewrite lookup_delete_eq in Hk|].
  rewrite lookup_delete_ne in Hk by done. split; [done|].
  intros b Eb. apply Hf. by apply (proj2 Hwf k this u v).
Qed.

Lemma Swap_keeps this other s :
  well_formed s → wlp (Swap this other) s (λ _, well_formed) well_formed.
Proof.
  intros Hwf.
  destruct (objs s !! this) as [t|] eqn:Ht; [|by apply absent_is_undefined].
  destruct (objs s !! other) as [o|] eqn:Ho.
  2:{ unfold wlp, Swap, mbind, M_bind, get_vec. rewrite Ht. by rewrite Ho. }
  unfold wlp.
  destruct (Swap_outcome this other t o s Ht Ho)
    as (s' & -> & _ & Hheap & _ & Ht' & Ho' & Hrest & _).
  apply (well_formed_renamed s s'
           (λ k, if decide (k = this) then Some other
                 else if decide (k = other) then Some this else Some k)); [done|..].
  - intros k u Hk. rewrite Hheap.
    destruct (decide (k = this)) as [->|Hkt]; [split; [congruence|done]|].
    destruct (decide (k = other)) as [->|Hko]; [split; [congruence|done]|].
    rewrite Hrest in Hk by done. done.
  - intros k k' j Hkk. repeat case_decide; congruence.
Qed.

Lemma Vector_move_ctor_result this other a s :
  this ≠ other → objs s !! other = Some a →
  ∃ s', Vector_move_ctor this other s = Ok tt s'
        ∧ heap s' = heap s
        ∧ objs s' !! this = Some a
        ∧ objs s' !! other = Some (mkVector (mkRawMemory Null 0) 0)
        ∧ (∀ k, k ≠ this → k ≠ other → objs s' !! k = objs s !! k).
Proof.
  intros Hne Ha. destruct a as [[buf cap] sz].
  unfold Vector_move_ctor, mbind, M_bind. rewrite (get_vec_eq _ _ _ Ha). simpl.
  eexists. split; [done|]. simpl. split; [done|]. split; [|split].
  - by rewrite lookup_insert_eq.
  - rewrite lookup_insert_ne by done. by rewrite lookup_insert_eq.
  - intros k Hk Hk'. by rewrite !lookup_insert_ne by done.
Qed.

Lemma Vector_move_assign_result this rhs a b s :
  this ≠ rhs → objs s !! rhs = Some a → objs s !! this = Some b →
  ∃ s', Vector_move_assign this rhs s = Ok tt s'
        ∧ heap s' = heap s
        ∧ objs s' !! this = Some a
        ∧ objs s' !! rhs = Some (mkVector (mkRawMemory Null 0) 0)
        ∧ (∀ k, k ≠ this → k ≠ rhs → objs s' !! k = objs s !! k).
Proof.
  intros Hne Ha Hb. destruct a as [[buf cap] sz].
  unfold Vector_move_assign, set_size, mbind, M_bind, get_vec, set_vec. simpl.
  rewrite Ha. simpl.
  rewrite lookup_insert_ne by done. rewrite Hb. simpl.
  rewrite lookup_insert_ne by done. rewrite lookup_insert_eq. simpl.
  rewrite lookup_insert_ne by done. rewrite lookup_insert_eq. simpl.
  rewrite lookup_insert_ne by done. rewrite lookup_insert_eq. simpl.
  rewrite lookup_insert_ne by done. rewrite lookup_insert_eq. simpl.
  eexists. split; [done|]. simpl. split; [done|]. split; [|split].
  - by rewrite lookup_insert_eq.
  - rewrite lookup_insert_ne by done. by rewrite lookup_insert_eq.
  - intros k Hk Hk'. by rewrite !lookup_insert_ne by done.
Qed.

Lemma Vector_move_assign_self this v s :
  objs s !! this = Some v → Vector_move_assign this this s = Ok tt s.
Proof.
  intros Hv. destruct v as [[buf cap] sz].
  unfold Vector_move_assign, set_size, mbind, M_bind, get_vec, set_vec, set_objs.
  simpl. rewrite Hv. simpl.
  repeat (rewrite lookup_insert_eq; simpl).
  rewrite !insert_insert_eq. rewrite insert_id by done. by destruct s.
Qed.

Lemma well_formed_handed_over s s' this other a :
  well_formed s → this ≠ other → objs s !! other = Some a →
  heap s' = heap s →
  objs s' !! this = Some a →
  objs s' !! other = Some (mkVector (mkRawMemory Null 0) 0) →
  (∀ k, k ≠ this → k ≠ other → objs s' !! k = objs s !! k) →
  well_formed s'.
Proof.
  intros Hwf Hne Ha Hheap Ht Ho Hrest.
  apply (well_formed_renamed s s'
           (λ k, if decide (k = this) then Some other
                 else if decide (k = other) then None else Some k)); [done|..].
  - intros k u Hk. rewrite Hheap.
    destruct (decide (k = this)) as [->|Hkt]; [split; [congruence|done]|].
    destruct (decide (k = other)) as [->|Hko]; [congruence|].
    rewrite Hrest in Hk by done. done.
  - intros k k' j Hkk. repeat case_decide; congruence.
Qed.

Lemma Vector_move_ctor_keeps this other s :
  well_formed s → objs s !! this = None →
  wlp (Vector_move_ctor this other) s (λ _, well_formed) well_formed.
Proof.
  intros Hwf Hn.
  destruct (objs s !! other) as [a|] eqn:Ha; [|by apply absent_is_undefined].
  assert (this ≠ other) as Hne by congruence. unfold wlp.
  destruct (Vector_move_ctor_result this other a s Hne Ha) as (s' & -> & H).
  destruct H as (? & ? & ? & ?). by eapply well_formed_handed_over.
Qed.

Lemma Vector_move_assign_keeps this rhs s :
  well_formed s → wlp (Vector_move_assign this rhs) s (λ _, well_formed) well_formed.
Proof.
  intros Hwf.
  destruct (objs s !! rhs) as [a|] eqn:Ha; [|by apply absent_is_undefined].
  destruct (decide (this = rhs)) as [->|Hne].
  { unfold wlp. by rewrite (Vector_move_assign_self rhs a). }
  destruct (objs s !! this) as [b|] eqn:Hb.
  2:{ unfold wlp, Vector_move_assign, mbind, M_bind, get_vec, set_vec. simpl.
      rewrite Ha. simpl. rewrite lookup_insert_ne by done. by rewrite Hb. }
  unfold wlp.
  destruct (Vector_move_assign_result this rhs a b s Hne Ha Hb) as (s' & -> & H).
  destruct H as (? & ? & ? & ?). by eapply well_formed_handed_over.
Qed.

(** [Erase] at a position inside the vector: whatever the move
    assignments do, the vector is valid afterwards and no other block has
    been touched. *)
Lemma wp_Erase_valid this v front (x : T) rest w h a o :
  o !! this = Some v →
  holds (mkState w h a o) v (front ++ x :: rest) →
  wp (Erase this (ptr_add (Vector_begin v) (N.of_nat (length front)))) (mkState w h a o)
    (λ _ s', objs s' = <[this := mkVector (data_ v) (size_ v - 1)]> o
             ∧ (∃ xs, holds s' (mkVector (data_ v) (size_ v - 1)) xs)
             ∧ ∀ b, buffer_ (data_ v) ≠ Addr b 0 → heap s' !! b = h !! b)
    (λ s', objs s' = o
           ∧ (∃ xs, holds s' v xs)
           ∧ ∀ b, buffer_ (data_ v) ≠ Addr b 0 → heap s' !! b = h !! b).
Proof.
  intros Hv Hh.
  pose proof (holds_bounds _ _ _ Hh) as (Hle & Hcap & Hsz).
  destruct Hh as (_ & _ & Hbytes & Hbuf).
  rewrite length_app in Hsz. cbn [length] in Hsz.
  rewrite PTRDIFF_MAX_eq in Hcap.
  pose proof (shift_left_run_length x rest w) as Hlen.
  destruct v as [[buf cap] sz]. simpl in *.
  destruct buf as [|b off]; [lia|]. destruct Hbuf as [-> Hb].
  unfold block_is in Hb. simpl in Hb. rewrite slots_split in Hb.
  rewrite length_app in Hb. cbn [length] in Hb.
  set (p := N.of_nat (length front)) in *.
  unfold Erase.
  apply wp_bind. eapply wp_get_vec; [done|].
  unfold Vector_begin, Vector_end, GetAddress, Size. cbn [data_ buffer_ size_ ptr_add].
  rewrite ptr_distance_same_block by lia.
  replace (0 + p - 0)%N with p by lia.
  apply wp_bind. unfold std_move. rewrite ptr_distance_same_block by lia.
  replace (N.to_nat (0 + sz - (0 + p + 1))) with (length rest) by lia.
  eapply (wp_shift_left_loop b (0 + p) (0 + p + 1) rest x 0 (Some <$> front));
    [exact Hb|rewrite length_fmap; lia|rewrite length_fmap; lia|].
  destruct (shift_left_run x rest w) as [[w' l] ok].
  cbn [fst snd] in Hlen.
  destruct ok.
  - destruct l as [|z ys _] using rev_ind; [done|].
    rewrite length_app in Hlen. cbn [length] in Hlen.
    apply wp_bind. unfold ptr_sub. rewrite (proj2 (N.leb_le 1 (0 + sz))) by lia.
    rewrite fmap_app, <- (app_assoc (Some <$> ys)), (app_assoc (Some <$> front)).
    eapply wp_destroy_at; [by eapply insert_block_lookup| |].
    { apply lookup_at_middle. rewrite length_app, !length_fmap. lia. }
    change ((Some <$> [z]) ++ ?l) with (Some z :: l).
    rewrite insert_at_middle by (rewrite length_app, !length_fmap; lia).
    rewrite list_insert_insert_eq.
    apply wp_bind, wp_set_vec. apply wp_ret. simpl.
    rewrite size_sub_small by (rewrite ?SIZE_MOD_eq; lia).
    split; [done|]. split.
    + exists (front ++ ys). repeat split; simpl.
      * rewrite length_app. lia.
      * lia.
      * done.
      * unfold block_is. simpl. erewrite insert_block_lookup by done.
        unfold slots. rewrite fmap_app, length_app.
        replace (N.to_nat cap - (length front + length ys))
          with (S (N.to_nat cap - (length front + S (length rest)))) by lia.
        done.
    + intros b' Hb'. rewrite list_lookup_insert_ne; [done|]. congruence.
  - simpl. split; [done|]. split.
    + exists (front ++ l). repeat split; simpl.
      * rewrite length_app. lia.
      * lia.
      * done.
      * unfold block_is. simpl. erewrite insert_block_lookup by done.
        unfold slots. rewrite fmap_app, length_app, <- app_assoc, Hlen.
        done.
    + intros b' Hb'. rewrite list_lookup_insert_ne; [done|]. congruence.
Qed.

(** A position past the last element is not one [Erase] may be given. *)
Lemma Erase_out_of_range this v xs index s :
  objs s !! this = Some v → holds s v xs → (size_ v ≤ index)%N →
  Erase this (ptr_add (Vector_begin v) index) s = Undef.
Proof.
  intros Hv Hh Hi.
  pose proof (holds_bounds _ _ _ Hh) as (Hle & Hcap & Hsz).
  destruct Hh as (_ & _ & Hbytes & Hbuf).
  unfold Erase, mbind, M_bind. rewrite (get_vec_eq _ _ _ Hv).
  destruct v as [[buf cap] sz]. simpl in *.
  unfold Vector_begin, Vector_end, GetAddress, Size. cbn [data_ buffer_ size_].
  destruct buf as [|b off]; cbn [ptr_add].
  - simpl. done.
  - destruct Hbuf as [-> _]. rewrite ptr_distance_same_block by lia.
    cbn [ptr_add]. unfold std_move, ptr_distance. rewrite decide_True by done.
    by rewrite (proj2 (N.leb_gt _ _)) by lia.
Qed.

Lemma Erase_keeps this index s :
  well_formed s →
  wlp (pos ← iterator_at this index; Erase this pos;; mret tt) s
    (λ _, well_formed) well_formed.
Proof.
  intros Hwf. unfold iterator_at.
  destruct (objs s !! this) as [v|] eqn:Hv.
  2:{ unfold wlp, mbind, M_bind, get_vec. by rewrite Hv. }
  destruct (proj1 Hwf this v Hv) as [xs Hh].
  pose proof (holds_bounds _ _ _ Hh) as (Hle & Hcap & Hsz).
  apply wlp_bind. eapply wlp_get_vec_eq; [done|]. apply wlp_ret, wlp_bind.
  destruct (decide (index < size_ v)%N) as [Hin|Hout].
  - assert (N.to_nat index < length xs) as Hlt by lia.
    destruct (lookup_lt_is_Some_2 xs _ Hlt) as [x Hx].
    pose proof (take_drop_middle xs _ x Hx) as Hsplit.
    set (front := take (N.to_nat index) xs) in *.
    set (rest := drop (S (N.to_nat index)) xs) in *.
    assert (index = N.of_nat (length front)) as Hidx.
    { subst front. rewrite length_take. lia. }
    rewrite Hidx at 1.
    rewrite <- Hsplit in Hh. destruct s as [w h a o]. simpl in Hv.
    apply wp_wlp. eapply wp_mono; [by apply (wp_Erase_valid this v front x rest)|..].
    + intros _ s' (Ho & Hh' & Hf). apply wlp_ret.
      eapply (well_formed_step _ s' this v); eauto.
    + intros s' (Ho & Hh' & Hf).
      eapply (well_formed_step _ s' this v v); eauto. simpl. by rewrite insert_id.
  - unfold wlp. rewrite (Erase_out_of_range this v xs) by (done || lia). done.
Qed.

(** [Emplace] before the end of a full vector, when it returns: the
    vector has taken a new block and is valid, whatever the element type. *)
Lemma Emplace_grown_returns this v pre (y : T) suf ctor w h a o :
  o !! this = Some v →
  holds (mkState w h a o) v (pre ++ y :: suf) →
  size_ v = Capacity v →
  wlp (Emplace this (ptr_add (Vector_begin v) (N.of_nat (length pre))) ctor)
    (mkState w h a o)
    (λ _ s', ∃ v', objs s' = <[this := v']> o
                   ∧ (∃ xs, holds s' v' xs)
                   ∧ (∀ b, b < length h → buffer_ (data_ v) ≠ Addr b 0 →
                           heap s' !! b = h !! b)
                   ∧ buffer_ (data_ v') = Addr (length h) 0)
    (λ _, True).
Proof.
  intros Hv Hh Hfull.
  destruct (grown_capacity_fits _ _ _ Hh Hfull) as (Hne & Hfit & Hlt).
  pose proof (holds_bounds _ _ _ Hh) as (Hle & Hcap & Hsz).
  rewrite length_app in Hsz. cbn [length] in Hsz.
  destruct v as [[buf cap] sz].
  unfold Capacity, RawMemory_Capacity in Hfull. simpl in *. subst cap.
  destruct buf as [|bo off].
  { destruct Hh as (_ & _ & _ & Hnull). simpl in Hnull. lia. }
  destruct (holds_full_block _ _ _ _ _ _ _ _ Hh eq_refl eq_refl) as (-> & Hold & Hbo).
  rewrite fmap_app in Hold.
  set (p := N.of_nat (length pre)) in *.
  set (nc := grown_capacity sz) in *.
  unfold Emplace. eapply wlp_get_vec_eq; [done|].
  unfold Vector_begin, Vector_end, GetAddress, Size. cbn [data_ buffer_ size_ ptr_add].
  rewrite ptr_distance_same_block by lia.
  replace (0 + p - 0)%N with p by lia.
  rewrite decide_False by (intros [=]; lia).
  apply wlp_bind. unfold Capacity, RawMemory_Capacity. cbn [data_ capacity_].
  rewrite N.eqb_refl.
  apply wlp_bind, wp_wlp, wp_RawMemory_sized; [done..|].
  fold nc.
  destruct (_ && _) eqn:Hroom; [|done].
  apply andb_prop in Hroom as [Hroom Hmax]. apply N.leb_le in Hroom, Hmax.
  unfold scoped_RawMemory. apply wlp_bind, wlp_on_throw_any.
  apply wlp_RawMemory_plus_bind; [lia|].
  apply wlp_bind, wp_wlp.
  eapply wp_construct_at; [apply lookup_app_new|rewrite length_replicate; lia|].
  destruct (ctor w) as [w1 [x|]]; [|done].
  rewrite insert_app_new, insert_replicate_middle by lia.
  replace (N.to_nat (0 + p)) with (length pre) by lia.
  cbn [buffer_ ptr_add].
  rewrite <- app_assoc in Hold.
  rewrite (grown_start h bo _ _ Hold).
  (* the prefix *)
  apply wlp_bind, wlp_on_throw_any, wp_wlp.
  eapply (wp_TransferDataSafely bo 0 (length h) 0 pre [] ((Some <$> y :: suf) ++ []) []);
    [lia|by apply grown_lookup_old|done|apply grown_lookup_new|done|].
  pose proof (transfer_run_length transfer_step pre w1) as Hlen1.
  destruct (transfer_run transfer_step pre w1) as [[[w2 ys] pre'] ok1] eqn:Hrun1.
  simpl in Hlen1.
  destruct ok1; [|done]. rewrite grown_insert_both by done.
  pose proof (transfer_run_ok_length _ _ _ _ _ _ Hrun1) as Hys.
  (* the suffix *)
  cbn [app].
  assert (sz < SIZE_MOD)%N as Hsmall by (rewrite SIZE_MOD_eq, PTRDIFF_MAX_eq in *; lia).
  rewrite size_sub_small by lia.
  replace (sz - p)%N with (N.of_nat (length (y :: suf))) by (simpl; lia).
  set (m := N.to_nat nc - S (length pre) - length (y :: suf)).
  replace (N.to_nat nc - S (length pre)) with (length (y :: suf) + m) by (simpl in *; lia).
  rewrite replicate_add, (app_cons_shift (Some <$> ys)).
  apply wlp_bind, wlp_on_throw_any, wp_wlp.
  eapply (wp_TransferDataSafely bo (0 + p) (length h) (0 + (p + 1)) (y :: suf)
            (Some <$> pre') [] ((Some <$> ys) ++ [Some x]) (replicate m None));
    [lia|by apply grown_lookup_old|rewrite length_fmap; lia|apply grown_lookup_new
    |rewrite length_app, length_fmap; simpl; lia|].
  pose proof (transfer_run_length transfer_step (y :: suf) w2) as Hlen2.
  destruct (transfer_run transfer_step (y :: suf) w2) as [[[w3 zs] suf'] ok2] eqn:Hrun2.
  simpl in Hlen2.
  destruct ok2; [|done]. rewrite grown_insert_both by done.
  pose proof (transfer_run_ok_length _ _ _ _ _ _ Hrun2) as Hzs.
  apply wlp_bind, wp_wlp.
  replace sz with (N.of_nat (length (pre' ++ suf'))) at 1 by (rewrite length_app; lia).
  rewrite (app_assoc (Some <$> pre')), <- fmap_app.
  eapply (wp_destroy_n bo 0 (pre' ++ suf') [] []); [by apply grown_lookup_old|done|].
  rewrite grown_insert_old by done.
  unfold RawMemory_move_assign, set_data. cbn [buffer_ capacity_].
  apply wp_wlp, wp_bind. eapply wp_get_vec_bind; [exact Hv|]. apply wp_set_vec.
  apply wp_ret, wp_wlp, wp_RawMemory_dtor_null.
  apply wp_wlp, wp_bind. unfold increment_size.
  eapply wp_get_vec_bind; [apply lookup_insert_eq|].
  apply wp_set_vec.
  eapply wp_get_vec_bind; [apply lookup_insert_eq|]. apply wp_ret.
  cbn [objs set_objs world heap avail data_ size_ buffer_ ptr_add].
  rewrite insert_insert_eq.
  rewrite size_add_small by (rewrite SIZE_MOD_eq; rewrite PTRDIFF_MAX_eq in Hcap; lia).
  unfold set_objs. cbn [world heap avail objs].
  eexists. split; [reflexivity|]. cbn [world heap avail objs data_ buffer_].
  split; [|split; [|done]].
  - exists (ys ++ x :: zs). simpl in Hzs.
    split; [cbn [size_]; rewrite length_app; cbn [length]; lia|].
    split; [cbn [size_ data_ capacity_]; lia|]. split; [done|]. split; [done|].
    unfold block_is. cbn [heap data_ capacity_]. rewrite grown_lookup_new.
    unfold slots. rewrite fmap_app, fmap_cons, <- !app_assoc. cbn [app].
    replace (N.to_nat nc - length (ys ++ x :: zs)) with m; [done|].
    subst m. rewrite length_app. simpl in *. lia.
  - intros b Hb Hne'. apply grown_lookup_other; [done|congruence].
Qed.

(** ** Positions past the end

    What the steps of a transfer do to the sizes of the blocks, whether
    they return or throw. *)

Lemma wlp_any {A} (m : M T W A) s (Q : A → State T W → Prop) (E : State T W → Prop) :
  (∀ a s', Q a s') → (∀ s', E s') → wlp m s Q E.
Proof. intros HQ HE. unfold wlp. destruct (m s); auto. Qed.

Lemma same_sizes_refl s : same_sizes s s.
Proof. done. Qed.

Lemma same_sizes_trans s1 s2 s3 : same_sizes s1 s2 → same_sizes s2 s3 → same_sizes s1 s3.
Proof. unfold same_sizes. congruence. Qed.

Lemma wlp_set_cell_sizes p c s (Q : unit → State T W → Prop) E :
  (∀ s', same_sizes s s' → Q tt s') → wlp (set_cell p c) s Q E.
Proof.
  intros HQ. unfold wlp, set_cell. destruct p as [|b o]; [done|].
  unfold live_block. destruct (heap s !! b) as [B|] eqn:Hb; [|done]. simpl.
  destruct (released B); [done|]. case_decide; [|done].
  apply HQ. unfold same_sizes. simpl. rewrite list_fmap_insert. simpl.
  rewrite length_insert. apply list_insert_id. by rewrite list_lookup_fmap, Hb.
Qed.

Lemma wlp_load p s (Q : T → State T W → Prop) E :
  (∀ x : T, Q x s) → wlp (load p) s Q E.
Proof. intros HQ. unfold wlp, load. by destruct (cell_at p s) as [[x|]|]. Qed.

Lemma wlp_construct_move_sizes dst src s :
  wlp (construct_move dst src) s (λ _ s', same_sizes s s') (λ _, True).
Proof.
  unfold construct_move. apply wlp_bind, wlp_load. intros x0.
  apply wlp_bind. unfold wlp at 1, get_world.
  destruct (T_move x0 (world s)) as [[w' r] x'].
  apply wlp_bind. unfold wlp at 1, put_world.
  apply wlp_bind, wlp_set_cell_sizes. intros s1 H1.
  destruct r as [x|]; [|done].
  apply wlp_set_cell_sizes. intros s2 H2.
  eapply same_sizes_trans; [|done]. eapply same_sizes_trans; [|done]. done.
Qed.

Lemma wlp_construct_copy_sizes dst src s :
  wlp (construct_copy dst src) s (λ _ s', same_sizes s s') (λ _, True).
Proof.
  unfold construct_copy. apply wlp_bind, wlp_load. intros x0.
  unfold construct_at. apply wlp_bind. unfold wlp at 1, run_ctor.
  destruct (T_copy x0 (world s)) as [w' [x|]]; [|done].
  by apply wlp_set_cell_sizes.
Qed.

(** Reading past the last cell of a block. *)
Lemma load_past_the_block bo i s L :
  ((λ B, length (cells B)) <$> heap s) !! bo = Some L → L ≤ N.to_nat i →
  load (Addr bo i) s = Undef.
Proof.
  intros HL Hi. unfold load, cell_at, live_block.
  rewrite list_lookup_fmap in HL. destruct (heap s !! bo) as [B|]; [|done].
  simpl in *. destruct (released B); [done|]. simpl.
  rewrite lookup_ge_None_2; [done|]. injection HL as <-. lia.
Qed.

(** A transfer of more objects than the source block has cells does not
    return. *)
Lemma transfer_past_the_block (step : N → M T W unit) d bo L :
  (∀ i s, wlp (step i) s (λ _ s', same_sizes s s') (λ _, True)) →
  (∀ i s, ((λ B, length (cells B)) <$> heap s) !! bo = Some L → L ≤ N.to_nat i →
          step i s = Undef) →
  ∀ n i s,
    ((λ B, length (cells B)) <$> heap s) !! bo = Some L →
    N.to_nat i ≤ L → L < N.to_nat i + n →
    wlp (uninitialized_loop step d i n) s (λ _ _, False) (λ _, True).
Proof.
  intros Hstep Hpast. induction n as [|n IH]; intros i s HL Hi Hn; [lia|].
  cbn [uninitialized_loop]. apply wlp_bind.
  destruct (decide (N.to_nat i = L)) as [Heq|Hne].
  - unfold wlp, on_throw. by rewrite (Hpast i s HL) by lia.
  - apply wlp_on_throw_any. eapply wlp_mono; [apply Hstep| |done].
    intros [] s' Hs'. apply IH; [|lia..].
    unfold same_sizes in Hs'. by rewrite Hs'.
Qed.

Lemma TransferDataSafely_past_the_block bo count dst s L :
  ((λ B, length (cells B)) <$> heap s) !! bo = Some L → L < N.to_nat count →
  wlp (TransferDataSafely (Addr bo 0) count dst) s (λ _ _, False) (λ _, True).
Proof.
  intros HL Hc. unfold TransferDataSafely, uninitialized_move_n, uninitialized_copy_n.
  destruct (_ || _).
  - apply (transfer_past_the_block _ _ bo L); [..|done|lia|lia].
    + intros i s'. apply wlp_construct_move_sizes.
    + intros i s' HL' Hi. unfold construct_move, mbind, M_bind. cbn [ptr_add].
      by rewrite (load_past_the_block bo _ s' L) by (done || simpl; lia).
  - apply (transfer_past_the_block _ _ bo L); [..|done|lia|lia].
    + intros i s'. apply wlp_construct_copy_sizes.
    + intros i s' HL' Hi. unfold construct_copy, mbind, M_bind. cbn [ptr_add].
      by rewrite (load_past_the_block bo _ s' L) by (done || simpl; lia).
Qed.

Lemma wlp_construct_at_sizes p ctor s :
  wlp (construct_at p (run_ctor ctor)) s (λ _ s', same_sizes s s') (λ _, True).
Proof.
  unfold construct_at. apply wlp_bind. unfold wlp at 1, run_ctor.
  destruct (ctor (world s)) as [w' [x|]]; [|done].
  by apply wlp_set_cell_sizes.
Qed.

(** A position past the end of a vector that owns a block is not one
    [Emplace] returns from. *)
Lemma Emplace_past_the_end this v xs bo index ctor s :
  objs s !! this = Some v → holds s v xs →
  buffer_ (data_ v) = Addr bo 0 → (size_ v < index)%N →
  wlp (Emplace this (ptr_add (Vector_begin v) index) ctor) s (λ _ _, False) (λ _, True).
Proof.
  intros Hv Hh Hbuf Hi.
  pose proof (holds_bounds _ _ _ Hh) as (Hle & Hcap & Hsz).
  destruct s as [w h a o]. destruct v as [[buf cap] sz]. simpl in *. subst buf.
  assert (h !! bo = Some (mkBlock (slots xs cap) false)) as Hold.
  { destruct Hh as (_ & _ & _ & Hb). simpl in Hb. by destruct Hb. }
  unfold Emplace. eapply wlp_get_vec_eq; [done|].
  unfold Vector_begin, Vector_end, GetAddress, Size. cbn [data_ buffer_ size_ ptr_add].
  rewrite ptr_distance_same_block by lia.
  rewrite decide_False by (intros [=]; lia).
  apply wlp_bind. unfold Capacity, RawMemory_Capacity. cbn [data_ capacity_].
  destruct (sz =? cap)%N eqn:Hfull.
  - apply N.eqb_eq in Hfull. subst cap.
    destruct (grown_capacity_fits _ _ _ Hh eq_refl) as (Hne & Hfit & Hlt).
    simpl in Hne, Hfit, Hlt.
    apply wlp_bind, wp_wlp, wp_RawMemory_sized; [done..|].
    destruct (_ && _); [|done].
    unfold scoped_RawMemory. apply wlp_bind, wlp_on_throw_any.
    unfold RawMemory_plus. cbn [buffer_ capacity_ ptr_add].
    destruct (0 + index - 0 <=? grown_capacity sz)%N eqn:Hin; [|done].
    unfold assert. apply wlp_bind, wlp_bind. apply wlp_ret, wlp_ret, wlp_bind.
    eapply wlp_mono; [apply wlp_construct_at_sizes| |done].
    intros [] s2 Hs2. apply wlp_bind, wlp_on_throw_any.
    eapply wlp_mono;
      [apply (TransferDataSafely_past_the_block bo _ _ _ (N.to_nat sz)); [|lia]
      |simpl; by intros|done].
    unfold same_sizes in Hs2. rewrite Hs2. cbn [heap].
    rewrite fmap_app, lookup_app_l by (rewrite length_fmap; by eapply lookup_lt_Some).
    rewrite list_lookup_fmap, Hold. simpl. by rewrite slots_length by lia.
  - apply wlp_bind, wlp_any; [|done]. intros _ s1. apply wlp_bind.
    unfold move_backward.
    assert (ptr_distance (Addr bo (0 + (0 + index - 0))) (ptr_sub (Addr bo (0 + sz)) 1)
            = None) as ->; [|done].
    unfold ptr_sub. destruct (1 <=? 0 + sz)%N eqn:Hone; [|done].
    apply N.leb_le in Hone. unfold ptr_distance. rewrite decide_True by done.
    by rewrite (proj2 (N.leb_gt _ _)) by lia.
Qed.

(** [Emplace], when it returns. *)
Lemma Emplace_keeps this index ctor s :
  well_formed s →
  wlp (pos ← iterator_at this index; Emplace this pos ctor;; mret tt) s
    (λ _, well_formed) (λ _, True).
Proof.
  intros Hwf. unfold iterator_at.
  destruct (objs s !! this) as [v|] eqn:Hv.
  2:{ unfold wlp, mbind, M_bind, get_vec. by rewrite Hv. }
  destruct (proj1 Hwf this v Hv) as [xs Hh].
  pose proof (holds_bounds _ _ _ Hh) as (Hle & Hcap & Hsz).
  apply wlp_bind. eapply wlp_get_vec_eq; [done|]. apply wlp_ret, wlp_bind.
  destruct (decide (ptr_add (Vector_begin v) index = Vector_end v)) as [Hend|Hend].
  - (* at the end *)
    unfold Emplace. eapply wlp_get_vec_eq; [done|].
    destruct (ptr_distance _ _) as [offset|]; [|done].
    rewrite decide_True by done. apply wlp_bind.
    eapply wlp_mono; [by apply EmplaceBack_keeps| |done].
    intros p s' Hs'. apply wlp_bind, wlp_get_vec. intros v' _. by do 2 apply wlp_ret.
  - (* before the end *)
    destruct (buffer_ (data_ v)) as [|bo off] eqn:Hbuf.
    { exfalso. apply Hend. unfold Vector_begin, Vector_end, GetAddress. by rewrite Hbuf. }
    assert (off = 0%N) as ->.
    { destruct Hh as (_ & _ & _ & Hb). rewrite Hbuf in Hb. by destruct Hb. }
    assert (index ≠ size_ v) as Hne.
    { intros ->. by apply Hend. }
    destruct (decide (index < size_ v)%N) as [Hin|Hout].
    + assert (N.to_nat index < length xs) as Hlt by lia.
      destruct (lookup_lt_is_Some_2 xs _ Hlt) as [y Hy].
      pose proof (take_drop_middle xs _ y Hy) as Hsplit.
      set (pre := take (N.to_nat index) xs) in *.
      set (suf := drop (S (N.to_nat index)) xs) in *.
      assert (index = N.of_nat (length pre)) as Hidx.
      { subst pre. rewrite length_take. lia. }
      rewrite Hidx at 1. rewrite <- Hsplit in Hh.
      destruct (decide (size_ v = Capacity v)) as [Hfull|Hfree].
      * destruct s as [w h a o]. simpl in Hv.
        eapply wlp_mono; [by apply (Emplace_grown_returns this v pre y suf)| |done].
        intros p s' (v' & Ho & Hh' & Hf & Hb). apply wlp_ret.
        eapply (well_formed_step _ s' this v); eauto.
      * destruct (y :: suf) as [|last mid _] eqn:Hrow using rev_ind.
        { done. }
        pose proof (Emplace_in_place_outcome this v pre mid last _ ctor s Hv Hh Hfree
                      eq_refl) as [_ H].
        cbv zeta in H. unfold wlp.
        destruct (emplace_in_place_run _ _ _ _) as [[w' row] []].
        -- destruct H as (s' & -> & _ & Ho & _ & Hh' & _ & Hf).
           eapply (well_formed_step s s' this v); eauto.
        -- by destruct H as (s' & -> & _).
    + eapply wlp_mono;
        [by apply (Emplace_past_the_end this v xs bo); [..|lia]|simpl; by intros|done].
Qed.

Lemma Insert_keeps this index (value : T) s :
  well_formed s →
  wlp (pos ← iterator_at this index; Insert this pos (Outside value);; mret tt) s
    (λ _, well_formed) (λ _, True).
Proof. apply (Emplace_keeps this index (T_copy value)). Qed.

Lemma well_formed_empty s : objs s = ∅ → well_formed s.
Proof.
  intros Ho. split.
  - intros k v. by rewrite Ho, lookup_empty.
  - intros i j v u b _. by rewrite Ho, lookup_empty.
Qed.

Lemma well_formed_single s this v xs :
  objs s = {[ this := v ]} → holds s v xs → well_formed s.
Proof.
  intros Ho Hh. split.
  - intros k u. rewrite Ho. intros [-> <-]%lookup_singleton_Some. by exists xs.
  - intros i j x y b Hij. rewrite Ho.
    intros [-> _]%lookup_singleton_Some [-> _]%lookup_singleton_Some. done.
Qed.

Lemma exec_keeps c s :
  well_formed s → request_fits c →
  wlp (exec c) s (λ _, well_formed) (λ s', inserts_at_position c = false → well_formed s').
Proof.
  intros Hwf Hfit.
  destruct c; simpl in *; try (apply wlp_fresh; intros Hn).
  - eapply wlp_mono; [by apply Vector_default_ctor_keeps|by intros..].
  - eapply wlp_mono; [by apply Vector_sized_ctor_keeps|by intros..].
  - eapply wlp_mono; [by apply Vector_copy_ctor_keeps|by intros..].
  - eapply wlp_mono; [by apply Vector_move_ctor_keeps|by intros..].
  - eapply wlp_mono; [by apply Vector_dtor_keeps|by intros..].
  - eapply wlp_mono; [by apply Vector_copy_assign_keeps|by intros..].
  - eapply wlp_mono; [by apply Vector_move_assign_keeps|by intros..].
  - eapply wlp_mono; [by apply Swap_keeps|by intros..].
  - eapply wlp_mono; [by apply Reserve_keeps|by intros..].
  - eapply wlp_mono; [by apply Resize_keeps|by intros..].
  - eapply wlp_mono; [by apply PushBack_keeps|by intros..].
  - eapply wlp_mono; [by apply PushBack_rvalue_keeps|by intros..].
  - apply wlp_bind. eapply wlp_mono; [by apply EmplaceBack_keeps|by intros..].
  - eapply wlp_mono; [by apply PopBack_keeps|by intros..].
  - eapply wlp_mono; [by apply Emplace_keeps|by intros..].
  - eapply wlp_mono; [by apply Insert_keeps|by intros..].
  - eapply wlp_mono; [by apply Erase_keeps|by intros..].
Qed.

(** X19. Every call keeps the vectors of a program valid, but for an
    insertion at a position that throws.  Take a state in which every
    vector satisfies the class invariant and no two vectors own the same
    block, and any call whose request [n * sizeof(T)], if it makes one,
    does not wrap around.  When the call returns, the state is again such a
    state; when it throws, it is too, unless the call is [Emplace] or
    [Insert]. *)
Theorem calls_keep_the_vectors_valid (c : call) s :
  well_formed s → request_fits c →
  match exec c s with
  | Ok _ s' => well_formed s'
  | Throw s' => inserts_at_position c = false → well_formed s'
  | Abort => True
  | Undef => True
  end.
Proof. intros Hwf Hfit. exact (exec_keeps c s Hwf Hfit). Qed.

(** X20. A program that makes no insertion at a position, with requests
    that do not wrap around, and that runs to its end, catching the
    exceptions on its way, ends with every vector valid and no block
    owned twice, when it started so. *)
Theorem programs_keep_the_vectors_valid (prog : list call) s s' :
  well_formed s →
  Forall (λ c, request_fits c ∧ inserts_at_position c = false) prog →
  run prog s = Some s' →
  well_formed s'.
Proof.
  intros Hwf Hp. revert s Hwf.
  induction Hp as [|c prog [Hfit Hins] _ IH]; intros s Hwf; simpl.
  - by intros [= <-].
  - pose proof (exec_keeps c s Hwf Hfit) as H. unfold wlp in H.
    destruct (exec c s) as [[] s1|s1| |]; try done; apply IH; auto.
Qed.

(** ** A request that wraps around *)

Lemma wp_operator_new bytes w h a o (Q : pointer → State T W → Prop) E :
  (bytes ≤ a)%N → (bytes ≤ PTRDIFF_MAX)%N →
  Q (Addr (length h) 0)
    (mkState w (h ++ [mkBlock (replicate (N.to_nat (bytes / sizeof_T)) None) false])
       (a - bytes) o) →
  wp (operator_new bytes) (mkState w h a o) Q E.
Proof.
  intros Ha Hm HQ. unfold wp, operator_new. simpl.
  by rewrite (proj2 (N.leb_le _ _) Ha), (proj2 (N.leb_le _ _) Hm).
Qed.

(** X21. [Reserve(n)] does not check that [n * sizeof(T)] fits [size_t].
    When the product wraps around, [operator new] is asked for the wrapped
    number of bytes.  If the free store can serve that and the block it
    gives has room for the elements, they are transferred as usual; when
    the transfer completes, [Reserve] returns, and the vector has taken a
    block of fewer than [n] slots with its capacity set to [n]: it is not
    in a valid state.  When the transfer throws, [Reserve] throws and the
    vector is valid in its old block. *)
Theorem reserve_request_wraps_around (this : nat) (v : Vector) xs (n : N) s :
  objs s !! this = Some v →
  holds s v xs →
  (capacity_ (data_ v) < n)%N →
  (n < SIZE_MOD)%N →
  (SIZE_MOD ≤ n * sizeof_T)%N →
  let bytes := size_mul n sizeof_T in
  let room := (bytes / sizeof_T)%N in
  (bytes ≤ avail s)%N →
  (bytes ≤ PTRDIFF_MAX)%N →
  (size_ v ≤ room)%N →
  let nb := length (heap s) in
  let v' := mkVector (mkRawMemory (Addr nb 0) n) (size_ v) in
  (room < n)%N
  ∧ match transfer_run transfer_step xs (world s) with
    | (w', ys, xs', true) =>
        ∃ s', Reserve this n s = Ok tt s'
              ∧ objs s' = <[this := v']> (objs s)
              ∧ heap s' !! nb = Some (mkBlock (slots ys room) false)
              ∧ ∀ zs, ¬ holds s' v' zs
    | (w', ys, xs', false) =>
        ∃ s', Reserve this n s = Throw s'
              ∧ objs s' = objs s
              ∧ holds s' v xs'
    end.
Proof.
  intros Hv Hh Hn Hsize Hwrap bytes room Hroom Hmax Hfits nb v'.
  pose proof (holds_bounds _ _ _ Hh) as (Hle & Hcap & Hsz).
  pose proof (sizeof_T_pos (T:=T) (W:=W)) as Hpos.
  assert (room < n)%N as Hsmall.
  { subst room bytes. apply N.Div0.div_lt_upper_bound. unfold size_mul, wrap.
    pose proof (N.Div0.mod_le (n * sizeof_T) SIZE_MOD).
    assert (n * sizeof_T mod SIZE_MOD < SIZE_MOD)%N by (by apply N.mod_lt).
    assert (n * sizeof_T mod SIZE_MOD ≠ n * sizeof_T)%N by lia. lia. }
  split; [done|].
  destruct s as [w h a o]. subst v' nb. cbn [world heap avail objs] in *.
  apply (wp_outcome_spec (Reserve this n) (mkState w h a o)
    (λ r, match transfer_run transfer_step xs w with
          | (w', ys, xs', true) => ∃ s', r = Ok tt s' ∧ _
          | (w', ys, xs', false) => ∃ s', r = Throw s' ∧ _
          end)).
  unfold Reserve. eapply wp_get_vec_bind; [done|].
  unfold RawMemory_Capacity. rewrite (proj2 (N.leb_gt _ _) Hn).
  apply wp_bind. unfold RawMemory_sized, Allocate.
  rewrite (proj2 (N.eqb_neq n 0)) by lia.
  apply wp_bind, wp_operator_new; [done..|]. apply wp_ret.
  fold bytes room.
  unfold scoped_RawMemory. apply wp_bind, wp_on_throw.
  unfold GetAddress at 2. cbn [buffer_].
  pose proof (new_block_is_new _ _ _ _ _ _ Hh) as Hnew.
  eapply (wp_transfer_out v xs (length h) (replicate (N.to_nat room - length xs) None)).
  { by eapply holds_app. }
  { done. }
  { rewrite lookup_app_new, <- replicate_add. do 3 f_equal. lia. }
  pose proof (transfer_run_ok_length transfer_step xs w) as Hlen.
  destruct (transfer_run transfer_step xs w) as [[[w' ys] xs'] ok] eqn:Hrun.
  destruct ok.
  - specialize (Hlen _ _ _ eq_refl).
    intros H' HL Hbn Hbo Hother. rewrite length_app in HL. simpl in HL.
    unfold RawMemory_Swap, set_data.
    apply wp_bind. eapply wp_get_vec_bind; [exact Hv|]. apply wp_set_vec.
    apply wp_ret. unfold set_objs. cbn [world heap avail objs].
    assert (∀ zs st, ¬ holds st (mkVector (mkRawMemory (Addr (length h) 0) n) (size_ v)) zs)
      as Hbroken.
    { intros zs st (_ & _ & Hbytes & _). simpl in Hbytes.
      rewrite SIZE_MOD_eq in Hwrap. rewrite PTRDIFF_MAX_eq in Hbytes. lia. }
    destruct (buffer_ (data_ v)) as [|bo off] eqn:Hbuf.
    + destruct Hh as (_ & _ & _ & Hx). rewrite Hbuf in Hx.
      destruct v as [[buf cap] sz]. simpl in *. subst buf cap.
      apply wp_RawMemory_dtor_null.
      eexists. split; [done|]. simpl. split; [done|]. split; [|intros zs; apply Hbroken].
      rewrite Hbn. unfold slots. by rewrite Hlen.
    + destruct Hh as (_ & _ & _ & Hx). rewrite Hbuf in Hx. destruct Hx as [-> Hx].
      pose proof (lookup_lt_Some _ _ _ Hx) as Hlt. simpl in Hlt.
      destruct v as [[buf cap] sz]. simpl in *. subst buf.
      eapply wp_RawMemory_dtor; [by apply Hbo|].
      eexists. split; [done|]. simpl. split; [done|]. split; [|intros zs; apply Hbroken].
      rewrite list_lookup_insert_ne by lia.
      rewrite Hbn. unfold slots. by rewrite Hlen.
  - intros H' HL Hbn Hkeep Hother. rewrite length_app in HL. simpl in HL.
    rewrite lookup_app_new in Hbn.
    eapply wp_RawMemory_dtor; [exact Hbn|].
    eexists. split; [done|]. simpl. split; [done|].
    eapply holds_insert_other; [exact Hkeep|done].
Qed.

(** ** Positions [Erase] cannot be given *)

(** X22. [Erase] does not check its position.  On a valid vector, a
    position at or past the end, so any position when the vector is empty,
    is undefined behaviour: [std::move] is given a range that ends before
    it starts, or [std::destroy_at] the address before a null pointer. *)
Theorem erase_at_or_past_the_end_is_undefined (this : nat) (v : Vector) xs (index : N) s :
  objs s !! this = Some v →
  holds s v xs →
  (size_ v ≤ index)%N →
  Erase this (ptr_add (Vector_begin v) index) s = Undef.
Proof. exact (Erase_out_of_range this v xs index s). Qed.

(** ** No block is lost

    The calls that do not go through the move assignment of [RawMemory]
    release every block they replace. *)

Lemma no_leak_step s s' this v v' :
  no_leak s → objs s !! this = Some v →
  objs s' = <[this := v']> (objs s) →
  (∀ b B, heap s' !! b = Some B → released B = false →
          buffer_ (data_ v') = Addr b 0
          ∨ (buffer_ (data_ v) ≠ Addr b 0 ∧ heap s !! b = Some B)) →
  no_leak s'.
Proof.
  intros Hnl Hv Ho Hb b B HB Hlive. destruct (Hb b B HB Hlive) as [Hown|[Hne Hold]].
  - exists this, v'. by rewrite Ho, lookup_insert_eq.
  - destruct (Hnl b B Hold Hlive) as (k & u & Hk & Hu). exists k, u. split; [|done].
    rewrite Ho, lookup_insert_ne; [done|]. intros <-. congruence.
Qed.

Lemma no_leak_grown s s' this v v' :
  no_leak s → objs s !! this = Some v →
  objs s' = <[this := v']> (objs s) →
  length (heap s') ≤ S (length (heap s)) →
  (∀ B, heap s' !! length (heap s) = Some B → released B = false →
        buffer_ (data_ v') = Addr (length (heap s)) 0) →
  (∀ b B, buffer_ (data_ v) = Addr b 0 → heap s' !! b = Some B → released B = false →
          buffer_ (data_ v') = Addr b 0) →
  (∀ b, b < length (heap s) → buffer_ (data_ v) ≠ Addr b 0 → heap s' !! b = heap s !! b) →
  no_leak s'.
Proof.
  intros Hnl Hv Ho Hlen Hnew Hold Hf. apply (no_leak_step s s' this v v'); [done..|].
  intros b B HB Hlive. pose proof (lookup_lt_Some _ _ _ HB) as Hlt.
  destruct (decide (b = length (heap s))) as [->|Hne]; [left; by eapply Hnew|].
  destruct (decide (buffer_ (data_ v) = Addr b 0)) as [Eb|Eb]; [left; by eapply Hold|].
  right. split; [done|]. rewrite <- Hf; [done|lia|done].
Qed.

Lemma no_leak_in_place s s' this v v' :
  no_leak s → objs s !! this = Some v →
  objs s' = <[this := v']> (objs s) →
  buffer_ (data_ v') = buffer_ (data_ v) →
  (∀ b, buffer_ (data_ v) ≠ Addr b 0 → heap s' !! b = heap s !! b) →
  no_leak s'.
Proof.
  intros Hnl Hv Ho Hbuf Hf. apply (no_leak_step s s' this v v'); [done..|].
  intros b B HB Hlive.
  destruct (decide (buffer_ (data_ v) = Addr b 0)) as [Eb|Eb]; [left; congruence|].
  right. split; [done|]. by rewrite <- Hf.
Qed.

Lemma no_leak_rolled_back s s' clean :
  no_leak s → rolled_back s s' clean → no_leak s'.
Proof.
  intros Hnl (Ho & _ & Ht & Hnew) b B HB Hlive. rewrite Ho.
  destruct (decide (b < length (heap s))) as [Hlt|Hge].
  - apply (Hnl b B); [|done]. by rewrite <- (take_frame _ _ Ht).
  - destruct (Hnew b B HB) as [Hrel _]; [lia|]. congruence.
Qed.

Lemma no_leak_set_world w s : no_leak s → no_leak (set_world w s).
Proof. done. Qed.

Lemma no_leak_new s s' this v' :
  no_leak s → objs s !! this = None →
  objs s' = <[this := v']> (objs s) →
  (∀ b, b < length (heap s) → heap s' !! b = heap s !! b) →
  (∀ b B, heap s' !! b = Some B → length (heap s) ≤ b → buffer_ (data_ v') = Addr b 0) →
  no_leak s'.
Proof.
  intros Hnl Hn Ho Hf Hnew b B HB Hlive.
  destruct (decide (b < length (heap s))) as [Hlt|Hge].
  - rewrite Hf in HB by done. destruct (Hnl b B HB Hlive) as (k & u & Hk & Hu).
    exists k, u. split; [|done]. rewrite Ho, lookup_insert_ne; [done|]. congruence.
  - exists this, v'. rewrite Ho, lookup_insert_eq. split; [done|].
    apply (Hnew b B); [done|lia].
Qed.

Lemma no_leak_deleted s s' this v :
  no_leak s → objs s !! this = Some v →
  objs s' = delete this (objs s) →
  (∀ b B, buffer_ (data_ v) = Addr b 0 → heap s' !! b = Some B → released B = true) →
  (∀ b, buffer_ (data_ v) ≠ Addr b 0 → heap s' !! b = heap s !! b) →
  no_leak s'.
Proof.
  intros Hnl Hv Ho Hold Hf b B HB Hlive.
  destruct (decide (buffer_ (data_ v) = Addr b 0)) as [Eb|Eb].
  { rewrite (Hold b B Eb HB) in Hlive. done. }
  rewrite Hf in HB by done. destruct (Hnl b B HB Hlive) as (k & u & Hk & Hu).
  exists k, u. split; [|done]. rewrite Ho, lookup_delete_ne; [done|]. congruence.
Qed.

Lemma no_leak_renamed s s' :
  no_leak s → heap s' = heap s →
  (∀ j u b, objs s !! j = Some u → buffer_ (data_ u) = Addr b 0 →
            ∃ k u', objs s' !! k = Some u' ∧ buffer_ (data_ u') = Addr b 0) →
  no_leak s'.
Proof.
  intros Hnl Hh Ho b B HB Hlive. rewrite Hh in HB.
  destruct (Hnl b B HB Hlive) as (j & u & Hj & Hu). by apply (Ho j u).
Qed.

Lemma Reserve_no_leak this n s :
  well_formed s → no_leak s → (n * sizeof_T < SIZE_MOD)%N →
  wlp (Reserve this n) s (λ _, no_leak) no_leak.
Proof.
  intros Hwf Hnl Hn.
  destruct (objs s !! this) as [v|] eqn:Hv; [|by apply absent_is_undefined].
  destruct (proj1 Hwf this v Hv) as [xs Hh].
  pose proof (Reserve_outcome this v xs n s Hv Hh Hn) as [_ H]. unfold wlp.
  outcomes H; try (by rewrite H).
  - destruct H as (s' & -> & _ & Ho & _ & Hh' & Hl & Hold & Hf).
    eapply (no_leak_grown s s' this v); eauto; [lia|].
    intros b B Eb HB Hlive. rewrite (Hold b Eb) in HB. by simplify_eq.
  - destruct H as (s' & -> & _ & Ho & _ & Hh' & Hl & Hnew & Hf).
    eapply (no_leak_grown s s' this v v); eauto; [by rewrite insert_id|lia|].
    intros B HB Hlive. rewrite Hnew in HB. by simplify_eq.
Qed.

Lemma PushBack_no_leak this value s :
  well_formed s → no_leak s → wlp (PushBack this value) s (λ _, no_leak) no_leak.
Proof.
  intros Hwf Hnl.
  destruct (objs s !! this) as [v|] eqn:Hv; [|by apply absent_is_undefined].
  destruct (proj1 Hwf this v Hv) as [xs Hh].
  pose proof (PushBack_outcome this v xs value s Hv Hh) as [_ H]. unfold wlp.
  outcomes H; try (by rewrite H).
  - destruct H as (s' & -> & _ & Ho & _ & Hh' & Hl & Hold & Hf).
    eapply (no_leak_grown s s' this v); eauto; [lia|].
    intros b B Eb HB Hlive. rewrite (Hold b Eb) in HB. by simplify_eq.
  - destruct H as (s' & -> & _ & Ho & _ & Hh' & Hl & Hnew & Hf).
    eapply (no_leak_grown s s' this v v); eauto; [by rewrite insert_id|lia|].
    intros B HB Hlive. rewrite Hnew in HB. by simplify_eq.
  - destruct H as (s' & -> & _ & Hr & _). by apply (no_leak_rolled_back s s' all_raw).
  - destruct H as (s' & -> & _ & Ho & _ & Hh' & _ & Hf).
    eapply (no_leak_in_place s s' this v); eauto.
Qed.

Lemma Resize_no_leak this n s :
  well_formed s → no_leak s → (n * sizeof_T < SIZE_MOD)%N →
  wlp (Resize this n) s (λ _, no_leak) no_leak.
Proof.
  intros Hwf Hnl Hn.
  destruct (objs s !! this) as [v|] eqn:Hv; [|by apply absent_is_undefined].
  destruct (proj1 Hwf this v Hv) as [xs Hh]. unfold wlp.
  destruct (decide (n ≤ capacity_ (data_ v))%N) as [Hle|Hgt].
  - pose proof (Resize_within_outcome this v xs n s Hv Hh Hle) as H.
    outcomes H; try (by rewrite H).
    + destruct H as (s' & -> & _ & Ho & _ & Hh' & _ & Hf).
      eapply (no_leak_in_place s s' this v); eauto.
    + destruct H as (s' & -> & _ & Ho & _ & Hh' & _ & Hf).
      eapply (no_leak_in_place s s' this v); eauto.
  - pose proof (Resize_beyond_outcome this v xs n s Hv Hh Hn) as H.
    specialize (H ltac:(lia)).
    outcomes H; try (by rewrite H).
    + destruct H as (s' & -> & _ & Ho & Hh' & Hold & Hf & Hl).
      eapply (no_leak_grown s s' this v); eauto; [lia|].
      intros b B Eb HB Hlive. destruct (Hold b Eb) as (B' & HB' & Hrel). congruence.
    + destruct H as (s' & -> & _ & Ho & Hh' & Hold & Hf & Hl).
      eapply (no_leak_grown s s' this v); eauto; [lia|].
      intros b B Eb HB Hlive. destruct (Hold b Eb) as (B' & HB' & Hrel). congruence.
    + destruct H as (s' & -> & _ & Ho & _ & Hh' & Hnew & Hf & Hl).
      eapply (no_leak_grown s s' this v v); eauto; [by rewrite insert_id|lia|].
      intros B HB Hlive. rewrite Hnew in HB. by simplify_eq.
Qed.

Lemma PopBack_no_leak this s :
  well_formed s → no_leak s → wlp (PopBack this) s (λ _, no_leak) no_leak.
Proof.
  intros Hwf Hnl.
  destruct (objs s !! this) as [v|] eqn:Hv; [|by apply absent_is_undefined].
  destruct (proj1 Hwf this v Hv) as [xs Hh]. unfold wlp.
  destruct xs as [|x xs _] using rev_ind.
  - by rewrite (PopBack_empty_undefined this v s).
  - destruct (PopBack_ok this v xs x s Hv Hh) as (s' & -> & _ & _ & Ho & Hh' & Hf).
    eapply (no_leak_in_place s s' this v); eauto.
Qed.

Lemma Vector_default_ctor_no_leak this s :
  no_leak s → objs s !! this = None →
  wlp (Vector_default_ctor this) s (λ _, no_leak) no_leak.
Proof.
  intros Hnl Hn. unfold wlp, Vector_default_ctor, set_vec.
  eapply (no_leak_new s _ this); eauto.
  intros b B HB Hb. apply lookup_lt_Some in HB. simpl in HB. lia.
Qed.

Lemma Vector_sized_ctor_no_leak this size s :
  no_leak s → objs s !! this = None → (size * sizeof_T < SIZE_MOD)%N →
  wlp (Vector_sized_ctor this size) s (λ _, no_leak) no_leak.
Proof.
  intros Hnl Hn Hsize.
  pose proof (Vector_sized_ctor_outcome this size s Hsize) as H. unfold wlp.
  outcomes H; try (by rewrite H).
  - destruct H as (s' & -> & _ & Ho & _ & Hh' & _ & Ht & Hl).
    eapply (no_leak_new s s' this); eauto using take_frame.
    intros b B HB Hb. apply lookup_lt_Some in HB.
    destruct (size =? 0)%N; [lia|]. simpl. f_equal. lia.
  - destruct H as (s' & -> & _ & Hr). by apply (no_leak_rolled_back s s' all_raw).
Qed.

Lemma Vector_copy_ctor_no_leak this other s :
  well_formed s → no_leak s → objs s !! this = None →
  wlp (Vector_copy_ctor this other) s (λ _, no_leak) no_leak.
Proof.
  intros Hwf Hnl Hn.
  destruct (objs s !! other) as [r|] eqn:Hr; [|by apply absent_is_undefined].
  destruct (proj1 Hwf other r Hr) as [src Hh].
  pose proof (Vector_copy_ctor_outcome this other r src s Hr Hh) as [_ H]. unfold wlp.
  outcomes H; try (by rewrite H).
  - destruct H as (s' & -> & _ & Ho & _ & Hh' & _ & Ht & Hl).
    eapply (no_leak_new s s' this); eauto using take_frame.
    intros b B HB Hb. apply lookup_lt_Some in HB.
    destruct (size_ r =? 0)%N; [lia|]. simpl. f_equal. lia.
  - destruct H as (s' & -> & _ & Hrb & _).
    by apply (no_leak_rolled_back s s' all_raw).
Qed.

Lemma Vector_dtor_no_leak this s :
  well_formed s → no_leak s → wlp (Vector_dtor this) s (λ _, no_leak) no_leak.
Proof.
  intros Hwf Hnl.
  destruct (objs s !! this) as [v|] eqn:Hv; [|by apply absent_is_undefined].
  destruct (proj1 Hwf this v Hv) as [xs Hh]. unfold wlp.
  destruct (Vector_dtor_outcome this v xs s Hv Hh)
    as (s' & -> & _ & Ho & _ & _ & Hold & Hf).
  eapply (no_leak_deleted s s' this v); eauto.
  intros b B Eb HB. rewrite (Hold b Eb) in HB. by simplify_eq.
Qed.

Lemma Swap_no_leak this other s :
  no_leak s → wlp (Swap this other) s (λ _, no_leak) no_leak.
Proof.
  intros Hnl.
  destruct (objs s !! this) as [t|] eqn:Ht; [|by apply absent_is_undefined].
  destruct (objs s !! other) as [o|] eqn:Ho.
  2:{ unfold wlp, Swap, mbind, M_bind, get_vec. rewrite Ht. by rewrite Ho. }
  unfold wlp.
  destruct (Swap_outcome this other t o s Ht Ho)
    as (s' & -> & _ & Hheap & _ & Ht' & Ho' & Hrest & _).
  apply (no_leak_renamed s s'); [done..|].
  intros j u b Hj Hu.
  destruct (decide (j = this)) as [->|Hjt]; [exists other, u; split; congruence|].
  destruct (decide (j = other)) as [->|Hjo]; [exists this, u; split; congruence|].
  exists j, u. by rewrite Hrest.
Qed.

Lemma Vector_move_ctor_no_leak this other s :
  no_leak s → objs s !! this = None →
  wlp (Vector_move_ctor this other) s (λ _, no_leak) no_leak.
Proof.
  intros Hnl Hn.
  destruct (objs s !! other) as [a|] eqn:Ha; [|by apply absent_is_undefined].
  assert (this ≠ other) as Hne by congruence. unfold wlp.
  destruct (Vector_move_ctor_result this other a s Hne Ha)
    as (s' & -> & Hheap & Ht & Ho & Hrest).
  apply (no_leak_renamed s s'); [done..|].
  intros j u b Hj Hu.
  destruct (decide (j = other)) as [->|Hjo]; [exists this, u; split; congruence|].
  exists j, u. rewrite Hrest; [done|congruence|done].
Qed.

Lemma Vector_copy_assign_no_leak this rhs s :
  well_formed s → no_leak s →
  wlp (Vector_copy_assign this rhs) s (λ _, no_leak) no_leak.
Proof.
  intros Hwf Hnl. unfold Vector_copy_assign.
  destruct (decide (this = rhs)) as [|Hne]; [done|].
  destruct (objs s !! rhs) as [r|] eqn:Hr; [|by apply absent_is_undefined].
  eapply wlp_get_vec_eq; [done|].
  destruct (objs s !! this) as [t|] eqn:Ht; [|by apply absent_is_undefined].
  eapply wlp_get_vec_eq; [done|].
  destruct (proj1 Hwf this t Ht) as [dst Hht].
  destruct (proj1 Hwf rhs r Hr) as [src Hhr].
  assert (∀ b, buffer_ (data_ t) = Addr b 0 → buffer_ (data_ r) ≠ Addr b 0) as Hdisj.
  { intros b. by apply (proj2 Hwf this rhs). }
  destruct s as [w h a o]. cbn [objs] in Ht, Hr. unfold RawMemory_Capacity.
  apply wp_wlp. destruct (_ <? _)%N eqn:Hre.
  - apply N.ltb_lt in Hre.
    eapply wp_mono;
      [by apply (copy_assignment_realloc_framed this rhs t r dst src)|..].
    + intros _ s' (Hf & Hl & w1 & ys & src' & _ & _ & _ & Ho & Hh' & _ & Hold).
      eapply (no_leak_grown _ s' this t); eauto; [simpl; lia|].
      intros b B Eb HB Hlive. destruct (Hold b Eb) as (B' & HB' & Hrel & _). congruence.
    + intros s' [[_ ->]|(_ & w1 & ys & src' & _ & _ & _ & _ & Hrb & _)]; [done|].
      by eapply no_leak_rolled_back.
  - apply N.ltb_ge in Hre.
    eapply wp_mono;
      [by apply (copy_assignment_in_place_framed this rhs t r dst src)|..].
    + intros _ s' (Hf & xs & _ & Ho & Hh' & _).
      eapply (no_leak_in_place _ s' this t); eauto.
    + intros s' (Hf & _ & Ho & _ & xs & Hh').
      eapply (no_leak_in_place _ s' this t t); eauto.
      cbn [objs]. by rewrite insert_id.
Qed.

Lemma Erase_no_leak this index s :
  well_formed s → no_leak s →
  wlp (pos ← iterator_at this index; Erase this pos;; mret tt) s (λ _, no_leak) no_leak.
Proof.
  intros Hwf Hnl. unfold iterator_at.
  destruct (objs s !! this) as [v|] eqn:Hv.
  2:{ unfold wlp, mbind, M_bind, get_vec. by rewrite Hv. }
  destruct (proj1 Hwf this v Hv) as [xs Hh].
  pose proof (holds_bounds _ _ _ Hh) as (Hle & Hcap & Hsz).
  apply wlp_bind. eapply wlp_get_vec_eq; [done|]. apply wlp_ret, wlp_bind.
  destruct (decide (index < size_ v)%N) as [Hin|Hout].
  - assert (N.to_nat index < length xs) as Hlt by lia.
    destruct (lookup_lt_is_Some_2 xs _ Hlt) as [x Hx].
    pose proof (take_drop_middle xs _ x Hx) as Hsplit.
    set (front := take (N.to_nat index) xs) in *.
    set (rest := drop (S (N.to_nat index)) xs) in *.
    assert (index = N.of_nat (length front)) as Hidx.
    { subst front. rewrite length_take. lia. }
    rewrite Hidx at 1.
    rewrite <- Hsplit in Hh. destruct s as [w h a o]. simpl in Hv.
    apply wp_wlp. eapply wp_mono; [by apply (wp_Erase_valid this v front x rest)|..].
    + intros _ s' (Ho & Hh' & Hf). apply wlp_ret.
      eapply (no_leak_in_place _ s' this v); eauto.
    + intros s' (Ho & Hh' & Hf).
      eapply (no_leak_in_place _ s' this v v); eauto. simpl. by rewrite insert_id.
  - unfold wlp. rewrite (Erase_out_of_range this v xs) by (done || lia). done.
Qed.

Lemma exec_no_leak c s :
  well_formed s → no_leak s → request_fits c → move_assigns_a_buffer c = false →
  wlp (exec c) s (λ _, no_leak) no_leak.
Proof.
  intros Hwf Hnl Hfit Hc.
  destruct c; try discriminate Hc; simpl in *; try (apply wlp_fresh; intros Hn).
  - by apply Vector_default_ctor_no_leak.
  - by apply Vector_sized_ctor_no_leak.
  - by apply Vector_copy_ctor_no_leak.
  - by apply Vector_move_ctor_no_leak.
  - by apply Vector_dtor_no_leak.
  - by apply Vector_copy_assign_no_leak.
  - by apply Swap_no_leak.
  - by apply Reserve_no_leak.
  - by apply Resize_no_leak.
  - by apply PushBack_no_leak.
  - by apply PopBack_no_leak.
  - by apply Erase_no_leak.
Qed.

Lemma no_leak_nothing_allocated s : heap s = [] → no_leak s.
Proof. intros Hh b B. by rewrite Hh. Qed.

Lemma no_leak_all_released s : no_leak s → objs s = ∅ → all_released s.
Proof.
  intros Hnl Ho. apply Forall_lookup. intros b B HB.
  destruct (released B) eqn:Hrel; [done|].
  destruct (Hnl b B HB Hrel) as (k & v & Hk & _). by rewrite Ho in Hk.
Qed.

Lemma move_assigns_covers_insertions (c : call (T:=T) (W:=W)) :
  move_assigns_a_buffer c = false → inserts_at_position c = false.
Proof. by destruct c. Qed.

(** X23. A call that does not go through the move assignment of
    [RawMemory] loses no block.  Take a state in which every vector is
    valid, no two vectors own the same block and every block that has not
    been released is owned by a vector, and a call other than move
    assignment, [PushBack(T&&)], [EmplaceBack], [Emplace] and [Insert]
    whose request does not wrap around.  Whether the call returns or
    throws, every block that has not been released is still owned by a
    vector: the blocks it replaced or gave up have been released. *)
Theorem calls_lose_no_block (c : call) s :
  well_formed s → no_leak s → request_fits c → move_assigns_a_buffer c = false →
  match exec c s with
  | Ok _ s' => no_leak s'
  | Throw s' => no_leak s'
  | Abort => True
  | Undef => True
  end.
Proof. intros Hwf Hnl Hfit Hc. exact (exec_no_leak c s Hwf Hnl Hfit Hc). Qed.

(** X24. A program of such calls that runs to its end, catching the
    exceptions on its way, loses no block; when it has destroyed all its
    vectors, every block of the free store has been released. *)
Theorem programs_lose_no_block (prog : list call) s s' :
  well_formed s → no_leak s →
  Forall (λ c, request_fits c ∧ move_assigns_a_buffer c = false) prog →
  run prog s = Some s' →
  no_leak s' ∧ (objs s' = ∅ → all_released s').
Proof.
  intros Hwf Hnl Hp Hrun.
  enough (well_formed s' ∧ no_leak s') as [_ H].
  { split; [done|]. by apply no_leak_all_released. }
  revert s Hwf Hnl Hrun.
  induction Hp as [|c prog [Hfit Hc] _ IH]; intros s Hwf Hnl; simpl.
  - by intros [= <-].
  - pose proof (exec_keeps c s Hwf Hfit) as Hk.
    pose proof (exec_no_leak c s Hwf Hnl Hfit Hc) as Hn.
    pose proof (move_assigns_covers_insertions c Hc) as Hi.
    unfold wlp in Hk, Hn.
    destruct (exec c s) as [[] s1|s1| |]; try done; apply IH; auto.
Qed.

(** ** A growing append that fails, for every element type *)

Lemma failed_append_unchanged s (v : Vector) xs :
  holds s v xs →
  objs s = objs s
  ∧ avail s = avail s
  ∧ (∃ xs', holds s v xs' ∧ length xs' = length xs)
  ∧ (∀ b B, heap s !! b = Some B → length (heap s) ≤ b →
            released B = true ∧ raw_below (length xs) (cells B))
  ∧ (∀ b, b < length (heap s) → buffer_ (data_ v) ≠ Addr b 0 →
          heap s !! b = heap s !! b).
Proof.
  intros Hh. split; [done|]. split; [done|]. split; [by exists xs|].
  split; [|done]. intros b B HB Hb. apply lookup_lt_Some in HB. lia.
Qed.

Lemma failed_append_new_block s s' (v : Vector) xs xs' l :
  objs s' = objs s →
  avail s' = avail s →
  holds s' v xs' →
  length xs' = length xs →
  length (heap s') = S (length (heap s)) →
  heap s' !! length (heap s) = Some (mkBlock l true) →
  raw_below (length xs) l →
  (∀ b, b < length (heap s) → buffer_ (data_ v) ≠ Addr b 0 →
        heap s' !! b = heap s !! b) →
  objs s' = objs s
  ∧ avail s' = avail s
  ∧ (∃ xs', holds s' v xs' ∧ length xs' = length xs)
  ∧ (∀ b B, heap s' !! b = Some B → length (heap s) ≤ b →
            released B = true ∧ raw_below (length xs) (cells B))
  ∧ (∀ b, b < length (heap s) → buffer_ (data_ v) ≠ Addr b 0 →
          heap s' !! b = heap s !! b).
Proof.
  intros Ho Ha Hh Hlen Hl Hnew Hraw Hf.
  split; [done|]. split; [done|]. split; [by exists xs'|]. split; [|done].
  intros b B HB Hb.
  assert (b = length (heap s)) as ->.
  { apply lookup_lt_Some in HB. lia. }
  rewrite Hnew in HB. by injection HB as <-.
Qed.

Lemma EmplaceBack_growth_fails this v xs ctor s s' :
  objs s !! this = Some v →
  holds s v xs →
  size_ v = Capacity v →
  EmplaceBack this ctor s = Throw s' →
  objs s' = objs s
  ∧ avail s' = avail s
  ∧ (∃ xs', holds s' v xs' ∧ length xs' = length xs)
  ∧ (∀ b B, heap s' !! b = Some B → length (heap s) ≤ b →
            released B = true ∧ raw_below (length xs) (cells B))
  ∧ (∀ b, b < length (heap s) → buffer_ (data_ v) ≠ Addr b 0 →
          heap s' !! b = heap s !! b).
Proof.
  intros Hv Hh Hfull Ht.
  pose proof (EmplaceBack_outcome this v xs ctor s Hv Hh) as H. cbv zeta in H.
  rewrite (proj2 (N.eqb_eq _ _) Hfull) in H.
  destruct (grown_capacity_fits _ _ _ Hh Hfull) as (_ & _ & Hlt).
  pose proof (holds_bounds _ _ _ Hh) as (_ & _ & Hsz).
  destruct (_ && _).
  2:{ rewrite H in Ht. injection Ht as <-. by apply failed_append_unchanged. }
  destruct (ctor (world s)) as [w1 [x|]].
  - pose proof (transfer_run_length transfer_step xs w1) as Hlen.
    destruct (transfer_run transfer_step xs w1) as [[[w2 ys] xs'] ok].
    simpl in Hlen. destruct ok.
    + destruct H as (s'' & H & _). by rewrite H in Ht.
    + destruct H as (s'' & H & _ & Ho & Ha & Hh' & Hl & Hb & Hf).
      rewrite H in Ht. injection Ht as ->.
      eapply failed_append_new_block; eauto.
      by apply raw_below_replicate.
  - destruct H as (s'' & H & _ & Hrb & Hheap).
    rewrite H in Ht. injection Ht as ->.
    pose proof Hrb as (Ho & Ha & _).
    eapply (failed_append_new_block s s' v xs xs); eauto.
    + by apply (holds_rolled_back s s' v xs all_raw).
    + rewrite Hheap, length_app. simpl. lia.
    + rewrite Hheap. apply lookup_app_new.
    + rewrite <- (app_nil_r (replicate _ _)). apply raw_below_replicate. lia.
    + intros b Hb _. rewrite Hheap. by rewrite lookup_app_l.
Qed.

Lemma PushBack_growth_fails this v xs value s s' :
  objs s !! this = Some v →
  holds s v xs →
  size_ v = Capacity v →
  PushBack this value s = Throw s' →
  objs s' = objs s
  ∧ avail s' = avail s
  ∧ (∃ xs', holds s' v xs' ∧ length xs' = length xs)
  ∧ (∀ b B, heap s' !! b = Some B → length (heap s) ≤ b →
            released B = true ∧ raw_below (length xs) (cells B))
  ∧ (∀ b, b < length (heap s) → buffer_ (data_ v) ≠ Addr b 0 →
          heap s' !! b = heap s !! b).
Proof.
  intros Hv Hh Hfull Ht.
  pose proof (PushBack_outcome this v xs value s Hv Hh) as [_ H]. cbv zeta in H.
  rewrite (proj2 (N.eqb_eq _ _) Hfull) in H.
  destruct (grown_capacity_fits _ _ _ Hh Hfull) as (_ & _ & Hlt).
  pose proof (holds_bounds _ _ _ Hh) as (_ & _ & Hsz).
  destruct (_ && _).
  2:{ rewrite H in Ht. injection Ht as <-. by apply failed_append_unchanged. }
  destruct (T_copy value (world s)) as [w1 [x|]].
  - pose proof (transfer_run_length transfer_step xs w1) as Hlen.
    destruct (transfer_run transfer_step xs w1) as [[[w2 ys] xs'] ok].
    simpl in Hlen. destruct ok.
    + destruct H as (s'' & H & _). by rewrite H in Ht.
    + destruct H as (s'' & H & _ & Ho & Ha & Hh' & Hl & Hb & Hf).
      rewrite H in Ht. injection Ht as ->.
      eapply failed_append_new_block; eauto.
      by apply raw_below_replicate.
  - destruct H as (s'' & H & _ & Hrb & Hheap).
    rewrite H in Ht. injection Ht as ->.
    pose proof Hrb as (Ho & Ha & _).
    eapply (failed_append_new_block s s' v xs xs); eauto.
    + by apply (holds_rolled_back s s' v xs all_raw).
    + rewrite Hheap, length_app. simpl. lia.
    + rewrite Hheap. apply lookup_app_new.
    + rewrite <- (app_nil_r (replicate _ _)). apply raw_below_replicate. lia.
    + intros b Hb _. rewrite Hheap. by rewrite lookup_app_l.
Qed.


(** ** Insertions that return

    For an element type whose constructors and move assignment never
    throw, an insertion at a valid position returns when the memory for
    the growth is there. *)

Lemma transfer_step_returns x w : nothing_throws → (transfer_step x w).1.2 ≠ None.
Proof.
  intros (Hcopy & Hmove & _). unfold transfer_step.
  destruct (_ || _); [apply Hmove|apply Hcopy].
Qed.

Lemma transfer_run_returns xs w :
  nothing_throws → (transfer_run transfer_step xs w).2 = true.
Proof.
  intros Hnt. revert w. induction xs as [|x xs IH]; intros w; simpl; [done|].
  pose proof (transfer_step_returns x w Hnt) as Hx.
  destruct (transfer_step x w) as [[w1 [y|]] x']; [|done].
  specialize (IH w1). by destruct (transfer_run transfer_step xs w1) as [[[w2 ys] xs''] ok].
Qed.

Lemma shift_left_run_returns d rest w :
  nothing_throws → (shift_left_run d rest w).2 = true.
Proof.
  intros (_ & _ & Hassign). revert d w.
  induction rest as [|x rest IH]; intros d w; simpl; [done|].
  specialize (Hassign d x w).
  destruct (T_move_assign d x w) as [[[w' ok] d'] x']. simpl in Hassign. subst ok.
  specialize (IH x' w'). by destruct (shift_left_run x' rest w') as [[w'' l] ok].
Qed.

Lemma emplace_in_place_run_returns ctor mid last w :
  nothing_throws →
  (∀ w', (ctor w').2 ≠ None) →
  (emplace_in_place_run ctor mid last w).2 = true.
Proof.
  intros Hnt Hctor. unfold emplace_in_place_run.
  pose proof Hnt as (_ & Hmove & Hassign).
  specialize (Hmove last w).
  destruct (T_move last w) as [[w1 [m|]] last']; [|done].
  pose proof (shift_left_run_returns last' (rev mid) w1 Hnt) as Hshift.
  pose proof (shift_left_run_length last' (rev mid) w1) as Hlen.
  destruct (shift_left_run last' (rev mid) w1) as [[w2 l] ok].
  simpl in Hshift, Hlen. subst ok.
  specialize (Hctor w2). destruct (ctor w2) as [w3 [t|]]; [|done].
  destruct (rev l) as [|z l'] eqn:Hrev.
  { apply (f_equal length) in Hrev. rewrite length_rev in Hrev. simpl in Hrev. lia. }
  specialize (Hassign z t w3).
  by destruct (T_move_assign z t w3) as [[[w4 ok] d'] t'].
Qed.

Lemma emplace_with_growth_spec_returns ctor pre suf w :
  nothing_throws →
  (∀ w', (ctor w').2 ≠ None) →
  (emplace_with_growth_spec ctor pre suf w).2 ≠ None.
Proof.
  intros Hnt Hctor. unfold emplace_with_growth_spec.
  specialize (Hctor w). destruct (ctor w) as [w1 [x|]]; [|done].
  pose proof (transfer_run_returns pre w1 Hnt) as Hpre.
  destruct (transfer_run transfer_step pre w1) as [[[w2 ys] pre'] ok].
  simpl in Hpre. subst ok.
  pose proof (transfer_run_returns suf w2 Hnt) as Hsuf.
  destruct (transfer_run transfer_step suf w2) as [[[w3 zs] suf'] ok].
  simpl in Hsuf. by subst ok.
Qed.

Lemma room_to_grow_test v s :
  room_to_grow v s →
  size_ v = Capacity v →
  ((grown_capacity (size_ v) * sizeof_T <=? avail s)
   && (grown_capacity (size_ v) * sizeof_T <=? PTRDIFF_MAX))%N = true.
Proof.
  intros Hroom Hfull. destruct (Hroom Hfull) as [Ha Hm].
  apply andb_true_intro. split; by apply N.leb_le.
Qed.

Lemma PushBack_returns this v xs value s :
  nothing_throws →
  room_to_grow v s →
  objs s !! this = Some v →
  holds s v xs →
  ∃ s', PushBack this value s = Ok tt s' ∧ growth_rule this v s s'.
Proof.
  intros Hnt Hroom Hv Hh.
  pose proof (holds_bounds _ _ _ Hh) as (Hle & Hcap & Hsz).
  assert (size_ v ≤ PTRDIFF_MAX)%N as Hb by lia.
  enough (∃ s', PushBack this value s = Ok tt s') as [s' Hs'].
  { exists s'. split; [done|].
    exact (wlp_returns _ _ _ _ _ _ (PushBack_growth_rule _ _ value _ Hv Hb) Hs'). }
  pose proof (PushBack_outcome this v xs value s Hv Hh) as [_ H]. cbv zeta in H.
  pose proof (proj1 Hnt value (world s)) as Hcopy.
  destruct (size_ v =? Capacity v)%N eqn:Hfull.
  - apply N.eqb_eq in Hfull. rewrite (room_to_grow_test _ _ Hroom Hfull) in H.
    destruct (T_copy value (world s)) as [w1 [x|]]; [|done].
    pose proof (transfer_run_returns xs w1 Hnt) as Hrun.
    destruct (transfer_run transfer_step xs w1) as [[[w2 ys] xs'] ok].
    simpl in Hrun. subst ok. destruct H as (s' & H & _). by exists s'.
  - destruct (T_copy value (world s)) as [w1 [x|]]; [|done].
    destruct H as (s' & H & _). by exists s'.
Qed.

Lemma EmplaceBack_returns this v xs ctor s :
  nothing_throws →
  room_to_grow v s →
  (∀ w, (ctor w).2 ≠ None) →
  objs s !! this = Some v →
  holds s v xs →
  ∃ p s', EmplaceBack this ctor s = Ok p s' ∧ growth_rule this v s s'.
Proof.
  intros Hnt Hroom Hctor Hv Hh.
  pose proof (holds_bounds _ _ _ Hh) as (Hle & Hcap & Hsz).
  assert (size_ v ≤ PTRDIFF_MAX)%N as Hb by lia.
  enough (∃ p s', EmplaceBack this ctor s = Ok p s') as (p & s' & Hs').
  { exists p, s'. split; [done|].
    exact (wlp_returns _ _ _ _ _ _ (EmplaceBack_growth_rule _ _ ctor _ Hv Hb) Hs'). }
  pose proof (EmplaceBack_outcome this v xs ctor s Hv Hh) as H. cbv zeta in H.
  specialize (Hctor (world s)).
  destruct (size_ v =? Capacity v)%N eqn:Hfull.
  - apply N.eqb_eq in Hfull. rewrite (room_to_grow_test _ _ Hroom Hfull) in H.
    destruct (ctor (world s)) as [w1 [x|]]; [|done].
    pose proof (transfer_run_returns xs w1 Hnt) as Hrun.
    destruct (transfer_run transfer_step xs w1) as [[[w2 ys] xs'] ok].
    simpl in Hrun. subst ok. destruct H as (s' & H & _). by eexists _, s'.
  - destruct (ctor (world s)) as [w1 [x|]]; [|done].
    destruct H as (s' & H & _). by eexists _, s'.
Qed.

Lemma move_value_returns value : nothing_throws → ∀ w, (move_value value w).2 ≠ None.
Proof. intros (_ & Hmove & _) w. apply Hmove. Qed.

Lemma PushBack_rvalue_returns this v xs value s :
  nothing_throws →
  room_to_grow v s →
  objs s !! this = Some v →
  holds s v xs →
  ∃ s', PushBack_rvalue this value s = Ok tt s' ∧ growth_rule this v s s'.
Proof.
  intros Hnt Hroom Hv Hh.
  destruct (EmplaceBack_returns this v xs (move_value value) s Hnt Hroom
              (move_value_returns value Hnt) Hv Hh) as (p & s' & He & Hrule).
  exists s'. split; [|done].
  rewrite PushBack_rvalue_as_EmplaceBack. unfold mbind, M_bind. by rewrite He.
Qed.

Lemma Emplace_returns this v xs index ctor s :
  nothing_throws →
  room_to_grow v s →
  (∀ w, (ctor w).2 ≠ None) →
  objs s !! this = Some v →
  holds s v xs →
  index ≤ length xs →
  ∃ p s', Emplace this (ptr_add (Vector_begin v) (N.of_nat index)) ctor s = Ok p s'
          ∧ growth_rule this v s s'.
Proof.
  intros Hnt Hroom Hctor Hv Hh Hindex.
  pose proof (holds_bounds _ _ _ Hh) as (Hle & Hcap & Hsz).
  assert (size_ v ≤ PTRDIFF_MAX)%N as Hb by lia.
  destruct (decide (index = length xs)) as [->|Hne].
  { (* at the end *)
    replace (ptr_add (Vector_begin v) (N.of_nat (length xs))) with (Vector_end v)
      by (unfold Vector_end, Vector_begin, Size; by rewrite Hsz).
    rewrite (Emplace_at_end this v xs ctor s Hv Hh).
    by apply (EmplaceBack_returns this v xs). }
  enough (∃ p s', Emplace this (ptr_add (Vector_begin v) (N.of_nat index)) ctor s
                  = Ok p s') as (p & s' & Hs').
  { exists p, s'. split; [done|].
    exact (wlp_returns _ _ _ _ _ _ (Emplace_growth_rule _ _ _ ctor _ Hv Hb) Hs'). }
  assert (∃ pre y suf, xs = pre ++ y :: suf ∧ length pre = index)
    as (pre & y & suf & -> & Hpre).
  { destruct (drop index xs) as [|y suf] eqn:Hdrop.
    - apply (f_equal length) in Hdrop. rewrite length_drop in Hdrop. simpl in Hdrop. lia.
    - exists (take index xs), y, suf. split.
      + by rewrite <- Hdrop, take_drop.
      + rewrite length_take. lia. }
  subst index.
  destruct (decide (size_ v = Capacity v)) as [Hfull|Hfree].
  - pose proof (Emplace_growth_outcome this v pre y suf _ ctor s Hv Hh Hfull eq_refl) as H.
    cbv zeta in H. rewrite (room_to_grow_test _ _ Hroom Hfull) in H.
    pose proof (emplace_with_growth_spec_returns ctor pre (y :: suf) (world s) Hnt Hctor)
      as Hspec.
    destruct (emplace_with_growth_spec ctor pre (y :: suf) (world s)) as [w' [new|]];
      [|done].
    destruct H as (s' & H & _). by eexists _, s'.
  - destruct (exists_last (l:=y :: suf)) as (mid & last & Hlast); [done|].
    rewrite Hlast in Hh.
    pose proof (Emplace_in_place_outcome this v pre mid last _ ctor s Hv Hh Hfree eq_refl)
      as [_ H].
    pose proof (emplace_in_place_run_returns ctor mid last (world s) Hnt Hctor) as Hrun.
    destruct (emplace_in_place_run ctor mid last (world s)) as [[w' row] ok].
    simpl in Hrun. subst ok. destruct H as (s' & H & _). by eexists _, s'.
Qed.


(** ** [Insert] of an object of the free store into a full vector

    With no free slot the new element is constructed before anything is
    moved, so the object the reference is bound to is read as it is at the
    call. *)

Lemma copy_from_inside p x s :
  load p s = Ok x s → copy_from (Inside p) s = run_ctor (T_copy x) s.
Proof. intros Hp. unfold copy_from, mbind, M_bind. by rewrite Hp. Qed.

Lemma load_after_RawMemory_sized n p x s nd s1 :
  load p s = Ok x s → RawMemory_sized n s = Ok nd s1 → load p s1 = Ok x s1.
Proof.
  unfold RawMemory_sized, Allocate, mbind, M_bind, operator_new, mret, M_ret.
  intros Hp Hs. destruct (n =? 0)%N.
  { by injection Hs as <- <-. }
  destruct (_ && _); [|done]. injection Hs as <- <-.
  unfold load, cell_at, live_block in *. destruct p as [|b o]; [done|]. simpl in *.
  destruct (heap s !! b) as [B|] eqn:HB; [|done].
  rewrite (lookup_app_l_Some _ _ _ _ HB). simpl in *.
  destruct (released B); [done|]. simpl in *.
  destruct (cells B !! N.to_nat o) as [[y|]|]; try done.
  by injection Hp as <-.
Qed.

Lemma EmplaceBack_args_of_an_object_when_full this v p x s :
  objs s !! this = Some v →
  size_ v = Capacity v →
  load p s = Ok x s →
  EmplaceBack_args this (copy_from (Inside p)) s = EmplaceBack this (T_copy x) s.
Proof.
  intros Hv Hfull Hp. rewrite <- EmplaceBack_args_run_ctor.
  unfold EmplaceBack_args, mbind, M_bind.
  rewrite (get_vec_eq _ _ _ Hv), (proj2 (N.eqb_eq _ _) Hfull).
  destruct (RawMemory_sized (grown_capacity (size_ v)) s) as [nd s1|s1| |] eqn:Hs;
    try done.
  pose proof (load_after_RawMemory_sized _ _ _ _ _ _ Hp Hs) as Hp1.
  unfold scoped_RawMemory, on_throw, RawMemory_plus, assert, construct_at, mbind, M_bind.
  destruct (N.leb _ _); [|done]. unfold mret, M_ret. by rewrite (copy_from_inside _ _ _ Hp1).
Qed.

Lemma Insert_of_an_object_when_full this v pos p x s :
  objs s !! this = Some v →
  size_ v = Capacity v →
  load p s = Ok x s →
  Insert this pos (Inside p) s = Emplace this pos (T_copy x) s.
Proof.
  intros Hv Hfull Hp. rewrite <- Emplace_args_run_ctor.
  unfold Insert, Emplace_args, mbind, M_bind.
  rewrite (get_vec_eq _ _ _ Hv).
  destruct (ptr_distance (Vector_begin v) pos) as [offset|]; [|done].
  case_decide.
  - by rewrite (EmplaceBack_args_of_an_object_when_full this v p x s).
  - rewrite (proj2 (N.eqb_eq _ _) Hfull).
    destruct (RawMemory_sized (grown_capacity (size_ v)) s) as [nd s1|s1| |] eqn:Hs;
      try done.
    pose proof (load_after_RawMemory_sized _ _ _ _ _ _ Hp Hs) as Hp1.
    unfold scoped_RawMemory, on_throw, RawMemory_plus, assert, construct_at, mbind, M_bind.
    destruct (N.leb _ _); [|done]. unfold mret, M_ret.
    by rewrite (copy_from_inside _ _ _ Hp1).
Qed.

(** X25. [Insert(pos, const T& value)] into a vector whose length is equal
    to its capacity, with [value] bound to a live object of the free
    store, an element of the vector itself included: the outcome, whatever
    it is, is that of [Emplace] with a copy of that object as it is at the
    call, because the new element is constructed before anything is
    moved. *)
Theorem insert_into_a_full_vector_copies_first (this : nat) (v : Vector) pos p (x : T) s :
  objs s !! this = Some v →
  size_ v = Capacity v →
  load p s = Ok x s →
  Insert this pos (Inside p) s = Emplace this pos (T_copy x) s.
Proof. exact (Insert_of_an_object_when_full this v pos p x s). Qed.

End Reasoning.

(** * The code at work *)

Import Samples.

(** A concrete state holds a concrete row. *)
Ltac holds_here :=
  unfold holds; repeat split; try reflexivity; try (vm_compute; discriminate).

(** Reading off the case of an outcome that the concrete input selects. *)
Ltac settle H :=
  repeat match type of H with
         | if ?c then _ else _ =>
             let c' := eval vm_compute in c in change c with c' in H; cbv beta iota in H
         | match ?c with _ => _ end =>
             let c' := eval vm_compute in c in change c with c' in H; cbv beta iota in H
         end.

(** ** [Vector<int>] *)

Section OnInt.
#[local] Existing Instance int_element.

(** The boundary checks on a vector of two elements in two slots. *)
Lemma boundary_checks_witness :
  let s := one_vector tt [1; 2] 2 100 in
  let v := mkVector (mkRawMemory (Addr 0 0) 2) 2 in
  objs s !! 0 = Some v
  ∧ Vector_index 0 2 s = Abort
  ∧ RawMemory_plus (data_ v) 3 s = Abort
  ∧ ∃ s', PopBack 0 s = Ok tt s' ∧ holds s' (mkVector (data_ v) 1) [1].
Proof.
  intros s v.
  assert (Hv : objs s !! 0 = Some v) by reflexivity.
  destruct (boundary_checks 0 v s Hv) as (Hi & Ho & _ & Hp).
  split; [exact Hv|].
  split; [apply Hi; vm_compute; discriminate|].
  split; [apply Ho; reflexivity|].
  destruct (Hp [1] 2) as (s' & E & _ & _ & _ & Hh & _); [holds_here|].
  exists s'. split; [exact E | exact Hh].
Defined.

(** [PopBack] on a vector that has just been default-constructed: no
    assertion stops it. *)
Lemma pop_back_on_empty_is_not_checked :
  let s := mkState tt [] 100 {[ 0 := mkVector (mkRawMemory Null 0) 0 ]} in
  Vector_default_ctor 0 (start tt 100) = Ok tt s
  ∧ holds s (mkVector (mkRawMemory Null 0) 0) []
  ∧ PopBack 0 s = Undef
  ∧ PopBack 0 s ≠ Abort.
Proof.
  intros s. split; [reflexivity|]. split; [holds_here|].
  split; [reflexivity | discriminate].
Defined.

(** Moving a vector of one element over a vector of two. *)
Lemma move_transfers_the_buffer_witness :
  let s := two_vectors tt [1; 2] 2 [3] 1 100 in
  let a := mkVector (mkRawMemory (Addr 1 0) 1) 1 in
  0 ≠ 1
  ∧ objs s !! 1 = Some a
  ∧ ∃ s', Vector_move_assign 0 1 s = Ok tt s'
          ∧ heap s' = heap s
          ∧ objs s' !! 0 = Some a
          ∧ objs s' !! 1 = Some (mkVector (mkRawMemory Null 0) 0)
          ∧ holds s' a [3].
Proof.
  intros s a.
  assert (Hne : 0 ≠ 1) by discriminate.
  assert (Ha : objs s !! 1 = Some a) by reflexivity.
  destruct (move_transfers_the_buffer 0 1 a s Hne Ha) as [_ Hm].
  destruct (Hm (mkVector (mkRawMemory (Addr 0 0) 2) 2) eq_refl)
    as (s' & E & _ & Hh & _ & Ht & Ho & Hk).
  split; [exact Hne|]. split; [exact Ha|].
  exists s'. split; [exact E|]. split; [exact Hh|].
  split; [exact Ht|]. split; [exact Ho|].
  apply Hk; holds_here.
Defined.

(** Erasing the middle one of three elements. *)
Lemma erase_removes_one_witness :
  let s := one_vector tt [1; 2; 3] 4 100 in
  let v := mkVector (mkRawMemory (Addr 0 0) 4) 3 in
  objs s !! 0 = Some v
  ∧ holds s v ([1] ++ 2 :: [3])
  ∧ ∃ s', Erase 0 (Addr 0 1) s = Ok (Addr 0 1) s'
          ∧ holds s' (mkVector (data_ v) 2) ([1] ++ [3]).
Proof.
  intros s v.
  assert (Hv : objs s !! 0 = Some v) by reflexivity.
  assert (Hh : holds s v ([1] ++ 2 :: [3])) by holds_here.
  destruct (erase_removes_one 0 v [1] 2 [3] (Addr 0 1) s Hv Hh eq_refl) as [_ H].
  match type of H with
  | match ?c with _ => _ end => change c with (tt, [3] ++ [3], true) in H
  end.
  cbv beta iota in H.
  destruct H as (ys & z & Hl & s' & E & _ & _ & _ & Hk & _).
  apply app_inj_tail in Hl as [<- _].
  split; [exact Hv|]. split; [exact Hh|].
  exists s'. split; [exact E | exact Hk].
Defined.


(** Copy assignment of three elements to a vector of two slots: a new
    block is built and swapped in. *)
Lemma copy_assignment_witness :
  let s := two_vectors tt [1; 2] 2 [7; 8; 9] 3 100 in
  let t := mkVector (mkRawMemory (Addr 0 0) 2) 2 in
  let r := mkVector (mkRawMemory (Addr 1 0) 3) 3 in
  let t' := mkVector (mkRawMemory (Addr 2 0) 3) 3 in
  0 ≠ 1
  ∧ objs s !! 0 = Some t
  ∧ objs s !! 1 = Some r
  ∧ holds s t [1; 2]
  ∧ holds s r [7; 8; 9]
  ∧ (∀ b, buffer_ (data_ t) = Addr b 0 → buffer_ (data_ r) ≠ Addr b 0)
  ∧ ∃ s', Vector_copy_assign 0 1 s = Ok tt s'
          ∧ objs s' = <[0 := t']> (objs s)
          ∧ holds s' t' [7; 8; 9]
          ∧ holds s' r [7; 8; 9].
Proof.
  intros s t r t'.
  assert (Hne : 0 ≠ 1) by discriminate.
  assert (Ht : objs s !! 0 = Some t) by reflexivity.
  assert (Hr : objs s !! 1 = Some r) by reflexivity.
  assert (Hd : holds s t [1; 2]) by holds_here.
  assert (Hs : holds s r [7; 8; 9]) by holds_here.
  assert (Hb : ∀ b, buffer_ (data_ t) = Addr b 0 → buffer_ (data_ r) ≠ Addr b 0)
    by (intros b [= <-]; discriminate).
  pose proof (copy_assignment 0 1 t r [1; 2] [7; 8; 9] s Hne Ht Hr Hd Hs Hb) as H.
  cbv zeta in H. destruct H as [_ H].
  match type of H with
  | if ?c then _ else _ => change c with false in H
  end.
  cbv beta iota in H.
  match type of H with
  | match ?c with _ => _ end => change c with (tt, Some [7; 8; 9]) in H
  end.
  cbv beta iota in H.
  destruct H as (s' & E & _ & Ho & Hk & _ & Hk' & _).
  do 6 (split; [assumption|]).
  exists s'. split; [exact E|]. split; [exact Ho|]. split; [exact Hk | exact Hk'].
Defined.

(** C2. A block is held by one [RawMemory] at a time and released by its
    destructor; but the move assignment of [RawMemory] overwrites the
    buffer it holds without releasing it.  [EmplaceBack], [PushBack(T&&)]
    and [Emplace] install the grown buffer with it, and so does the move
    assignment of [Vector]: the block that is replaced is never released.
    Here a vector grows from one slot to two through [EmplaceBack] and is
    destroyed: no object is left, block [0] is still allocated.  A vector
    of one element is move-assigned over and both vectors are destroyed:
    block [0] is still allocated, with its element alive in it.  The same
    growth through [PushBack(const T&)], which swaps the buffers, releases
    every block. *)
Theorem replaced_buffer_is_never_released :
  (∃ s', run emplacing_program (start tt 1000) = Some s'
         ∧ objs s' = ∅
         ∧ heap s' !! 0 = Some (mkBlock [None] false)
         ∧ ¬ all_released s')
  ∧ (∃ s', run move_assigning_program (start tt 1000) = Some s'
           ∧ objs s' = ∅
           ∧ heap s' !! 0 = Some (mkBlock [Some 0] false)
           ∧ ¬ all_released s')
  ∧ (∃ s', run pushing_program (start tt 1000) = Some s'
           ∧ objs s' = ∅
           ∧ all_released s').
Proof.
  split; [|split].
  - eexists. split; [vm_compute; reflexivity|].
    split; [reflexivity|]. split; [reflexivity|].
    intros Hall. apply Forall_cons_1 in Hall as [Hall _]. discriminate Hall.
  - eexists. split; [vm_compute; reflexivity|].
    split; [reflexivity|]. split; [reflexivity|].
    intros Hall. apply Forall_cons_1 in Hall as [Hall _]. discriminate Hall.
  - eexists. split; [vm_compute; reflexivity|].
    split; [reflexivity|]. repeat constructor.
Qed.

(** Two vectors exchange their buffers, and exchange them back. *)
Lemma swap_exchanges_witness :
  let s := two_vectors tt [1; 2] 2 [3] 1 100 in
  let t := mkVector (mkRawMemory (Addr 0 0) 2) 2 in
  let o := mkVector (mkRawMemory (Addr 1 0) 1) 1 in
  objs s !! 0 = Some t
  ∧ objs s !! 1 = Some o
  ∧ ∃ s', Swap 0 1 s = Ok tt s'
          ∧ heap s' = heap s
          ∧ objs s' !! 0 = Some o
          ∧ objs s' !! 1 = Some t
          ∧ Swap 0 1 s' = Ok tt s.
Proof.
  intros s t o.
  assert (Ht : objs s !! 0 = Some t) by reflexivity.
  assert (Ho : objs s !! 1 = Some o) by reflexivity.
  destruct (swap_exchanges 0 1 t o s Ht Ho) as (s' & E & _ & Hh & _ & H0 & H1 & _ & Hback).
  split; [exact Ht|]. split; [exact Ho|].
  exists s'. split; [exact E|]. split; [exact Hh|]. split; [exact H0|].
  split; [exact H1 | exact Hback].
Defined.

(** A vector of two elements is move-assigned to itself. *)
Lemma self_move_assignment_is_a_no_op_witness :
  let s := one_vector tt [1; 2] 2 100 in
  objs s !! 0 = Some (mkVector (mkRawMemory (Addr 0 0) 2) 2)
  ∧ Vector_move_assign 0 0 s = Ok tt s.
Proof.
  intros s.
  assert (Hv : objs s !! 0 = Some (mkVector (mkRawMemory (Addr 0 0) 2) 2)) by reflexivity.
  split; [exact Hv|]. exact (self_move_assignment_is_a_no_op 0 _ s Hv).
Defined.

(** A vector of two elements is moved to a new vector and destroyed. *)
Lemma moved_from_vector_owns_nothing_witness :
  let s := one_vector tt [1; 2] 2 100 in
  let a := mkVector (mkRawMemory (Addr 0 0) 2) 2 in
  1 ≠ 0
  ∧ objs s !! 0 = Some a
  ∧ ∃ s1 s2, Vector_move_ctor 1 0 s = Ok tt s1
             ∧ Vector_dtor 0 s1 = Ok tt s2
             ∧ heap s2 = heap s
             ∧ objs s2 !! 1 = Some a
             ∧ objs s2 !! 0 = None.
Proof.
  intros s a.
  assert (Hne : 1 ≠ 0) by discriminate.
  assert (Ha : objs s !! 0 = Some a) by reflexivity.
  destruct (moved_from_vector_owns_nothing 1 0 a s Hne Ha)
    as (s1 & s2 & E1 & E2 & _ & Hh & _ & H1 & H0).
  split; [exact Hne|]. split; [exact Ha|].
  exists s1, s2. split; [exact E1|]. split; [exact E2|]. split; [exact Hh|].
  split; [exact H1 | exact H0].
Defined.

(** The element of index 1 of a vector of three. *)
Lemma index_addresses_the_element_witness :
  let s := one_vector tt [5; 6; 7] 4 100 in
  let v := mkVector (mkRawMemory (Addr 0 0) 4) 3 in
  objs s !! 0 = Some v
  ∧ holds s v [5; 6; 7]
  ∧ [5; 6; 7] !! N.to_nat 1 = Some 6
  ∧ Vector_index 0 1 s = Ok (Addr 0 1) s
  ∧ load (Addr 0 1) s = Ok 6 s.
Proof.
  intros s v.
  assert (Hv : objs s !! 0 = Some v) by reflexivity.
  assert (Hh : holds s v [5; 6; 7]) by holds_here.
  assert (Hx : [5; 6; 7] !! N.to_nat 1 = Some 6) by reflexivity.
  destruct (index_addresses_the_element 0 v [5; 6; 7] 1 6 s Hv Hh Hx) as [Hi Hl].
  split; [exact Hv|]. split; [exact Hh|]. split; [exact Hx|].
  split; [exact Hi | exact Hl].
Defined.

(** A vector of two elements in two slots is destroyed. *)
Lemma destructor_releases_witness :
  let s := one_vector tt [1; 2] 2 100 in
  let v := mkVector (mkRawMemory (Addr 0 0) 2) 2 in
  objs s !! 0 = Some v
  ∧ holds s v [1; 2]
  ∧ ∃ s', Vector_dtor 0 s = Ok tt s'
          ∧ objs s' = delete 0 (objs s)
          ∧ avail s' = 108%N
          ∧ heap s' !! 0 = Some (mkBlock [None; None] true).
Proof.
  intros s v.
  assert (Hv : objs s !! 0 = Some v) by reflexivity.
  assert (Hh : holds s v [1; 2]) by holds_here.
  destruct (destructor_releases 0 v [1; 2] s Hv Hh) as (s' & E & _ & Ho & Ha & _ & Hb & _).
  split; [exact Hv|]. split; [exact Hh|].
  exists s'. split; [exact E|]. split; [exact Ho|]. split; [exact Ha|].
  exact (Hb 0 eq_refl).
Defined.

(** A [RawMemory<int>] of three slots, from a free store of 100 bytes. *)
Lemma raw_memory_allocates_and_releases_witness :
  let s : State nat unit := start tt 100 in
  let m := mkRawMemory (Addr 0 0) 3 in
  3%N ≠ 0%N
  ∧ (3 * sizeof_T ≤ PTRDIFF_MAX)%N
  ∧ ∃ s1, RawMemory_sized 3 s = Ok m s1
          ∧ avail s1 = 88%N
          ∧ RawMemory_plus m 3 s1 = Ok (Addr 0 3) s1
          ∧ RawMemory_index m 3 s1 = Abort
          ∧ ∃ s2, RawMemory_dtor m s1 = Ok tt s2
                  ∧ avail s2 = 100%N
                  ∧ RawMemory_dtor m s2 = Undef.
Proof.
  intros s m.
  assert (Hn : 3%N ≠ 0%N) by discriminate.
  assert (Hf : (3 * sizeof_T ≤ PTRDIFF_MAX)%N) by (vm_compute; discriminate).
  destruct (raw_memory_allocates_and_releases 3 s Hn Hf) as [_ H].
  settle H.
  destruct H as (s1 & E & _ & _ & Ha & _ & Hp & Hi & s2 & E2 & Ha2 & _ & Hd).
  split; [exact Hn|]. split; [exact Hf|].
  exists s1. split; [exact E|]. split; [exact Ha|]. split; [exact Hp|].
  split; [exact Hi|]. exists s2. split; [exact E2|]. split; [exact Ha2 | exact Hd].
Defined.

(** [Vector<int>(2)]: two zeros. *)
Lemma sized_constructor_witness :
  let s : State nat unit := start tt 100 in
  let v := mkVector (mkRawMemory (Addr 0 0) 2) 2 in
  (2 * sizeof_T < SIZE_MOD)%N
  ∧ ∃ s', Vector_sized_ctor 0 2 s = Ok tt s'
          ∧ objs s' = <[0 := v]> (objs s)
          ∧ holds s' v [0; 0].
Proof.
  intros s v.
  assert (Hs : (2 * sizeof_T < SIZE_MOD)%N) by reflexivity.
  pose proof (sized_constructor 0 2 s Hs) as H. cbv zeta in H.
  settle H.
  destruct H as (s' & E & _ & Ho & _ & Hh & _).
  split; [exact Hs|]. exists s'. split; [exact E|]. split; [exact Ho | exact Hh].
Defined.

(** A copy of a vector of two elements in four slots has two slots. *)
Lemma copy_constructor_witness :
  let s := one_vector tt [1; 2] 4 100 in
  let r := mkVector (mkRawMemory (Addr 0 0) 4) 2 in
  let v := mkVector (mkRawMemory (Addr 1 0) 2) 2 in
  objs s !! 0 = Some r
  ∧ holds s r [1; 2]
  ∧ ∃ s', Vector_copy_ctor 1 0 s = Ok tt s'
          ∧ objs s' = <[1 := v]> (objs s)
          ∧ holds s' v [1; 2]
          ∧ holds s' r [1; 2].
Proof.
  intros s r v.
  assert (Hr : objs s !! 0 = Some r) by reflexivity.
  assert (Hh : holds s r [1; 2]) by holds_here.
  pose proof (copy_constructor 1 0 r [1; 2] s Hr Hh) as H. cbv zeta in H.
  destruct H as [_ H]. settle H.
  destruct H as (s' & E & _ & Ho & _ & Hv & Hk & _).
  split; [exact Hr|]. split; [exact Hh|].
  exists s'. split; [exact E|]. split; [exact Ho|]. split; [exact Hv | exact Hk].
Defined.

(** [Reserve(5)] on a full vector of two. *)
Lemma reserve_moves_to_a_larger_block_witness :
  let s := one_vector tt [1; 2] 2 100 in
  let v := mkVector (mkRawMemory (Addr 0 0) 2) 2 in
  let v' := mkVector (mkRawMemory (Addr 1 0) 5) 2 in
  objs s !! 0 = Some v
  ∧ holds s v [1; 2]
  ∧ (5 * sizeof_T < SIZE_MOD)%N
  ∧ ∃ s', Reserve 0 5 s = Ok tt s'
          ∧ objs s' = <[0 := v']> (objs s)
          ∧ holds s' v' [1; 2]
          ∧ heap s' !! 0 = Some (mkBlock [None; None] true).
Proof.
  intros s v v'.
  assert (Hv : objs s !! 0 = Some v) by reflexivity.
  assert (Hh : holds s v [1; 2]) by holds_here.
  assert (Hs : (5 * sizeof_T < SIZE_MOD)%N) by reflexivity.
  pose proof (reserve_moves_to_a_larger_block 0 v [1; 2] 5 s Hv Hh Hs) as H.
  cbv zeta in H. destruct H as [_ H]. settle H.
  destruct H as (s' & E & _ & Ho & _ & Hk & _ & Hb & _).
  split; [exact Hv|]. split; [exact Hh|]. split; [exact Hs|].
  exists s'. split; [exact E|]. split; [exact Ho|]. split; [exact Hk|].
  exact (Hb 0 eq_refl).
Defined.

(** [PushBack(3)] on a full vector of two. *)
Lemma push_back_appends_witness :
  let s := one_vector tt [1; 2] 2 100 in
  let v := mkVector (mkRawMemory (Addr 0 0) 2) 2 in
  let v' := mkVector (mkRawMemory (Addr 1 0) 4) 3 in
  objs s !! 0 = Some v
  ∧ holds s v [1; 2]
  ∧ ∃ s', PushBack 0 3 s = Ok tt s'
          ∧ objs s' = <[0 := v']> (objs s)
          ∧ holds s' v' ([1; 2] ++ [3])
          ∧ heap s' !! 0 = Some (mkBlock [None; None] true).
Proof.
  intros s v v'.
  assert (Hv : objs s !! 0 = Some v) by reflexivity.
  assert (Hh : holds s v [1; 2]) by holds_here.
  pose proof (push_back_appends 0 v [1; 2] 3 s Hv Hh) as H.
  cbv zeta in H. destruct H as [_ H]. settle H.
  destruct H as (s' & E & _ & Ho & _ & Hk & _ & Hb & _).
  split; [exact Hv|]. split; [exact Hh|].
  exists s'. split; [exact E|]. split; [exact Ho|]. split; [exact Hk|].
  exact (Hb 0 eq_refl).
Defined.

(** [EmplaceBack(3)] on a vector of two elements in four slots. *)
Lemma emplace_back_appends_witness :
  let s := one_vector tt [1; 2] 4 100 in
  let v := mkVector (mkRawMemory (Addr 0 0) 4) 2 in
  let u := mkVector (mkRawMemory (Addr 0 0) 4) 3 in
  objs s !! 0 = Some v
  ∧ holds s v [1; 2]
  ∧ ∃ s', EmplaceBack 0 (λ w, (w, Some 3)) s = Ok (Addr 0 2) s'
          ∧ load (Addr 0 2) s' = Ok 3 s'
          ∧ objs s' = <[0 := u]> (objs s)
          ∧ holds s' u ([1; 2] ++ [3]).
Proof.
  intros s v u.
  assert (Hv : objs s !! 0 = Some v) by reflexivity.
  assert (Hh : holds s v [1; 2]) by holds_here.
  pose proof (emplace_back_appends 0 v [1; 2] (λ w, (w, Some 3)) s Hv Hh) as H.
  cbv zeta in H. settle H.
  destruct H as (s' & E & Hl & _ & Ho & _ & Hk & _).
  split; [exact Hv|]. split; [exact Hh|].
  exists s'. split; [exact E|]. split; [exact Hl|]. split; [exact Ho | exact Hk].
Defined.

(** [PushBack(3)] into a free slot, then [PopBack]. *)
Lemma push_back_then_pop_back_witness :
  let s := one_vector tt [1; 2] 4 100 in
  let v := mkVector (mkRawMemory (Addr 0 0) 4) 2 in
  objs s !! 0 = Some v
  ∧ holds s v [1; 2]
  ∧ size_ v ≠ Capacity v
  ∧ ∃ s1, PushBack 0 3 s = Ok tt s1 ∧ PopBack 0 s1 = Ok tt s.
Proof.
  intros s v.
  assert (Hv : objs s !! 0 = Some v) by reflexivity.
  assert (Hh : holds s v [1; 2]) by holds_here.
  assert (Hf : size_ v ≠ Capacity v) by discriminate.
  destruct (push_back_then_pop_back 0 v [1; 2] 3 3 tt s Hv Hh Hf eq_refl)
    as (s1 & E1 & E2).
  split; [exact Hv|]. split; [exact Hh|]. split; [exact Hf|].
  exists s1. split; [exact E1 | exact E2].
Defined.

(** [Resize(1)] on a vector of three, and [Resize(4)] on it. *)
Lemma resize_within_capacity_witness :
  let s := one_vector tt [1; 2; 3] 4 100 in
  let v := mkVector (mkRawMemory (Addr 0 0) 4) 3 in
  objs s !! 0 = Some v
  ∧ holds s v [1; 2; 3]
  ∧ (∃ s', Resize 0 1 s = Ok tt s'
           ∧ holds s' (mkVector (mkRawMemory (Addr 0 0) 4) 1) [1])
  ∧ (∃ s', Resize 0 4 s = Ok tt s'
           ∧ holds s' (mkVector (mkRawMemory (Addr 0 0) 4) 4) ([1; 2; 3] ++ [0])).
Proof.
  intros s v.
  assert (Hv : objs s !! 0 = Some v) by reflexivity.
  assert (Hh : holds s v [1; 2; 3]) by holds_here.
  assert (H1 : (1 ≤ capacity_ (data_ v))%N) by (vm_compute; discriminate).
  assert (H4 : (4 ≤ capacity_ (data_ v))%N) by (vm_compute; discriminate).
  pose proof (resize_within_capacity 0 v [1; 2; 3] 1 s Hv Hh H1) as Hshrink.
  pose proof (resize_within_capacity 0 v [1; 2; 3] 4 s Hv Hh H4) as Hgrow.
  cbv zeta in Hshrink, Hgrow. settle Hshrink. settle Hgrow.
  destruct Hshrink as (s1 & E1 & _ & _ & _ & Hk1 & _).
  destruct Hgrow as (s2 & E2 & _ & _ & _ & Hk2 & _).
  split; [exact Hv|]. split; [exact Hh|]. split.
  - exists s1. split; [exact E1 | exact Hk1].
  - exists s2. split; [exact E2 | exact Hk2].
Defined.

(** [Insert] of the value 9, no element of the vector, before the second
    of three elements, with a free slot. *)
Lemma emplace_in_place_witness :
  let s := one_vector tt [1; 2; 3] 4 100 in
  let v := mkVector (mkRawMemory (Addr 0 0) 4) 3 in
  let u := mkVector (mkRawMemory (Addr 0 0) 4) 4 in
  objs s !! 0 = Some v
  ∧ holds s v ([1] ++ [2] ++ [3])
  ∧ size_ v ≠ Capacity v
  ∧ ∃ s', Insert 0 (Addr 0 1) (Outside 9) s = Ok (Addr 0 1) s'
          ∧ objs s' = <[0 := u]> (objs s)
          ∧ holds s' u ([1] ++ [9; 2; 3]).
Proof.
  intros s v u.
  assert (Hv : objs s !! 0 = Some v) by reflexivity.
  assert (Hh : holds s v ([1] ++ [2] ++ [3])) by holds_here.
  assert (Hf : size_ v ≠ Capacity v) by discriminate.
  pose proof (emplace_in_place 0 v [1] [2] 3 (Addr 0 1) (T_copy 9) s Hv Hh Hf eq_refl) as H.
  cbv zeta in H. destruct H as [_ H]. settle H.
  destruct H as (s' & E & _ & Ho & _ & Hk & _).
  split; [exact Hv|]. split; [exact Hh|]. split; [exact Hf|].
  exists s'. split; [exact E|]. split; [exact Ho | exact Hk].
Defined.

(** X26. [Insert] does not always insert the value its argument has at
    the call.  It takes the argument by reference, and with a free slot
    the reference is read after the elements have been moved up: inserting
    the second element of [1, 2, 3], which is 2, at the front gives
    [1, 1, 2, 3]. *)
Theorem insert_of_an_element_in_place :
  let s := one_vector tt [1; 2; 3] 4 100 in
  let u := mkVector (mkRawMemory (Addr 0 0) 4) 4 in
  load (Addr 0 1) s = Ok 2 s
  ∧ ∃ s', Insert 0 (Addr 0 0) (Inside (Addr 0 1)) s = Ok (Addr 0 0) s'
          ∧ holds s' u [1; 1; 2; 3].
Proof.
  intros s u. split; [reflexivity|].
  exists (state_after (Insert 0 (Addr 0 0) (Inside (Addr 0 1)) s) s).
  split; [vm_compute; reflexivity | holds_here].
Qed.

(** [Emplace] at [end()] of a vector of two elements in four slots. *)
Lemma emplace_at_end_is_emplace_back_witness :
  let s := one_vector tt [1; 2] 4 100 in
  let v := mkVector (mkRawMemory (Addr 0 0) 4) 2 in
  objs s !! 0 = Some v
  ∧ holds s v [1; 2]
  ∧ Emplace 0 (Addr 0 2) (λ w, (w, Some 3)) s = EmplaceBack 0 (λ w, (w, Some 3)) s.
Proof.
  intros s v.
  assert (Hv : objs s !! 0 = Some v) by reflexivity.
  assert (Hh : holds s v [1; 2]) by holds_here.
  split; [exact Hv|]. split; [exact Hh|].
  exact (emplace_at_end_is_emplace_back 0 v [1; 2] (λ w, (w, Some 3)) s Hv Hh).
Defined.

(** A vector of two is copied; the original is destroyed. *)
Lemma copy_is_independent_witness :
  let s := one_vector tt [1; 2] 4 100 in
  let r := mkVector (mkRawMemory (Addr 0 0) 4) 2 in
  let v := mkVector (mkRawMemory (Addr 1 0) 2) 2 in
  1 ≠ 0
  ∧ objs s !! 0 = Some r
  ∧ holds s r [1; 2]
  ∧ (size_ r * sizeof_T ≤ avail s)%N
  ∧ transfer_run via_copy [1; 2] (world s) = (tt, [1; 2], [1; 2], true)
  ∧ ∃ s1, Vector_copy_ctor 1 0 s = Ok tt s1
          ∧ ∃ s2, Vector_dtor 0 s1 = Ok tt s2
                  ∧ objs s2 !! 1 = Some v
                  ∧ objs s2 !! 0 = None
                  ∧ holds s2 v [1; 2].
Proof.
  intros s r v.
  assert (Hne : 1 ≠ 0) by discriminate.
  assert (Hr : objs s !! 0 = Some r) by reflexivity.
  assert (Hh : holds s r [1; 2]) by holds_here.
  assert (Ha : (size_ r * sizeof_T ≤ avail s)%N) by (vm_compute; discriminate).
  assert (Ht : transfer_run via_copy [1; 2] (world s) = (tt, [1; 2], [1; 2], true))
    by reflexivity.
  destruct (copy_is_independent 1 0 r [1; 2] tt [1; 2] [1; 2] s Hne Hr Hh Ha Ht)
    as (s1 & E1 & s2 & E2 & _ & H1 & H0 & Hk).
  do 5 (split; [assumption|]).
  exists s1. split; [exact E1|]. exists s2. split; [exact E2|].
  split; [exact H1|]. split; [exact H0 | exact Hk].
Defined.

(** [Resize(4)] on a full vector of two. *)
Lemma resize_beyond_capacity_witness :
  let s := one_vector tt [1; 2] 2 100 in
  let v := mkVector (mkRawMemory (Addr 0 0) 2) 2 in
  let full := mkVector (mkRawMemory (Addr 1 0) 4) 4 in
  objs s !! 0 = Some v
  ∧ holds s v [1; 2]
  ∧ (4 * sizeof_T < SIZE_MOD)%N
  ∧ (capacity_ (data_ v) < 4)%N
  ∧ ∃ s', Resize 0 4 s = Ok tt s'
          ∧ objs s' = <[0 := full]> (objs s)
          ∧ holds s' full ([1; 2] ++ [0; 0]).
Proof.
  intros s v full.
  assert (Hv : objs s !! 0 = Some v) by reflexivity.
  assert (Hh : holds s v [1; 2]) by holds_here.
  assert (Hs : (4 * sizeof_T < SIZE_MOD)%N) by reflexivity.
  assert (Hn : (capacity_ (data_ v) < 4)%N) by reflexivity.
  pose proof (resize_beyond_capacity 0 v [1; 2] 4 s Hv Hh Hs Hn) as H.
  cbv zeta in H. settle H.
  destruct H as (s' & E & _ & Ho & Hk & _).
  do 4 (split; [assumption|]).
  exists s'. split; [exact E|]. split; [exact Ho | exact Hk].
Defined.

(** [Reserve(5)] on a vector of two, and what it leaves. *)
Lemma calls_keep_the_vectors_valid_witness :
  let s := one_vector tt [1; 2] 2 100 in
  let c := CallReserve 0 5 in
  well_formed s ∧ request_fits c ∧ ∃ s', exec c s = Ok tt s' ∧ well_formed s'.
Proof.
  intros s c.
  assert (Hwf : well_formed s).
  { apply (well_formed_single s 0 (mkVector (mkRawMemory (Addr 0 0) 2) 2) [1; 2]);
      [reflexivity|holds_here]. }
  assert (Hfit : request_fits c) by reflexivity.
  pose proof (calls_keep_the_vectors_valid c s Hwf Hfit) as H.
  split; [exact Hwf|]. split; [exact Hfit|].
  destruct (exec c s) as [[] s'|s'| |] eqn:E; [|by vm_compute in E..].
  exists s'. split; [reflexivity|exact H].
Defined.

(** Pushing, then move assignment between two vectors, from a start
    without vectors. *)
Lemma programs_keep_the_vectors_valid_witness :
  let s := start tt 100 in
  let prog := pushing_program ++ move_assigning_program in
  well_formed s
  ∧ Forall (λ c, request_fits c ∧ inserts_at_position c = false) prog
  ∧ ∃ s', run prog s = Some s' ∧ well_formed s'.
Proof.
  intros s prog.
  assert (Hwf : well_formed s) by (by apply well_formed_empty).
  assert (Hp : Forall (λ c, request_fits c ∧ inserts_at_position c = false) prog).
  { repeat constructor. }
  split; [exact Hwf|]. split; [exact Hp|].
  destruct (run prog s) as [s'|] eqn:E; [|by vm_compute in E].
  exists s'. split; [reflexivity|].
  exact (programs_keep_the_vectors_valid prog s s' Hwf Hp E).
Defined.

(** [Reserve(2^62 + 1)] on a [Vector<int>] of one element: four bytes are
    asked for, and the next [PushBack] writes past the block. *)
Lemma reserve_request_wraps_around_witness :
  let s := one_vector tt [7] 1 100 in
  let v := mkVector (mkRawMemory (Addr 0 0) 1) 1 in
  let n := (2 ^ 62 + 1)%N in
  objs s !! 0 = Some v
  ∧ holds s v [7]
  ∧ (capacity_ (data_ v) < n)%N
  ∧ (n < SIZE_MOD)%N
  ∧ (SIZE_MOD ≤ n * sizeof_T)%N
  ∧ (size_mul n sizeof_T ≤ avail s)%N
  ∧ (size_mul n sizeof_T ≤ PTRDIFF_MAX)%N
  ∧ (size_ v ≤ size_mul n sizeof_T / sizeof_T)%N
  ∧ ∃ s', Reserve 0 n s = Ok tt s'
          ∧ objs s' !! 0 = Some (mkVector (mkRawMemory (Addr 1 0) n) 1)
          ∧ heap s' !! 1 = Some (mkBlock [Some 7] false)
          ∧ PushBack 0 8 s' = Undef.
Proof.
  intros s v n.
  assert (Hv : objs s !! 0 = Some v) by reflexivity.
  assert (Hh : holds s v [7]) by holds_here.
  assert (Hn : (capacity_ (data_ v) < n)%N) by reflexivity.
  assert (Hs : (n < SIZE_MOD)%N) by reflexivity.
  assert (Hw : (SIZE_MOD ≤ n * sizeof_T)%N) by (vm_compute; discriminate).
  assert (Ha : (size_mul n sizeof_T ≤ avail s)%N) by (vm_compute; discriminate).
  assert (Hm : (size_mul n sizeof_T ≤ PTRDIFF_MAX)%N) by (vm_compute; discriminate).
  assert (Hr : (size_ v ≤ size_mul n sizeof_T / sizeof_T)%N) by (vm_compute; discriminate).
  pose proof (reserve_request_wraps_around 0 v [7] n s Hv Hh Hn Hs Hw Ha Hm Hr) as H.
  cbv zeta in H. destruct H as [_ H]. settle H.
  destruct H as (s' & E & Ho & Hb & _).
  do 8 (split; [assumption|]).
  exists s'. split; [exact E|]. split; [by rewrite Ho|]. split; [exact Hb|].
  vm_compute in E. injection E as <-. reflexivity.
Defined.

(** [Erase(end())] on a vector of two. *)
Lemma erase_at_or_past_the_end_is_undefined_witness :
  let s := one_vector tt [1; 2] 4 100 in
  let v := mkVector (mkRawMemory (Addr 0 0) 4) 2 in
  objs s !! 0 = Some v
  ∧ holds s v [1; 2]
  ∧ (size_ v ≤ 2)%N
  ∧ Vector_end v = ptr_add (Vector_begin v) 2
  ∧ Erase 0 (Vector_end v) s = Undef.
Proof.
  intros s v.
  assert (Hv : objs s !! 0 = Some v) by reflexivity.
  assert (Hh : holds s v [1; 2]) by holds_here.
  assert (Hi : (size_ v ≤ 2)%N) by reflexivity.
  split; [exact Hv|]. split; [exact Hh|]. split; [exact Hi|]. split; [reflexivity|].
  exact (erase_at_or_past_the_end_is_undefined 0 v [1; 2] 2 s Hv Hh Hi).
Defined.

(** [Reserve(5)] on a vector of two: the old block is released. *)
Lemma calls_lose_no_block_witness :
  let s := one_vector tt [1; 2] 2 100 in
  let c := CallReserve 0 5 in
  well_formed s ∧ no_leak s ∧ request_fits c ∧ move_assigns_a_buffer c = false
  ∧ ∃ s', exec c s = Ok tt s' ∧ no_leak s'
          ∧ heap s' !! 0 = Some (mkBlock [None; None] true).
Proof.
  intros s c.
  assert (Hwf : well_formed s).
  { apply (well_formed_single s 0 (mkVector (mkRawMemory (Addr 0 0) 2) 2) [1; 2]);
      [reflexivity|holds_here]. }
  assert (Hnl : no_leak s).
  { intros [|b] B HB _; [|done].
    by exists 0, (mkVector (mkRawMemory (Addr 0 0) 2) 2). }
  assert (Hfit : request_fits c) by reflexivity.
  assert (Hc : move_assigns_a_buffer c = false) by reflexivity.
  pose proof (calls_lose_no_block c s Hwf Hnl Hfit Hc) as H.
  do 4 (split; [assumption|]).
  destruct (exec c s) as [[] s'|s'| |] eqn:E; [|by vm_compute in E..].
  exists s'. split; [reflexivity|]. split; [exact H|].
  vm_compute in E. by injection E as <-.
Defined.

(** Filling, copying, growing, swapping, shrinking and destroying two
    vectors, from a start where nothing is allocated. *)
Lemma programs_lose_no_block_witness :
  let s := start tt 100 in
  well_formed s ∧ no_leak s
  ∧ Forall (λ c, request_fits c ∧ move_assigns_a_buffer c = false) copying_program
  ∧ ∃ s', run copying_program s = Some s' ∧ objs s' = ∅ ∧ all_released s'
          ∧ length (heap s') = 5.
Proof.
  intros s.
  assert (Hwf : well_formed s) by (by apply well_formed_empty).
  assert (Hnl : no_leak s) by (by apply no_leak_nothing_allocated).
  assert (Hp : Forall (λ c, request_fits c ∧ move_assigns_a_buffer c = false)
                 copying_program).
  { repeat constructor. }
  do 3 (split; [assumption|]).
  destruct (run copying_program s) as [s'|] eqn:E; [|by vm_compute in E].
  destruct (programs_lose_no_block copying_program s s' Hwf Hnl Hp E) as [_ H].
  assert (Ho : objs s' = ∅) by (vm_compute in E; by injection E as <-).
  exists s'. split; [reflexivity|]. split; [exact Ho|]. split; [exact (H Ho)|].
  vm_compute in E. by injection E as <-.
Defined.

(** [Insert] of the second element of a full vector of two at the
    front. *)
Lemma insert_into_a_full_vector_copies_first_witness :
  let s := one_vector tt [1; 2] 2 100 in
  let v := mkVector (mkRawMemory (Addr 0 0) 2) 2 in
  objs s !! 0 = Some v
  ∧ size_ v = Capacity v
  ∧ load (Addr 0 1) s = Ok 2 s
  ∧ Insert 0 (Addr 0 0) (Inside (Addr 0 1)) s = Emplace 0 (Addr 0 0) (T_copy 2) s
  ∧ ∃ s', Emplace 0 (Addr 0 0) (T_copy 2) s = Ok (Addr 1 0) s'
          ∧ holds s' (mkVector (mkRawMemory (Addr 1 0) 4) 3) [2; 1; 2].
Proof.
  intros s v.
  assert (Hv : objs s !! 0 = Some v) by reflexivity.
  assert (Hf : size_ v = Capacity v) by reflexivity.
  assert (Hp : load (Addr 0 1) s = Ok 2 s) by reflexivity.
  do 3 (split; [assumption|]).
  split; [exact (insert_into_a_full_vector_copies_first 0 v (Addr 0 0) (Addr 0 1) 2 s
                   Hv Hf Hp)|].
  exists (state_after (Emplace 0 (Addr 0 0) (T_copy 2) s) s).
  split; [vm_compute; reflexivity | holds_here].
Defined.

End OnInt.

(** ** A vector of a copyable type whose constructors can throw *)

Section OnFragile.
#[local] Existing Instance fragile_element.


(** In that run the new last element, constructed in slot [2] of the new
    block before the transfer, is still there after the block has been
    released: nothing destroys it. *)
Lemma failed_push_back_leaves_the_new_element :
  let s := one_vector 3 [1; 2] 2 1000 in
  ∃ s', PushBack 0 9 s = Throw s'
        ∧ heap s' !! 1 = Some (mkBlock [None; None; Some 9; None] true)
        ∧ ¬ rolled_back s s' all_raw.
Proof.
  intros s. eexists. split; [vm_compute; reflexivity|].
  split; [reflexivity|].
  intros (_ & _ & _ & Hnew).
  destruct (Hnew 1 _ eq_refl) as [_ Hraw]; [simpl; lia|].
  apply Forall_lookup_1 with (i := 2) (x := Some 9) in Hraw; [discriminate|reflexivity].
Qed.


(** C5. The invariant does not hold in every reachable state.  When
    [Emplace] has room to work in place, it move-constructs the last
    element into the slot at the length, shifts the others, and only then
    constructs the temporary it assigns from; the length is incremented
    last.  If that constructor throws, the object in the slot at the length
    stays where it is: here the vector has length 2 and capacity 4, and
    slot [2], which should be raw, holds an object. *)
Theorem failed_emplace_in_place_breaks_the_invariant :
  ∃ s', run emplace_in_place_program (start 4 1000) = Some s'
        ∧ objs s' !! 0 = Some (mkVector (mkRawMemory (Addr 0 0) 4) 2)
        ∧ heap s' !! 0 = Some (mkBlock [Some 0; Some 1; Some 2; None] false)
        ∧ ¬ invariant s'.
Proof.
  eexists. split; [vm_compute; reflexivity|].
  split; [reflexivity|]. split; [reflexivity|].
  intros Hinv. destruct (Hinv 0 _ eq_refl) as (xs & Hlen & _ & _ & _ & Hb).
  destruct xs as [|a [|b [|c xs]]]; try discriminate Hlen.
  - discriminate Hb.
  - simpl in Hlen. lia.
Qed.

End OnFragile.

(** ** A vector of a move-only type whose move constructor can throw *)

Section OnUnique.
#[local] Existing Instance unique_element.



End OnUnique.
